(** * DICOM_Viewer: volume assembly and multi-planar reconstruction

    A shallow embedding of the algorithmic core of [DICOM_Viewer.cpp]
    ([MainFrame::OnLoadBtn], [MainFrame::UpdateOneView]) together with the
    properties of that core that the specification states.

    Conventions.
    - C++ [int] and [size_t] values are integers of [Z]; the places where the
      source converts between the two, or where unsigned arithmetic can wrap,
      are written out ([size_t_of], [ptrdiff_of]).
    - C++ [double] values are IEEE-754 binary64 numbers, modelled by the
      reference implementation [spec_float] of the standard library at
      precision 53 and maximal exponent 1024.
    - [std::vector<int16_t>] is [list Z]; reads go through stdpp's lookup.
    - what the DCMTK decoder returns for one file is a record [DcmFile]. *)

From Stdlib Require Import ZArith List Bool Lia Permutation Sorted.
From Stdlib Require Import Strings.String Strings.Ascii Structures.OrdersEx.
From Stdlib Require Import Floats.SpecFloat.
From stdpp Require Import base list.

Local Open Scope Z_scope.

(* ===================================================================== *)
(** * Doubles *)
(* ===================================================================== *)

Module Dbl.

Definition double := spec_float.

Definition prec : Z := 53.
Definition emax : Z := 1024.

(** [(double) n] for an integer [n]; exact whenever |n| < 2^53. *)
Definition of_int (n : Z) : double := binary_normalize prec emax n 0 false.

Definition add : double -> double -> double := SFadd prec emax.
Definition sub : double -> double -> double := SFsub prec emax.
Definition mul : double -> double -> double := SFmul prec emax.
Definition div : double -> double -> double := SFdiv prec emax.

(** [x <= y], [x < y], [x >= y], [x > y]: all false when an operand is NaN. *)
Definition le (x y : double) : bool := SFleb x y.
Definition lt (x y : double) : bool := SFltb x y.
Definition ge (x y : double) : bool := SFleb y x.
Definition gt (x y : double) : bool := SFltb y x.

Definition zero : double := S754_zero false.
Definition one : double := of_int 1.
Definition two : double := of_int 2.
Definition nan : double := S754_nan.

(** [std::min(a, b)] is [(b < a) ? b : a]. *)
Definition min (a b : double) : double := if lt b a then b else a.

(** Conversion of a double to an integer type: the fractional part is
    discarded (truncation toward zero).  The conversion of a NaN or of an
    infinity is undefined in C++; it is [None] here. *)
Definition trunc (x : double) : option Z :=
  match x with
  | S754_zero _ => Some 0
  | S754_finite s m e =>
      let a := match e with
               | Zneg p => Z.shiftr (Zpos m) (Zpos p)
               | _ => Z.shiftl (Zpos m) e
               end in
      Some (if s then - a else a)
  | _ => None
  end.

(** [(int) x] and [(unsigned char) x] where the source uses them: the
    truncated value (reduced modulo 256 for [unsigned char]); an undefined
    conversion is given the value 0. *)
Definition to_int (x : double) : Z := default 0 (trunc x).
Definition to_uchar (x : double) : Z := default 0 (trunc x) mod 256.

End Dbl.

Abbreviation double := Dbl.double.

(* ===================================================================== *)
(** * Machine integers *)
(* ===================================================================== *)

(** A value reduced to a 32-bit [int] (two's complement wrap-around). *)
Definition int_of (z : Z) : Z := (z + 2 ^ 31) mod 2 ^ 32 - 2 ^ 31.

(** A value converted to the 64-bit unsigned [size_t]. *)
Definition size_t_of (z : Z) : Z := z mod 2 ^ 64.

(** A [size_t] used as an iterator offset is converted to the signed
    [ptrdiff_t] of [std::vector]'s iterator arithmetic. *)
Definition ptrdiff_of (z : Z) : Z := (z + 2 ^ 63) mod 2 ^ 64 - 2 ^ 63.

Definition INT_MAX : Z := 2 ^ 31 - 1.

(** [v.size()] *)
Definition vsize {A} (v : list A) : Z := Z.of_nat (length v).

(** The indices [0, 1, ..., n-1] of a counting loop
    [for (int i = 0; i < n; ++i)]. *)
Definition upto (n : Z) : list Z := map Z.of_nat (seq 0 (Z.to_nat n)).

(* ===================================================================== *)
(** * The decoder's view of one file *)
(* ===================================================================== *)

(** What DCMTK returns for one [*.dcm] file of the chosen folder.  The
    file is opened twice by [OnLoadBtn]: once while the series are grouped
    and once while the pixel data of the chosen series are loaded. *)
Record DcmFile := {
  path : string;
  (** grouping pass: [ff.loadFile(path, EXS_Unknown, ...).good()] *)
  scanGood : bool;
  (** [findAndGetString(DCM_SeriesInstanceUID, uid)]: [None] is a null [uid] *)
  SeriesInstanceUID : option string;
  (** loading pass: [ff.loadFile(path).good()] *)
  loadGood : bool;
  (** [findAndGetUint16(DCM_Rows, h)] and [(DCM_Columns, w)]: 0 when absent *)
  Rows : Z;
  Columns : Z;
  (** [findAndGetFloat64Array(DCM_PixelSpacing, sp)]: [(sp[0], sp[1])] when good *)
  PixelSpacing : option (double * double);
  (** the value [findAndGetFloat64(DCM_SliceThickness, sliceThick)] leaves in
      its argument (DCMTK resets it to zero when the element is absent) *)
  SliceThickness : double;
  (** [findAndGetString(DCM_PatientName, tmp).good() && tmp], same for the id *)
  PatientName : option string;
  PatientID : option string;
  (** [DicomImage img(ds, EXS_Unknown)]: [img.getStatus() == EIS_Normal],
      [img.getWidth()], [img.getHeight()], [img.getOutputData(16)]
      ([None] is a null pointer) *)
  imgNormal : bool;
  imgWidth : Z;
  imgHeight : Z;
  outputData : option (list Z);
  (** the value of [inst] after [findAndGetSint32(DCM_InstanceNumber, inst)] *)
  InstanceNumber : Z
}.

(** [struct SliceRaw { int instance; std::vector<int16_t> pixels; }] *)
Record SliceRaw := { instance : Z; pixels : list Z }.

(** The data members of [MainFrame] that hold the volume and its header. *)
Record MainFrame := {
  volumeData : list Z;
  volWidth : Z;
  volHeight : Z;
  volDepth : Z;
  pxSpcX : double;
  pxSpcY : double;
  sliceThick : double;
  patientName : string;
  patientID : string
}.

(** The members as the class initialises them. *)
Definition initial_frame : MainFrame :=
  {| volumeData := []; volWidth := 0; volHeight := 0; volDepth := 0;
     pxSpcX := Dbl.one; pxSpcY := Dbl.one; sliceThick := Dbl.one;
     patientName := "Unknown"; patientID := "Unknown" |}.

(* ===================================================================== *)
(** * Series grouping and selection ([OnLoadBtn], first half) *)
(* ===================================================================== *)

(** [std::map<std::string, std::vector<std::string>>]: the entries in the
    order the map iterates them, that is by ascending key, the keys compared
    as [std::string] compares them (lexicographically, by unsigned byte). *)
Definition series_map := list (string * list DcmFile).

(** [seriesMap[uid].push_back(f)] *)
Fixpoint push_back_at (uid : string) (f : DcmFile) (m : series_map) : series_map :=
  match m with
  | [] => [(uid, [f])]
  | (k, l) :: m' =>
      match String_as_OT.compare uid k with
      | Lt => (uid, [f]) :: m
      | Eq => (k, l ++ [f]) :: m'
      | Gt => (k, l) :: push_back_at uid f m'
      end
  end.

(** One turn of the grouping loop. *)
Definition group_step (m : series_map) (f : DcmFile) : series_map :=
  if scanGood f then
    match SeriesInstanceUID f with
    | Some uid => push_back_at uid f m
    | None => m
    end
  else m.

Definition group_series (files : list DcmFile) : series_map :=
  fold_left group_step files [].

(** One turn of the loop that looks for the largest series. *)
Definition best_step (acc : string * Z) (e : string * list DcmFile) : string * Z :=
  if snd acc <? vsize (snd e) then (fst e, vsize (snd e)) else acc.

(** [(bestUID, maxCount)] after the loop. *)
Definition best_series (m : series_map) : string * Z :=
  fold_left best_step m (EmptyString, 0).

(** [seriesMap[uid]] read: the vector stored under [uid] (a fresh empty
    one when there is none). *)
Fixpoint map_at (uid : string) (m : series_map) : list DcmFile :=
  match m with
  | [] => []
  | (k, l) :: m' => if String.eqb uid k then l else map_at uid m'
  end.

(** Series selection: [None] when the function returns at
    [if(seriesMap.empty()) return;], else [targetFiles]. *)
Definition select_series (files : list DcmFile) : option (list DcmFile) :=
  match group_series files with
  | [] => None
  | m => Some (map_at (fst (best_series m)) m)
  end.

(* ===================================================================== *)
(** * Volume construction ([OnLoadBtn], second half) *)
(* ===================================================================== *)

(** The assignments made under [if(volWidth == 0) { ... }]. *)
Definition record_header (st : MainFrame) (f : DcmFile) : MainFrame :=
  {| volumeData := volumeData st;
     volWidth := Columns f;
     volHeight := Rows f;
     volDepth := volDepth st;
     pxSpcX := match PixelSpacing f with Some sp => snd sp | None => pxSpcX st end;
     pxSpcY := match PixelSpacing f with Some sp => fst sp | None => pxSpcY st end;
     sliceThick := SliceThickness f;
     patientName := default (patientName st) (PatientName f);
     patientID := default (patientID st) (PatientID f) |}.

(** The test that guards [tempSlices.push_back]. *)
Definition image_fits (st : MainFrame) (f : DcmFile) : bool :=
  imgNormal f && (imgWidth f =? volWidth st) && (imgHeight f =? volHeight st).

(** [{(int)inst, std::vector<int16_t>(data, data + (volWidth * volHeight))}] *)
Definition slice_of (st : MainFrame) (f : DcmFile) (data : list Z) : SliceRaw :=
  {| instance := int_of (InstanceNumber f);
     pixels := take (Z.to_nat (int_of (volWidth st * volHeight st))) data |}.

(** One turn of the loading loop over [targetFiles]; the loop writes the
    members of the frame directly and collects the slices in [tempSlices]. *)
Definition load_step (acc : MainFrame * list SliceRaw) (f : DcmFile)
  : MainFrame * list SliceRaw :=
  let (st, tempSlices) := acc in
  if loadGood f then
    let st1 := if volWidth st =? 0 then record_header st f else st in
    if image_fits st1 f then
      match outputData f with
      | Some data => (st1, tempSlices ++ [slice_of st1 f data])
      | None => (st1, tempSlices)
      end
    else (st1, tempSlices)
  else (st, tempSlices).

(** [volWidth = 0; volHeight = 0;] *)
Definition reset_dims (st : MainFrame) : MainFrame :=
  {| volumeData := volumeData st; volWidth := 0; volHeight := 0;
     volDepth := volDepth st; pxSpcX := pxSpcX st; pxSpcY := pxSpcY st;
     sliceThick := sliceThick st; patientName := patientName st;
     patientID := patientID st |}.

Definition load_slices (st : MainFrame) (targetFiles : list DcmFile)
  : MainFrame * list SliceRaw :=
  fold_left load_step targetFiles (reset_dims st, []).

(** [volDepth = tempSlices.size(); volumeData.clear(); ... insert ...] *)
Definition pack (st : MainFrame) (slices : list SliceRaw) : MainFrame :=
  {| volumeData := concat (map pixels slices);
     volWidth := volWidth st; volHeight := volHeight st;
     volDepth := int_of (vsize slices);
     pxSpcX := pxSpcX st; pxSpcY := pxSpcY st; sliceThick := sliceThick st;
     patientName := patientName st; patientID := patientID st |}.

(** The comparison handed to [std::sort]. *)
Definition instance_lt (a b : SliceRaw) : bool := instance a <? instance b.

(** The place where [OnLoadBtn] returns. *)
Inductive load_exit := NoFiles | NoSeriesFound | EmptyVolume | Loaded.

Section OnLoad.

(** [std::sort] with the comparison [instance_lt].  The C++ standard
    fixes what it returns up to the order of equivalent elements, so the
    function is a parameter here; [sort_contract] below is what the standard
    promises of it, and [libstdcxx_sort] is the function of libstdc++. *)
Variable std_sort : list SliceRaw -> list SliceRaw.

(** [MainFrame::OnLoadBtn], from the file list the folder dialog yields:
    the frame it leaves behind, and where it returned.  The widgets that a
    completed load refreshes (info text, slider ranges, the three views) are
    not part of the frame modelled here. *)
Definition OnLoadBtn (st : MainFrame) (files : list DcmFile) : load_exit * MainFrame :=
  match files with
  | [] => (NoFiles, st)
  | _ =>
      match select_series files with
      | None => (NoSeriesFound, st)
      | Some targetFiles =>
          let (st1, tempSlices) := load_slices st targetFiles in
          match tempSlices with
          | [] => (EmptyVolume, st1)
          | _ => (Loaded, pack st1 (std_sort tempSlices))
          end
      end
  end.

End OnLoad.

(** What the C++ standard guarantees of [std::sort(first, last, comp)]:
    the result is a rearrangement of the input in which no element is
    [comp]-smaller than one before it. *)
Definition sort_contract (srt : list SliceRaw -> list SliceRaw) : Prop :=
  forall l, Permutation l (srt l) /\
            StronglySorted (fun a b => instance_lt b a = false) (srt l).

(** Two sorting functions that meet the contract.  Both insert one slice
    at a time in front of the first slice that is not smaller; the first
    takes the slices from the last to the first, the second from the first
    to the last. *)
Fixpoint insert_before (a : SliceRaw) (l : list SliceRaw) : list SliceRaw :=
  match l with
  | [] => [a]
  | b :: l' => if instance_lt b a then b :: insert_before a l' else a :: l
  end.

Definition sort_ties_kept (l : list SliceRaw) : list SliceRaw :=
  fold_right insert_before [] l.

Definition sort_ties_reversed (l : list SliceRaw) : list SliceRaw :=
  fold_left (fun acc a => insert_before a acc) l [].

(* ===================================================================== *)
(** * [std::sort] as libstdc++ runs it *)
(* ===================================================================== *)

(** The sort of line 480 is the one of the C++ library the program is
    built with.  The functions below are those of GCC's libstdc++
    ([bits/stl_algo.h] and [bits/stl_heap.h], release 12), one definition
    for each: an introsort that ends with an insertion sort.  A range is a
    vector and two indices; an access outside the vector, which the library
    does not check, gives [None], and so does a loop that runs out of the
    fuel given to it. *)
Section StdSort.

Local Open Scope nat_scope.

Context {A : Type}.

(** [__comp] *)
Variable comp : A -> A -> bool.

(** [std::iter_swap(a, b)] *)
Definition iter_swap (a b : nat) (v : list A) : option (list A) :=
  match v !! a, v !! b with
  | Some x, Some y => Some (<[b := x]> (<[a := y]> v))
  | _, _ => None
  end.

(** [__move_median_to_first(result, a, b, c, comp)] *)
Definition move_median_to_first (result a b c : nat) (v : list A)
  : option (list A) :=
  match v !! a, v !! b, v !! c with
  | Some xa, Some xb, Some xc =>
      if comp xa xb then
        if comp xb xc then iter_swap result b v
        else if comp xa xc then iter_swap result c v
        else iter_swap result a v
      else if comp xa xc then iter_swap result a v
      else if comp xb xc then iter_swap result c v
      else iter_swap result b v
  | _, _, _ => None
  end.

(** [while (comp(first, pivot)) ++first;]: the iterator it stops on.  The
    fuel is the number of increments; the callers give the length of the
    vector, beyond which nothing can be read. *)
Fixpoint scan_up (fuel first pivot : nat) (v : list A) : option nat :=
  match fuel with
  | O => None
  | S fuel' =>
      match v !! first, v !! pivot with
      | Some x, Some p =>
          if comp x p then scan_up fuel' (S first) pivot v else Some first
      | _, _ => None
      end
  end.

(** [while (comp(pivot, last)) --last;] *)
Fixpoint scan_down (last pivot : nat) (v : list A) : option nat :=
  match v !! last, v !! pivot with
  | Some x, Some p =>
      if comp p x then
        match last with
        | O => None
        | S last' => scan_down last' pivot v
        end
      else Some last
  | _, _ => None
  end.

(** [__unguarded_partition(first, last, pivot, comp)]; every turn of the
    outer loop but the last one increments [first], so the length of the
    vector is fuel enough. *)
Fixpoint unguarded_partition (fuel first last pivot : nat) (v : list A)
  : option (nat * list A) :=
  match fuel with
  | O => None
  | S fuel' =>
      match scan_up (S (length v)) first pivot v with
      | None => None
      | Some first =>
          match last with
          | O => None
          | S last =>
              match scan_down last pivot v with
              | None => None
              | Some last =>
                  if first <? last then
                    match iter_swap first last v with
                    | Some v' => unguarded_partition fuel' (S first) last pivot v'
                    | None => None
                    end
                  else Some (first, v)
              end
          end
      end
  end.

(** [__unguarded_partition_pivot(first, last, comp)] *)
Definition unguarded_partition_pivot (first last : nat) (v : list A)
  : option (nat * list A) :=
  let mid := first + (last - first) / 2 in
  match move_median_to_first first (first + 1) mid (last - 1) v with
  | Some v' => unguarded_partition (S (length v')) (first + 1) last first v'
  | None => None
  end.

(** ** The heap functions of [bits/stl_heap.h] *)

(** [__push_heap(first, holeIndex, topIndex, value, comp)]; the hole moves
    to its parent in every turn, so [holeIndex] turns are enough. *)
Fixpoint push_heap (fuel first holeIndex topIndex : nat) (value : A)
    (v : list A) : option (list A) :=
  let parent := (holeIndex - 1) / 2 in
  if topIndex <? holeIndex then
    match v !! (first + parent) with
    | Some x =>
        if comp x value then
          match fuel with
          | O => None
          | S fuel' =>
              push_heap fuel' first parent topIndex value
                        (<[first + holeIndex := x]> v)
          end
        else Some (<[first + holeIndex := value]> v)
    | None => None
    end
  else Some (<[first + holeIndex := value]> v).

(** The first loop of [__adjust_heap]: the hole goes down to a leaf.  It
    returns [holeIndex] and [secondChild] with the vector. *)
Fixpoint adjust_heap_down (fuel first holeIndex secondChild len : nat)
    (v : list A) : option (nat * nat * list A) :=
  if secondChild <? (len - 1) / 2 then
    match fuel with
    | O => None
    | S fuel' =>
        let secondChild := 2 * (secondChild + 1) in
        match v !! (first + secondChild), v !! (first + (secondChild - 1)) with
        | Some x, Some y =>
            let secondChild := if comp x y then secondChild - 1 else secondChild in
            match v !! (first + secondChild) with
            | Some z =>
                adjust_heap_down fuel' first secondChild secondChild len
                                 (<[first + holeIndex := z]> v)
            | None => None
            end
        | _, _ => None
        end
    end
  else Some (holeIndex, secondChild, v).

(** [__adjust_heap(first, holeIndex, len, value, comp)] *)
Definition adjust_heap (first holeIndex len : nat) (value : A) (v : list A)
  : option (list A) :=
  let topIndex := holeIndex in
  match adjust_heap_down len first holeIndex holeIndex len v with
  | Some (holeIndex, secondChild, v) =>
      if Nat.even len && (secondChild =? (len - 2) / 2) then
        let secondChild := 2 * (secondChild + 1) in
        match v !! (first + (secondChild - 1)) with
        | Some x =>
            push_heap len first (secondChild - 1) topIndex value
                      (<[first + holeIndex := x]> v)
        | None => None
        end
      else push_heap len first holeIndex topIndex value v
  | None => None
  end.

(** [__pop_heap(first, last, result, comp)] *)
Definition pop_heap (first last result : nat) (v : list A) : option (list A) :=
  match v !! result, v !! first with
  | Some value, Some x =>
      adjust_heap first 0 (last - first) value (<[result := x]> v)
  | _, _ => None
  end.

(** The loop of [__make_heap], from [parent] down to 0. *)
Fixpoint make_heap_from (parent first len : nat) (v : list A)
  : option (list A) :=
  match v !! (first + parent) with
  | Some value =>
      match adjust_heap first parent len value v with
      | Some v' =>
          match parent with
          | O => Some v'
          | S parent' => make_heap_from parent' first len v'
          end
      | None => None
      end
  | None => None
  end.

(** [__make_heap(first, last, comp)] *)
Definition make_heap (first last : nat) (v : list A) : option (list A) :=
  if last - first <? 2 then Some v
  else let len := last - first in make_heap_from ((len - 2) / 2) first len v.

(** [__sort_heap(first, last, comp)], by the number [last - first] of
    elements still in the heap. *)
Fixpoint sort_heap_n (n first : nat) (v : list A) : option (list A) :=
  match n with
  | S (S _ as n') =>
      match pop_heap first (first + n') (first + n') v with
      | Some v' => sort_heap_n n' first v'
      | None => None
      end
  | _ => Some v
  end.

Definition sort_heap (first last : nat) (v : list A) : option (list A) :=
  sort_heap_n (last - first) first v.

(** [__heap_select(first, middle, last, comp)] *)
Definition heap_select (first middle last : nat) (v : list A)
  : option (list A) :=
  match make_heap first middle v with
  | Some v' =>
      fold_left
        (fun acc i =>
           match acc with
           | Some w =>
               match w !! i, w !! first with
               | Some x, Some y =>
                   if comp x y then pop_heap first middle i w else Some w
               | _, _ => None
               end
           | None => None
           end)
        (seq middle (last - middle)) (Some v')
  | None => None
  end.

(** [__partial_sort(first, middle, last, comp)] *)
Definition partial_sort (first middle last : nat) (v : list A)
  : option (list A) :=
  match heap_select first middle last v with
  | Some v' => sort_heap first middle v'
  | None => None
  end.

(** ** The sort *)

(** [_S_threshold] *)
Definition S_threshold : nat := 16.

(** [__introsort_loop(first, last, depth_limit, comp)]: the recursive call
    and the next turn of the loop both run with the decremented
    [depth_limit]. *)
Fixpoint introsort_loop (depth_limit first last : nat) (v : list A)
  : option (list A) :=
  if S_threshold <? last - first then
    match depth_limit with
    | O => partial_sort first last last v
    | S depth_limit =>
        match unguarded_partition_pivot first last v with
        | Some (cut, v') =>
            match introsort_loop depth_limit cut last v' with
            | Some v'' => introsort_loop depth_limit first cut v''
            | None => None
            end
        | None => None
        end
    end
  else Some v.

(** [__unguarded_linear_insert(last, comp)], from the value taken out of
    [*last]; [--next] on the first element leaves the vector. *)
Fixpoint unguarded_linear_insert_val (val : A) (last : nat) (v : list A)
  : option (list A) :=
  match last with
  | O => None
  | S next =>
      match v !! next with
      | Some x =>
          if comp val x
          then unguarded_linear_insert_val val next (<[last := x]> v)
          else Some (<[last := val]> v)
      | None => None
      end
  end.

Definition unguarded_linear_insert (last : nat) (v : list A)
  : option (list A) :=
  match v !! last with
  | Some val => unguarded_linear_insert_val val last v
  | None => None
  end.

(** [std::move_backward(first, i, i + 1)] followed by [*first = val]:
    the elements [first .. i-1] go one place up. *)
Definition move_up_and_set (first i : nat) (val : A) (v : list A) : list A :=
  take first v ++ val :: take (i - first) (drop first v) ++ drop (S i) v.

(** One turn of the loop of [__insertion_sort(first, last, comp)]. *)
Definition insertion_step (first : nat) (acc : option (list A)) (i : nat)
  : option (list A) :=
  match acc with
  | Some v =>
      match v !! i, v !! first with
      | Some x, Some y =>
          if comp x y then Some (move_up_and_set first i x v)
          else unguarded_linear_insert i v
      | _, _ => None
      end
  | None => None
  end.

Definition insertion_sort (first last : nat) (v : list A) : option (list A) :=
  if first =? last then Some v
  else fold_left (insertion_step first) (seq (first + 1) (last - (first + 1)))
                 (Some v).

(** [__unguarded_insertion_sort(first, last, comp)] *)
Definition unguarded_insertion_sort (first last : nat) (v : list A)
  : option (list A) :=
  fold_left (fun acc i => match acc with
                          | Some w => unguarded_linear_insert i w
                          | None => None
                          end)
            (seq first (last - first)) (Some v).

(** [__final_insertion_sort(first, last, comp)] *)
Definition final_insertion_sort (first last : nat) (v : list A)
  : option (list A) :=
  if S_threshold <? last - first then
    match insertion_sort first (first + S_threshold) v with
    | Some v' => unguarded_insertion_sort (first + S_threshold) last v'
    | None => None
    end
  else insertion_sort first last v.

(** [std::__sort(first, last, comp)] on the whole vector; [__lg] is the
    binary logarithm rounded down. *)
Definition std_sort_range (v : list A) : option (list A) :=
  match v with
  | [] => Some v
  | _ =>
      match introsort_loop (Nat.log2 (length v) * 2) 0 (length v) v with
      | Some v' => final_insertion_sort 0 (length v) v'
      | None => None
      end
  end.

End StdSort.

(** [std::sort(tempSlices.begin(), tempSlices.end(), cmp)] of line 480 with
    this library.  The sort never leaves the vector ([std_sort_range_spec]),
    so the result is always the first case of [default]. *)
Definition libstdcxx_sort (l : list SliceRaw) : list SliceRaw :=
  default l (std_sort_range instance_lt l).

(* ===================================================================== *)
(** * Rendering one view ([UpdateOneView]) *)
(* ===================================================================== *)

(** The elements [first, first + n) of a vector, read through iterators:
    [None] when the range leaves the vector (the read is undefined). *)
Definition read_range (v : list Z) (first n : Z) : option (list Z) :=
  if (0 <=? first) && (0 <=? n) && (first + n <=? vsize v)
  then Some (take (Z.to_nat n) (drop (Z.to_nat first) v))
  else None.

(** The spacings as the renderer uses them. *)
Definition spacing_x (st : MainFrame) : double :=
  if Dbl.gt (pxSpcX st) Dbl.zero then pxSpcX st else Dbl.one.
Definition spacing_y (st : MainFrame) : double :=
  if Dbl.gt (pxSpcY st) Dbl.zero then pxSpcY st else Dbl.one.
Definition spacing_z (st : MainFrame) : double :=
  if Dbl.gt (sliceThick st) Dbl.zero then sliceThick st else Dbl.one.

(** The plane taken out of the volume: [w], [h], [scaleY] and [buf] when the
    branch for the view type is left, or [ReadOutsideBuffer] when a copy
    reads outside [volumeData]. *)
Inductive extraction :=
| Plane (w h : Z) (scaleY : double) (buf : list Z)
| ReadOutsideBuffer.

(** [viewType == 0] *)
Definition extract_axial (st : MainFrame) (sliceIdx : Z) : extraction :=
  let w := volWidth st in
  let h := volHeight st in
  let scaleY := Dbl.div (spacing_y st) (spacing_x st) in
  let off := size_t_of (sliceIdx * w * h) in
  if size_t_of (off + size_t_of (int_of (w * h))) <=? vsize (volumeData st) then
    match read_range (volumeData st) (ptrdiff_of off) (int_of (w * h)) with
    | Some buf => Plane w h scaleY buf
    | None => ReadOutsideBuffer
    end
  else Plane w h scaleY [].

(** [viewType == 1]: one turn of the loop over [z]. *)
Definition coronal_step (st : MainFrame) (sliceIdx w : Z)
    (acc : option (list Z)) (z : Z) : option (list Z) :=
  match acc with
  | None => None
  | Some buf =>
      let base := size_t_of (z * int_of (volWidth st * volHeight st)
                             + sliceIdx * volWidth st) in
      if size_t_of (base + size_t_of w) <=? vsize (volumeData st) then
        match read_range (volumeData st) (ptrdiff_of base) w with
        | Some row => Some (list_inserts (Z.to_nat (int_of (z * w))) row buf)
        | None => None
        end
      else Some buf
  end.

Definition extract_coronal (st : MainFrame) (sliceIdx : Z) : extraction :=
  let w := volWidth st in
  let h := volDepth st in
  let scaleY := Dbl.div (spacing_z st) (spacing_x st) in
  let buf0 := replicate (Z.to_nat (int_of (w * h))) 0 in
  match fold_left (coronal_step st sliceIdx w) (upto h) (Some buf0) with
  | Some buf => Plane w h scaleY buf
  | None => ReadOutsideBuffer
  end.

(** [viewType == 2]: one turn of the inner loop over [y]. *)
Definition sagittal_step (st : MainFrame) (sliceIdx w z : Z)
    (buf : list Z) (y : Z) : list Z :=
  let idx := size_t_of (z * int_of (volWidth st * volHeight st)
                        + y * volWidth st + sliceIdx) in
  if idx <? vsize (volumeData st) then
    match volumeData st !! Z.to_nat idx with
    | Some v => <[Z.to_nat (int_of (int_of (z * w) + y)) := v]> buf
    | None => buf
    end
  else buf.

Definition extract_sagittal (st : MainFrame) (sliceIdx : Z) : extraction :=
  let w := volHeight st in
  let h := volDepth st in
  let scaleY := Dbl.div (spacing_z st) (spacing_y st) in
  let buf0 := replicate (Z.to_nat (int_of (w * h))) 0 in
  Plane w h scaleY
    (fold_left (fun buf z => fold_left (sagittal_step st sliceIdx w z) (upto w) buf)
               (upto h) buf0).

Definition extract (st : MainFrame) (viewType sliceIdx : Z) : extraction :=
  if viewType =? 0 then extract_axial st sliceIdx
  else if viewType =? 1 then extract_coronal st sliceIdx
  else extract_sagittal st sliceIdx.

(** The grey level of one sample: the body of the windowing loop, with
    [ww], [lower] and [range] as they are set before the loop. *)
Definition window_lower (wl ww : Z) : double :=
  Dbl.sub (Dbl.of_int wl) (Dbl.div (Dbl.of_int ww) Dbl.two).

Definition window_pixel (wl ww : Z) (v : Z) : Z :=
  let ww := if ww <? 1 then 1 else ww in
  let lower := window_lower wl ww in
  let range := Dbl.of_int ww in
  let val := Dbl.of_int v in
  let val :=
    if Dbl.le val lower then Dbl.of_int 0
    else if Dbl.ge val (Dbl.add lower range) then Dbl.of_int 255
    else Dbl.mul (Dbl.div (Dbl.sub val lower) range) (Dbl.of_int 255) in
  Dbl.to_uchar val.

(** [rgb]: three equal channels per pixel. *)
Definition window_rgb (wl ww : Z) (buf : list Z) : list Z :=
  flat_map (fun v => let p := window_pixel wl ww v in [p; p; p]) buf.

(** [finalW] and [finalH]. *)
Definition fit_display (w h : Z) (scaleY : double) : Z * Z :=
  let finalW := w in
  let finalH := Dbl.to_int (Dbl.mul (Dbl.of_int h) scaleY) in
  let maxDim := Dbl.of_int 800 in
  let (finalW, finalH) :=
    if Dbl.gt (Dbl.of_int finalW) maxDim || Dbl.gt (Dbl.of_int finalH) maxDim then
      let s := Dbl.min (Dbl.div maxDim (Dbl.of_int finalW))
                       (Dbl.div maxDim (Dbl.of_int finalH)) in
      (Dbl.to_int (Dbl.mul (Dbl.of_int finalW) s),
       Dbl.to_int (Dbl.mul (Dbl.of_int finalH) s))
    else (finalW, finalH) in
  (if finalW <? 1 then 1 else finalW, if finalH <? 1 then 1 else finalH).

(** [(double)cross / (d - 1)]: the position of the cross-hair along an
    in-plane direction of extent [d]. *)
Definition cursor_rel (cross d : Z) : double :=
  Dbl.div (Dbl.of_int cross) (Dbl.of_int (int_of (d - 1))).

(** What [UpdateOneView] computes for a view: the image [img] as lines
    544-557 build it, one pixel for each sample of the plane; the size
    [finalW] x [finalH] that [img.Rescale] is asked for at line 566; and the
    relative position of the cross-hair.  The image that [panel->SetImage]
    receives at line 570 is [img] after [Rescale]: it has [final_w] x
    [final_h] pixels, which wxWidgets resamples from those of [img_rgb].  The
    resampled pixels are not modelled. *)
Record DisplayImage := {
  img_w : Z; img_h : Z;          (** the size of [img] before [Rescale] *)
  img_rgb : list Z;              (** its pixel data before [Rescale] *)
  final_w : Z; final_h : Z;      (** the size it is rescaled to *)
  relX : double; relY : double
}.

Inductive view_result :=
| NoImage             (** [if(buf.empty()) return;] *)
| OutsideBuffer       (** a copy read outside [volumeData] *)
| Shown (img : DisplayImage).  (** [img] is built, rescaled and set *)

Definition UpdateOneView (st : MainFrame)
    (viewType sliceIdx cross1 cross2 wl ww : Z) : view_result :=
  match extract st viewType sliceIdx with
  | ReadOutsideBuffer => OutsideBuffer
  | Plane w h scaleY buf =>
      match buf with
      | [] => NoImage
      | _ =>
          let (fw, fh) := fit_display w h scaleY in
          Shown {| img_w := w; img_h := h;
                   img_rgb := window_rgb wl ww buf;
                   final_w := fw; final_h := fh;
                   relX := cursor_rel cross1 w;
                   relY := cursor_rel cross2 h |}
      end
  end.

(** [ImagePanel::OnPaint] draws the cross-hair only under
    [crossX >= 0 && crossY >= 0]. *)
Definition cross_hair_enabled (crossX crossY : double) : bool :=
  Dbl.ge crossX Dbl.zero && Dbl.ge crossY Dbl.zero.

(* ===================================================================== *)
(** * Notions used to state the properties *)
(* ===================================================================== *)

(** ** Series *)

(** [f] is filed under the series [u] by the grouping loop. *)
Definition in_series (u : string) (f : DcmFile) : bool :=
  scanGood f &&
  match SeriesInstanceUID f with Some k => String.eqb u k | None => false end.

(** The members of series [u], in discovery order. *)
Definition partition_of (u : string) (files : list DcmFile) : list DcmFile :=
  List.filter (in_series u) files.

(** [f] takes part in the grouping at all. *)
Definition grouped (f : DcmFile) : bool :=
  scanGood f && match SeriesInstanceUID f with Some _ => true | None => false end.

(** Order of the series identifiers: [u] precedes [k] in the map. *)
Definition uid_lt (u k : string) : Prop := String_as_OT.compare u k = Lt.

(** The keys of the map are in strictly ascending order. *)
Definition keys_sorted (m : series_map) : Prop := StronglySorted uid_lt (map fst m).

(** ** Slices *)

(** What DCMTK guarantees of an image whose status is [EIS_Normal]: it
    has at least one row and one column, its output buffer holds one sample
    per pixel, and the number of pixels fits an [int]. *)
Definition decoded_ok (f : DcmFile) : Prop :=
  imgNormal f = true ->
  0 < imgWidth f /\ 0 < imgHeight f /\ imgWidth f * imgHeight f <= INT_MAX /\
  forall data, outputData f = Some data -> vsize data = imgWidth f * imgHeight f.

(** The slices in the order in which the build lays them into the volume. *)
Definition placed_slices (srt : list SliceRaw -> list SliceRaw)
    (st : MainFrame) (files : list DcmFile) : list SliceRaw :=
  match select_series files with
  | Some targetFiles => srt (snd (load_slices st targetFiles))
  | None => []
  end.

(** [s] holds the whole output buffer of a file that satisfies [Q]. *)
Definition slice_from (Q : DcmFile -> Prop) (s : SliceRaw) : Prop :=
  exists f data, Q f /\ loadGood f = true /\ imgNormal f = true /\
                 outputData f = Some data /\
                 pixels s = data /\ instance s = int_of (InstanceNumber f).

(** A file that cannot fix the header: it does not open, or it opens with
    a column count of zero. *)
Definition no_header (g : DcmFile) : Prop := loadGood g = false \/ Columns g = 0.

(** The slices collected so far, while well-formed images are loaded:
    as soon as there is one the header is fixed, and every slice holds the
    whole buffer of its file, of [volWidth * volHeight] samples. *)
Definition temp_ok (Q : DcmFile -> Prop) (acc : MainFrame * list SliceRaw) : Prop :=
  (snd acc = [] \/
   (0 < volWidth (fst acc) /\ 0 < volHeight (fst acc) /\
    volWidth (fst acc) * volHeight (fst acc) <= INT_MAX)) /\
  Forall (fun s => slice_from Q s /\
                   vsize (pixels s) = volWidth (fst acc) * volHeight (fst acc))
         (snd acc).

(** Ascending instance numbers. *)
Definition instance_le (a b : SliceRaw) : Prop := instance a <= instance b.

(** ** Volumes and planes *)

(** The dimensions of the frame are such that the renderer's [int]
    arithmetic does not overflow: width and height come from 16-bit fields,
    and the three plane sizes fit an [int]. *)
Definition dims_ok (st : MainFrame) : Prop :=
  0 <= volWidth st <= 65535 /\ 0 <= volHeight st <= 65535 /\
  0 <= volDepth st <= INT_MAX /\
  volWidth st * volHeight st <= INT_MAX /\
  volWidth st * volDepth st <= INT_MAX /\
  volHeight st * volDepth st <= INT_MAX.

(** The buffer holds exactly [W*H*D] samples. *)
Definition volume_full (st : MainFrame) : Prop :=
  vsize (volumeData st) = volWidth st * volHeight st * volDepth st.

(** The sample at offset [i] of the volume buffer, if there is one. *)
Definition sample_at (st : MainFrame) (i : Z) : option Z :=
  volumeData st !! Z.to_nat i.

(** [volume(x, y, z)]: the sample at offset [z*W*H + y*W + x]. *)
Definition voxel (st : MainFrame) (x y z : Z) : option Z :=
  sample_at st (z * (volWidth st * volHeight st) + y * volWidth st + x).

(** The sample of a plane of width [w] at column [x] of row [y]. *)
Definition plane_at (buf : list Z) (w x y : Z) : option Z :=
  buf !! Z.to_nat (y * w + x).

(** ** Doubles with an exact value *)

(** The double of value [n * 2^e], and the shape it has when [n] is not
    zero and has at most 53 bits: sign, the mantissa shifted to 53 bits,
    and the exponent that goes with it. *)
Definition dyadic (n e : Z) : double := binary_normalize 53 1024 n e false.

Definition norm_mant (m : positive) : positive :=
  match (53 - Z.pos (digits2_pos m))%Z with
  | Z.pos k => Pos.iter xO m k
  | _ => m
  end.

Definition normal (s : bool) (m : positive) (e : Z) : double :=
  S754_finite s (norm_mant m) (e + Z.pos (digits2_pos m) - 53).

(** The grey level of the default window (level 40, width 400) with the
    fraction cut off, in exact arithmetic. *)
Definition default_window_floor (v : Z) : Z :=
  if v <=? -160 then 0
  else if 240 <=? v then 255
  else ((v + 160) * 255) / 400.

(** The samples strictly between the bounds of the default window. *)
Definition default_window_interior : list Z :=
  map (fun n => Z.of_nat n - 159) (seq 0 399).

(* ===================================================================== *)
(** * The specification's wording, where the code differs from it *)
(* ===================================================================== *)

(** Series selection as the specification words it: the partitions in the
    order in which their first members are discovered, and of these the
    first one of maximal size. *)
Fixpoint discovery_push (uid : string) (f : DcmFile) (m : series_map) : series_map :=
  match m with
  | [] => [(uid, [f])]
  | (k, l) :: m' =>
      if String.eqb uid k then (k, l ++ [f]) :: m'
      else (k, l) :: discovery_push uid f m'
  end.

Definition discovery_step (m : series_map) (f : DcmFile) : series_map :=
  if scanGood f then
    match SeriesInstanceUID f with
    | Some uid => discovery_push uid f m
    | None => m
    end
  else m.

Definition select_series_spec (files : list DcmFile) : option (list DcmFile) :=
  match fold_left discovery_step files [] with
  | [] => None
  | m => Some (map_at (fst (best_series m)) m)
  end.

(** The order of the slices after sorting is the stable one: slices of
    one and the same instance number follow each other as in the input. *)
Definition stable_order (input output : list SliceRaw) : Prop :=
  forall k, List.filter (fun s => instance s =? k) output
            = List.filter (fun s => instance s =? k) input.

(** The windowing transform as the specification words it, in exact
    arithmetic.  With [w] the clamped width, [v - lower] is [n / 2] for
    [n = 2 v - (2 level - w)], so the scaled value is [255 n / (2 w)]; the
    integer nearest to a quotient [a / b] is the integer part of
    [(2 a + b) / (2 b)]. *)
Definition window_pixel_spec (wl ww v : Z) : Z :=
  let w := Z.max ww 1 in
  if 2 * v <=? 2 * wl - w then 0
  else if 2 * wl + w <=? 2 * v then 255
  else (2 * ((2 * v - (2 * wl - w)) * 255) + 2 * w) / (2 * (2 * w)).

(* ===================================================================== *)
(** * Example inputs *)
(* ===================================================================== *)

(** A file with nothing in it but a series identifier. *)
Definition file_of_series (p : string) (u : option string) : DcmFile :=
  {| path := p; scanGood := true; SeriesInstanceUID := u; loadGood := true;
     Rows := 0; Columns := 0; PixelSpacing := None; SliceThickness := Dbl.zero;
     PatientName := None; PatientID := None; imgNormal := false;
     imgWidth := 0; imgHeight := 0; outputData := None; InstanceNumber := 0 |}.

(** Two files of two series, the one discovered first carrying the
    identifier that is the greater of the two. *)
Definition file_B : DcmFile := file_of_series "1.dcm" (Some "B"%string).
Definition file_A : DcmFile := file_of_series "2.dcm" (Some "A"%string).

(** A readable [w] x [h] slice of series [u] of the patient Doe, and a
    file whose header reads the same but whose pixel data DCMTK cannot
    render. *)
Definition slice_file (p u : string) (inst w h : Z) (data : list Z)
    (spacing thick : Z) : DcmFile :=
  {| path := p; scanGood := true; SeriesInstanceUID := Some u; loadGood := true;
     Rows := h; Columns := w;
     PixelSpacing := Some (Dbl.of_int spacing, Dbl.of_int spacing);
     SliceThickness := Dbl.of_int thick;
     PatientName := Some "Doe"%string; PatientID := Some "42"%string;
     imgNormal := true; imgWidth := w; imgHeight := h;
     outputData := Some data; InstanceNumber := inst |}.

Definition undecodable (f : DcmFile) : DcmFile :=
  {| path := path f; scanGood := scanGood f;
     SeriesInstanceUID := SeriesInstanceUID f; loadGood := loadGood f;
     Rows := Rows f; Columns := Columns f; PixelSpacing := PixelSpacing f;
     SliceThickness := SliceThickness f; PatientName := PatientName f;
     PatientID := PatientID f; imgNormal := false;
     imgWidth := 0; imgHeight := 0; outputData := None;
     InstanceNumber := InstanceNumber f |}.

(** A first folder: one 2x2 slice.  A second folder: one file of another
    patient, 3x3 by its header, whose pixel data cannot be rendered. *)
Definition first_folder : list DcmFile :=
  [slice_file "a/1.dcm" "S1" 1 2 2 [1; 2; 3; 4] 1 1].

Definition second_folder : list DcmFile :=
  [{| path := "b/1.dcm"; scanGood := true; SeriesInstanceUID := Some "S2"%string;
      loadGood := true; Rows := 3; Columns := 3;
      PixelSpacing := Some (Dbl.of_int 5, Dbl.of_int 5);
      SliceThickness := Dbl.of_int 7;
      PatientName := Some "Roe"%string; PatientID := Some "43"%string;
      imgNormal := false; imgWidth := 0; imgHeight := 0;
      outputData := None; InstanceNumber := 1 |}].

Definition frame_after_first : MainFrame :=
  snd (OnLoadBtn sort_ties_kept initial_frame first_folder).

(** Two 1x1 slices of one series that carry the same instance number. *)
Definition tied_folder : list DcmFile :=
  [slice_file "c/1.dcm" "S" 1 1 1 [7] 1 1;
   slice_file "c/2.dcm" "S" 1 1 1 [9] 1 1].

(** Seventeen 1x1 slices of one series that all carry the instance number
    1; the slice of the n-th file holds the sample n. *)
Definition seventeen_tied_folder : list DcmFile :=
  [slice_file "g/01.dcm" "S" 1 1 1 [1] 1 1;
   slice_file "g/02.dcm" "S" 1 1 1 [2] 1 1;
   slice_file "g/03.dcm" "S" 1 1 1 [3] 1 1;
   slice_file "g/04.dcm" "S" 1 1 1 [4] 1 1;
   slice_file "g/05.dcm" "S" 1 1 1 [5] 1 1;
   slice_file "g/06.dcm" "S" 1 1 1 [6] 1 1;
   slice_file "g/07.dcm" "S" 1 1 1 [7] 1 1;
   slice_file "g/08.dcm" "S" 1 1 1 [8] 1 1;
   slice_file "g/09.dcm" "S" 1 1 1 [9] 1 1;
   slice_file "g/10.dcm" "S" 1 1 1 [10] 1 1;
   slice_file "g/11.dcm" "S" 1 1 1 [11] 1 1;
   slice_file "g/12.dcm" "S" 1 1 1 [12] 1 1;
   slice_file "g/13.dcm" "S" 1 1 1 [13] 1 1;
   slice_file "g/14.dcm" "S" 1 1 1 [14] 1 1;
   slice_file "g/15.dcm" "S" 1 1 1 [15] 1 1;
   slice_file "g/16.dcm" "S" 1 1 1 [16] 1 1;
   slice_file "g/17.dcm" "S" 1 1 1 [17] 1 1].

(** Four 1x1 slices of one series with the instance numbers 2, 1, 2, 1:
    out of order, and tied two by two. *)
Definition mixed_folder : list DcmFile :=
  [slice_file "h/1.dcm" "S" 2 1 1 [21] 1 1;
   slice_file "h/2.dcm" "S" 1 1 1 [11] 1 1;
   slice_file "h/3.dcm" "S" 2 1 1 [22] 1 1;
   slice_file "h/4.dcm" "S" 1 1 1 [12] 1 1].

(** Three 1x1 slices of one series, listed out of the order of their
    instance numbers 3, 1, 2. *)
Definition shuffled_folder : list DcmFile :=
  [slice_file "f/1.dcm" "S" 3 1 1 [30] 1 1;
   slice_file "f/2.dcm" "S" 1 1 1 [10] 1 1;
   slice_file "f/3.dcm" "S" 2 1 1 [20] 1 1].

(** A series whose first file fixes the header (spacing 2, thickness 3)
    but yields no slice, and whose second file (spacing 5, thickness 7) is
    the only one retained. *)
Definition header_only_folder : list DcmFile :=
  [undecodable (slice_file "d/1.dcm" "S" 1 2 2 [] 2 3);
   slice_file "d/2.dcm" "S" 2 2 2 [1; 2; 3; 4] 5 7].

(** A one-slice series whose slice thickness is absent (read as zero). *)
Definition thin_folder : list DcmFile :=
  [slice_file "e/1.dcm" "S" 1 1 1 [5] 1 0].

(** The frames these folders leave behind when they are the first to be
    loaded. *)
Definition frame_after_tied : MainFrame :=
  snd (OnLoadBtn libstdcxx_sort initial_frame tied_folder).

Definition frame_after_mixed : MainFrame :=
  snd (OnLoadBtn libstdcxx_sort initial_frame mixed_folder).

Definition frame_after_header_only : MainFrame :=
  snd (OnLoadBtn sort_ties_kept initial_frame header_only_folder).

Definition frame_after_thin : MainFrame :=
  snd (OnLoadBtn sort_ties_kept initial_frame thin_folder).

(** A 2x2x2 volume holding the samples 1 to 8. *)
Definition cube_frame : MainFrame :=
  {| volumeData := [1; 2; 3; 4; 5; 6; 7; 8];
     volWidth := 2; volHeight := 2; volDepth := 2;
     pxSpcX := Dbl.one; pxSpcY := Dbl.one; sliceThick := Dbl.one;
     patientName := "Doe"; patientID := "42" |}.

(* ===================================================================== *)
(** * Tactics *)
(* ===================================================================== *)

(** Comparisons whose outcome follows from the hypotheses. *)
Ltac ltb_holds a b :=
  replace (a <? b) with true by (symmetry; apply Z.ltb_lt; lia).
Ltac ltb_fails a b :=
  replace (a <? b) with false by (symmetry; apply Z.ltb_ge; lia).
Ltac leb_holds a b :=
  replace (a <=? b) with true by (symmetry; apply Z.leb_le; lia).
Ltac leb_fails a b :=
  replace (a <=? b) with false by (symmetry; apply Z.leb_gt; lia).

(* ===================================================================== *)
(** * The controls and the event handlers of [MainFrame] *)
(* ===================================================================== *)

(** A [wxSlider] as the handlers read it: [GetMin()], [GetMax()] and
    [GetValue()]. *)
Record Slider := { s_min : Z; s_max : Z; s_value : Z }.

(** [new wxSlider(parent, id, value, minValue, maxValue, ...)] *)
Definition new_slider (value minValue maxValue : Z) : Slider :=
  {| s_min := minValue; s_max := maxValue; s_value := value |}.

(** [s->SetRange(lo, hi)] and [s->SetValue(v)].  The handlers follow every
    [SetRange] by a [SetValue], and the values they pass lie within the
    range of the slider, where wxWidgets stores them as they are. *)
Definition SetRange (lo hi : Z) (s : Slider) : Slider :=
  {| s_min := lo; s_max := hi; s_value := s_value s |}.

Definition SetValue (v : Z) (s : Slider) : Slider :=
  {| s_min := s_min s; s_max := s_max s; s_value := v |}.

(** The frame together with its five sliders. *)
Record Viewer := {
  frame : MainFrame;
  sliderX : Slider;
  sliderY : Slider;
  sliderZ : Slider;
  wlSlider : Slider;
  wwSlider : Slider
}.

(** The viewer as the constructor of [MainFrame] leaves it. *)
Definition initial_viewer : Viewer :=
  {| frame := initial_frame;
     sliderX := new_slider 0 0 1;
     sliderY := new_slider 0 0 1;
     sliderZ := new_slider 0 0 1;
     wlSlider := new_slider 40 (-1000) 3000;
     wwSlider := new_slider 400 1 4000 |}.

(** [MainFrame::UpdateAllViews]: nothing when there is no volume, else
    what the three calls of [UpdateOneView] hand to the axial, the coronal
    and the sagittal panel. *)
Definition UpdateAllViews (g : Viewer)
  : option (view_result * view_result * view_result) :=
  match volumeData (frame g) with
  | [] => None
  | _ =>
      let curX := s_value (sliderX g) in
      let curY := s_value (sliderY g) in
      let curZ := s_value (sliderZ g) in
      let wl := s_value (wlSlider g) in
      let ww := s_value (wwSlider g) in
      Some (UpdateOneView (frame g) 0 curZ curX curY wl ww,
            UpdateOneView (frame g) 1 curY curX curZ wl ww,
            UpdateOneView (frame g) 2 curX curY curZ wl ww)
  end.

(** The result that [UpdateAllViews] hands to the panel of type
    [viewType]. *)
Definition view_for (viewType : Z)
    (views : view_result * view_result * view_result) : view_result :=
  let '(axial, coronal, sagittal) := views in
  if viewType =? 0 then axial else if viewType =? 1 then coronal else sagittal.

(** The lines of [OnPanelWheel] between [GetValue] and [SetValue]. *)
Definition wheel_slider (direction : Z) (s : Slider) : Slider :=
  let val := s_value s in
  let val := int_of (val + direction) in
  let val := if val <? s_min s then s_min s else val in
  let val := if s_max s <? val then s_max s else val in
  SetValue val s.

(** [MainFrame::OnPanelWheel]; the views are redrawn from the viewer it
    returns. *)
Definition OnPanelWheel (g : Viewer) (viewType direction : Z) : Viewer :=
  match volumeData (frame g) with
  | [] => g
  | _ =>
      if viewType =? 0 then
        {| frame := frame g; sliderX := sliderX g; sliderY := sliderY g;
           sliderZ := wheel_slider direction (sliderZ g);
           wlSlider := wlSlider g; wwSlider := wwSlider g |}
      else if viewType =? 1 then
        {| frame := frame g; sliderX := sliderX g;
           sliderY := wheel_slider direction (sliderY g);
           sliderZ := sliderZ g;
           wlSlider := wlSlider g; wwSlider := wwSlider g |}
      else
        {| frame := frame g;
           sliderX := wheel_slider direction (sliderX g);
           sliderY := sliderY g; sliderZ := sliderZ g;
           wlSlider := wlSlider g; wwSlider := wwSlider g |}
  end.

(** [ImagePanel::OnMouseWheel] of the panel of type [viewType], whose
    wheel callback is [OnPanelWheel]. *)
Definition OnMouseWheel (g : Viewer) (viewType rotation : Z) : Viewer :=
  let direction := if 0 <? rotation then 1 else -1 in
  OnPanelWheel g viewType direction.

(** [MainFrame::OnResetBtn] *)
Definition OnResetBtn (g : Viewer) : Viewer :=
  match volumeData (frame g) with
  | [] => g
  | _ =>
      {| frame := frame g;
         sliderX := SetValue (Z.quot (s_max (sliderX g)) 2) (sliderX g);
         sliderY := SetValue (Z.quot (s_max (sliderY g)) 2) (sliderY g);
         sliderZ := SetValue (Z.quot (s_max (sliderZ g)) 2) (sliderZ g);
         wlSlider := SetValue 40 (wlSlider g);
         wwSlider := SetValue 400 (wwSlider g) |}
  end.

(** [MainFrame::OnLoadBtn] with the sliders: a completed load sets their
    ranges and values from the new dimensions, any other exit leaves them
    alone. *)
Definition OnLoadBtn_sliders (srt : list SliceRaw -> list SliceRaw)
    (g : Viewer) (files : list DcmFile) : load_exit * Viewer :=
  let (e, st) := OnLoadBtn srt (frame g) files in
  match e with
  | Loaded =>
      (Loaded,
       {| frame := st;
          sliderX := SetValue (Z.quot (volWidth st) 2)
                       (SetRange 0 (int_of (volWidth st - 1)) (sliderX g));
          sliderY := SetValue (Z.quot (volHeight st) 2)
                       (SetRange 0 (int_of (volHeight st - 1)) (sliderY g));
          sliderZ := SetValue (Z.quot (volDepth st) 2)
                       (SetRange 0 (int_of (volDepth st - 1)) (sliderZ g));
          wlSlider := wlSlider g; wwSlider := wwSlider g |})
  | _ =>
      (e, {| frame := st; sliderX := sliderX g; sliderY := sliderY g;
             sliderZ := sliderZ g;
             wlSlider := wlSlider g; wwSlider := wwSlider g |})
  end.

(** The events a user raises on a loaded volume through the panels and
    the reset button. *)
Inductive event :=
| WheelOn (viewType rotation : Z)
| ResetPressed.

Definition handle (g : Viewer) (e : event) : Viewer :=
  match e with
  | WheelOn viewType rotation => OnMouseWheel g viewType rotation
  | ResetPressed => OnResetBtn g
  end.

(* ===================================================================== *)
(** * The panel ([ImagePanel]) *)
(* ===================================================================== *)

(** The members of [ImagePanel] that [OnPaint] reads: the size of
    [displayedBitmap] ([None] while the bitmap is not [IsOk()]) and the
    position of the cross-hair. *)
Record ImagePanel := {
  displayedBitmap : option (Z * Z);
  crossX : double;
  crossY : double
}.

(** A panel as it is constructed. *)
Definition new_panel : ImagePanel :=
  {| displayedBitmap := None;
     crossX := Dbl.of_int (-1); crossY := Dbl.of_int (-1) |}.

(** [panel->SetImage(img, relX, relY)] with the rescaled image of
    [UpdateOneView]: of the bitmap the panel keeps, only the size
    [final_w] x [final_h] is modelled. *)
Definition SetImage (p : ImagePanel) (img : DisplayImage) : ImagePanel :=
  {| displayedBitmap := Some (final_w img, final_h img);
     crossX := relX img; crossY := relY img |}.

(** The three border colours, and the colours the constructor of
    [ImagePanel] gives to the border, to the vertical and to the horizontal
    line of the cross-hair ([None] for a view type without a case). *)
Inductive colour := COL_AXIAL | COL_CORONAL | COL_SAGITTAL.

Definition panel_colours (viewType : Z) : option (colour * colour * colour) :=
  if viewType =? 0 then Some (COL_AXIAL, COL_SAGITTAL, COL_CORONAL)
  else if viewType =? 1 then Some (COL_CORONAL, COL_SAGITTAL, COL_AXIAL)
  else if viewType =? 2 then Some (COL_SAGITTAL, COL_CORONAL, COL_AXIAL)
  else None.

(** The colour of the label of each slice slider ([ConfigureLabel] in
    the constructor of [MainFrame]): the slider whose label has the colour
    [c]. *)
Definition slider_of_colour (c : colour) (g : Viewer) : Slider :=
  match c with
  | COL_AXIAL => sliderZ g
  | COL_CORONAL => sliderY g
  | COL_SAGITTAL => sliderX g
  end.

(** What [OnPaint] draws of the image: where the bitmap goes, and the
    abscissa of the vertical and the ordinate of the horizontal line when
    the cross-hair is drawn. *)
Record Painted := {
  bmp_x : Z;
  bmp_y : Z;
  cross_lines : option (Z * Z)
}.

(** [ImagePanel::OnPaint] on a panel of client size [panelW] x [panelH]. *)
Definition OnPaint (p : ImagePanel) (panelW panelH : Z) : Painted :=
  match displayedBitmap p with
  | None => {| bmp_x := 0; bmp_y := 0; cross_lines := None |}
  | Some (w, h) =>
      let x := Z.quot (int_of (panelW - w)) 2 in
      let y := Z.quot (int_of (panelH - h)) 2 in
      let x := if x <? 0 then 0 else x in
      let y := if y <? 0 then 0 else y in
      {| bmp_x := x; bmp_y := y;
         cross_lines :=
           if cross_hair_enabled (crossX p) (crossY p) then
             let lineX := int_of (x + Dbl.to_int (Dbl.mul (Dbl.of_int w) (crossX p))) in
             let lineY := int_of (y + Dbl.to_int (Dbl.mul (Dbl.of_int h) (crossY p))) in
             if (x <=? lineX) && (lineX <? int_of (x + w))
                && (y <=? lineY) && (lineY <? int_of (y + h))
             then Some (lineX, lineY) else None
           else None |}
  end.

(* ===================================================================== *)
(** * Further notions used to state the properties *)
(* ===================================================================== *)

(** The file yields a slice when the header dimensions are [W] x [H]. *)
Definition retained (W H : Z) (f : DcmFile) : bool :=
  loadGood f && imgNormal f && (imgWidth f =? W) && (imgHeight f =? H)
  && match outputData f with Some _ => true | None => false end.

(** The slice that holds the whole output buffer of a file. *)
Definition whole_slice (f : DcmFile) : SliceRaw :=
  {| instance := int_of (InstanceNumber f);
     pixels := default [] (outputData f) |}.

(** The slider spans the indices [0 .. n-1] of an axis of extent [n] and
    stands on one of them. *)
Definition slider_covers (s : Slider) (n : Z) : Prop :=
  s_min s = 0 /\ s_max s = n - 1 /\ 0 <= s_value s <= n - 1.

(** A viewer that holds a complete volume, with the three slice sliders
    spanning its axes. *)
Definition view_ready (g : Viewer) : Prop :=
  dims_ok (frame g) /\ volume_full (frame g) /\
  0 < volWidth (frame g) /\ 0 < volHeight (frame g) /\ 0 < volDepth (frame g) /\
  slider_covers (sliderX g) (volWidth (frame g)) /\
  slider_covers (sliderY g) (volHeight (frame g)) /\
  slider_covers (sliderZ g) (volDepth (frame g)).

(** Channel [k] of the pixel at column [x] of row [y] of the image that
    [UpdateOneView] builds, before it is rescaled: [rgb[(y*w + x)*3 + k]]
    of line 556. *)
Definition rgb_at (img : DisplayImage) (x y k : Z) : option Z :=
  img_rgb img !! Z.to_nat ((y * img_w img + x) * 3 + k).

(** A viewer around a frame, the sliders on the given positions. *)
Definition viewer_at (st : MainFrame) (x y z : Z) : Viewer :=
  {| frame := st;
     sliderX := new_slider x 0 (volWidth st - 1);
     sliderY := new_slider y 0 (volHeight st - 1);
     sliderZ := new_slider z 0 (volDepth st - 1);
     wlSlider := new_slider 40 (-1000) 3000;
     wwSlider := new_slider 400 1 4000 |}.

(** A volume of 3 x 50 x 1 samples whose rows lie 0.99 of a column
    apart. *)
Definition strip_frame : MainFrame :=
  {| volumeData := List.repeat 0 150;
     volWidth := 3; volHeight := 50; volDepth := 1;
     pxSpcX := Dbl.one; pxSpcY := Dbl.div (Dbl.of_int 99) (Dbl.of_int 100);
     sliceThick := Dbl.one;
     patientName := "Doe"; patientID := "42" |}.

(* ===================================================================== *)
(** * Properties of series grouping and selection *)
(* ===================================================================== *)

Lemma StronglySorted_app_tail {A} (R : A -> A -> Prop) (l1 l2 : list A) :
  StronglySorted R (l1 ++ l2) -> StronglySorted R l2.
Proof.
  induction l1 as [|a l1 IH]; simpl; [auto|].
  intros H. inversion H; auto.
Qed.

Section Series.

Implicit Types (m : series_map) (u k : string) (f : DcmFile).

Lemma uid_compare_eq u k : String_as_OT.compare u k = Eq -> u = k.
Proof.
  intros H. destruct (String_as_OT.compare_spec u k); congruence.
Qed.

Lemma uid_lt_irrefl u : ~ uid_lt u u.
Proof. apply (@irreflexivity _ _ (@StrictOrder_Irreflexive _ _ String_as_OT.lt_strorder)). Qed.

Lemma uid_lt_trans u k v : uid_lt u k -> uid_lt k v -> uid_lt u v.
Proof. apply (@transitivity _ _ (@StrictOrder_Transitive _ _ String_as_OT.lt_strorder)). Qed.

Lemma uid_compare_gt u k : String_as_OT.compare u k = Gt -> uid_lt k u.
Proof.
  intros H. destruct (String_as_OT.compare_spec u k); first [congruence | assumption].
Qed.

Lemma uid_lt_neqb u k : uid_lt u k -> String.eqb u k = false.
Proof.
  intros H. apply String.eqb_neq. intros ->. exact (uid_lt_irrefl _ H).
Qed.

Lemma uid_gt_neqb u k : uid_lt k u -> String.eqb u k = false.
Proof.
  intros H. apply String.eqb_neq. intros ->. exact (uid_lt_irrefl _ H).
Qed.

Lemma map_at_above u m :
  Forall (uid_lt u) (map fst m) -> map_at u m = [].
Proof.
  induction m as [|[k l] m IH]; simpl; intros H; [reflexivity|].
  inversion H as [|? ? Hk Hm]; subst.
  rewrite (uid_lt_neqb _ _ Hk). auto.
Qed.

Lemma map_at_push u k f m :
  keys_sorted m ->
  map_at u (push_back_at k f m)
  = if String.eqb u k then map_at k m ++ [f] else map_at u m.
Proof.
  unfold keys_sorted.
  induction m as [|[k' l] m IH]; simpl; intros Hs.
  - destruct (String.eqb u k); reflexivity.
  - inversion Hs as [|? ? Hm Hk']; subst.
    destruct (String_as_OT.compare k k') eqn:Hc.
    + apply uid_compare_eq in Hc. subst k'. simpl.
      rewrite String.eqb_refl.
      destruct (String.eqb u k) eqn:E; reflexivity.
    + simpl. rewrite (uid_lt_neqb _ _ Hc).
      rewrite (map_at_above k m).
      2:{ eapply List.Forall_impl; [|exact Hk']. intros a Ha. eapply uid_lt_trans; eassumption. }
      destruct (String.eqb u k) eqn:E; reflexivity.
    + apply uid_compare_gt in Hc. simpl.
      rewrite (uid_gt_neqb _ _ Hc).
      destruct (String.eqb u k') eqn:E'.
      * apply String.eqb_eq in E'. subst u.
        rewrite (uid_lt_neqb _ _ Hc). reflexivity.
      * apply IH. assumption.
Qed.

Lemma keys_push k f m :
  forall u, In u (map fst (push_back_at k f m)) <-> u = k \/ In u (map fst m).
Proof.
  induction m as [|[k' l] m IH]; simpl; intros u.
  - intuition.
  - destruct (String_as_OT.compare k k') eqn:Hc; simpl.
    + apply uid_compare_eq in Hc. subst. intuition.
    + intuition.
    + rewrite IH. intuition.
Qed.

Lemma keys_sorted_push k f m :
  keys_sorted m -> keys_sorted (push_back_at k f m).
Proof.
  unfold keys_sorted.
  induction m as [|[k' l] m IH]; simpl; intros Hs.
  - repeat constructor.
  - inversion Hs as [|? ? Hm Hk']; subst.
    destruct (String_as_OT.compare k k') eqn:Hc; simpl.
    + constructor; assumption.
    + constructor; [assumption|]. constructor; [exact Hc|].
      eapply List.Forall_impl; [|exact Hk']. intros a Ha. eapply uid_lt_trans; eassumption.
    + constructor; [auto|].
      apply List.Forall_forall. intros u Hu. apply keys_push in Hu as [->|Hu].
      * apply uid_compare_gt; assumption.
      * rewrite List.Forall_forall in Hk'. auto.
Qed.

(** The state of the map while the files are scanned. *)
Lemma group_fold files : forall m,
  keys_sorted m ->
  let m' := fold_left group_step files m in
  keys_sorted m' /\
  (forall u, map_at u m' = map_at u m ++ partition_of u files) /\
  (forall u, In u (map fst m') <->
             In u (map fst m) \/ exists f, In f files /\ in_series u f = true).
Proof.
  induction files as [|f files IH]; intros m Hs; simpl.
  - split; [assumption|]. split.
    + intros u. now rewrite app_nil_r.
    + intros u. split; [auto|]. intros [H|(f & [] & _)]; assumption.
  - assert (Hs' : keys_sorted (group_step m f)).
    { unfold group_step. destruct (scanGood f); [|assumption].
      destruct (SeriesInstanceUID f); [|assumption]. now apply keys_sorted_push. }
    destruct (IH _ Hs') as (H1 & H2 & H3). split; [exact H1|]. split.
    + intros u. rewrite H2. unfold partition_of. simpl.
      unfold group_step, in_series.
      destruct (scanGood f); simpl; [|reflexivity].
      destruct (SeriesInstanceUID f) as [k|]; [|reflexivity].
      rewrite map_at_push by assumption.
      destruct (String.eqb u k) eqn:E.
      * apply String.eqb_eq in E. subst. now rewrite <- app_assoc.
      * reflexivity.
    + intros u. rewrite H3. unfold group_step, in_series. split.
      * intros [H|(g & Hg & Hu)].
        -- destruct (scanGood f) eqn:Eg; [|auto].
           destruct (SeriesInstanceUID f) as [k|] eqn:Ek; [|auto].
           apply keys_push in H as [->|H]; [|auto].
           right. exists f. split; [now left|]. rewrite Eg, Ek. simpl.
           apply String.eqb_refl.
        -- right. exists g. split; [now right|assumption].
      * intros [H|(g & [<-|Hg] & Hu)].
        -- left. destruct (scanGood f); [|assumption].
           destruct (SeriesInstanceUID f); [|assumption].
           apply keys_push. now right.
        -- left. destruct (scanGood f); [|discriminate].
           destruct (SeriesInstanceUID f) as [k|]; [|discriminate].
           simpl in Hu. apply String.eqb_eq in Hu. subst.
           apply keys_push. now left.
        -- right. exists g. split; assumption.
Qed.

Lemma group_series_sorted files : keys_sorted (group_series files).
Proof. apply (group_fold files []). constructor. Qed.

Lemma group_series_at files u :
  map_at u (group_series files) = partition_of u files.
Proof. apply (group_fold files []). constructor. Qed.

Lemma group_series_keys files u :
  In u (map fst (group_series files)) <->
  exists f, In f files /\ in_series u f = true.
Proof.
  destruct (group_fold files [] ltac:(constructor)) as (_ & _ & H).
  rewrite H. simpl. intuition.
Qed.

Lemma map_at_in u m : map_at u m <> [] -> In (u, map_at u m) m.
Proof.
  induction m as [|[k l] m IH]; simpl; [congruence|].
  destruct (String.eqb u k) eqn:E.
  - apply String.eqb_eq in E. subst. now left.
  - intros H. right. auto.
Qed.

(** What the loop over the map leaves in [(bestUID, maxCount)]: either
    nothing beat the initial count, or the first entry that is larger than
    every entry before it and at least as large as every entry after it. *)
Lemma best_fold m : forall acc,
  let r := fold_left best_step m acc in
  (r = acc /\ Forall (fun e => vsize (snd e) <= snd acc) m) \/
  (exists pre e post,
      m = pre ++ e :: post /\ r = (fst e, vsize (snd e)) /\
      snd acc < vsize (snd e) /\
      Forall (fun e' => vsize (snd e') < vsize (snd e)) pre /\
      Forall (fun e' => vsize (snd e') <= vsize (snd e)) post).
Proof.
  induction m as [|e m IH]; intros acc; simpl.
  - left. split; [reflexivity|constructor].
  - destruct (snd acc <? vsize (snd e)) eqn:E.
    + assert (Hb : best_step acc e = (fst e, vsize (snd e)))
        by (unfold best_step; now rewrite E).
      rewrite Hb. apply Z.ltb_lt in E.
      destruct (IH (fst e, vsize (snd e))) as [[Hr Hall]|(pre & e' & post & Hm & Hr & Hlt & Hpre & Hpost)].
      * right. exists [], e, m. simpl in *.
        split; [reflexivity|]. split; [assumption|]. split; [assumption|].
        split; [constructor|assumption].
      * right. exists (e :: pre), e', post. simpl in *. subst m.
        split; [reflexivity|]. split; [assumption|]. split; [lia|].
        split; [constructor; assumption|assumption].
    + assert (Hb : best_step acc e = acc)
        by (unfold best_step; now rewrite E).
      rewrite Hb. apply Z.ltb_ge in E.
      destruct (IH acc) as [[Hr Hall]|(pre & e' & post & Hm & Hr & Hlt & Hpre & Hpost)].
      * left. split; [assumption|]. constructor; assumption.
      * right. exists (e :: pre), e', post. subst m.
        split; [reflexivity|]. split; [assumption|]. split; [assumption|].
        split; [constructor; [lia|assumption]|assumption].
Qed.

Lemma partition_of_group_entry files k l :
  In (k, l) (group_series files) -> l = partition_of k files /\ l <> [].
Proof.
  intros Hin.
  pose proof (group_series_sorted files) as Hs.
  assert (Hl : map_at k (group_series files) = l).
  { revert Hs Hin. unfold keys_sorted.
    induction (group_series files) as [|[k' l'] m IH]; simpl; [tauto|].
    intros Hs [Heq|Hin]; inversion Hs as [|? ? Hm Hk']; subst.
    - inversion Heq; subst. now rewrite String.eqb_refl.
    - rewrite uid_gt_neqb; [auto|].
      rewrite List.Forall_forall in Hk'. apply Hk'.
      apply (in_map fst) in Hin. exact Hin. }
  rewrite group_series_at in Hl. split; [auto|].
  assert (Hk : In k (map fst (group_series files))).
  { apply (in_map fst) in Hin. exact Hin. }
  apply group_series_keys in Hk as (f & Hf & Hu).
  intros ->. subst.
  assert (In f (partition_of k files)) as Hin'.
  { apply filter_In. auto. }
  rewrite Hl in Hin'. destruct Hin'.
Qed.

(** Series selection returns a largest partition, and among the largest
    ones the one whose identifier comes first in the order of the map. *)
Lemma select_series_characterised files target :
  select_series files = Some target ->
  exists u,
    target = partition_of u files /\ target <> [] /\
    forall u',
      vsize (partition_of u' files) <= vsize target /\
      (vsize (partition_of u' files) = vsize target -> u' = u \/ uid_lt u u').
Proof.
  unfold select_series. intros Hsel.
  destruct (group_series files) as [|e0 m0] eqn:Hg; [discriminate|].
  rewrite <- Hg in *.
  injection Hsel as Htarget.
  pose proof (group_series_sorted files) as Hs.
  assert (Hne : forall k l, In (k, l) (group_series files) -> 0 < vsize l).
  { intros k l Hin. apply partition_of_group_entry in Hin as [_ Hl].
    unfold vsize. destruct l; [congruence|simpl; lia]. }
  destruct (best_fold (group_series files) (EmptyString, 0))
    as [[_ Hall]|(pre & [u l] & post & Hm & Hr & Hlt & Hpre & Hpost)].
  - exfalso. rewrite Hg in Hall. inversion Hall as [|? ? H0 _]; subst.
    destruct e0 as [k l]. specialize (Hne k l). rewrite Hg in Hne.
    simpl in *. specialize (Hne (or_introl eq_refl)). lia.
  - fold (best_series (group_series files)) in Hr. rewrite Hr in Htarget.
    simpl in *.
    assert (Hin : In (u, l) (group_series files)).
    { rewrite Hm. apply in_or_app. right. now left. }
    destruct (partition_of_group_entry _ _ _ Hin) as [Hl Hl0].
    rewrite group_series_at in Htarget.
    exists u. rewrite <- Htarget, <- Hl. split; [reflexivity|]. split; [assumption|].
    intros u'.
    destruct (partition_of u' files) as [|g t] eqn:Hp.
    { unfold vsize at 1 3. simpl. split; [lia|]. intros H.
      destruct l; [congruence|]. unfold vsize in H. simpl in H. lia. }
    assert (Hin' : In (u', partition_of u' files) (group_series files)).
    { rewrite <- group_series_at. apply map_at_in.
      rewrite group_series_at, Hp. discriminate. }
    rewrite <- Hp. set (l' := partition_of u' files) in *.
    rewrite Hm in Hin'. apply in_app_or in Hin' as [Hin'|[Heq|Hin']].
    + rewrite List.Forall_forall in Hpre. specialize (Hpre _ Hin'). simpl in Hpre.
      split; lia.
    + inversion Heq; subst. split; [lia|]. intros _. now left.
    + rewrite List.Forall_forall in Hpost. specialize (Hpost _ Hin'). simpl in Hpost.
      split; [lia|]. intros _. right.
      unfold keys_sorted in Hs. rewrite Hm, map_app in Hs. simpl in Hs.
      apply StronglySorted_app_tail in Hs.
      inversion Hs as [|? ? _ Hall]; subst.
      rewrite List.Forall_forall in Hall. apply Hall.
      apply (in_map fst) in Hin'. exact Hin'.
Qed.

End Series.

(* ===================================================================== *)
(** * Series selection: the stated properties *)
(* ===================================================================== *)

Lemma select_series_some files :
  Exists (fun f => grouped f = true) files ->
  exists target, select_series files = Some target.
Proof.
  intros Hex. apply List.Exists_exists in Hex as (f & Hf & Hg).
  unfold grouped in Hg. apply andb_prop in Hg as [Hs Hu].
  destruct (SeriesInstanceUID f) as [u|] eqn:Eu; [|discriminate].
  assert (Hk : In u (map fst (group_series files))).
  { apply group_series_keys. exists f. split; [assumption|].
    unfold in_series. rewrite Hs, Eu. simpl. apply String.eqb_refl. }
  unfold select_series.
  destruct (group_series files); [destruct Hk|]. eauto.
Qed.

(** C2, as the code has it.  Whenever at least one file yields a series
    identifier, series selection returns one partition, in discovery order,
    that no other partition exceeds in size; among the partitions of that
    maximal size it is the one whose series identifier is the least in the
    lexicographic order of [std::string] (the order in which [std::map] is
    walked), whatever the order of discovery. *)
Theorem select_series_largest_least_uid files :
  Exists (fun f => grouped f = true) files ->
  exists u,
    select_series files = Some (partition_of u files) /\
    partition_of u files <> [] /\
    forall u',
      vsize (partition_of u' files) <= vsize (partition_of u files) /\
      (vsize (partition_of u' files) = vsize (partition_of u files) ->
       u' = u \/ uid_lt u u').
Proof.
  intros Hex. destruct (select_series_some files Hex) as [target Ht].
  destruct (select_series_characterised files target Ht) as (u & -> & Hne & Hmax).
  exists u. auto.
Qed.

Lemma select_series_largest_least_uid_witness :
  Exists (fun f => grouped f = true) [file_B; file_A] /\
  exists u,
    select_series [file_B; file_A] = Some (partition_of u [file_B; file_A]) /\
    partition_of u [file_B; file_A] <> [] /\
    forall u',
      vsize (partition_of u' [file_B; file_A])
      <= vsize (partition_of u [file_B; file_A]) /\
      (vsize (partition_of u' [file_B; file_A])
       = vsize (partition_of u [file_B; file_A]) ->
       u' = u \/ uid_lt u u').
Proof.
  assert (H : Exists (fun f => grouped f = true) [file_B; file_A])
    by (left; reflexivity).
  split; [exact H|].
  exact (select_series_largest_least_uid [file_B; file_A] H).
Defined.

(** C2 as stated fails on a tie: with one file of series "B" discovered
    before one file of series "A", the code selects series "A", while the
    partition discovered first is that of series "B". *)
Lemma select_series_tie_not_first_discovered :
  select_series [file_B; file_A] = Some [file_A] /\
  select_series_spec [file_B; file_A] = Some [file_B] /\
  Some [file_A] <> Some [file_B].
Proof.
  split; [reflexivity|]. split; [reflexivity|]. discriminate.
Qed.

(** C10.  A file that decodes but has no readable series identifier is in
    no partition and counts toward no partition's size; and when no file of
    a non-empty folder has a readable series identifier, [OnLoadBtn] returns
    at the "no series" exit with the frame untouched, whether or not the
    files decoded. *)
Theorem unreadable_series_uid_excluded files :
  (forall u f, In f (map_at u (group_series files)) ->
               In f files /\ scanGood f = true /\ SeriesInstanceUID f = Some u) /\
  (forall u, vsize (map_at u (group_series files))
             = vsize (List.filter (in_series u) files)) /\
  (forall target f, select_series files = Some target -> In f target ->
                    exists u, SeriesInstanceUID f = Some u) /\
  (forall srt st,
      files <> [] ->
      Forall (fun f => SeriesInstanceUID f = None) files ->
      select_series files = None /\
      OnLoadBtn srt st files = (NoSeriesFound, st)).
Proof.
  assert (Hin : forall u f, In f (partition_of u files) ->
                In f files /\ scanGood f = true /\ SeriesInstanceUID f = Some u).
  { intros u f Hf. apply filter_In in Hf as [Hf Hs]. split; [assumption|].
    unfold in_series in Hs. apply andb_prop in Hs as [Hs Hu].
    split; [assumption|].
    destruct (SeriesInstanceUID f) as [k|]; [|discriminate].
    apply String.eqb_eq in Hu. now subst. }
  split; [|split; [|split]].
  - intros u f. rewrite group_series_at. apply Hin.
  - intros u. now rewrite group_series_at.
  - intros target f Hsel Hf.
    apply select_series_characterised in Hsel as (u & -> & _).
    exists u. now apply Hin.
  - intros srt st Hne Hall.
    assert (Hnone : select_series files = None).
    { destruct (select_series files) as [target|] eqn:Hsel; [|reflexivity].
      exfalso. apply select_series_characterised in Hsel as (u & -> & Hne' & _).
      destruct (partition_of u files) as [|f t] eqn:Hp; [congruence|].
      destruct (Hin u f) as (Hf & _ & Hu); [rewrite Hp; now left|].
      rewrite List.Forall_forall in Hall. rewrite (Hall f Hf) in Hu. discriminate. }
    split; [assumption|].
    unfold OnLoadBtn. destruct files; [congruence|]. now rewrite Hnone.
Qed.

(* ===================================================================== *)
(** * Properties of the loading loop *)
(* ===================================================================== *)

Section Loading.

Implicit Types (st : MainFrame) (f : DcmFile) (temp : list SliceRaw).

Lemma int_of_small z : - 2 ^ 31 <= z <= INT_MAX -> int_of z = z.
Proof.
  unfold int_of, INT_MAX. intros H.
  rewrite Z.mod_small by lia. lia.
Qed.

Lemma int_of_le z : 0 <= z -> int_of z <= z.
Proof.
  intros H. unfold int_of.
  pose proof (Z.mod_le (z + 2 ^ 31) (2 ^ 32) ltac:(lia) ltac:(lia)). lia.
Qed.

Lemma load_step_keeps_volume acc f :
  volumeData (fst (load_step acc f)) = volumeData (fst acc) /\
  volDepth (fst (load_step acc f)) = volDepth (fst acc).
Proof.
  destruct acc as [st temp]. unfold load_step.
  destruct (loadGood f); [|auto].
  destruct (volWidth st =? 0);
    (destruct (image_fits _ f); [destruct (outputData f)|]); simpl; auto.
Qed.

Lemma load_fold_keeps_volume target : forall acc,
  volumeData (fst (fold_left load_step target acc)) = volumeData (fst acc) /\
  volDepth (fst (fold_left load_step target acc)) = volDepth (fst acc).
Proof.
  induction target as [|f target IH]; intros acc; simpl; [auto|].
  destruct (IH (load_step acc f)) as [-> ->]. apply load_step_keeps_volume.
Qed.

(** Once [volWidth] is not zero the loop writes no member any more. *)
Lemma load_fold_frozen target : forall st temp,
  volWidth st <> 0 -> fst (fold_left load_step target (st, temp)) = st.
Proof.
  induction target as [|f target IH]; intros st temp Hw; simpl; [reflexivity|].
  apply Z.eqb_neq in Hw as Hw'.
  destruct (loadGood f); [|auto]. rewrite Hw'.
  destruct (image_fits st f); [destruct (outputData f)|]; auto.
Qed.

(** The file the header is taken from: the first one that loads with a
    non-zero number of columns. *)
Lemma load_fold_header target : forall st temp,
  volWidth st = 0 ->
  let st' := fst (fold_left load_step target (st, temp)) in
  volWidth st' = 0 \/
  exists pre f post,
    target = pre ++ f :: post /\ Forall no_header pre /\
    loadGood f = true /\ Columns f <> 0 /\
    volWidth st' = Columns f /\ volHeight st' = Rows f /\
    sliceThick st' = SliceThickness f /\
    (forall sp, PixelSpacing f = Some sp -> pxSpcY st' = fst sp /\ pxSpcX st' = snd sp) /\
    (forall n, PatientName f = Some n -> patientName st' = n) /\
    (forall n, PatientID f = Some n -> patientID st' = n).
Proof.
  induction target as [|f target IH]; intros st temp Hw; simpl; [now left|].
  destruct (loadGood f) eqn:Hl.
  - rewrite Hw. simpl.
    set (st1 := record_header st f).
    assert (Hnext : forall temp1,
      let st' := fst (fold_left load_step target (st1, temp1)) in
      volWidth st' = 0 \/
      exists pre f0 post,
        f :: target = pre ++ f0 :: post /\ Forall no_header pre /\
        loadGood f0 = true /\ Columns f0 <> 0 /\
        volWidth st' = Columns f0 /\ volHeight st' = Rows f0 /\
        sliceThick st' = SliceThickness f0 /\
        (forall sp, PixelSpacing f0 = Some sp -> pxSpcY st' = fst sp /\ pxSpcX st' = snd sp) /\
        (forall n, PatientName f0 = Some n -> patientName st' = n) /\
        (forall n, PatientID f0 = Some n -> patientID st' = n)).
    { intros temp1. destruct (Z.eq_dec (Columns f) 0) as [Hc|Hc].
      - destruct (IH st1 temp1 Hc) as [H0|(pre & f0 & post & -> & Hpre & H)];
          [now left|right].
        exists (f :: pre), f0, post. split; [reflexivity|].
        split; [constructor; [now right|assumption]|exact H].
      - right. exists [], f, target. simpl.
        rewrite (load_fold_frozen target st1 temp1 Hc).
        split; [reflexivity|]. split; [constructor|]. split; [assumption|].
        split; [assumption|]. subst st1. simpl.
        split; [reflexivity|]. split; [reflexivity|]. split; [reflexivity|].
        split; [|split].
        + intros sp ->. auto.
        + intros n ->. reflexivity.
        + intros n ->. reflexivity. }
    destruct (image_fits st1 f); [destruct (outputData f)|]; apply Hnext.
  - destruct (IH st temp Hw) as [H0|(pre & f0 & post & -> & Hpre & H)];
      [now left|right].
    exists (f :: pre), f0, post. split; [reflexivity|].
    split; [constructor; [now left|assumption]|exact H].
Qed.

Lemma load_step_temp_ok Q acc f :
  decoded_ok f -> Q f -> temp_ok Q acc -> temp_ok Q (load_step acc f).
Proof.
  intros Hd HQ [Hfix Hall]. destruct acc as [st temp]. simpl in *.
  unfold load_step. destruct (loadGood f) eqn:Hl; [|split; assumption].
  set (st1 := if volWidth st =? 0 then record_header st f else st).
  assert (Hold : temp_ok Q (st1, temp)).
  { subst st1. destruct (volWidth st =? 0) eqn:Hw; [|split; assumption].
    apply Z.eqb_eq in Hw. destruct Hfix as [->|Hne]; [|lia].
    split; [now left|constructor]. }
  destruct (image_fits st1 f) eqn:Hfit; [|exact Hold].
  destruct (outputData f) as [data|] eqn:Hdata; [|exact Hold].
  unfold image_fits in Hfit.
  apply andb_prop in Hfit as [Hfit Hh]. apply andb_prop in Hfit as [Hn Hw].
  apply Z.eqb_eq in Hw, Hh.
  destruct (Hd Hn) as (Hw0 & Hh0 & Hmax & Hlen).
  specialize (Hlen _ Hdata).
  destruct Hold as [_ Hall1]. simpl in Hall1.
  assert (Hpix : pixels (slice_of st1 f data) = data).
  { unfold slice_of. simpl. rewrite <- Hw, <- Hh.
    rewrite int_of_small by (unfold INT_MAX in *; nia).
    apply firstn_all2. unfold vsize in Hlen. lia. }
  split; simpl.
  - right. lia.
  - apply Forall_app. split; [assumption|]. constructor; [|constructor].
    rewrite Hpix. split; [|lia].
    exists f, data. rewrite Hpix. auto 10.
Qed.

Lemma load_fold_temp_ok Q target : forall acc,
  Forall decoded_ok target -> Forall Q target ->
  temp_ok Q acc -> temp_ok Q (fold_left load_step target acc).
Proof.
  induction target as [|f target IH]; intros acc Hd HQ Hacc; simpl; [assumption|].
  inversion Hd; inversion HQ; subst.
  apply IH; [assumption|assumption|]. now apply load_step_temp_ok.
Qed.

Lemma select_series_subset files target f :
  select_series files = Some target -> In f target -> In f files.
Proof.
  intros Hsel Hf. apply select_series_characterised in Hsel as (u & -> & _).
  apply filter_In in Hf. tauto.
Qed.

Lemma load_slices_temp_ok files target st :
  Forall decoded_ok files -> select_series files = Some target ->
  temp_ok (fun f => In f files) (load_slices st target).
Proof.
  intros Hd Hsel. unfold load_slices. apply load_fold_temp_ok.
  - rewrite List.Forall_forall in *. intros f Hf. apply Hd.
    eapply select_series_subset; eassumption.
  - apply List.Forall_forall. intros f Hf. eapply select_series_subset; eassumption.
  - split; [now left|constructor].
Qed.

End Loading.
(* ===================================================================== *)
(** * [std::sort] returns a sorted rearrangement *)
(* ===================================================================== *)

(** The sort of libstdc++ returns, for every vector and without an access
    outside it, a sorted rearrangement; up to 16 elements it is an insertion
    sort and keeps the order of elements with equal keys.  The comparison
    is [key a < key b] for a [key] into the integers, as at line 480. *)

(** ** Ranges of a vector *)

Section Ranges.

Local Open Scope nat_scope.

Context {A : Type}.

Implicit Types (v : list A) (f l i : nat).

Lemma insert_Permutation v i x y :
  v !! i = Some x -> <[i := y]> v ≡ₚ y :: delete i v.
Proof.
  intros H. rewrite insert_take_drop by (eapply lookup_lt_Some, H).
  rewrite delete_take_drop. symmetry. apply Permutation_middle.
Qed.

(** Exchanging two elements of a vector rearranges it. *)
Lemma swap_Permutation v a b x y :
  v !! a = Some x -> v !! b = Some y -> v ≡ₚ <[b := x]> (<[a := y]> v).
Proof.
  intros Ha Hb. destruct (Nat.eq_dec a b) as [->|Hab].
  - assert (x = y) by congruence. subst y.
    rewrite (list_insert_id v b x Ha), (list_insert_id v b x Ha). reflexivity.
  - assert (Hb1 : <[a := y]> v !! b = Some y)
      by (rewrite list_lookup_insert_ne by exact Hab; exact Hb).
    rewrite (insert_Permutation _ b y x Hb1).
    rewrite (delete_Permutation v a x Ha) at 1. constructor.
    apply (Permutation_cons_inv (a := y)).
    rewrite <- (insert_Permutation v a x y Ha).
    apply delete_Permutation, Hb1.
Qed.

(** The two vectors agree outside the range [f, l). *)
Definition same_outside f l v v' : Prop :=
  forall i, (i < f \/ l <= i) -> v' !! i = v !! i.

(** Every element of the range [f, l) satisfies [P]. *)
Definition all_in f l (P : A -> Prop) v : Prop :=
  forall i x, f <= i < l -> v !! i = Some x -> P x.

Lemma same_outside_refl f l v : same_outside f l v v.
Proof. intros i _. reflexivity. Qed.

Lemma same_outside_trans f l v1 v2 v3 :
  same_outside f l v1 v2 -> same_outside f l v2 v3 -> same_outside f l v1 v3.
Proof. intros H1 H2 i Hi. rewrite (H2 i Hi). apply H1, Hi. Qed.

Lemma same_outside_wider f l f' l' v v' :
  f' <= f -> l <= l' -> same_outside f l v v' -> same_outside f' l' v v'.
Proof. intros Hf Hl H i Hi. apply H. lia. Qed.

Lemma range_split v f l :
  f <= l -> v = take f v ++ take (l - f) (drop f v) ++ drop l v.
Proof.
  intros Hfl. rewrite <- (take_drop f v) at 1. f_equal.
  rewrite <- (take_drop (l - f) (drop f v)) at 1. f_equal.
  rewrite drop_drop. f_equal. lia.
Qed.

Lemma range_Permutation v v' f l :
  v ≡ₚ v' -> same_outside f l v v' -> f <= l ->
  take (l - f) (drop f v) ≡ₚ take (l - f) (drop f v').
Proof.
  intros Hp Hout Hfl.
  assert (Ht : take f v' = take f v).
  { apply list_eq. intros i. destruct (Nat.lt_ge_cases i f).
    - rewrite !lookup_take_lt by lia. apply Hout. lia.
    - rewrite !lookup_take_ge by lia. reflexivity. }
  assert (Hd : drop l v' = drop l v).
  { apply list_eq. intros i. rewrite !lookup_drop. apply Hout. lia. }
  rewrite (range_split v f l Hfl) in Hp at 1.
  rewrite (range_split v' f l Hfl) in Hp. rewrite Ht, Hd in Hp.
  apply Permutation_app_inv_l in Hp. apply Permutation_app_inv_r in Hp.
  exact Hp.
Qed.

Lemma all_in_range f l (P : A -> Prop) v :
  f <= l -> all_in f l P v <-> Forall P (take (l - f) (drop f v)).
Proof.
  intros Hfl. rewrite Forall_lookup. unfold all_in. split.
  - intros H i x Hx.
    destruct (Nat.lt_ge_cases i (l - f)) as [Hi|Hi].
    + rewrite lookup_take_lt, lookup_drop in Hx by exact Hi.
      apply (H (f + i)); [lia|exact Hx].
    + rewrite lookup_take_ge in Hx by lia. discriminate.
  - intros H i x Hi Hx. apply (H (i - f)).
    rewrite lookup_take_lt, lookup_drop by lia.
    rewrite <- Hx. f_equal. lia.
Qed.

Lemma all_in_Permutation f l (P : A -> Prop) v v' :
  v ≡ₚ v' -> same_outside f l v v' -> f <= l ->
  all_in f l P v -> all_in f l P v'.
Proof.
  intros Hp Hout Hfl. rewrite !all_in_range by exact Hfl.
  rewrite (range_Permutation v v' f l Hp Hout Hfl). auto.
Qed.

Lemma all_in_same f l f' l' (P : A -> Prop) v v' :
  same_outside f' l' v v' -> (l <= f' \/ l' <= f) ->
  all_in f l P v -> all_in f l P v'.
Proof.
  intros Hout Hdis H i x Hi Hx. apply (H i x Hi).
  rewrite <- Hx. symmetry. apply Hout. lia.
Qed.

(** [std::iter_swap] inside a range. *)
Lemma iter_swap_spec a b v x y :
  v !! a = Some x -> v !! b = Some y ->
  iter_swap a b v = Some (<[b := x]> (<[a := y]> v)).
Proof. intros Ha Hb. unfold iter_swap. rewrite Ha, Hb. reflexivity. Qed.

Lemma swap_lookup a b v x y i :
  v !! a = Some x -> v !! b = Some y ->
  <[b := x]> (<[a := y]> v) !! i
  = if decide (i = b) then Some x else if decide (i = a) then Some y else v !! i.
Proof.
  intros Ha Hb.
  pose proof (lookup_lt_Some _ _ _ Ha). pose proof (lookup_lt_Some _ _ _ Hb).
  destruct (decide (i = b)) as [->|Nb].
  - apply list_lookup_insert_eq. rewrite length_insert. assumption.
  - rewrite list_lookup_insert_ne by congruence.
    destruct (decide (i = a)) as [->|Na].
    + apply list_lookup_insert_eq. assumption.
    + apply list_lookup_insert_ne. congruence.
Qed.

Lemma swap_same_outside f l a b v x y :
  v !! a = Some x -> v !! b = Some y -> f <= a < l -> f <= b < l ->
  same_outside f l v (<[b := x]> (<[a := y]> v)).
Proof.
  intros Ha Hb Hfa Hfb i Hi. rewrite (swap_lookup a b v x y i Ha Hb).
  destruct (decide (i = b)); [lia|]. destruct (decide (i = a)); [lia|reflexivity].
Qed.

End Ranges.

(** ** The insertion sorts *)

Section InsertionSort.

Context {A : Type} (key : A -> Z).

Let comp (a b : A) : bool := key a <? key b.
Let key_le (a b : A) : Prop := key a <= key b.
Let keyed (k : Z) (l : list A) : list A := List.filter (fun a => key a =? k) l.

Lemma insert_at_length (l : list A) x z s :
  <[length l := z]> (l ++ x :: s) = l ++ z :: s.
Proof.
  rewrite <- (Nat.add_0_r (length l)), insert_app_r. reflexivity.
Qed.

Lemma insert_after_length (l : list A) y x z s :
  <[S (length l) := z]> (l ++ y :: x :: s) = l ++ y :: z :: s.
Proof.
  replace (S (length l)) with (length l + 1)%nat by lia.
  rewrite insert_app_r. reflexivity.
Qed.

(** One insertion from the right: the value goes behind the last element
    that is not greater. *)
Lemma unguarded_linear_insert_val_spec val p1 y : forall p2 x s,
  key y <= key val -> Forall (fun b => key val < key b) p2 ->
  unguarded_linear_insert_val comp val (length (p1 ++ y :: p2))
                              ((p1 ++ y :: p2) ++ x :: s)
  = Some (p1 ++ y :: val :: p2 ++ s).
Proof.
  induction p2 as [|b p2 IH] using rev_ind; intros x s Hy Hbig.
  - rewrite length_app. cbn [length]. rewrite Nat.add_1_r.
    cbn [unguarded_linear_insert_val].
    rewrite <- app_assoc. cbn [app].
    rewrite (list_lookup_middle p1 (x :: s) y (length p1) eq_refl).
    replace (comp val y) with false by (symmetry; apply Z.ltb_ge; lia).
    rewrite insert_after_length. reflexivity.
  - apply Forall_app in Hbig as [Hbig Hb]. inversion Hb as [|? ? Hb1 _]; subst.
    assert (E : p1 ++ y :: p2 ++ [b] = (p1 ++ y :: p2) ++ [b])
      by (rewrite <- app_assoc; reflexivity).
    rewrite E. rewrite (length_app _ [b]). cbn [length]. rewrite Nat.add_1_r.
    cbn [unguarded_linear_insert_val].
    rewrite <- (app_assoc _ [b]). cbn [app].
    rewrite (list_lookup_middle (p1 ++ y :: p2) (x :: s) b _ eq_refl).
    replace (comp val b) with true by (symmetry; apply Z.ltb_lt; lia).
    rewrite insert_after_length.
    rewrite (IH b (b :: s) Hy Hbig). f_equal.
    rewrite <- (app_assoc p2 [b] s). reflexivity.
Qed.

Let sorted (l : list A) : Prop := StronglySorted key_le l.

(** The vector after the insertion of the elements before [i]: they
    are in ascending order, those of equal key among them in the order
    they came in, and the rest of the vector is untouched. *)
Let inserted (v0 : list A) (i : nat) (v : list A) : Prop :=
  exists q, v = q ++ drop i v0 /\ length q = i /\ sorted q /\
            Permutation (take i v0) q /\
            forall k, keyed k q = keyed k (take i v0).

Lemma sorted_split val q :
  sorted q ->
  exists p1 p2, q = p1 ++ p2 /\ Forall (fun a => key a <= key val) p1 /\
                Forall (fun b => key val < key b) p2.
Proof.
  induction 1 as [|a q Hq IH Ha].
  - exists [], []. repeat split; constructor.
  - destruct (Z.le_gt_cases (key a) (key val)) as [Hle|Hgt].
    + destruct IH as (p1 & p2 & -> & H1 & H2).
      exists (a :: p1), p2. split; [reflexivity|]. split; [|exact H2].
      constructor; assumption.
    + exists [], (a :: q). split; [reflexivity|]. split; [constructor|].
      constructor; [lia|].
      eapply List.Forall_impl; [|exact Ha]. unfold key_le. cbn. intros; lia.
Qed.

Lemma sorted_insert val p1 p2 :
  sorted (p1 ++ p2) -> Forall (fun a => key a <= key val) p1 ->
  Forall (fun b => key val < key b) p2 -> sorted (p1 ++ val :: p2).
Proof.
  unfold sorted. induction p1 as [|a p1 IH]; cbn [app]; intros Hs H1 H2.
  - constructor; [exact Hs|].
    eapply List.Forall_impl; [|exact H2]. unfold key_le. cbn. intros; lia.
  - inversion Hs as [|? ? Hs' Ha]; subst.
    inversion H1 as [|? ? Hav H1']; subst.
    constructor; [apply IH; assumption|].
    apply Forall_app in Ha as [Ha1 Ha2]. apply Forall_app. split; [exact Ha1|].
    constructor; [exact Hav|exact Ha2].
Qed.

Lemma keyed_app k (l1 l2 : list A) : keyed k (l1 ++ l2) = keyed k l1 ++ keyed k l2.
Proof. apply List.filter_app. Qed.

Lemma keyed_above k val (p2 : list A) :
  Forall (fun b => key val < key b) p2 -> k = key val -> keyed k p2 = [].
Proof.
  intros H ->. induction H as [|b p2 Hb _ IH]; [reflexivity|].
  unfold keyed in *. cbn [List.filter].
  destruct (Z.eqb_spec (key b) (key val)); [lia|exact IH].
Qed.

Lemma keyed_insert k val p1 p2 :
  Forall (fun b => key val < key b) p2 ->
  keyed k (p1 ++ val :: p2) = keyed k ((p1 ++ p2) ++ [val]).
Proof.
  intros H2. rewrite !keyed_app.
  change (val :: p2) with ([val] ++ p2). rewrite keyed_app.
  destruct (Z.eq_dec k (key val)) as [E|N].
  - rewrite (keyed_above k val p2 H2 E), !app_nil_r. reflexivity.
  - assert (Hv : keyed k [val] = []).
    { unfold keyed. cbn [List.filter].
      destruct (Z.eqb_spec (key val) k); [congruence|reflexivity]. }
    rewrite Hv, !app_nil_r. reflexivity.
Qed.

(** The state after one more insertion. *)
Lemma inserted_next v0 i val p1 p2 :
  v0 !! i = Some val -> length (p1 ++ p2) = i -> sorted (p1 ++ p2) ->
  Permutation (take i v0) (p1 ++ p2) ->
  (forall k, keyed k (p1 ++ p2) = keyed k (take i v0)) ->
  Forall (fun a => key a <= key val) p1 ->
  Forall (fun b => key val < key b) p2 ->
  inserted v0 (S i) ((p1 ++ val :: p2) ++ drop (S i) v0).
Proof.
  intros Hval Hlen Hs Hp Hk H1 H2.
  exists (p1 ++ val :: p2). split; [reflexivity|].
  rewrite (take_S_r v0 i val Hval).
  split; [rewrite length_app in *; cbn [length]; lia|].
  split; [apply sorted_insert; assumption|].
  split.
  - rewrite Hp. rewrite <- app_assoc. apply Permutation_app_head.
    symmetry. apply Permutation_cons_append.
  - intros k. rewrite keyed_insert by assumption.
    rewrite !(keyed_app k _ [val]), Hk. reflexivity.
Qed.

(** An insertion that finds an element not greater than the value to its
    left. *)
Lemma unguarded_linear_insert_spec v0 i v val :
  inserted v0 i v -> v0 !! i = Some val ->
  (exists y, In y (take i v0) /\ key y <= key val) ->
  exists v', unguarded_linear_insert comp i v = Some v' /\ inserted v0 (S i) v'.
Proof.
  intros (q & -> & Hlen & Hs & Hp & Hk) Hval (y0 & Hin & Hy0).
  destruct (sorted_split val q Hs) as (p1 & p2 & -> & H1 & H2).
  assert (Hne : p1 <> []).
  { intros ->. cbn [app] in *.
    apply (Permutation_in _ Hp) in Hin.
    rewrite List.Forall_forall in H2. specialize (H2 _ Hin). lia. }
  destruct (exists_last Hne) as (p1' & y & ->).
  apply Forall_app in H1 as [H1' Hy]. inversion Hy as [|? ? Hyv _]; subst.
  assert (Hdrop : drop (length ((p1' ++ [y]) ++ p2)) v0
                  = val :: drop (S (length ((p1' ++ [y]) ++ p2))) v0)
    by (apply drop_S, Hval).
  exists (((p1' ++ [y]) ++ val :: p2) ++ drop (S (length ((p1' ++ [y]) ++ p2))) v0).
  split.
  - unfold unguarded_linear_insert. rewrite Hdrop.
    rewrite (list_lookup_middle _ _ val _ eq_refl).
    rewrite <- (app_assoc p1' [y] p2). cbn [app].
    rewrite (unguarded_linear_insert_val_spec val p1' y p2 val _ Hyv H2).
    f_equal. rewrite <- !app_assoc. reflexivity.
  - apply inserted_next; try assumption; try reflexivity.
    apply Forall_app. split; [exact H1'|]. constructor; [exact Hyv|constructor].
Qed.

Lemma inserted_lookup v0 i v val :
  inserted v0 i v -> v0 !! i = Some val -> v !! i = Some val.
Proof.
  intros (q & -> & Hlen & _) Hval. rewrite lookup_app_r by lia.
  rewrite lookup_drop. rewrite <- Hval. f_equal. lia.
Qed.

(** One turn of the loop of [__insertion_sort]. *)
Lemma insertion_step_spec v0 i v val :
  inserted v0 i v -> (1 <= i)%nat -> v0 !! i = Some val ->
  exists v', insertion_step comp 0 (Some v) i = Some v' /\ inserted v0 (S i) v'.
Proof.
  intros Hins Hi Hval. pose proof (inserted_lookup _ _ _ _ Hins Hval) as Hvi.
  pose proof Hins as (q & Hv & Hlen & Hs & Hp & Hk).
  destruct q as [|q0 q]; [cbn in Hlen; lia|].
  assert (Hv0 : v !! 0%nat = Some q0) by (rewrite Hv; reflexivity).
  unfold insertion_step. rewrite Hvi, Hv0.
  destruct (comp val q0) eqn:Hc.
  - apply Z.ltb_lt in Hc. eexists. split; [reflexivity|].
    replace (move_up_and_set 0 i val v) with (val :: take i v ++ drop (S i) v)
      by (unfold move_up_and_set; rewrite Nat.sub_0_r; reflexivity).
    assert (Ht : take i v = q0 :: q) by (rewrite Hv, take_app_length'; auto).
    assert (Hd : drop (S i) v = drop (S i) v0).
    { rewrite Hv, drop_app_ge by lia. rewrite drop_drop. f_equal. lia. }
    rewrite Ht, Hd.
    apply (inserted_next v0 i val [] (q0 :: q)); try assumption.
    + constructor.
    + inversion Hs as [|? ? _ Hall]; subst. constructor; [lia|].
      eapply List.Forall_impl; [|exact Hall]. unfold key_le. cbn. intros; lia.
  - apply Z.ltb_ge in Hc.
    apply (unguarded_linear_insert_spec v0 i v val Hins Hval).
    exists q0. split; [|exact Hc].
    apply (Permutation_in _ (Permutation_sym Hp)). left; reflexivity.
Qed.

Lemma insertion_loop_spec v0 : forall n i v,
  inserted v0 i v -> (1 <= i)%nat -> (i + n <= length v0)%nat ->
  exists v', fold_left (insertion_step comp 0) (seq i n) (Some v) = Some v' /\
             inserted v0 (i + n) v'.
Proof.
  induction n as [|n IH]; intros i v Hins Hi Hn.
  - exists v. rewrite Nat.add_0_r. split; [reflexivity|exact Hins].
  - destruct (lookup_lt_is_Some_2 v0 i ltac:(lia)) as [val Hval].
    destruct (insertion_step_spec v0 i v val Hins Hi Hval) as (v1 & E1 & H1).
    destruct (IH (S i) v1 H1 ltac:(lia) ltac:(lia)) as (v' & E' & H').
    exists v'. cbn [seq fold_left]. rewrite E1.
    split; [exact E'|]. replace (i + S n)%nat with (S i + n)%nat by lia. exact H'.
Qed.

Lemma inserted_first v0 : (1 <= length v0)%nat -> inserted v0 1 v0.
Proof.
  intros Hlen. destruct v0 as [|x v0]; [cbn in Hlen; lia|].
  exists [x]. cbn. repeat split; try reflexivity.
  constructor; constructor.
Qed.

Lemma insertion_sort_spec v0 m :
  (1 <= m <= length v0)%nat ->
  exists v', insertion_sort comp 0 m v0 = Some v' /\ inserted v0 m v'.
Proof.
  intros Hm. unfold insertion_sort.
  destruct (Nat.eqb_spec 0 m) as [E|_]; [lia|].
  destruct (insertion_loop_spec v0 (m - 1) 1 v0 (inserted_first v0 ltac:(lia))
              ltac:(lia) ltac:(lia)) as (v' & E & H).
  exists v'. split; [exact E|]. replace m with (1 + (m - 1))%nat at 1 by lia. exact H.
Qed.

(** The loop of [__unguarded_insertion_sort], when every element it takes
    has one that is not greater somewhere before it. *)
Lemma unguarded_loop_spec v0 : forall n i v,
  inserted v0 i v -> (i + n <= length v0)%nat ->
  (forall j x, (i <= j < i + n)%nat -> v0 !! j = Some x ->
     exists y, In y (take j v0) /\ key y <= key x) ->
  exists v',
    fold_left (fun acc i => match acc with
                            | Some w => unguarded_linear_insert comp i w
                            | None => None
                            end) (seq i n) (Some v) = Some v' /\
    inserted v0 (i + n) v'.
Proof.
  induction n as [|n IH]; intros i v Hins Hn Hsent.
  - exists v. rewrite Nat.add_0_r. split; [reflexivity|exact Hins].
  - destruct (lookup_lt_is_Some_2 v0 i ltac:(lia)) as [val Hval].
    destruct (unguarded_linear_insert_spec v0 i v val Hins Hval
                (Hsent i val ltac:(lia) Hval)) as (v1 & E1 & H1).
    destruct (IH (S i) v1 H1 ltac:(lia)) as (v' & E' & H').
    { intros j x Hj. apply Hsent. lia. }
    exists v'. cbn [seq fold_left]. rewrite E1.
    split; [exact E'|]. replace (i + S n)%nat with (S i + n)%nat by lia. exact H'.
Qed.

Lemma inserted_all v0 v :
  inserted v0 (length v0) v ->
  StronglySorted key_le v /\ Permutation v0 v /\
  forall k, keyed k v = keyed k v0.
Proof.
  intros (q & -> & _ & Hs & Hp & Hk).
  rewrite drop_all, app_nil_r. rewrite firstn_all in *.
  split; [exact Hs|]. split; [exact Hp|exact Hk].
Qed.

End InsertionSort.

(** ** The partition *)

Section Partition.

Context {A : Type} (key : A -> Z).

Let comp (a b : A) : bool := key a <? key b.

Implicit Types (v : list A) (f l i pv : nat).

Lemma scan_up_spec v pv p :
  v !! pv = Some p ->
  forall fuel f u xu,
    (f <= u < f + fuel)%nat -> v !! u = Some xu -> key p <= key xu ->
    exists f' x,
      scan_up comp fuel f pv v = Some f' /\ (f <= f' <= u)%nat /\
      v !! f' = Some x /\ key p <= key x /\
      all_in f f' (fun a => key a < key p) v.
Proof.
  intros Hp. induction fuel as [|fuel IH]; intros f u xu Hu Hxu Hle; [lia|].
  cbn [scan_up]. rewrite Hp.
  destruct (lookup_lt_is_Some_2 v f) as [x Hx].
  { apply lookup_lt_Some in Hxu. lia. }
  rewrite Hx. destruct (comp x p) eqn:Hc.
  - apply Z.ltb_lt in Hc.
    assert (f <> u) by (intros ->; assert (x = xu) by congruence; subst; lia).
    destruct (IH (S f) u xu ltac:(lia) Hxu Hle) as (f' & x' & E & Hf' & Hx' & Hle' & Hall).
    exists f', x'. split; [exact E|]. split; [lia|]. split; [exact Hx'|].
    split; [exact Hle'|]. intros i y Hi Hy.
    destruct (Nat.eq_dec i f) as [->|Hne].
    + assert (y = x) by congruence. subst. exact Hc.
    + apply (Hall i y); [lia|exact Hy].
  - apply Z.ltb_ge in Hc. exists f, x. split; [reflexivity|].
    split; [lia|]. split; [exact Hx|]. split; [exact Hc|].
    intros i y Hi. lia.
Qed.

Lemma scan_down_spec v pv p :
  v !! pv = Some p ->
  forall l, (pv <= l < length v)%nat ->
    exists l' x,
      scan_down comp l pv v = Some l' /\ (pv <= l' <= l)%nat /\
      v !! l' = Some x /\ key x <= key p /\
      all_in (S l') (S l) (fun a => key p < key a) v.
Proof.
  intros Hp. induction l as [|l IH]; intros Hl.
  - assert (pv = 0)%nat by lia. subst pv.
    cbn [scan_down]. rewrite Hp.
    replace (comp p p) with false by (symmetry; apply Z.ltb_irrefl).
    exists 0%nat, p. split; [reflexivity|]. split; [lia|]. split; [exact Hp|].
    split; [lia|]. intros i y Hi. lia.
  - cbn [scan_down]. rewrite Hp.
    destruct (lookup_lt_is_Some_2 v (S l) ltac:(lia)) as [x Hx]. rewrite Hx.
    destruct (comp p x) eqn:Hc.
    + apply Z.ltb_lt in Hc.
      assert (pv <> S l) by (intros ->; assert (x = p) by congruence; subst; lia).
      destruct (IH ltac:(lia)) as (l' & x' & E & Hl' & Hx' & Hle' & Hall).
      exists l', x'. split; [exact E|]. split; [lia|]. split; [exact Hx'|].
      split; [exact Hle'|]. intros i y Hi Hy.
      destruct (Nat.eq_dec i (S l)) as [->|Hne].
      * assert (y = x) by congruence. subst. exact Hc.
      * apply (Hall i y); [lia|exact Hy].
    + apply Z.ltb_ge in Hc. exists (S l), x. split; [reflexivity|].
      split; [lia|]. split; [exact Hx|]. split; [exact Hc|].
      intros i y Hi. lia.
Qed.

(** The loop of [__unguarded_partition]: the elements between the pivot
    and [cut] are not greater than the pivot, those from [cut] on are not
    smaller. *)
Lemma unguarded_partition_spec pv p L :
  forall fuel f l v,
    v !! pv = Some p ->
    (pv < f <= l)%nat -> (l <= L <= length v)%nat -> (L - f < fuel)%nat ->
    all_in (S pv) f (fun a => key a <= key p) v ->
    all_in l L (fun a => key p <= key a) v ->
    (exists u xu, (f <= u < L)%nat /\ v !! u = Some xu /\ key p <= key xu) ->
    exists cut v',
      unguarded_partition comp fuel f l pv v = Some (cut, v') /\
      v ≡ₚ v' /\ same_outside (S pv) L v v' /\ (f <= cut < L)%nat /\
      all_in (S pv) cut (fun a => key a <= key p) v' /\
      all_in cut L (fun a => key p <= key a) v'.
Proof.
  induction fuel as [|fuel IH]; intros f l v Hp Hfl HL Hfuel Hleft Hright
    (u & xu & Hu & Hxu & Hule); [lia|].
  cbn [unguarded_partition].
  destruct (scan_up_spec v pv p Hp (S (length v)) f u xu ltac:(lia) Hxu Hule)
    as (f' & x & -> & Hf' & Hx & Hxle & Hup).
  destruct l as [|l0]; [lia|].
  destruct (scan_down_spec v pv p Hp l0 ltac:(lia))
    as (l' & y & -> & Hl' & Hy & Hyle & Hdown).
  assert (Hleft' : all_in (S pv) f' (fun a => key a <= key p) v).
  { intros i z Hi Hz. destruct (Nat.lt_ge_cases i f).
    - apply (Hleft i z); [lia|exact Hz].
    - pose proof (Hup i z ltac:(lia) Hz). cbn in *. lia. }
  assert (Hright' : all_in (S l') L (fun a => key p <= key a) v).
  { intros i z Hi Hz. destruct (Nat.lt_ge_cases i (S l0)).
    - pose proof (Hdown i z ltac:(lia) Hz). cbn in *. lia.
    - apply (Hright i z); [lia|exact Hz]. }
  destruct (Nat.ltb_spec f' l') as [Hlt|Hge].
  - rewrite (iter_swap_spec f' l' v x y Hx Hy).
    set (v1 := <[l' := x]> (<[f' := y]> v)).
    assert (Hlook : forall i, v1 !! i
              = if decide (i = l') then Some x
                else if decide (i = f') then Some y else v !! i)
      by (intros i; apply swap_lookup; assumption).
    destruct (IH (S f') l' v1) as (cut & v' & E & Hperm & Hout & Hcut & HL' & HR').
    + rewrite Hlook. destruct (decide (pv = l')); [lia|].
      destruct (decide (pv = f')); [lia|exact Hp].
    + lia.
    + unfold v1. rewrite !length_insert. lia.
    + lia.
    + intros i z Hi. rewrite Hlook.
      destruct (decide (i = l')); [lia|].
      destruct (decide (i = f')) as [->|Hne].
      * intros [= <-]. exact Hyle.
      * intros Hz. apply (Hleft' i z); [lia|exact Hz].
    + intros i z Hi. rewrite Hlook.
      destruct (decide (i = l')) as [->|Hne].
      * intros [= <-]. exact Hxle.
      * destruct (decide (i = f')); [lia|].
        intros Hz. apply (Hright' i z); [lia|exact Hz].
    + exists l', x. split; [lia|]. split; [|exact Hxle].
      rewrite Hlook. destruct (decide (l' = l')); [reflexivity|congruence].
    + exists cut, v'. split; [exact E|].
      split; [etransitivity; [apply (swap_Permutation v f' l' x y Hx Hy)|exact Hperm]|].
      split; [|split; [lia|split; assumption]].
      eapply same_outside_trans; [|exact Hout].
      apply swap_same_outside; try assumption; lia.
  - exists f', v. split; [reflexivity|]. split; [reflexivity|].
    split; [apply same_outside_refl|]. split; [lia|].
    split; [exact Hleft'|].
    intros i z Hi Hz. destruct (Nat.eq_dec i l') as [->|Hne].
    + assert (f' = l') by lia. subst f'. congruence.
    + apply (Hright' i z); [lia|exact Hz].
Qed.

(** Moving one of three elements to the front while another one, not
    smaller, stays where it is. *)
Lemma median_case v f l X Y w m s :
  v !! f = Some w -> v !! X = Some m -> v !! Y = Some s -> key m <= key s ->
  (f < X < l)%nat -> (f < Y < l)%nat -> X <> Y ->
  exists v1 p,
    iter_swap f X v = Some v1 /\ v ≡ₚ v1 /\ same_outside f l v v1 /\
    v1 !! f = Some p /\
    exists u xu, (f + 1 <= u < l)%nat /\ v1 !! u = Some xu /\ key p <= key xu.
Proof.
  intros Hf HX HY Hle HXl HYl Hne.
  exists (<[X := w]> (<[f := m]> v)), m.
  split; [apply iter_swap_spec; assumption|].
  split; [apply swap_Permutation; assumption|].
  split; [apply swap_same_outside; try assumption; lia|].
  split.
  - rewrite (swap_lookup f X v w m f Hf HX).
    destruct (decide (f = X)); [lia|]. destruct (decide (f = f)); [reflexivity|congruence].
  - exists Y, s. split; [lia|]. split; [|exact Hle].
    rewrite (swap_lookup f X v w m Y Hf HX).
    destruct (decide (Y = X)); [congruence|]. destruct (decide (Y = f)); [lia|exact HY].
Qed.

Lemma move_median_to_first_spec v f l :
  (f + 4 <= l <= length v)%nat ->
  exists v1 p,
    move_median_to_first comp f (f + 1) (f + (l - f) / 2) (l - 1) v = Some v1 /\
    v ≡ₚ v1 /\ same_outside f l v v1 /\ v1 !! f = Some p /\
    exists u xu, (f + 1 <= u < l)%nat /\ v1 !! u = Some xu /\ key p <= key xu.
Proof.
  intros Hl.
  assert (Hmid : (f + 1 < f + (l - f) / 2 < l - 1)%nat).
  { pose proof (Nat.div_mod_eq (l - f) 2) as E.
    pose proof (Nat.mod_upper_bound (l - f) 2 ltac:(lia)). lia. }
  set (mid := (f + (l - f) / 2)%nat) in *.
  destruct (lookup_lt_is_Some_2 v f ltac:(lia)) as [w Hw].
  destruct (lookup_lt_is_Some_2 v (f + 1) ltac:(lia)) as [a Ha].
  destruct (lookup_lt_is_Some_2 v mid ltac:(lia)) as [b Hb].
  destruct (lookup_lt_is_Some_2 v (l - 1) ltac:(lia)) as [c Hc].
  unfold move_median_to_first. rewrite Ha, Hb, Hc. unfold comp.
  destruct (Z.ltb_spec (key a) (key b)).
  - destruct (Z.ltb_spec (key b) (key c)).
    + apply (median_case v f l mid (l - 1)%nat w b c); try assumption; lia.
    + destruct (Z.ltb_spec (key a) (key c)).
      * apply (median_case v f l (l - 1)%nat mid w c b); try assumption; lia.
      * apply (median_case v f l (f + 1)%nat mid w a b); try assumption; lia.
  - destruct (Z.ltb_spec (key a) (key c)).
    + apply (median_case v f l (f + 1)%nat (l - 1)%nat w a c); try assumption; lia.
    + destruct (Z.ltb_spec (key b) (key c)).
      * apply (median_case v f l (l - 1)%nat (f + 1)%nat w c a); try assumption; lia.
      * apply (median_case v f l mid (f + 1)%nat w b a); try assumption; lia.
Qed.

(** [__unguarded_partition_pivot] on a range of more than three
    elements: both parts are non-empty, no element of the first is greater
    than the pivot and no element of the second is smaller. *)
Lemma unguarded_partition_pivot_spec v f l :
  (f + 4 <= l <= length v)%nat ->
  exists cut v' p,
    unguarded_partition_pivot comp f l v = Some (cut, v') /\
    v ≡ₚ v' /\ same_outside f l v v' /\ (f < cut < l)%nat /\
    all_in f cut (fun a => key a <= key p) v' /\
    all_in cut l (fun a => key p <= key a) v'.
Proof.
  intros Hl. unfold unguarded_partition_pivot.
  destruct (move_median_to_first_spec v f l Hl)
    as (v1 & p & -> & Hp1 & Ho1 & Hpv & Hsent).
  pose proof (Permutation_length Hp1) as Hlen.
  destruct (unguarded_partition_spec f p l (S (length v1)) (f + 1) l v1)
    as (cut & v' & E & Hp2 & Ho2 & Hcut & HL & HR); try assumption; try lia.
  - intros i x Hi. lia.
  - intros i x Hi. lia.
  - exists cut, v', p. split; [exact E|].
    split; [etransitivity; eassumption|].
    split; [eapply same_outside_trans;
            [exact Ho1|eapply same_outside_wider; [| |exact Ho2]; lia]|].
    split; [lia|]. split; [|exact HR].
    intros i x Hi Hx. destruct (Nat.eq_dec i f) as [->|Hne].
    + rewrite (Ho2 f ltac:(lia)) in Hx. assert (x = p) by congruence. subst. lia.
    + apply (HL i x); [lia|exact Hx].
Qed.

End Partition.

(** ** The heap sort *)

Section Heap.

Context {A : Type} (key : A -> Z).

Let comp (a b : A) : bool := key a <? key b.

Variable first : nat.

Implicit Types (v : list A) (h i c top len : nat).

(** The key at the place [i] of the heap that starts at [first]. *)
Definition kat v i : Z :=
  match v !! (first + i)%nat with Some x => key x | None => 0 end.

Lemma kat_lookup v i x : v !! (first + i)%nat = Some x -> kat v i = key x.
Proof. unfold kat. intros ->. reflexivity. Qed.

Lemma kat_insert v h z i :
  (first + h < length v)%nat ->
  kat (<[(first + h)%nat := z]> v) i = if decide (i = h) then key z else kat v i.
Proof.
  intros Hh. unfold kat. destruct (decide (i = h)) as [->|Hne].
  - rewrite list_lookup_insert_eq by exact Hh. reflexivity.
  - rewrite list_lookup_insert_ne by lia. reflexivity.
Qed.

(** [c] lies in the subtree of [top]. *)
Inductive below top : nat -> Prop :=
| below_top : below top top
| below_child h c :
    below top h -> (1 <= c)%nat -> ((c - 1) / 2)%nat = h -> below top c.

Lemma below_ge top h : below top h -> (top <= h)%nat.
Proof.
  induction 1 as [|h c _ IH Hc Hp]; [lia|].
  pose proof (Nat.div_mod_eq (c - 1) 2).
  pose proof (Nat.mod_upper_bound (c - 1) 2 ltac:(lia)). lia.
Qed.

Lemma below_parent top h :
  below top h -> (top < h)%nat -> below top ((h - 1) / 2).
Proof.
  destruct 1 as [|h0 c Hb Hc Hp]; [lia|]. intros _. rewrite Hp. exact Hb.
Qed.

(** Every place from 1 on whose parent is [top] or later holds a key that
    is not greater than its parent's. *)
Definition heap_from top len v : Prop :=
  forall i, (1 <= i < len)%nat -> (top <= (i - 1) / 2)%nat ->
            kat v i <= kat v ((i - 1) / 2).

(** The heap with a hole at [h]: the order holds between the places other
    than the hole, and the children of the hole are not greater than its
    parent. *)
Definition hole_inv top len h v : Prop :=
  below top h /\ (h < len)%nat /\
  (forall i, (1 <= i < len)%nat -> i <> h -> ((i - 1) / 2)%nat <> h ->
             (top <= (i - 1) / 2)%nat -> kat v i <= kat v ((i - 1) / 2)) /\
  ((top < h)%nat ->
   forall c, (1 <= c < len)%nat -> ((c - 1) / 2)%nat = h ->
             kat v c <= kat v ((h - 1) / 2)).

(** The hole moves to its child [c], whose element goes up. *)
Lemma hole_down top len h c v z :
  hole_inv top len h v -> (first + len <= length v)%nat ->
  (1 <= c < len)%nat -> ((c - 1) / 2)%nat = h ->
  v !! (first + c)%nat = Some z ->
  (forall s, (1 <= s < len)%nat -> ((s - 1) / 2)%nat = h -> kat v s <= key z) ->
  hole_inv top len c (<[(first + h)%nat := z]> v).
Proof.
  intros (Hb & Hh & Hpairs & Hup) Hlen Hc Hpc Hz Hmax.
  pose proof (below_ge _ _ Hb) as Hge.
  pose proof (kat_lookup v c z Hz) as Hkz.
  assert (Hch : (h < c)%nat).
  { pose proof (Nat.div_mod_eq (c - 1) 2).
    pose proof (Nat.mod_upper_bound (c - 1) 2 ltac:(lia)). lia. }
  split; [eapply below_child; [exact Hb|lia|exact Hpc]|].
  split; [lia|]. split.
  - intros i Hi Hic Hpi Htop. rewrite !kat_insert by lia.
    destruct (decide (i = h)) as [->|Hih].
    + destruct (decide (((h - 1) / 2)%nat = h)) as [E|_].
      * pose proof (Nat.div_mod_eq (h - 1) 2).
        pose proof (Nat.mod_upper_bound (h - 1) 2 ltac:(lia)). lia.
      * rewrite <- Hkz. apply Hup; [|lia|exact Hpc].
        pose proof (Nat.div_mod_eq (h - 1) 2).
        pose proof (Nat.mod_upper_bound (h - 1) 2 ltac:(lia)). lia.
    + destruct (decide (((i - 1) / 2)%nat = h)) as [E|NE].
      * apply Hmax; [lia|exact E].
      * apply Hpairs; assumption.
  - intros _ d Hd Hpd. rewrite !kat_insert by lia.
    assert (Hcd : (c < d)%nat).
    { pose proof (Nat.div_mod_eq (d - 1) 2).
      pose proof (Nat.mod_upper_bound (d - 1) 2 ltac:(lia)). lia. }
    destruct (decide (d = h)); [lia|].
    rewrite Hpc. destruct (decide (h = h)); [|congruence].
    rewrite <- Hkz.
    replace (kat v c) with (kat v ((d - 1) / 2)) by (rewrite Hpd; reflexivity).
    apply Hpairs; lia.
Qed.

Lemma parent_spec c : (2 * ((c - 1) / 2) <= c - 1 < 2 * ((c - 1) / 2) + 2)%nat.
Proof.
  pose proof (Nat.div_mod_eq (c - 1) 2).
  pose proof (Nat.mod_upper_bound (c - 1) 2 ltac:(lia)). lia.
Qed.

Lemma half_spec n : (2 * (n / 2) <= n < 2 * (n / 2) + 2)%nat.
Proof.
  pose proof (Nat.div_mod_eq n 2).
  pose proof (Nat.mod_upper_bound n 2 ltac:(lia)). lia.
Qed.

Lemma insert_same_outside f l a z v :
  (f <= a < l)%nat -> same_outside f l v (<[a := z]> v).
Proof.
  intros Ha i Hi. apply list_lookup_insert_ne. lia.
Qed.

(** The hole moves to its parent, whose element comes down. *)
Lemma hole_up top len h v pv value :
  hole_inv top len h v -> (first + len <= length v)%nat -> (top < h)%nat ->
  v !! (first + (h - 1) / 2)%nat = Some pv -> key pv < key value ->
  (forall c, (1 <= c < len)%nat -> ((c - 1) / 2)%nat = h -> kat v c <= key value) ->
  let v' := <[(first + h)%nat := pv]> v in
  hole_inv top len ((h - 1) / 2) v' /\
  (forall c, (1 <= c < len)%nat -> ((c - 1) / 2)%nat = ((h - 1) / 2)%nat ->
             kat v' c <= key value).
Proof.
  intros (Hb & Hh & Hpairs & Hup) Hlen Hth Hpv Hlt Hch v'. subst v'.
  pose proof (kat_lookup v _ pv Hpv) as Hkp.
  pose proof (parent_spec h) as Hph.
  pose proof (below_parent _ _ Hb Hth) as Hb'.
  pose proof (below_ge _ _ Hb') as Hge'.
  assert (Hchild : forall d, (1 <= d < len)%nat ->
            ((d - 1) / 2)%nat = ((h - 1) / 2)%nat ->
            kat (<[(first + h)%nat := pv]> v) d <= key pv).
  { intros d Hd Hpd. rewrite kat_insert by lia.
    destruct (decide (d = h)); [lia|]. rewrite <- Hkp, <- Hpd.
    apply Hpairs; lia. }
  split; [|intros d Hd Hpd; specialize (Hchild d Hd Hpd); lia].
  split; [exact Hb'|]. split; [lia|]. split.
  - intros i Hi Hih Hpi Htop. rewrite !kat_insert by lia.
    destruct (decide (i = h)) as [->|Hne]; [congruence|].
    destruct (decide (((i - 1) / 2)%nat = h)) as [E|NE].
    + rewrite <- Hkp. apply Hup; [lia|lia|exact E].
    + apply Hpairs; assumption.
  - intros Htop d Hd Hpd.
    pose proof (below_ge _ _ (below_parent _ _ Hb' Htop)) as Hgp.
    pose proof (parent_spec ((h - 1) / 2)) as Hpp.
    transitivity (key pv); [apply Hchild; assumption|].
    rewrite kat_insert by lia.
    destruct (decide ((((h - 1) / 2 - 1) / 2)%nat = h)); [lia|].
    rewrite <- Hkp. apply Hpairs; lia.
Qed.

(** The value goes into the hole, and the heap is whole again. *)
Lemma hole_fill top len h v value :
  hole_inv top len h v -> (first + len <= length v)%nat ->
  ((top < h)%nat -> key value <= kat v ((h - 1) / 2)) ->
  (forall c, (1 <= c < len)%nat -> ((c - 1) / 2)%nat = h -> kat v c <= key value) ->
  heap_from top len (<[(first + h)%nat := value]> v).
Proof.
  intros (Hb & Hh & Hpairs & Hup) Hlen Hpar Hch i Hi Htop.
  pose proof (below_ge _ _ Hb) as Hge.
  pose proof (parent_spec i) as Hpi.
  rewrite !kat_insert by lia.
  destruct (decide (i = h)) as [->|Hne].
  - destruct (decide (((h - 1) / 2)%nat = h)); [lia|]. apply Hpar. lia.
  - destruct (decide (((i - 1) / 2)%nat = h)) as [E|NE].
    + apply Hch; [lia|exact E].
    + apply Hpairs; assumption.
Qed.

(** With the value in the hole, a move of the hole is a swap. *)
Lemma fill_step v h h2 z value :
  (first + h < length v)%nat -> v !! (first + h2)%nat = Some z -> h <> h2 ->
  <[(first + h)%nat := value]> v
  ≡ₚ <[(first + h2)%nat := value]> (<[(first + h)%nat := z]> v).
Proof.
  intros Hh Hz Hne.
  rewrite <- (list_insert_insert_eq v (first + h) z value).
  apply swap_Permutation.
  - apply list_lookup_insert_eq. exact Hh.
  - rewrite list_lookup_insert_ne by lia. exact Hz.
Qed.

Lemma adjust_heap_down_spec top len value : forall fuel h v,
  hole_inv top len h v -> (first + len <= length v)%nat ->
  (len <= fuel + h)%nat ->
  exists h' v',
    adjust_heap_down comp fuel first h h len v = Some (h', h', v') /\
    hole_inv top len h' v' /\ ((len - 1) / 2 <= h')%nat /\
    <[(first + h)%nat := value]> v ≡ₚ <[(first + h')%nat := value]> v' /\
    same_outside first (first + len) v v' /\ length v' = length v.
Proof.
  induction fuel as [|fuel IH]; intros h v Hinv Hlen Hfuel;
    cbn [adjust_heap_down]; pose proof (half_spec (len - 1)) as Hhalf;
    destruct (Nat.ltb_spec h ((len - 1) / 2)) as [Hlt|Hge].
  - lia.
  - exists h, v. split; [reflexivity|]. split; [exact Hinv|]. split; [exact Hge|].
    split; [reflexivity|]. split; [apply same_outside_refl|reflexivity].
  - destruct (lookup_lt_is_Some_2 v (first + 2 * (h + 1))%nat ltac:(lia)) as [x Hx].
    destruct (lookup_lt_is_Some_2 v (first + (2 * (h + 1) - 1))%nat ltac:(lia)) as [y Hy].
    rewrite Hx, Hy.
    set (c := if comp x y then (2 * (h + 1) - 1)%nat else (2 * (h + 1))%nat).
    assert (Hc : exists z, v !! (first + c)%nat = Some z /\
               (1 <= c < len)%nat /\ ((c - 1) / 2)%nat = h /\
               key x <= key z /\ key y <= key z).
    { subst c. unfold comp. destruct (Z.ltb_spec (key x) (key y)).
      - exists y. split; [exact Hy|]. split; [lia|]. split; [|lia].
        pose proof (parent_spec (2 * (h + 1) - 1)). lia.
      - exists x. split; [exact Hx|]. split; [lia|]. split; [|lia].
        pose proof (parent_spec (2 * (h + 1))). lia. }
    destruct Hc as (z & Hz & Hcl & Hpc & Hxz & Hyz). rewrite Hz.
    assert (Hinv' : hole_inv top len c (<[(first + h)%nat := z]> v)).
    { apply hole_down; try assumption.
      intros s Hs Hps. pose proof (parent_spec s).
      destruct (decide (s = (2 * (h + 1))%nat)) as [->|].
      - rewrite (kat_lookup _ _ _ Hx). exact Hxz.
      - replace s with (2 * (h + 1) - 1)%nat by lia.
        rewrite (kat_lookup _ _ _ Hy). exact Hyz. }
    pose proof (parent_spec c) as Hpsc.
    destruct (IH c (<[(first + h)%nat := z]> v) Hinv') as (h' & v' & E & Hi' & Hh' & Hp & Ho & Hl).
    { rewrite length_insert. exact Hlen. }
    { lia. }
    exists h', v'. split; [exact E|]. split; [exact Hi'|]. split; [exact Hh'|].
    rewrite length_insert in Hl. split; [|split; [|exact Hl]].
    + etransitivity; [|exact Hp]. apply fill_step; [lia|exact Hz|lia].
    + eapply same_outside_trans; [|exact Ho]. apply insert_same_outside. lia.
  - exists h, v. split; [reflexivity|]. split; [exact Hinv|]. split; [exact Hge|].
    split; [reflexivity|]. split; [apply same_outside_refl|reflexivity].
Qed.

Lemma push_heap_spec top len value : forall fuel h v,
  hole_inv top len h v -> (first + len <= length v)%nat ->
  (forall c, (1 <= c < len)%nat -> ((c - 1) / 2)%nat = h -> kat v c <= key value) ->
  (h <= fuel)%nat ->
  exists v',
    push_heap comp fuel first h top value v = Some v' /\
    heap_from top len v' /\
    <[(first + h)%nat := value]> v ≡ₚ v' /\
    same_outside first (first + len) v v' /\ length v' = length v.
Proof.
  induction fuel as [|fuel IH]; intros h v Hinv Hlen Hch Hfuel;
    cbn [push_heap]; pose proof (parent_spec h) as Hph;
    pose proof Hinv as (Hb & Hh & _);
    destruct (Nat.ltb_spec top h) as [Hlt|Hge].
  - lia.
  - exists (<[(first + h)%nat := value]> v). split; [reflexivity|].
    split; [apply hole_fill; auto; lia|]. split; [reflexivity|].
    split; [apply insert_same_outside; lia|apply length_insert].
  - destruct (lookup_lt_is_Some_2 v (first + (h - 1) / 2)%nat ltac:(lia)) as [pv Hpv].
    rewrite Hpv. unfold comp at 1. destruct (Z.ltb_spec (key pv) (key value)) as [Hc|Hc].
    + destruct (hole_up top len h v pv value Hinv Hlen Hlt Hpv Hc Hch) as [Hinv' Hch'].
      destruct (IH _ _ Hinv') as (v' & E & Hheap & Hp & Ho & Hl).
      { rewrite length_insert. exact Hlen. }
      { exact Hch'. }
      { lia. }
      exists v'. split; [exact E|]. split; [exact Hheap|].
      rewrite length_insert in Hl. split; [|split; [|exact Hl]].
      * etransitivity; [|exact Hp]. apply fill_step; [lia|exact Hpv|lia].
      * eapply same_outside_trans; [|exact Ho]. apply insert_same_outside. lia.
    + exists (<[(first + h)%nat := value]> v). split; [reflexivity|].
      split; [apply hole_fill; auto; intros _; rewrite (kat_lookup _ _ _ Hpv); lia|].
      split; [reflexivity|].
      split; [apply insert_same_outside; lia|apply length_insert].
  - exists (<[(first + h)%nat := value]> v). split; [reflexivity|].
    split; [apply hole_fill; auto; lia|]. split; [reflexivity|].
    split; [apply insert_same_outside; lia|apply length_insert].
Qed.

Lemma hole_start top len v :
  heap_from (S top) len v -> (top < len)%nat -> hole_inv top len top v.
Proof.
  intros Hheap Hlt. split; [constructor|]. split; [exact Hlt|]. split.
  - intros i Hi _ Hne Hge. apply Hheap; [exact Hi|lia].
  - lia.
Qed.

Lemma adjust_heap_spec top len value v :
  hole_inv top len top v -> (first + len <= length v)%nat ->
  exists v',
    adjust_heap comp first top len value v = Some v' /\
    heap_from top len v' /\
    <[(first + top)%nat := value]> v ≡ₚ v' /\
    same_outside first (first + len) v v' /\ length v' = length v.
Proof.
  intros Hinv Hlen. unfold adjust_heap.
  destruct (adjust_heap_down_spec top len value len top v Hinv Hlen ltac:(lia))
    as (h & v1 & E & Hi1 & Hh1 & Hp1 & Ho1 & Hl1).
  rewrite E. pose proof Hi1 as (Hb1 & Hhl & _).
  pose proof (half_spec (len - 1)) as Hhalf.
  pose proof (half_spec (len - 2)) as Hhalf2.
  destruct (Nat.even len && (h =? (len - 2) / 2)%nat) eqn:Hev.
  - apply andb_prop in Hev. destruct Hev as [Heven Hh].
    apply Nat.eqb_eq in Hh. apply Nat.even_spec in Heven.
    destruct Heven as [k Hk].
    assert (Hc : (2 * (h + 1) - 1 = len - 1)%nat) by lia.
    cbv zeta. rewrite Hc.
    destruct (lookup_lt_is_Some_2 v1 (first + (len - 1))%nat ltac:(lia)) as [x Hx].
    rewrite Hx. pose proof (parent_spec (len - 1)) as Hpl.
    assert (Hinv' : hole_inv top len (len - 1) (<[(first + h)%nat := x]> v1)).
    { apply hole_down; try assumption; try lia.
      intros s Hs Hps. pose proof (parent_spec s).
      replace s with (len - 1)%nat by lia.
      rewrite (kat_lookup _ _ _ Hx). lia. }
    destruct (push_heap_spec top len value len (len - 1) _ Hinv')
      as (v' & E' & Hheap & Hp & Ho & Hl).
    { rewrite length_insert. lia. }
    { intros c Hcl Hpc. pose proof (parent_spec c). lia. }
    { lia. }
    exists v'. split; [exact E'|]. split; [exact Hheap|].
    rewrite length_insert in Hl. split; [|split; [|lia]].
    + etransitivity; [exact Hp1|]. etransitivity; [|exact Hp].
      apply fill_step; [lia|exact Hx|lia].
    + eapply same_outside_trans; [exact Ho1|].
      eapply same_outside_trans; [|exact Ho]. apply insert_same_outside. lia.
  - destruct (push_heap_spec top len value len h v1 Hi1)
      as (v' & E' & Hheap & Hp & Ho & Hl).
    { lia. }
    { intros c Hcl Hpc. pose proof (parent_spec c).
      apply andb_false_iff in Hev. destruct Hev as [Hev|Hev].
      - assert (Hodd : Nat.even len = true); [|congruence].
        apply Nat.even_spec. exists (h + 1)%nat. lia.
      - apply Nat.eqb_neq in Hev. lia. }
    { lia. }
    exists v'. split; [exact E'|]. split; [exact Hheap|].
    split; [|split; [|lia]].
    + etransitivity; [exact Hp1|exact Hp].
    + eapply same_outside_trans; [exact Ho1|exact Ho].
Qed.

Lemma make_heap_from_spec len : forall parent v,
  heap_from (S parent) len v -> (parent < len)%nat ->
  (first + len <= length v)%nat ->
  exists v',
    make_heap_from comp parent first len v = Some v' /\
    heap_from 0 len v' /\ v ≡ₚ v' /\
    same_outside first (first + len) v v' /\ length v' = length v.
Proof.
  induction parent as [|parent IH]; intros v Hheap Hlt Hlen; cbn [make_heap_from].
  - destruct (lookup_lt_is_Some_2 v (first + 0)%nat ltac:(lia)) as [value Hv].
    rewrite Hv.
    destruct (adjust_heap_spec 0 len value v (hole_start _ _ _ Hheap Hlt) Hlen)
      as (v' & E & Hh & Hp & Ho & Hl).
    rewrite E. exists v'. split; [reflexivity|]. split; [exact Hh|].
    rewrite (list_insert_id _ _ _ Hv) in Hp. auto.
  - destruct (lookup_lt_is_Some_2 v (first + S parent)%nat ltac:(lia)) as [value Hv].
    rewrite Hv.
    destruct (adjust_heap_spec (S parent) len value v (hole_start _ _ _ Hheap Hlt) Hlen)
      as (v1 & E & Hh & Hp & Ho & Hl).
    rewrite E. rewrite (list_insert_id _ _ _ Hv) in Hp.
    destruct (IH v1 Hh ltac:(lia) ltac:(lia)) as (v' & E' & Hh' & Hp' & Ho' & Hl').
    exists v'. split; [exact E'|]. split; [exact Hh'|].
    split; [etransitivity; eassumption|].
    split; [eapply same_outside_trans; eassumption|lia].
Qed.

Lemma make_heap_spec last v :
  (first <= last <= length v)%nat ->
  exists v',
    make_heap comp first last v = Some v' /\
    heap_from 0 (last - first) v' /\ v ≡ₚ v' /\
    same_outside first last v v' /\ length v' = length v.
Proof.
  intros Hfl. unfold make_heap.
  destruct (Nat.ltb_spec (last - first) 2) as [Hsmall|Hbig].
  - exists v. split; [reflexivity|]. split; [intros i Hi; lia|].
    split; [reflexivity|]. split; [apply same_outside_refl|reflexivity].
  - pose proof (half_spec (last - first - 2)) as Hhalf.
    destruct (make_heap_from_spec (last - first) ((last - first - 2) / 2) v)
      as (v' & E & Hh & Hp & Ho & Hl).
    { intros i Hi Hge. pose proof (parent_spec i). lia. }
    { lia. }
    { lia. }
    exists v'. split; [exact E|]. split; [exact Hh|]. split; [exact Hp|].
    split; [|exact Hl]. replace last with (first + (last - first))%nat at 1 by lia.
    exact Ho.
Qed.

(** The root of a heap holds a greatest key. *)
Lemma heap_root_max len v :
  heap_from 0 len v -> forall i, (i < len)%nat -> kat v i <= kat v 0.
Proof.
  intros Hheap i. induction i as [i IH] using lt_wf_ind. intros Hi.
  destruct (decide (i = 0%nat)) as [->|Hne]; [lia|].
  pose proof (parent_spec i) as Hp.
  transitivity (kat v ((i - 1) / 2)).
  - apply Hheap; lia.
  - apply IH; lia.
Qed.

(** A bound on the keys of a range is kept by a rearrangement of it. *)
Lemma range_bound m K v v' :
  v ≡ₚ v' -> same_outside first (first + m) v v' ->
  (first + m <= length v)%nat ->
  (forall i, (i < m)%nat -> kat v i <= K) ->
  forall i, (i < m)%nat -> kat v' i <= K.
Proof.
  intros Hp Ho Hlen Hall i Hi.
  assert (Hin : all_in first (first + m) (fun a => key a <= K) v).
  { intros j x Hj Hx. replace j with (first + (j - first))%nat in Hx by lia.
    rewrite <- (kat_lookup _ _ _ Hx). apply Hall. lia. }
  apply (all_in_Permutation _ _ _ _ _ Hp Ho ltac:(lia)) in Hin.
  destruct (lookup_lt_is_Some_2 v' (first + i)%nat) as [x Hx].
  { rewrite <- (Permutation_length Hp). lia. }
  rewrite (kat_lookup _ _ _ Hx). apply (Hin (first + i)%nat x); [lia|exact Hx].
Qed.

Lemma pop_heap_spec n v :
  heap_from 0 (S n) v -> (1 <= n)%nat -> (first + S n <= length v)%nat ->
  exists v',
    pop_heap comp first (first + n) (first + n) v = Some v' /\
    heap_from 0 n v' /\ v ≡ₚ v' /\
    same_outside first (first + S n) v v' /\
    kat v' n = kat v 0 /\
    (forall i, (i < n)%nat -> kat v' i <= kat v 0).
Proof.
  intros Hheap Hn Hlen. unfold pop_heap.
  destruct (lookup_lt_is_Some_2 v (first + n)%nat ltac:(lia)) as [value Hv].
  destruct (lookup_lt_is_Some_2 v (first + 0)%nat ltac:(lia)) as [x Hx].
  rewrite Hv. replace (v !! first) with (Some x)
    by (rewrite <- Hx; f_equal; lia).
  replace (first + n - first)%nat with n by lia.
  set (v1 := <[(first + n)%nat := x]> v).
  assert (Hinv : hole_inv 0 n 0 v1).
  { split; [constructor|]. split; [lia|]. split; [|lia].
    intros i Hi _ Hne _. pose proof (parent_spec i). subst v1.
    rewrite !kat_insert by lia.
    destruct (decide (i = n)); [lia|].
    destruct (decide (((i - 1) / 2)%nat = n)); [lia|].
    apply Hheap; lia. }
  destruct (adjust_heap_spec 0 n value v1 Hinv) as (v' & E & Hh & Hp & Ho & Hl).
  { subst v1. rewrite length_insert. lia. }
  assert (Hperm : v ≡ₚ <[(first + 0)%nat := value]> v1).
  { subst v1. apply swap_Permutation; assumption. }
  assert (Hout : same_outside first (first + S n) v v').
  { eapply same_outside_trans.
    - apply (insert_same_outside first (first + S n) (first + n) x v). lia.
    - eapply same_outside_wider; [| |exact Ho]; lia. }
  assert (Hlast : kat v' n = kat v 0).
  { unfold kat at 1. rewrite (Ho (first + n)%nat) by lia. subst v1.
    rewrite list_lookup_insert_eq by lia. symmetry. apply kat_lookup, Hx. }
  exists v'. split; [exact E|]. split; [exact Hh|].
  split; [etransitivity; eassumption|]. split; [exact Hout|].
  split; [exact Hlast|].
  intros i Hi.
  apply (range_bound (S n) (kat v 0) v v'); try assumption; try lia.
  - etransitivity; eassumption.
  - intros j Hj. apply (heap_root_max (S n)); assumption.
Qed.

(** From place [n] on, every key is not less than any key before it. *)
Definition settled n N v : Prop :=
  forall i j, (i < j < N)%nat -> (n <= j)%nat -> kat v i <= kat v j.

Lemma sort_heap_n_spec N : forall n v,
  (n <= N)%nat -> heap_from 0 n v -> settled n N v ->
  (first + N <= length v)%nat ->
  exists v',
    sort_heap_n comp n first v = Some v' /\
    settled 0 N v' /\ v ≡ₚ v' /\ same_outside first (first + N) v v'.
Proof.
  induction n as [n IH] using lt_wf_ind. intros v HnN Hheap Hset Hlen.
  destruct n as [|[|n]].
  - exists v. split; [reflexivity|]. split; [exact Hset|].
    split; [reflexivity|apply same_outside_refl].
  - exists v. split; [reflexivity|]. split; [|split; [reflexivity|apply same_outside_refl]].
    intros i j Hij _. apply Hset; lia.
  - cbn [sort_heap_n].
    destruct (pop_heap_spec (S n) v Hheap ltac:(lia) ltac:(lia))
      as (v1 & E & Hh & Hp & Ho & Hlast & Hmax).
    rewrite E.
    assert (Hl1 : length v1 = length v) by (symmetry; apply Permutation_length, Hp).
    assert (Hkeep : forall j, (S (S n) <= j)%nat -> kat v1 j = kat v j).
    { intros j Hj. unfold kat. rewrite (Ho (first + j)%nat) by lia. reflexivity. }
    destruct (IH (S n) ltac:(lia) v1 ltac:(lia) Hh) as (v' & E' & Hs & Hp' & Ho').
    { intros i j Hij Hj.
      destruct (decide (j = S n)) as [->|Hne].
      - rewrite Hlast. apply Hmax. lia.
      - rewrite (Hkeep j) by lia.
        destruct (Nat.lt_ge_cases i (S (S n))) as [Hi|Hi].
        + apply (range_bound (S (S n)) (kat v j) v v1); try assumption; try lia.
          intros i' Hi'. apply Hset; lia.
        + rewrite (Hkeep i) by lia. apply Hset; lia. }
    { lia. }
    exists v'. split; [exact E'|]. split; [exact Hs|].
    split; [etransitivity; eassumption|].
    eapply same_outside_trans; [|exact Ho'].
    eapply same_outside_wider; [| |exact Ho]; lia.
Qed.

Lemma partial_sort_spec last v :
  (first <= last <= length v)%nat ->
  exists v',
    partial_sort comp first last last v = Some v' /\
    v ≡ₚ v' /\ same_outside first last v v' /\
    settled 0 (last - first) v'.
Proof.
  intros Hfl. unfold partial_sort, heap_select.
  destruct (make_heap_spec last v Hfl) as (v1 & E & Hh & Hp & Ho & Hl).
  rewrite E, Nat.sub_diag. cbn [seq fold_left]. unfold sort_heap.
  destruct (sort_heap_n_spec (last - first) (last - first) v1) as (v' & E' & Hs & Hp' & Ho').
  { lia. }
  { exact Hh. }
  { intros i j Hij Hj. lia. }
  { lia. }
  exists v'. split; [exact E'|]. split; [etransitivity; eassumption|].
  split; [|exact Hs].
  eapply same_outside_trans; [exact Ho|].
  replace last with (first + (last - first))%nat at 1 by lia. exact Ho'.
Qed.

End Heap.

(** ** The whole sort *)

Section Introsort.

Context {A : Type} (key : A -> Z).

Let comp (a b : A) : bool := key a <? key b.
Let key_le (a b : A) : Prop := key a <= key b.
Let keyed (k : Z) (l : list A) : list A := List.filter (fun a => key a =? k) l.

(** What [__introsort_loop] leaves for the final insertion sort: from the
    17th place of the range on, every element has one before it in the range
    that is not greater. *)
Definition guarded (f l : nat) (v : list A) : Prop :=
  forall i x, (f + S_threshold <= i < l)%nat -> v !! i = Some x ->
    exists j y, (f <= j < i)%nat /\ v !! j = Some y /\ key y <= key x.

Lemma introsort_loop_spec : forall depth_limit f l v,
  (f <= l <= length v)%nat ->
  exists v',
    introsort_loop comp depth_limit f l v = Some v' /\
    v ≡ₚ v' /\ same_outside f l v v' /\ guarded f l v'.
Proof.
  induction depth_limit as [|d IH]; intros f l v Hfl; cbn [introsort_loop];
    unfold S_threshold at 1;
    destruct (Nat.ltb_spec 16 (l - f)) as [Hbig|Hsmall].
  - destruct (partial_sort_spec key f l v Hfl) as (v' & E & Hp & Ho & Hs).
    exists v'. split; [exact E|]. split; [exact Hp|]. split; [exact Ho|].
    intros i x Hi Hx. unfold S_threshold in Hi.
    destruct (lookup_lt_is_Some_2 v' (i - 1)%nat) as [y Hy].
    { apply lookup_lt_Some in Hx. lia. }
    exists (i - 1)%nat, y. split; [lia|]. split; [exact Hy|].
    replace i with (f + (i - f))%nat in Hx by lia.
    replace (i - 1)%nat with (f + (i - 1 - f))%nat in Hy by lia.
    rewrite <- (kat_lookup key f _ _ _ Hx), <- (kat_lookup key f _ _ _ Hy).
    apply Hs; lia.
  - exists v. split; [reflexivity|]. split; [reflexivity|].
    split; [apply same_outside_refl|].
    intros i x Hi. unfold S_threshold in Hi. lia.
  - destruct (unguarded_partition_pivot_spec key v f l ltac:(lia))
      as (cut & v1 & p & E & Hp1 & Ho1 & Hcut & Hlow & Hhigh).
    fold comp in E. rewrite E.
    pose proof (Permutation_length Hp1) as Hl1.
    destruct (IH cut l v1 ltac:(lia)) as (v2 & E2 & Hp2 & Ho2 & Hg2).
    rewrite E2. pose proof (Permutation_length Hp2) as Hl2.
    destruct (IH f cut v2 ltac:(lia)) as (v3 & E3 & Hp3 & Ho3 & Hg3).
    exists v3. split; [exact E3|].
    split; [etransitivity; [exact Hp1|]; etransitivity; eassumption|].
    split.
    { eapply same_outside_trans; [exact Ho1|].
      eapply same_outside_trans.
      - eapply same_outside_wider; [| |exact Ho2]; lia.
      - eapply same_outside_wider; [| |exact Ho3]; lia. }
    assert (Hlow3 : all_in f cut (fun a => key a <= key p) v3).
    { apply (all_in_Permutation _ _ _ v2 v3 Hp3 Ho3 ltac:(lia)).
      eapply all_in_same; [exact Ho2|lia|exact Hlow]. }
    assert (Hhigh2 : all_in cut l (fun a => key p <= key a) v2).
    { apply (all_in_Permutation _ _ _ v1 v2 Hp2 Ho2 ltac:(lia)). exact Hhigh. }
    intros i x Hi Hx. unfold S_threshold in Hi.
    destruct (Nat.lt_ge_cases i cut) as [Hic|Hic].
    + apply Hg3; [unfold S_threshold; lia|exact Hx].
    + assert (Hx2 : v2 !! i = Some x) by (rewrite <- (Ho3 i) by lia; exact Hx).
      destruct (Nat.lt_ge_cases i (cut + 16)) as [Hnear|Hfar].
      * destruct (lookup_lt_is_Some_2 v3 f) as [y Hy].
        { rewrite <- (Permutation_length Hp3). lia. }
        exists f, y. split; [lia|]. split; [exact Hy|].
        pose proof (Hlow3 f y ltac:(lia) Hy) as H1. cbn beta in H1.
        pose proof (Hhigh2 i x ltac:(lia) Hx2) as H2. cbn beta in H2. lia.
      * destruct (Hg2 i x ltac:(unfold S_threshold; lia) Hx2) as (j & y & Hj & Hy & Hle).
        exists j, y. split; [lia|]. split; [|exact Hle].
        rewrite (Ho3 j) by lia. exact Hy.
  - exists v. split; [reflexivity|]. split; [reflexivity|].
    split; [apply same_outside_refl|].
    intros i x Hi. unfold S_threshold in Hi. lia.
Qed.

Lemma introsort_loop_small depth_limit f l (v : list A) :
  (l - f <= 16)%nat -> introsort_loop comp depth_limit f l v = Some v.
Proof.
  intros Hs. destruct depth_limit; cbn [introsort_loop]; unfold S_threshold;
    destruct (Nat.ltb_spec 16 (l - f)); (lia || reflexivity).
Qed.

(** [__final_insertion_sort] over the whole vector: the result is sorted,
    and elements with equal keys keep the order they had when it began. *)
Lemma final_insertion_sort_spec v :
  v <> [] -> guarded 0 (length v) v ->
  exists v',
    final_insertion_sort comp 0 (length v) v = Some v' /\
    StronglySorted key_le v' /\ Permutation v v' /\
    forall k, keyed k v' = keyed k v.
Proof.
  intros Hne Hg. unfold final_insertion_sort.
  assert (Hpos : (1 <= length v)%nat) by (destruct v; [congruence|cbn; lia]).
  rewrite Nat.sub_0_r. unfold S_threshold at 1.
  destruct (Nat.ltb_spec 16 (length v)) as [Hbig|Hsmall].
  - change (0 + S_threshold)%nat with 16%nat.
    destruct (insertion_sort_spec key v 16 ltac:(lia)) as (v1 & E1 & H1).
    fold comp in E1. rewrite E1. unfold unguarded_insertion_sort.
    destruct (unguarded_loop_spec key v (length v - 16) 16 v1 H1 ltac:(lia))
      as (v' & E' & H').
    { intros j x Hj Hx.
      destruct (Hg j x ltac:(unfold S_threshold; lia) Hx) as (j' & y & Hj' & Hy & Hle).
      exists y. split; [|exact Hle]. apply list_elem_of_In.
      apply (list_elem_of_lookup_2 _ j'). rewrite lookup_take_lt by lia. exact Hy. }
    fold comp in E'. exists v'. split; [exact E'|].
    replace (16 + (length v - 16))%nat with (length v) in H' by lia.
    apply (inserted_all key). exact H'.
  - destruct (insertion_sort_spec key v (length v) ltac:(lia)) as (v' & E' & H').
    fold comp in E'. exists v'. split; [exact E'|].
    apply (inserted_all key). exact H'.
Qed.

(** [std::sort] never reads outside the vector; its result is sorted and a
    rearrangement of the input; and with at most 16 elements, those with
    equal keys keep their order. *)
Theorem std_sort_range_spec v :
  exists v',
    std_sort_range comp v = Some v' /\
    StronglySorted key_le v' /\ Permutation v v' /\
    ((length v <= 16)%nat -> forall k, keyed k v' = keyed k v).
Proof.
  destruct v as [|a v0].
  - exists []. split; [reflexivity|]. split; [constructor|].
    split; [reflexivity|]. reflexivity.
  - set (v := a :: v0). unfold std_sort_range. fold v.
    destruct (introsort_loop_spec (Nat.log2 (length v) * 2) 0 (length v) v ltac:(lia))
      as (v1 & E1 & Hp1 & Ho1 & Hg1).
    rewrite E1. pose proof (Permutation_length Hp1) as Hl1.
    assert (Hne : v1 <> []) by (intros ->; discriminate Hl1).
    rewrite Hl1 in Hg1 |- *.
    destruct (final_insertion_sort_spec v1 Hne Hg1) as (v' & E' & Hs & Hp & Hk).
    exists v'. split; [exact E'|]. split; [exact Hs|].
    split; [etransitivity; eassumption|].
    intros Hsmall k. rewrite Hk.
    rewrite introsort_loop_small in E1 by lia. congruence.
Qed.

End Introsort.

(** ** The sort of the slices *)

Lemma libstdcxx_sort_spec (l : list SliceRaw) :
  std_sort_range instance_lt l = Some (libstdcxx_sort l) /\
  StronglySorted instance_le (libstdcxx_sort l) /\
  Permutation l (libstdcxx_sort l) /\
  (vsize l <= 16 -> stable_order l (libstdcxx_sort l)).
Proof.
  destruct (std_sort_range_spec instance l) as (l' & E & Hs & Hp & Hk).
  change (fun a b : SliceRaw => instance a <? instance b) with instance_lt in E.
  unfold libstdcxx_sort. rewrite E. cbn [default from_option].
  split; [reflexivity|]. split; [exact Hs|]. split; [exact Hp|].
  intros Hsmall k. apply Hk. unfold vsize in Hsmall. lia.
Qed.

Lemma libstdcxx_sort_contract : sort_contract libstdcxx_sort.
Proof.
  intros l. destruct (libstdcxx_sort_spec l) as (_ & Hs & Hp & _).
  split; [exact Hp|].
  clear Hp. induction Hs as [|a l' _ IH Hall]; [constructor|].
  constructor; [exact IH|].
  eapply List.Forall_impl; [|exact Hall].
  intros b Hab. unfold instance_lt, instance_le in *. apply Z.ltb_ge. exact Hab.
Qed.

(* ===================================================================== *)
(** * The two sorting functions meet the contract of [std::sort] *)
(* ===================================================================== *)

Section Sorting.

Implicit Types (a b : SliceRaw) (l : list SliceRaw).

Let not_after (a b : SliceRaw) : Prop := instance_lt b a = false.

Lemma insert_before_perm a l : Permutation (a :: l) (insert_before a l).
Proof.
  induction l as [|b l IH]; simpl; [reflexivity|].
  destruct (instance_lt b a); [|reflexivity].
  rewrite perm_swap. now constructor.
Qed.

Lemma insert_before_sorted a l :
  StronglySorted not_after l -> StronglySorted not_after (insert_before a l).
Proof.
  unfold not_after.
  induction l as [|b l IH]; simpl; intros Hs.
  - repeat constructor.
  - inversion Hs as [|? ? Hl Hb]; subst.
    destruct (instance_lt b a) eqn:E; unfold instance_lt in *.
    + constructor; [auto|].
      apply List.Forall_forall. intros c Hc.
      apply (Permutation_in _ (Permutation_sym (insert_before_perm a l))) in Hc.
      destruct Hc as [<-|Hc].
      * apply Z.ltb_lt in E. apply Z.ltb_ge. lia.
      * rewrite List.Forall_forall in Hb. auto.
    + constructor; [assumption|]. constructor; [assumption|].
      eapply List.Forall_impl; [|exact Hb]. simpl. intros c Hc.
      apply Z.ltb_ge in E, Hc. apply Z.ltb_ge. lia.
Qed.

Lemma sort_ties_kept_contract : sort_contract sort_ties_kept.
Proof.
  intros l. unfold sort_ties_kept. induction l as [|a l [IHp IHs]]; simpl.
  - split; constructor.
  - split.
    + rewrite <- insert_before_perm. now constructor.
    + now apply insert_before_sorted.
Qed.

Lemma sort_ties_reversed_fold l : forall acc,
  StronglySorted not_after acc ->
  Permutation (l ++ acc) (fold_left (fun acc a => insert_before a acc) l acc) /\
  StronglySorted not_after (fold_left (fun acc a => insert_before a acc) l acc).
Proof.
  induction l as [|a l IH]; intros acc Hs; simpl.
  - split; [reflexivity|assumption].
  - destruct (IH (insert_before a acc) (insert_before_sorted a acc Hs)) as [Hp Hs'].
    split; [|assumption].
    rewrite <- Hp. rewrite <- insert_before_perm.
    apply Permutation_middle.
Qed.

Lemma sort_ties_reversed_contract : sort_contract sort_ties_reversed.
Proof.
  intros l. unfold sort_ties_reversed.
  destruct (sort_ties_reversed_fold l [] ltac:(constructor)) as [Hp Hs].
  rewrite app_nil_r in Hp. split; assumption.
Qed.

End Sorting.

(* ===================================================================== *)
(** * The build: what a load leaves in the frame *)
(* ===================================================================== *)

(** The parts of [OnLoadBtn] when it reaches the end. *)
Lemma OnLoadBtn_loaded srt st files st' :
  OnLoadBtn srt st files = (Loaded, st') ->
  exists target,
    select_series files = Some target /\
    snd (load_slices st target) <> [] /\
    st' = pack (fst (load_slices st target)) (placed_slices srt st files).
Proof.
  unfold OnLoadBtn, placed_slices. intros H.
  destruct files as [|f0 files]; [discriminate|].
  destruct (select_series (f0 :: files)) as [target|]; [|discriminate].
  exists target. split; [reflexivity|].
  destruct (load_slices st target) as [st1 temp]. simpl.
  destruct temp as [|s temp]; [discriminate|].
  injection H as <-. split; [discriminate|reflexivity].
Qed.

(** Whatever the exit, a load that does not reach the end leaves the
    sample buffer and the depth as they were. *)
Lemma OnLoadBtn_failure_keeps_buffer srt st files :
  fst (OnLoadBtn srt st files) = Loaded \/
  (volumeData (snd (OnLoadBtn srt st files)) = volumeData st /\
   volDepth (snd (OnLoadBtn srt st files)) = volDepth st).
Proof.
  unfold OnLoadBtn.
  destruct files as [|f0 files]; [right; auto|].
  destruct (select_series (f0 :: files)) as [target|]; [|right; auto].
  pose proof (load_fold_keeps_volume target (reset_dims st, [])) as H.
  fold (load_slices st target) in H.
  destruct (load_slices st target) as [st1 temp]. simpl in *.
  destruct temp; [right; exact H|left; reflexivity].
Qed.

(** C1: the code against the claim.  After a first folder has been
    loaded (a 2x2x1 volume), loading a folder whose only file opens but
    cannot be rendered ends at the "empty volume" exit.  The sample buffer and
    the depth are still those of the first volume, but width, height, spacing,
    thickness and the patient's name and id are those of the file that
    failed, whereas the claim has every field of the earlier volume left as
    it was.  The mixed state shows: the axial view, which had an image
    before, has none afterwards. *)
Theorem failed_reload_overwrites_header :
  fst (OnLoadBtn sort_ties_kept initial_frame first_folder) = Loaded /\
  frame_after_first =
    {| volumeData := [1; 2; 3; 4]; volWidth := 2; volHeight := 2; volDepth := 1;
       pxSpcX := Dbl.of_int 1; pxSpcY := Dbl.of_int 1; sliceThick := Dbl.of_int 1;
       patientName := "Doe"; patientID := "42" |} /\
  (forall srt,
    OnLoadBtn srt frame_after_first second_folder =
    (EmptyVolume,
     {| volumeData := [1; 2; 3; 4]; volWidth := 3; volHeight := 3; volDepth := 1;
        pxSpcX := Dbl.of_int 5; pxSpcY := Dbl.of_int 5; sliceThick := Dbl.of_int 7;
        patientName := "Roe"; patientID := "43" |})) /\
  (exists img, UpdateOneView frame_after_first 0 0 1 1 40 400 = Shown img) /\
  (forall srt,
    UpdateOneView (snd (OnLoadBtn srt frame_after_first second_folder))
                  0 0 1 1 40 400 = NoImage).
Proof.
  split; [reflexivity|]. split; [reflexivity|]. split; [intros srt; reflexivity|].
  split; [eexists; reflexivity|]. intros srt. reflexivity.
Qed.

(** C6, as the code has it.  The retained slices are sorted with
    [std::sort] (line 480), which in libstdc++ is an introsort: an insertion
    sort up to 16 elements, and beyond that a quicksort with a heap sort to
    fall back on, finished by an insertion sort.  Whenever a build
    completes, the sort has run to its end without an access outside the
    vector; the slices laid into the volume are a rearrangement of the
    retained ones in which no slice is followed by one of a smaller instance
    number; when at most 16 slices are retained, slices of one and the same
    instance number follow each other as in the input; the depth is the
    number of slices (as an [int]) and the buffer is their pixel data end to
    end.  With 17 slices or more nothing is promised about the relative order
    of slices that carry the same instance number. *)
Theorem build_sorts_by_instance st files st' :
  OnLoadBtn libstdcxx_sort st files = (Loaded, st') ->
  exists target placed,
    select_series files = Some target /\
    std_sort_range instance_lt (snd (load_slices st target)) = Some placed /\
    placed_slices libstdcxx_sort st files = placed /\
    Permutation (snd (load_slices st target)) placed /\
    StronglySorted instance_le placed /\
    (vsize (snd (load_slices st target)) <= 16 ->
     stable_order (snd (load_slices st target)) placed) /\
    volDepth st' = int_of (vsize placed) /\
    volumeData st' = concat (map pixels placed).
Proof.
  intros Hload.
  destruct (OnLoadBtn_loaded _ _ _ _ Hload) as (target & Hsel & _ & ->).
  exists target, (libstdcxx_sort (snd (load_slices st target))).
  destruct (libstdcxx_sort_spec (snd (load_slices st target)))
    as (Hrun & Hsorted & Hperm & Hstable).
  split; [exact Hsel|]. split; [exact Hrun|].
  unfold placed_slices. rewrite Hsel.
  split; [reflexivity|]. split; [exact Hperm|]. split; [exact Hsorted|].
  split; [exact Hstable|]. split; reflexivity.
Qed.

Lemma build_sorts_by_instance_witness :
  OnLoadBtn libstdcxx_sort initial_frame mixed_folder
  = (Loaded, frame_after_mixed) /\
  map instance (snd (load_slices initial_frame mixed_folder)) = [2; 1; 2; 1] /\
  map pixels (snd (load_slices initial_frame mixed_folder))
  = [[21]; [11]; [22]; [12]] /\
  volumeData frame_after_mixed = [11; 12; 21; 22] /\
  exists target placed,
    select_series mixed_folder = Some target /\
    std_sort_range instance_lt (snd (load_slices initial_frame target))
    = Some placed /\
    placed_slices libstdcxx_sort initial_frame mixed_folder = placed /\
    Permutation (snd (load_slices initial_frame target)) placed /\
    StronglySorted instance_le placed /\
    (vsize (snd (load_slices initial_frame target)) <= 16 ->
     stable_order (snd (load_slices initial_frame target)) placed) /\
    volDepth frame_after_mixed = int_of (vsize placed) /\
    volumeData frame_after_mixed = concat (map pixels placed).
Proof.
  split; [reflexivity|]. split; [reflexivity|]. split; [reflexivity|].
  split; [reflexivity|].
  exact (build_sorts_by_instance initial_frame mixed_folder _ eq_refl).
Defined.

(** Two tied slices keep their order: the volume of [tied_folder] is
    packed as 7, 9. *)
Example two_tied_slices_keep_order :
  fst (OnLoadBtn libstdcxx_sort initial_frame tied_folder) = Loaded /\
  volumeData frame_after_tied = [7; 9].
Proof. split; reflexivity. Qed.

(** C6 as stated fails on the code.  The seventeen files of
    [seventeen_tied_folder] carry the same instance number, and their slices
    [1], [2], ..., [17] are retained in this order.  With more than 16
    elements [std::sort] partitions around the median of three, which
    exchanges elements that are not smaller than one another: the sort runs
    to its end and the volume is packed as 9, 17, 16, ..., 10, 1, 8, 7, ...,
    2, so the slices of equal instance number do not keep the order they had
    in the input. *)
Lemma std_sort_reorders_tied_slices :
  select_series seventeen_tied_folder = Some seventeen_tied_folder /\
  map instance (snd (load_slices initial_frame seventeen_tied_folder))
  = List.repeat 1 17 /\
  map pixels (snd (load_slices initial_frame seventeen_tied_folder))
  = [[1]; [2]; [3]; [4]; [5]; [6]; [7]; [8]; [9]; [10]; [11]; [12]; [13];
     [14]; [15]; [16]; [17]] /\
  std_sort_range instance_lt (snd (load_slices initial_frame seventeen_tied_folder))
  = Some (placed_slices libstdcxx_sort initial_frame seventeen_tied_folder) /\
  fst (OnLoadBtn libstdcxx_sort initial_frame seventeen_tied_folder) = Loaded /\
  volumeData (snd (OnLoadBtn libstdcxx_sort initial_frame seventeen_tied_folder))
  = [9; 17; 16; 15; 14; 13; 12; 11; 10; 1; 8; 7; 6; 5; 4; 3; 2] /\
  ~ stable_order (snd (load_slices initial_frame seventeen_tied_folder))
                 (placed_slices libstdcxx_sort initial_frame seventeen_tied_folder).
Proof.
  split; [reflexivity|]. split; [reflexivity|]. split; [reflexivity|].
  split; [vm_compute; reflexivity|]. split; [reflexivity|].
  split; [vm_compute; reflexivity|].
  intros H. specialize (H 1). vm_compute in H. discriminate.
Qed.

(* ===================================================================== *)
(** * Spacing and slice thickness *)
(* ===================================================================== *)

Lemma loaded_width_nonzero srt st files st' :
  Forall decoded_ok files ->
  OnLoadBtn srt st files = (Loaded, st') ->
  volWidth st' <> 0.
Proof.
  intros Hd Hload.
  destruct (OnLoadBtn_loaded _ _ _ _ Hload) as (target & Hsel & Hne & ->).
  destruct (load_slices_temp_ok files target st Hd Hsel) as [[H|H] _];
    [contradiction|simpl; lia].
Qed.

(** C9, as the code has it.  For every completed build of well-formed
    images, slice thickness and in-plane spacing are those of the first file
    of the selected series that opens with a non-zero number of columns (the
    file that fixes width and height), whether or not a slice is retained
    from it; the spacing is taken only if that file carries one.  The values
    are recorded as they are read.  It is each rendering of a view that uses
    1.0 in place of a recorded value that is not greater than zero. *)
Theorem spacing_from_header_file srt st files st' :
  Forall decoded_ok files ->
  OnLoadBtn srt st files = (Loaded, st') ->
  exists target pre f post,
    select_series files = Some target /\
    target = pre ++ f :: post /\ Forall no_header pre /\
    loadGood f = true /\ Columns f <> 0 /\
    Columns f = volWidth st' /\ Rows f = volHeight st' /\
    sliceThick st' = SliceThickness f /\
    spacing_z st' = (if Dbl.gt (SliceThickness f) Dbl.zero
                     then SliceThickness f else Dbl.one) /\
    forall sp, PixelSpacing f = Some sp ->
      pxSpcY st' = fst sp /\ pxSpcX st' = snd sp /\
      spacing_y st' = (if Dbl.gt (fst sp) Dbl.zero then fst sp else Dbl.one) /\
      spacing_x st' = (if Dbl.gt (snd sp) Dbl.zero then snd sp else Dbl.one).
Proof.
  intros Hd Hload.
  pose proof (loaded_width_nonzero _ _ _ _ Hd Hload) as Hw.
  destruct (OnLoadBtn_loaded _ _ _ _ Hload) as (target & Hsel & Hne & ->).
  simpl in Hw.
  destruct (load_fold_header target (reset_dims st) [] eq_refl)
    as [H0|(pre & f & post & Ht & Hpre & Hl & Hc & HW & HH & HT & HS & _)].
  { fold (load_slices st target) in H0. contradiction. }
  fold (load_slices st target) in HW, HH, HT, HS.
  exists target, pre, f, post.
  split; [assumption|]. split; [assumption|]. split; [assumption|].
  split; [assumption|]. split; [assumption|]. simpl. split; [auto|]. split; [auto|].
  split; [assumption|]. unfold spacing_z, spacing_y, spacing_x. simpl.
  split; [now rewrite HT|].
  intros sp Hsp. destruct (HS sp Hsp) as [-> ->]. auto.
Qed.

Lemma decoded_ok_slice_file p u inst w h data spacing thick :
  0 < w -> 0 < h -> w * h <= INT_MAX -> vsize data = w * h ->
  decoded_ok (slice_file p u inst w h data spacing thick).
Proof.
  intros Hw Hh Hm Hl _. simpl. split; [assumption|]. split; [assumption|].
  split; [assumption|]. intros d [= <-]. assumption.
Qed.

Lemma decoded_ok_undecodable f : decoded_ok (undecodable f).
Proof. intros H. discriminate. Qed.

Lemma header_only_folder_ok : Forall decoded_ok header_only_folder.
Proof.
  constructor; [apply decoded_ok_undecodable|].
  constructor; [|constructor].
  apply decoded_ok_slice_file; unfold INT_MAX; try lia. reflexivity.
Qed.

Lemma spacing_from_header_file_witness :
  Forall decoded_ok header_only_folder /\
  OnLoadBtn sort_ties_kept initial_frame header_only_folder
  = (Loaded, frame_after_header_only) /\
  exists target pre f post,
    select_series header_only_folder = Some target /\
    target = pre ++ f :: post /\ Forall no_header pre /\
    loadGood f = true /\ Columns f <> 0 /\
    Columns f = volWidth frame_after_header_only /\
    Rows f = volHeight frame_after_header_only /\
    sliceThick frame_after_header_only
    = SliceThickness f /\
    spacing_z frame_after_header_only
    = (if Dbl.gt (SliceThickness f) Dbl.zero then SliceThickness f else Dbl.one) /\
    forall sp, PixelSpacing f = Some sp ->
      pxSpcY frame_after_header_only = fst sp /\
      pxSpcX frame_after_header_only = snd sp /\
      spacing_y frame_after_header_only
      = (if Dbl.gt (fst sp) Dbl.zero then fst sp else Dbl.one) /\
      spacing_x frame_after_header_only
      = (if Dbl.gt (snd sp) Dbl.zero then snd sp else Dbl.one).
Proof.
  split; [exact header_only_folder_ok|]. split; [reflexivity|].
  exact (spacing_from_header_file sort_ties_kept initial_frame header_only_folder _
           header_only_folder_ok eq_refl).
Defined.

(** C9 as stated fails twice.  In a series whose first file opens but
    cannot be rendered, the only slice retained comes from the second file
    (spacing 5, thickness 7), yet the frame records the spacing 2 and the
    thickness 3 of the first file.  And a slice thickness read as zero is
    recorded as zero; only the renderer's [sz] is 1.0. *)
Lemma spacing_not_from_first_retained :
  fst (OnLoadBtn sort_ties_kept initial_frame header_only_folder) = Loaded /\
  map pixels (snd (load_slices initial_frame header_only_folder)) = [[1; 2; 3; 4]] /\
  map PixelSpacing header_only_folder
  = [Some (Dbl.of_int 2, Dbl.of_int 2); Some (Dbl.of_int 5, Dbl.of_int 5)] /\
  map SliceThickness header_only_folder = [Dbl.of_int 3; Dbl.of_int 7] /\
  pxSpcX frame_after_header_only = Dbl.of_int 2 /\
  pxSpcY frame_after_header_only = Dbl.of_int 2 /\
  sliceThick frame_after_header_only = Dbl.of_int 3 /\
  Dbl.of_int 2 <> Dbl.of_int 5 /\ Dbl.of_int 3 <> Dbl.of_int 7 /\
  fst (OnLoadBtn sort_ties_kept initial_frame thin_folder) = Loaded /\
  sliceThick frame_after_thin = Dbl.zero /\
  spacing_z frame_after_thin = Dbl.one /\
  Dbl.zero <> Dbl.one.
Proof.
  repeat (split; [first [reflexivity | discriminate]|]). discriminate.
Qed.

(* ===================================================================== *)
(** * Offsets into the volume buffer *)
(* ===================================================================== *)

Section Offsets.

Lemma size_t_of_small z : 0 <= z < 2 ^ 64 -> size_t_of z = z.
Proof. intros H. unfold size_t_of. now apply Z.mod_small. Qed.

Lemma ptrdiff_of_small z : 0 <= z < 2 ^ 63 -> ptrdiff_of z = z.
Proof.
  intros H. unfold ptrdiff_of.
  rewrite Z.mod_small by lia. lia.
Qed.

Lemma vsize_app {A} (l1 l2 : list A) : vsize (l1 ++ l2) = vsize l1 + vsize l2.
Proof. unfold vsize. rewrite length_app. lia. Qed.

Lemma vsize_nonneg {A} (l : list A) : 0 <= vsize l.
Proof. unfold vsize. lia. Qed.

Lemma read_range_inside (v : list Z) (first n : Z) :
  0 <= first -> 0 <= n -> first + n <= vsize v ->
  read_range v first n = Some (take (Z.to_nat n) (drop (Z.to_nat first) v)).
Proof.
  intros H1 H2 H3. unfold read_range.
  assert (E : (0 <=? first) && (0 <=? n) && (first + n <=? vsize v) = true).
  { rewrite !andb_true_iff. repeat split; apply Z.leb_le; assumption. }
  now rewrite E.
Qed.

(** The buffer of a packed volume, block by block. *)
Lemma vsize_concat_blocks (ls : list (list Z)) n :
  Forall (fun l => vsize l = n) ls -> vsize (concat ls) = vsize ls * n.
Proof.
  induction 1 as [|l ls Hl _ IH]; simpl; [reflexivity|].
  rewrite vsize_app, IH, Hl. unfold vsize. simpl length. lia.
Qed.

Lemma concat_block (ls : list (list Z)) n :
  0 <= n ->
  Forall (fun l => vsize l = n) ls ->
  forall i l, ls !! i = Some l ->
    take (Z.to_nat n) (drop (Z.to_nat (Z.of_nat i * n)) (concat ls)) = l.
Proof.
  intros Hn. induction 1 as [|l0 ls Hl0 Hall IH]; intros i l Hi; [discriminate|].
  assert (Hlen : length l0 = Z.to_nat n) by (unfold vsize in Hl0; lia).
  destruct i as [|i].
  - injection Hi as ->. change (Z.to_nat (Z.of_nat 0 * n)) with 0%nat.
    change (drop 0 (concat (l :: ls))) with (l ++ concat ls).
    rewrite take_app_length'; [reflexivity|lia].
  - simpl in Hi. simpl concat.
    replace (Z.to_nat (Z.of_nat (S i) * n))
      with (length l0 + Z.to_nat (Z.of_nat i * n))%nat by lia.
    rewrite drop_app_add. now apply IH.
Qed.

End Offsets.

(* ===================================================================== *)
(** * The axial plane of a fresh volume *)
(* ===================================================================== *)

Lemma placed_slices_ok srt st files st' :
  sort_contract srt -> Forall decoded_ok files ->
  OnLoadBtn srt st files = (Loaded, st') ->
  0 < volWidth st' /\ 0 < volHeight st' /\
  volWidth st' * volHeight st' <= INT_MAX /\
  volDepth st' = int_of (vsize (placed_slices srt st files)) /\
  volumeData st' = concat (map pixels (placed_slices srt st files)) /\
  Forall (fun s => slice_from (fun f => In f files) s /\
                   vsize (pixels s) = volWidth st' * volHeight st')
         (placed_slices srt st files).
Proof.
  intros Hsort Hd Hload.
  destruct (OnLoadBtn_loaded _ _ _ _ Hload) as (target & Hsel & Hne & ->).
  destruct (load_slices_temp_ok files target st Hd Hsel) as [[?|Hdims] Hall];
    [contradiction|].
  unfold placed_slices in *. rewrite Hsel in *. simpl.
  destruct (Hsort (snd (load_slices st target))) as [Hp _].
  assert (Hall' := Permutation_Forall Hp Hall).
  tauto.
Qed.

(** C4.  In a volume freshly built from well-formed images (and small
    enough to be addressed), the axial plane at every depth [z] below the
    depth of the volume is, sample for sample, the pixel buffer of the slice
    the build laid at depth [z]; that buffer is the whole output buffer of
    one of the files of the folder, and has width times height samples. *)
Theorem axial_plane_roundtrip srt st files st' z :
  sort_contract srt -> Forall decoded_ok files ->
  OnLoadBtn srt st files = (Loaded, st') ->
  vsize (volumeData st') < 2 ^ 63 ->
  0 <= z < volDepth st' ->
  exists s,
    placed_slices srt st files !! Z.to_nat z = Some s /\
    slice_from (fun f => In f files) s /\
    vsize (pixels s) = volWidth st' * volHeight st' /\
    extract st' 0 z
    = Plane (volWidth st') (volHeight st')
            (Dbl.div (spacing_y st') (spacing_x st')) (pixels s).
Proof.
  intros Hsort Hd Hload Hmem Hz.
  destruct (placed_slices_ok _ _ _ _ Hsort Hd Hload)
    as (Hw & Hh & Hmax & Hdepth & Hdata & Hall).
  set (ss := placed_slices srt st files) in *.
  set (n := volWidth st' * volHeight st') in *.
  assert (Hblocks : Forall (fun l => vsize l = n) (map pixels ss)).
  { apply List.Forall_map. eapply List.Forall_impl; [|exact Hall]. simpl. tauto. }
  assert (Hsize : vsize (volumeData st') = vsize ss * n).
  { rewrite Hdata, (vsize_concat_blocks _ n Hblocks).
    unfold vsize. now rewrite length_map. }
  assert (Hcount : volDepth st' <= vsize ss).
  { rewrite Hdepth. apply int_of_le. apply vsize_nonneg. }
  destruct (lookup_lt_is_Some_2 ss (Z.to_nat z)) as [s Hs].
  { unfold vsize in Hcount. lia. }
  exists s. split; [assumption|].
  assert (Hin : In s ss).
  { apply list_elem_of_In. eapply list_elem_of_lookup_2. eassumption. }
  rewrite List.Forall_forall in Hall. destruct (Hall s Hin) as [Hfrom Hlen].
  split; [assumption|]. split; [assumption|].
  unfold extract. simpl. unfold extract_axial.
  assert (Hn : 0 < n) by (subst n; nia).
  assert (Hoff : 0 <= z * n /\ z * n + n <= vsize (volumeData st')).
  { rewrite Hsize. nia. }
  replace (z * volWidth st' * volHeight st') with (z * n) by (subst n; ring).
  fold n.
  rewrite (int_of_small n) by (unfold INT_MAX in *; lia).
  rewrite (size_t_of_small (z * n)) by lia.
  rewrite (size_t_of_small n) by lia.
  rewrite (size_t_of_small (z * n + n)) by lia.
  destruct (Z.leb_spec (z * n + n) (vsize (volumeData st'))) as [_|Hbad]; [|lia].
  rewrite (ptrdiff_of_small (z * n)) by lia.
  rewrite read_range_inside by lia.
  f_equal. rewrite Hdata.
  replace (z * n) with (Z.of_nat (Z.to_nat z) * n) by lia.
  apply concat_block; [lia|assumption|].
  rewrite list_lookup_fmap, Hs. reflexivity.
Qed.

Lemma first_folder_ok : Forall decoded_ok first_folder.
Proof.
  constructor; [|constructor].
  apply decoded_ok_slice_file; unfold INT_MAX; try lia. reflexivity.
Qed.

Lemma axial_plane_roundtrip_witness :
  sort_contract sort_ties_kept /\ Forall decoded_ok first_folder /\
  OnLoadBtn sort_ties_kept initial_frame first_folder = (Loaded, frame_after_first) /\
  vsize (volumeData frame_after_first) < 2 ^ 63 /\
  0 <= 0 < volDepth frame_after_first /\
  exists s,
    placed_slices sort_ties_kept initial_frame first_folder !! Z.to_nat 0 = Some s /\
    slice_from (fun f => In f first_folder) s /\
    vsize (pixels s) = volWidth frame_after_first * volHeight frame_after_first /\
    extract frame_after_first 0 0
    = Plane (volWidth frame_after_first) (volHeight frame_after_first)
            (Dbl.div (spacing_y frame_after_first) (spacing_x frame_after_first))
            (pixels s).
Proof.
  assert (Hm : vsize (volumeData frame_after_first) < 2 ^ 63) by reflexivity.
  assert (Hz : 0 <= 0 < volDepth frame_after_first) by (split; [lia|reflexivity]).
  split; [exact sort_ties_kept_contract|]. split; [exact first_folder_ok|].
  split; [reflexivity|]. split; [exact Hm|]. split; [exact Hz|].
  exact (axial_plane_roundtrip sort_ties_kept initial_frame first_folder
           frame_after_first 0 sort_ties_kept_contract first_folder_ok
           eq_refl Hm Hz).
Defined.

(* ===================================================================== *)
(** * The loops that extract the coronal and the sagittal plane *)
(* ===================================================================== *)

Lemma cell_index_inj h z y z' y' :
  0 <= y < h -> 0 <= y' < h -> z * h + y = z' * h + y' -> z = z' /\ y = y'.
Proof.
  intros Hy Hy' E.
  destruct (Z.lt_trichotomy z z') as [Hlt|[->|Hgt]].
  - assert ((z + 1) * h <= z' * h) by (apply Z.mul_le_mono_nonneg_r; lia). lia.
  - lia.
  - assert ((z' + 1) * h <= z * h) by (apply Z.mul_le_mono_nonneg_r; lia). lia.
Qed.

Section Extraction.

Variable st : MainFrame.
Variable s : Z.
Hypothesis Hdims : dims_ok st.
Hypothesis Hs : 0 <= s <= INT_MAX.

Let W := volWidth st.
Let H := volHeight st.
Let D := volDepth st.
Let vd := volumeData st.

Lemma upto_succ (k : nat) :
  map Z.of_nat (seq 0 (S k)) = map Z.of_nat (seq 0 k) ++ [Z.of_nat k].
Proof. rewrite seq_S, map_app. reflexivity. Qed.

Lemma coronal_fold (k : nat) :
  (k <= Z.to_nat D)%nat ->
  exists buf,
    fold_left (coronal_step st s W) (map Z.of_nat (seq 0 k))
              (Some (replicate (Z.to_nat (W * D)) 0)) = Some buf /\
    length buf = Z.to_nat (W * D) /\
    forall z x, 0 <= z < D -> 0 <= x < W ->
      buf !! Z.to_nat (z * W + x)
      = if (z <? Z.of_nat k) && (z * (W * H) + s * W + W <=? vsize vd)
        then vd !! Z.to_nat (z * (W * H) + s * W + x) else Some 0.
Proof.
  destruct Hdims as (HW & HH & HD & HWH & HWD & HHD).
  fold W H D in HW, HH, HD, HWH, HWD, HHD. unfold INT_MAX in *.
  induction k as [|k IH]; intros Hk.
  - eexists. split; [reflexivity|]. split; [apply length_replicate|].
    intros z x Hz Hx.
    ltb_fails (z) (Z.of_nat 0).
    simpl. apply lookup_replicate_2. nia.
  - destruct IH as (buf & Hfold & Hlen & Hbuf); [lia|].
    rewrite upto_succ, fold_left_app, Hfold. simpl.
    set (z0 := Z.of_nat k).
    assert (Hz0 : 0 <= z0 < D) by lia.
    unfold coronal_step. fold W H vd.
    rewrite (int_of_small (W * H)) by (unfold INT_MAX; nia).
    rewrite (int_of_small (z0 * W)) by (unfold INT_MAX; nia).
    rewrite (size_t_of_small (z0 * (W * H) + s * W)) by nia.
    rewrite (size_t_of_small W) by lia.
    rewrite (size_t_of_small (z0 * (W * H) + s * W + W)) by nia.
    destruct (Z.leb_spec (z0 * (W * H) + s * W + W) (vsize vd)) as [Hin|Hout].
    + rewrite (ptrdiff_of_small (z0 * (W * H) + s * W)) by nia.
      rewrite read_range_inside by nia.
      set (row := take (Z.to_nat W) (drop (Z.to_nat (z0 * (W * H) + s * W)) vd)).
      assert (Hrow : length row = Z.to_nat W).
      { subst row. rewrite length_take, length_drop. unfold vsize in Hin. lia. }
      eexists. split; [reflexivity|]. split; [now rewrite length_inserts|].
      intros z x Hz Hx.
      destruct (Z.lt_trichotomy z z0) as [Hlt|[Heq|Hgt]].
      * rewrite list_lookup_inserts_lt by nia.
        rewrite Hbuf by assumption.
        ltb_holds (z) (Z.of_nat (S k)).
        ltb_holds (z) (Z.of_nat k).
        reflexivity.
      * subst z. rewrite list_lookup_inserts by (rewrite ?Hrow, ?Hlen; nia).
        ltb_holds (z0) (Z.of_nat (S k)).
        leb_holds (z0 * (W * H) + s * W + W) (vsize vd).
        simpl. subst row. rewrite lookup_take_lt by lia. rewrite lookup_drop.
        f_equal. lia.
      * rewrite list_lookup_inserts_ge by (rewrite Hrow; nia).
        rewrite Hbuf by assumption.
        ltb_fails (z) (Z.of_nat (S k)).
        ltb_fails (z) (Z.of_nat k).
        reflexivity.
    + exists buf. split; [reflexivity|]. split; [assumption|].
      intros z x Hz Hx. rewrite Hbuf by assumption.
      destruct (Z.lt_trichotomy z z0) as [Hlt|[Heq|Hgt]].
      * ltb_holds (z) (Z.of_nat (S k)).
        ltb_holds (z) (Z.of_nat k).
        reflexivity.
      * subst z.
        leb_fails (z0 * (W * H) + s * W + W) (vsize vd).
        now rewrite !andb_false_r.
      * ltb_fails (z) (Z.of_nat (S k)).
        ltb_fails (z) (Z.of_nat k).
        reflexivity.
Qed.

(** The coronal plane: never a read outside the buffer; a row whose source
    range lies in the buffer is copied, any other row stays zero. *)
Lemma extract_coronal_spec :
  exists buf,
    extract_coronal st s
    = Plane W D (Dbl.div (spacing_z st) (spacing_x st)) buf /\
    vsize buf = W * D /\
    forall z x, 0 <= z < D -> 0 <= x < W ->
      plane_at buf W x z
      = if z * (W * H) + s * W + W <=? vsize vd
        then sample_at st (z * (W * H) + s * W + x) else Some 0.
Proof.
  destruct Hdims as (HW & HH & HD & HWH & HWD & HHD).
  fold W H D in HW, HH, HD, HWH, HWD, HHD.
  destruct (coronal_fold (Z.to_nat D)) as (buf & Hfold & Hlen & Hbuf); [lia|].
  exists buf. unfold extract_coronal, upto. fold W D.
  rewrite (int_of_small (W * D)) by (unfold INT_MAX in *; nia).
  rewrite Hfold. split; [reflexivity|]. split; [unfold vsize; nia|].
  intros z x Hz Hx. unfold plane_at, sample_at. fold vd.
  rewrite Hbuf by assumption.
  ltb_holds (z) (Z.of_nat (Z.to_nat D)).
  reflexivity.
Qed.

Lemma sagittal_inner (z : Z) (buf : list Z) (j : nat) :
  0 <= z < D -> (j <= Z.to_nat H)%nat -> length buf = Z.to_nat (H * D) ->
  let buf' := fold_left (sagittal_step st s H z) (map Z.of_nat (seq 0 j)) buf in
  length buf' = Z.to_nat (H * D) /\
  forall z' y, 0 <= z' < D -> 0 <= y < H ->
    buf' !! Z.to_nat (z' * H + y)
    = if (z' =? z) && (y <? Z.of_nat j) && (z * (W * H) + y * W + s <? vsize vd)
      then vd !! Z.to_nat (z * (W * H) + y * W + s)
      else buf !! Z.to_nat (z' * H + y).
Proof.
  destruct Hdims as (HW & HH & HD & HWH & HWD & HHD).
  fold W H D in HW, HH, HD, HWH, HWD, HHD. unfold INT_MAX in *.
  intros Hz. induction j as [|j IH]; intros Hj Hlen; cbv zeta.
  - simpl. split; [assumption|]. intros z' y Hz' Hy.
    ltb_fails (y) (Z.of_nat 0).
    now rewrite andb_false_r.
  - destruct IH as (Hlen' & Hbuf); [lia|assumption|].
    rewrite upto_succ, fold_left_app. simpl.
    set (b := fold_left (sagittal_step st s H z) (map Z.of_nat (seq 0 j)) buf) in *.
    set (y0 := Z.of_nat j).
    assert (Hy0 : 0 <= y0 < H) by lia.
    unfold sagittal_step. fold W H vd.
    rewrite (int_of_small (W * H)) by (unfold INT_MAX; nia).
    rewrite (int_of_small (z * H)) by (unfold INT_MAX; nia).
    rewrite (int_of_small (z * H + y0)) by (unfold INT_MAX; nia).
    rewrite (size_t_of_small (z * (W * H) + y0 * W + s)) by nia.
    assert (Hcase : forall z' y, 0 <= z' < D -> 0 <= y < H ->
              (z' * H + y = z * H + y0 <-> z' = z /\ y = y0)).
    { intros z' y Hz' Hy. split; [|intros [-> ->]; reflexivity].
      apply cell_index_inj; assumption. }
    destruct (Z.ltb_spec (z * (W * H) + y0 * W + s) (vsize vd)) as [Hin|Hout].
    + destruct (vd !! Z.to_nat (z * (W * H) + y0 * W + s)) as [v|] eqn:Hv.
      2:{ apply lookup_ge_None in Hv. unfold vsize in Hin. lia. }
      split; [now rewrite length_insert|].
      intros z' y Hz' Hy.
      destruct (Z.eq_dec (z' * H + y) (z * H + y0)) as [Heq|Hne].
      * apply Hcase in Heq as [-> ->]; [|assumption|assumption].
        rewrite list_lookup_insert_eq by (rewrite Hlen'; nia).
        rewrite Z.eqb_refl.
        ltb_holds (y0) (Z.of_nat (S j)).
        ltb_holds (z * (W * H) + y0 * W + s) (vsize vd).
        simpl. now rewrite Hv.
      * rewrite list_lookup_insert_ne by lia.
        rewrite Hbuf by assumption.
        destruct (Z.eqb_spec z' z) as [->|Hzz]; simpl; [|reflexivity].
        assert (y <> y0) by (intros ->; apply Hne; reflexivity).
        destruct (Z.ltb_spec y (Z.of_nat j)), (Z.ltb_spec y (Z.of_nat (S j)));
          try reflexivity; lia.
    + split; [assumption|].
      intros z' y Hz' Hy. rewrite Hbuf by assumption.
      destruct (Z.eqb_spec z' z) as [->|Hzz]; simpl; [|reflexivity].
      destruct (Z.eq_dec y y0) as [->|Hne].
      * ltb_fails (z * (W * H) + y0 * W + s) (vsize vd).
        now rewrite !andb_false_r.
      * destruct (Z.ltb_spec y (Z.of_nat j)), (Z.ltb_spec y (Z.of_nat (S j)));
          try reflexivity; lia.
Qed.

Lemma sagittal_outer (k : nat) :
  (k <= Z.to_nat D)%nat ->
  let buf := fold_left
               (fun buf z => fold_left (sagittal_step st s H z) (upto H) buf)
               (map Z.of_nat (seq 0 k)) (replicate (Z.to_nat (H * D)) 0) in
  length buf = Z.to_nat (H * D) /\
  forall z y, 0 <= z < D -> 0 <= y < H ->
    buf !! Z.to_nat (z * H + y)
    = if (z <? Z.of_nat k) && (z * (W * H) + y * W + s <? vsize vd)
      then vd !! Z.to_nat (z * (W * H) + y * W + s) else Some 0.
Proof.
  destruct Hdims as (HW & HH & HD & HWH & HWD & HHD).
  fold W H D in HW, HH, HD, HWH, HWD, HHD. unfold INT_MAX in *.
  induction k as [|k IH]; intros Hk; cbv zeta.
  - simpl. split; [apply length_replicate|]. intros z y Hz Hy.
    ltb_fails (z) (Z.of_nat 0).
    simpl. apply lookup_replicate_2. nia.
  - destruct IH as (Hlen & Hbuf); [lia|].
    rewrite upto_succ, fold_left_app. simpl.
    set (b := fold_left _ (map Z.of_nat (seq 0 k)) _) in *.
    set (z0 := Z.of_nat k).
    destruct (sagittal_inner z0 b (Z.to_nat H)) as (Hlen' & Hbuf');
      [lia|lia|assumption|].
    fold (upto H) in Hlen', Hbuf'.
    split; [assumption|]. intros z y Hz Hy.
    rewrite Hbuf' by assumption. rewrite Hbuf by assumption.
    ltb_holds (y) (Z.of_nat (Z.to_nat H)).
    rewrite andb_true_r.
    destruct (Z.eqb_spec z z0) as [->|Hne]; simpl.
    + ltb_holds (z0) (Z.of_nat (S k)).
      ltb_fails (z0) (Z.of_nat k).
      simpl. destruct (z0 * (W * H) + y * W + s <? vsize vd); reflexivity.
    + destruct (Z.ltb_spec z (Z.of_nat k)), (Z.ltb_spec z (Z.of_nat (S k)));
        try reflexivity; lia.
Qed.

(** The sagittal plane: a pixel whose source offset lies in the buffer is
    copied, any other pixel stays zero. *)
Lemma extract_sagittal_spec :
  exists buf,
    extract_sagittal st s
    = Plane H D (Dbl.div (spacing_z st) (spacing_y st)) buf /\
    vsize buf = H * D /\
    forall z y, 0 <= z < D -> 0 <= y < H ->
      plane_at buf H y z
      = if z * (W * H) + y * W + s <? vsize vd
        then sample_at st (z * (W * H) + y * W + s) else Some 0.
Proof.
  destruct Hdims as (HW & HH & HD & HWH & HWD & HHD).
  fold W H D in HW, HH, HD, HWH, HWD, HHD.
  destruct (sagittal_outer (Z.to_nat D)) as (Hlen & Hbuf); [lia|].
  eexists. unfold extract_sagittal. fold W H D.
  rewrite (int_of_small (H * D)) by (unfold INT_MAX in *; nia).
  split; [reflexivity|]. unfold upto at 2. split; [unfold vsize; nia|].
  intros z y Hz Hy. unfold plane_at, sample_at. fold vd.
  rewrite Hbuf by assumption.
  ltb_holds (z) (Z.of_nat (Z.to_nat D)).
  reflexivity.
Qed.

(** The axial plane: the block at the index if the whole block lies in the
    buffer, else no plane at all. *)
Lemma extract_axial_spec :
  extract_axial st s
  = Plane W H (Dbl.div (spacing_y st) (spacing_x st))
          (if s * (W * H) + W * H <=? vsize vd
           then take (Z.to_nat (W * H)) (drop (Z.to_nat (s * (W * H))) vd)
           else []).
Proof.
  destruct Hdims as (HW & HH & HD & HWH & HWD & HHD).
  fold W H D in HW, HH, HD, HWH, HWD, HHD. unfold INT_MAX in *.
  unfold extract_axial. fold W H vd.
  replace (s * W * H) with (s * (W * H)) by ring.
  rewrite (int_of_small (W * H)) by (unfold INT_MAX; nia).
  rewrite (size_t_of_small (s * (W * H))) by nia.
  rewrite (size_t_of_small (W * H)) by nia.
  rewrite (size_t_of_small (s * (W * H) + W * H)) by nia.
  destruct (Z.leb_spec (s * (W * H) + W * H) (vsize vd)) as [Hin|Hout]; [|reflexivity].
  rewrite (ptrdiff_of_small (s * (W * H))) by nia.
  rewrite read_range_inside by nia. reflexivity.
Qed.

End Extraction.

(* ===================================================================== *)
(** * Extraction: the stated properties *)
(* ===================================================================== *)

(** C5.  In a volume whose buffer holds [W*H*D] samples, the sample at
    (x, y, z) at offset [z*W*H + y*W + x], the coronal extraction at a row
    [r] of the volume yields a plane of width [W] and height [D] whose sample
    at column [x] of row [z] is the voxel (x, r, z), and the sagittal
    extraction at a column [c] yields a plane of width [H] and height [D]
    whose sample at column [y] of row [z] is the voxel (c, y, z). *)
Theorem coronal_sagittal_sampling st :
  dims_ok st -> volume_full st ->
  (forall r, 0 <= r < volHeight st ->
     exists buf,
       extract st 1 r
       = Plane (volWidth st) (volDepth st)
               (Dbl.div (spacing_z st) (spacing_x st)) buf /\
       vsize buf = volWidth st * volDepth st /\
       forall x z, 0 <= x < volWidth st -> 0 <= z < volDepth st ->
         is_Some (voxel st x r z) /\
         plane_at buf (volWidth st) x z = voxel st x r z) /\
  (forall c, 0 <= c < volWidth st ->
     exists buf,
       extract st 2 c
       = Plane (volHeight st) (volDepth st)
               (Dbl.div (spacing_z st) (spacing_y st)) buf /\
       vsize buf = volHeight st * volDepth st /\
       forall y z, 0 <= y < volHeight st -> 0 <= z < volDepth st ->
         is_Some (voxel st c y z) /\
         plane_at buf (volHeight st) y z = voxel st c y z).
Proof.
  intros Hdims Hfull.
  pose proof Hdims as (HW & HH & HD & HWH & HWD & HHD).
  unfold volume_full in Hfull. unfold INT_MAX in *.
  assert (Hvox : forall x y z, 0 <= x < volWidth st -> 0 <= y < volHeight st ->
            0 <= z < volDepth st ->
            0 <= z * (volWidth st * volHeight st) + y * volWidth st + x
            < vsize (volumeData st)) by (intros; nia).
  split.
  - intros r Hr.
    destruct (extract_coronal_spec st r Hdims ltac:(unfold INT_MAX; lia))
      as (buf & Hex & Hlen & Hbuf).
    exists buf. split; [exact Hex|]. split; [exact Hlen|].
    intros x z Hx Hz. specialize (Hvox x r z Hx Hr Hz).
    split.
    + unfold voxel, sample_at. apply lookup_lt_is_Some. unfold vsize in Hvox. lia.
    + rewrite Hbuf by assumption.
      destruct (Z.leb_spec (z * (volWidth st * volHeight st) + r * volWidth st
                            + volWidth st) (vsize (volumeData st))); [reflexivity|nia].
  - intros c Hc.
    destruct (extract_sagittal_spec st c Hdims ltac:(unfold INT_MAX; lia))
      as (buf & Hex & Hlen & Hbuf).
    exists buf. split; [exact Hex|]. split; [exact Hlen|].
    intros y z Hy Hz. specialize (Hvox c y z Hc Hy Hz).
    split.
    + unfold voxel, sample_at. apply lookup_lt_is_Some. unfold vsize in Hvox. lia.
    + rewrite Hbuf by assumption.
      destruct (Z.ltb_spec (z * (volWidth st * volHeight st) + y * volWidth st + c)
                           (vsize (volumeData st))); [reflexivity|lia].
Qed.

Lemma cube_frame_dims_ok : dims_ok cube_frame.
Proof. unfold dims_ok, INT_MAX. simpl. lia. Qed.

Lemma coronal_sagittal_sampling_witness :
  dims_ok cube_frame /\ volume_full cube_frame /\
  (forall r, 0 <= r < volHeight cube_frame ->
     exists buf,
       extract cube_frame 1 r
       = Plane (volWidth cube_frame) (volDepth cube_frame)
               (Dbl.div (spacing_z cube_frame) (spacing_x cube_frame)) buf /\
       vsize buf = volWidth cube_frame * volDepth cube_frame /\
       forall x z, 0 <= x < volWidth cube_frame -> 0 <= z < volDepth cube_frame ->
         is_Some (voxel cube_frame x r z) /\
         plane_at buf (volWidth cube_frame) x z = voxel cube_frame x r z) /\
  (forall c, 0 <= c < volWidth cube_frame ->
     exists buf,
       extract cube_frame 2 c
       = Plane (volHeight cube_frame) (volDepth cube_frame)
               (Dbl.div (spacing_z cube_frame) (spacing_y cube_frame)) buf /\
       vsize buf = volHeight cube_frame * volDepth cube_frame /\
       forall y z, 0 <= y < volHeight cube_frame -> 0 <= z < volDepth cube_frame ->
         is_Some (voxel cube_frame c y z) /\
         plane_at buf (volHeight cube_frame) y z = voxel cube_frame c y z).
Proof.
  split; [exact cube_frame_dims_ok|]. split; [reflexivity|].
  exact (coronal_sagittal_sampling cube_frame cube_frame_dims_ok eq_refl).
Defined.

(** C8, as the code has it.  For every slice index that is not negative,
    also one beyond the extent of its axis, extraction reads nothing outside
    the volume buffer.  The coronal and the sagittal plane have their full
    size; a row (coronal) or a pixel (sagittal) whose source range lies in
    the buffer is copied from there and every other one keeps the value
    zero.  The axial plane is the block at the index when that block lies in
    the buffer; when it does not, the plane is empty: no image is produced
    and the view keeps what it showed. *)
Theorem extraction_from_nonnegative_index st viewType s :
  dims_ok st -> 0 <= s <= INT_MAX ->
  exists w h scaleY buf,
    extract st viewType s = Plane w h scaleY buf /\
    (viewType = 0 ->
       w = volWidth st /\ h = volHeight st /\
       buf = (if s * (w * h) + w * h <=? vsize (volumeData st)
              then take (Z.to_nat (w * h)) (drop (Z.to_nat (s * (w * h))) (volumeData st))
              else []) /\
       (buf = [] -> forall c1 c2 wl ww,
           UpdateOneView st viewType s c1 c2 wl ww = NoImage)) /\
    (viewType = 1 ->
       w = volWidth st /\ h = volDepth st /\ vsize buf = w * h /\
       forall z x, 0 <= z < h -> 0 <= x < w ->
         plane_at buf w x z
         = if z * (volWidth st * volHeight st) + s * volWidth st + volWidth st
              <=? vsize (volumeData st)
           then sample_at st (z * (volWidth st * volHeight st) + s * volWidth st + x)
           else Some 0) /\
    (viewType <> 0 -> viewType <> 1 ->
       w = volHeight st /\ h = volDepth st /\ vsize buf = w * h /\
       forall z y, 0 <= z < h -> 0 <= y < w ->
         plane_at buf w y z
         = if z * (volWidth st * volHeight st) + y * volWidth st + s
              <? vsize (volumeData st)
           then sample_at st (z * (volWidth st * volHeight st) + y * volWidth st + s)
           else Some 0).
Proof.
  intros Hdims Hs. unfold extract.
  destruct (Z.eqb_spec viewType 0) as [E0|E0];
    [|destruct (Z.eqb_spec viewType 1) as [E1|E1]].
  - pose proof (extract_axial_spec st s Hdims Hs) as Hax.
    do 4 eexists. split; [exact Hax|].
    split; [|split; intros; congruence].
    intros _. split; [reflexivity|]. split; [reflexivity|]. split; [reflexivity|].
    intros Hnil c1 c2 wl ww. unfold UpdateOneView, extract.
    subst viewType. simpl. rewrite Hax, Hnil. reflexivity.
  - destruct (extract_coronal_spec st s Hdims Hs) as (buf & Hex & Hlen & Hbuf).
    do 4 eexists. split; [exact Hex|].
    split; [intros; congruence|]. split; [|intros; congruence].
    intros _. split; [reflexivity|]. split; [reflexivity|]. split; [exact Hlen|].
    exact Hbuf.
  - destruct (extract_sagittal_spec st s Hdims Hs) as (buf & Hex & Hlen & Hbuf).
    do 4 eexists. split; [exact Hex|].
    split; [intros; congruence|]. split; [intros; congruence|].
    intros _ _. split; [reflexivity|]. split; [reflexivity|]. split; [exact Hlen|].
    exact Hbuf.
Qed.

Lemma extraction_from_nonnegative_index_witness :
  dims_ok cube_frame /\ 0 <= 7 <= INT_MAX /\
  exists w h scaleY buf,
    extract cube_frame 2 7 = Plane w h scaleY buf /\
    (2 = 0 ->
       w = volWidth cube_frame /\ h = volHeight cube_frame /\
       buf = (if 7 * (w * h) + w * h <=? vsize (volumeData cube_frame)
              then take (Z.to_nat (w * h))
                        (drop (Z.to_nat (7 * (w * h))) (volumeData cube_frame))
              else []) /\
       (buf = [] -> forall c1 c2 wl ww,
           UpdateOneView cube_frame 2 7 c1 c2 wl ww = NoImage)) /\
    (2 = 1 ->
       w = volWidth cube_frame /\ h = volDepth cube_frame /\ vsize buf = w * h /\
       forall z x, 0 <= z < h -> 0 <= x < w ->
         plane_at buf w x z
         = if z * (volWidth cube_frame * volHeight cube_frame)
              + 7 * volWidth cube_frame + volWidth cube_frame
              <=? vsize (volumeData cube_frame)
           then sample_at cube_frame
                  (z * (volWidth cube_frame * volHeight cube_frame)
                   + 7 * volWidth cube_frame + x)
           else Some 0) /\
    (2 <> 0 -> 2 <> 1 ->
       w = volHeight cube_frame /\ h = volDepth cube_frame /\ vsize buf = w * h /\
       forall z y, 0 <= z < h -> 0 <= y < w ->
         plane_at buf w y z
         = if z * (volWidth cube_frame * volHeight cube_frame)
              + y * volWidth cube_frame + 7
              <? vsize (volumeData cube_frame)
           then sample_at cube_frame
                  (z * (volWidth cube_frame * volHeight cube_frame)
                   + y * volWidth cube_frame + 7)
           else Some 0).
Proof.
  assert (H : 0 <= 7 <= INT_MAX) by (unfold INT_MAX; lia).
  split; [exact cube_frame_dims_ok|]. split; [exact H|].
  exact (extraction_from_nonnegative_index cube_frame 2 7 cube_frame_dims_ok H).
Defined.

(** C8 as stated fails.  In the 2x2x1 volume, the axial and the coronal
    extraction at the index -1 pass their bounds test (the unsigned offset
    wraps around) and read in front of the buffer; and the axial extraction
    at the index 1, one past the last slice, yields no black plane but no
    image at all. *)
Lemma extraction_outside_index_range :
  extract frame_after_first 0 (-1) = ReadOutsideBuffer /\
  extract frame_after_first 1 (-1) = ReadOutsideBuffer /\
  UpdateOneView frame_after_first 0 (-1) 0 0 40 400 = OutsideBuffer /\
  volDepth frame_after_first = 1 /\
  UpdateOneView frame_after_first 0 1 0 0 40 400 = NoImage.
Proof. repeat split; reflexivity. Qed.

(* ===================================================================== *)
(** * Exact double arithmetic on small integers and half-integers *)
(* ===================================================================== *)

Section DoubleFacts.

Local Abbreviation fexp := (SpecFloat.fexp 53 1024).

Lemma fexp_normal e : -1021 <= e -> fexp e = e - 53.
Proof. intros H. unfold SpecFloat.fexp, emin. lia. Qed.

Lemma digits2_pos_size p : digits2_pos p = Pos.size p.
Proof. induction p; simpl; congruence. Qed.

Lemma digits2_pos_bounds p :
  2 ^ (Z.pos (digits2_pos p) - 1) <= Z.pos p < 2 ^ Z.pos (digits2_pos p).
Proof.
  rewrite digits2_pos_size. split.
  - pose proof (Pos.size_le p) as H.
    assert (H' : 2 ^ Z.pos (Pos.size p) <= 2 * Z.pos p).
    { rewrite <- Pos2Z.inj_pow. lia. }
    replace (Z.pos (Pos.size p)) with (Z.succ (Z.pos (Pos.size p) - 1)) in H' by lia.
    rewrite Z.pow_succ_r in H' by lia. lia.
  - pose proof (Pos.size_gt p) as H.
    rewrite <- Pos2Z.inj_pow. lia.
Qed.

Lemma Zpos_iter_xO m p : Z.pos (Pos.iter xO m p) = Z.pos m * 2 ^ Z.pos p.
Proof.
  induction p as [|p IH] using Pos.peano_ind.
  - simpl. lia.
  - rewrite Pos.iter_succ, Pos2Z.inj_succ, Z.pow_succ_r by lia.
    rewrite Pos2Z.inj_xO, IH. ring.
Qed.

Lemma digits2_pos_iter_xO m p :
  digits2_pos (Pos.iter xO m p) = (digits2_pos m + p)%positive.
Proof.
  induction p as [|p IH] using Pos.peano_ind.
  - simpl. lia.
  - rewrite Pos.iter_succ. simpl. rewrite IH. lia.
Qed.

Lemma iter_pos_iter {A} (f : A -> A) p : forall x, SpecFloat.iter_pos f p x = Pos.iter f x p.
Proof.
  induction p as [p IH|p IH|]; intros x; simpl.
  - rewrite !IH. now rewrite !Pos.iter_swap.
  - now rewrite !IH.
  - reflexivity.
Qed.

(** Shifting out zero bits loses nothing. *)
Lemma shr_exact p q :
  SpecFloat.iter_pos shr_1 p
    {| shr_m := Z.pos (Pos.iter xO q p); shr_r := false; shr_s := false |}
  = {| shr_m := Z.pos q; shr_r := false; shr_s := false |}.
Proof.
  rewrite iter_pos_iter. revert q.
  induction p as [|p IH] using Pos.peano_ind; intros q.
  - reflexivity.
  - rewrite Pos.iter_succ.
    replace (Pos.iter xO q (Pos.succ p)) with (Pos.iter xO (xO q) p)
      by (now rewrite Pos.iter_swap, Pos.iter_succ).
    rewrite IH. reflexivity.
Qed.

(** [shr_fexp] on an exact mantissa: 53 bits stay as they are, and
    zero bits beyond the 53 are shifted out. *)
Lemma shr_fexp_normal m e :
  Z.pos (digits2_pos m) = 53 -> -1074 <= e ->
  shr_fexp 53 1024 (Z.pos m) e loc_Exact
  = ({| shr_m := Z.pos m; shr_r := false; shr_s := false |}, e).
Proof.
  intros Hd He. unfold shr_fexp. simpl Zdigits2. rewrite Hd.
  rewrite fexp_normal by lia.
  replace (53 + e - 53 - e) with 0 by lia. reflexivity.
Qed.

Lemma shr_fexp_shift q p e :
  Z.pos (digits2_pos q) = 53 -> -1074 <= e + Z.pos p ->
  shr_fexp 53 1024 (Z.pos (Pos.iter xO q p)) e loc_Exact
  = ({| shr_m := Z.pos q; shr_r := false; shr_s := false |}, e + Z.pos p).
Proof.
  intros Hd He. unfold shr_fexp. simpl Zdigits2.
  rewrite digits2_pos_iter_xO, Pos2Z.inj_add, Hd.
  rewrite fexp_normal by lia.
  replace (53 + Z.pos p + e - 53 - e) with (Z.pos p) by lia.
  unfold shr, shr_record_of_loc. now rewrite shr_exact.
Qed.

Lemma round_aux_tail s q e :
  Z.pos (digits2_pos q) = 53 -> -1074 <= e <= 971 ->
  (let '(mrs'', e'') :=
     shr_fexp 53 1024
       (round_nearest_even
          (shr_m {| shr_m := Z.pos q; shr_r := false; shr_s := false |})
          (loc_of_shr_record {| shr_m := Z.pos q; shr_r := false; shr_s := false |}))
       e loc_Exact in
   match shr_m mrs'' with
   | 0 => S754_zero s
   | Z.pos m0 => if e'' <=? 1024 - 53 then S754_finite s m0 e'' else S754_infinity s
   | Z.neg _ => S754_nan
   end) = S754_finite s q e.
Proof.
  intros Hd He. simpl shr_m. simpl loc_of_shr_record. simpl round_nearest_even.
  rewrite shr_fexp_normal by lia. simpl shr_m. change (1024 - 53) with 971.
  destruct (Z.leb_spec e 971); [reflexivity|lia].
Qed.

(** A mantissa of 53 bits with an exponent in range is a double as it
    stands. *)
Lemma round_aux_normal sx m e :
  Z.pos (digits2_pos m) = 53 -> -1074 <= e <= 971 ->
  binary_round_aux 53 1024 sx (Z.pos m) e loc_Exact = S754_finite sx m e.
Proof.
  intros Hd He. unfold binary_round_aux.
  rewrite shr_fexp_normal by lia. now apply round_aux_tail.
Qed.

Lemma round_aux_shift sx q p e :
  Z.pos (digits2_pos q) = 53 -> -1074 <= e + Z.pos p <= 971 ->
  binary_round_aux 53 1024 sx (Z.pos (Pos.iter xO q p)) e loc_Exact
  = S754_finite sx q (e + Z.pos p).
Proof.
  intros Hd He. unfold binary_round_aux.
  rewrite shr_fexp_shift by lia. apply round_aux_tail; lia.
Qed.

Lemma norm_mant_val m :
  Z.pos (digits2_pos m) <= 53 ->
  Z.pos (norm_mant m) = Z.pos m * 2 ^ (53 - Z.pos (digits2_pos m)) /\
  Z.pos (digits2_pos (norm_mant m)) = 53.
Proof.
  intros Hd. unfold norm_mant.
  destruct (53 - Z.pos (digits2_pos m)) as [|k|k] eqn:E.
  - split; [simpl; lia|lia].
  - rewrite Zpos_iter_xO, digits2_pos_iter_xO. split; [reflexivity|lia].
  - lia.
Qed.

(** Rounding a mantissa that is a 53-bit-representable number times a
    power of two is exact. *)
Lemma binary_round_scaled s m e k m' :
  0 <= k -> Z.pos m' = Z.pos m * 2 ^ k ->
  Z.pos (digits2_pos m) <= 53 ->
  -1074 <= e + Z.pos (digits2_pos m) - 53 <= 971 ->
  binary_round 53 1024 s m' (e - k) = normal s m e.
Proof.
  intros Hk Hm' Hd He.
  destruct (norm_mant_val m Hd) as [Hq Hdq].
  set (d := Z.pos (digits2_pos m)) in *.
  assert (Hd' : Z.pos (digits2_pos m') = d + k).
  { destruct k as [|k|k]; [| |lia].
    - assert (m' = m) by lia. subst. lia.
    - assert (m' = Pos.iter xO m k)
        by (apply Pos2Z.inj; now rewrite Zpos_iter_xO).
      subst m'. rewrite digits2_pos_iter_xO. lia. }
  unfold binary_round, normal. fold d.
  rewrite Hd'. rewrite fexp_normal by lia.
  unfold shl_align.
  replace (d + k + (e - k) - 53 - (e - k)) with (d + k - 53) by lia.
  destruct (d + k - 53) as [|p|p] eqn:Ep.
  - (* the mantissa has 53 bits already *)
    assert (m' = norm_mant m).
    { apply Pos2Z.inj. rewrite Hq, Hm'. f_equal. f_equal. lia. }
    subst m'. rewrite round_aux_normal by lia. f_equal. lia.
  - (* more than 53 bits: the low bits are zero and are shifted out *)
    assert (Hm'q : m' = Pos.iter xO (norm_mant m) p).
    { apply Pos2Z.inj. rewrite Zpos_iter_xO, Hq, Hm'.
      rewrite <- Z.mul_assoc, <- Z.pow_add_r by lia. f_equal. f_equal. lia. }
    rewrite Hm'q, round_aux_shift by lia. f_equal. lia.
  - (* fewer than 53 bits: the mantissa is shifted up *)
    assert (Hq' : Pos.iter xO m' p = norm_mant m).
    { apply Pos2Z.inj. rewrite Zpos_iter_xO, Hq, Hm'.
      rewrite <- Z.mul_assoc, <- Z.pow_add_r by lia. f_equal. f_equal. lia. }
    rewrite Hq'. rewrite round_aux_normal by lia. f_equal. lia.
Qed.

Lemma binary_round_normal s m e :
  Z.pos (digits2_pos m) <= 53 ->
  -1074 <= e + Z.pos (digits2_pos m) - 53 <= 971 ->
  binary_round 53 1024 s m e = normal s m e.
Proof.
  intros Hd He. replace e with (e - 0) at 1 by lia.
  apply binary_round_scaled; [lia|lia|assumption|assumption].
Qed.

(** Numbers of at most 53 bits. *)
Lemma digits_le_53 m : Z.pos m < 2 ^ 53 -> Z.pos (digits2_pos m) <= 53.
Proof.
  intros H. pose proof (digits2_pos_bounds m) as [Hlo _].
  destruct (Z.le_gt_cases (Z.pos (digits2_pos m)) 53) as [|Hgt]; [assumption|].
  exfalso.
  assert (2 ^ 53 <= 2 ^ (Z.pos (digits2_pos m) - 1))
    by (apply Z.pow_le_mono_r; lia).
  lia.
Qed.

Lemma dyadic_pos m e :
  Z.pos m < 2 ^ 53 -> -1000 <= e <= 900 ->
  dyadic (Z.pos m) e = normal false m e.
Proof.
  intros Hm He. pose proof (digits_le_53 m Hm).
  unfold dyadic. simpl. apply binary_round_normal; lia.
Qed.

Lemma dyadic_neg m e :
  Z.pos m < 2 ^ 53 -> -1000 <= e <= 900 ->
  dyadic (Z.neg m) e = normal true m e.
Proof.
  intros Hm He. pose proof (digits_le_53 m Hm).
  unfold dyadic. simpl. apply binary_round_normal; lia.
Qed.

(** The value decides the double: [n * 2^k] at the exponent [e - k] is
    the double of [n] at the exponent [e]. *)
Lemma dyadic_scaled n e k :
  0 <= k -> Z.abs n < 2 ^ 53 -> -1000 <= e <= 900 ->
  binary_normalize 53 1024 (n * 2 ^ k) (e - k) false = dyadic n e.
Proof.
  intros Hk Hn He.
  assert (Hp : 0 < 2 ^ k) by (apply Z.pow_pos_nonneg; lia).
  destruct n as [|m|m].
  - reflexivity.
  - rewrite dyadic_pos by lia.
    destruct (Z.pos m * 2 ^ k) as [|m'|m'] eqn:E; try lia.
    simpl. pose proof (digits_le_53 m ltac:(lia)).
    apply binary_round_scaled; lia.
  - rewrite dyadic_neg by lia.
    destruct (Z.neg m * 2 ^ k) as [|m'|m'] eqn:E; try lia.
    simpl. pose proof (digits_le_53 m ltac:(lia)).
    apply binary_round_scaled; lia.
Qed.

Lemma of_int_dyadic n : Dbl.of_int n = dyadic n 0.
Proof. reflexivity. Qed.

(** An integer as a number of halves. *)
Lemma of_int_halves n : Z.abs n < 2 ^ 52 -> Dbl.of_int n = dyadic (2 * n) (-1).
Proof.
  intros Hn. rewrite of_int_dyadic.
  rewrite <- (dyadic_scaled n 0 1) by lia.
  unfold dyadic. f_equal. lia.
Qed.

(** The double of a non-zero number of at most 53 bits, taken apart. *)
Lemma dyadic_nonzero n e :
  n <> 0 -> Z.abs n < 2 ^ 53 -> -1000 <= e <= 900 ->
  exists m ex,
    dyadic n e = S754_finite (n <? 0) m ex /\
    Z.pos (digits2_pos m) = 53 /\ e - 53 < ex <= e /\
    cond_Zopp (n <? 0) (Z.pos m) = n * 2 ^ (e - ex).
Proof.
  intros Hn Hb He.
  destruct n as [|p|p]; [congruence| |].
  - pose proof (digits_le_53 p ltac:(lia)) as Hd.
    destruct (norm_mant_val p Hd) as [Hq Hdq].
    rewrite dyadic_pos by lia.
    exists (norm_mant p), (e + Z.pos (digits2_pos p) - 53).
    split; [reflexivity|]. split; [assumption|]. split; [lia|].
    change (Z.pos p <? 0) with false. unfold cond_Zopp. rewrite Hq.
    f_equal. f_equal. lia.
  - pose proof (digits_le_53 p ltac:(lia)) as Hd.
    destruct (norm_mant_val p Hd) as [Hq Hdq].
    rewrite dyadic_neg by lia.
    exists (norm_mant p), (e + Z.pos (digits2_pos p) - 53).
    split; [reflexivity|]. split; [assumption|]. split; [lia|].
    change (Z.neg p <? 0) with true. unfold cond_Zopp. rewrite Hq.
    replace (e - (e + Z.pos (digits2_pos p) - 53)) with (53 - Z.pos (digits2_pos p))
      by lia.
    rewrite <- Pos2Z.opp_pos. ring.
Qed.

Lemma shl_align_val m e e' :
  e' <= e -> Z.pos (fst (shl_align m e e')) = Z.pos m * 2 ^ (e - e').
Proof.
  intros H. unfold shl_align.
  destruct (e' - e) as [|p|p] eqn:E; try lia.
  - replace (e - e') with 0 by lia. simpl. lia.
  - simpl. rewrite Zpos_iter_xO. f_equal. f_equal. lia.
Qed.

Lemma aligned_value s m ex e ez n :
  ez <= ex -> ex <= e ->
  cond_Zopp s (Z.pos m) = n * 2 ^ (e - ex) ->
  cond_Zopp s (Z.pos (fst (shl_align m ex ez))) = n * 2 ^ (e - ez).
Proof.
  intros H1 H2 Hv. rewrite shl_align_val by assumption.
  replace (e - ez) with ((e - ex) + (ex - ez)) by lia.
  rewrite Z.pow_add_r by lia. rewrite Z.mul_assoc, <- Hv.
  destruct s; simpl; lia.
Qed.

(** Differences and sums of doubles on one grid are exact as long as
    the result has at most 53 bits. *)
Lemma sub_dyadic a b e :
  Z.abs a < 2 ^ 53 -> Z.abs b < 2 ^ 53 -> Z.abs (a - b) < 2 ^ 53 ->
  -1000 <= e <= 900 ->
  Dbl.sub (dyadic a e) (dyadic b e) = dyadic (a - b) e.
Proof.
  intros Ha Hb Hab He. unfold Dbl.sub, Dbl.prec, Dbl.emax.
  destruct (Z.eq_dec a 0) as [->|Ha0]; destruct (Z.eq_dec b 0) as [->|Hb0].
  - reflexivity.
  - destruct (dyadic_nonzero b e Hb0 Hb He) as (mb & eb & Eb & _ & _ & _).
    change (dyadic 0 e) with (S754_zero false). rewrite Eb. simpl.
    destruct b as [|p|p]; [congruence| |].
    + change (0 - Z.pos p) with (Z.neg p).
      rewrite dyadic_pos in Eb by lia. rewrite dyadic_neg by lia.
      unfold normal in *. now injection Eb as -> ->.
    + change (0 - Z.neg p) with (Z.pos p).
      rewrite dyadic_neg in Eb by lia. rewrite dyadic_pos by lia.
      unfold normal in *. now injection Eb as -> ->.
  - destruct (dyadic_nonzero a e Ha0 Ha He) as (ma & ea & Ea & _ & _ & _).
    change (dyadic 0 e) with (S754_zero false). rewrite Ea. simpl.
    rewrite <- Ea. f_equal. lia.
  - destruct (dyadic_nonzero a e Ha0 Ha He) as (ma & ea & Ea & _ & Hea & Hva).
    destruct (dyadic_nonzero b e Hb0 Hb He) as (mb & eb & Eb & _ & Heb & Hvb).
    rewrite Ea, Eb. unfold SFsub.
    set (ez := Z.min ea eb).
    rewrite (aligned_value _ _ _ e ez a) by (subst ez; lia || assumption).
    rewrite (aligned_value _ _ _ e ez b) by (subst ez; lia || assumption).
    rewrite <- Z.mul_sub_distr_r.
    replace ez with (e - (e - ez)) at 2 by lia.
    apply dyadic_scaled; subst ez; lia.
Qed.

Lemma add_dyadic a b e :
  Z.abs a < 2 ^ 53 -> Z.abs b < 2 ^ 53 -> Z.abs (a + b) < 2 ^ 53 ->
  -1000 <= e <= 900 ->
  Dbl.add (dyadic a e) (dyadic b e) = dyadic (a + b) e.
Proof.
  intros Ha Hb Hab He. unfold Dbl.add, Dbl.prec, Dbl.emax.
  destruct (Z.eq_dec a 0) as [->|Ha0]; destruct (Z.eq_dec b 0) as [->|Hb0].
  - reflexivity.
  - destruct (dyadic_nonzero b e Hb0 Hb He) as (mb & eb & Eb & _ & _ & _).
    change (dyadic 0 e) with (S754_zero false). rewrite Eb. simpl.
    now rewrite <- Eb.
  - destruct (dyadic_nonzero a e Ha0 Ha He) as (ma & ea & Ea & _ & _ & _).
    change (dyadic 0 e) with (S754_zero false). rewrite Ea. simpl.
    rewrite <- Ea. f_equal. lia.
  - destruct (dyadic_nonzero a e Ha0 Ha He) as (ma & ea & Ea & _ & Hea & Hva).
    destruct (dyadic_nonzero b e Hb0 Hb He) as (mb & eb & Eb & _ & Heb & Hvb).
    rewrite Ea, Eb. unfold SFadd.
    set (ez := Z.min ea eb).
    rewrite (aligned_value _ _ _ e ez a) by (subst ez; lia || assumption).
    rewrite (aligned_value _ _ _ e ez b) by (subst ez; lia || assumption).
    rewrite <- Z.mul_add_distr_r.
    replace ez with (e - (e - ez)) at 2 by lia.
    apply dyadic_scaled; subst ez; lia.
Qed.

(** Comparison of two doubles on one grid is comparison of the numbers. *)
Lemma mantissa_lt ma mb A B ka kb :
  Z.pos (digits2_pos ma) = 53 -> Z.pos (digits2_pos mb) = 53 ->
  0 <= kb < ka ->
  Z.pos ma = A * 2 ^ ka -> Z.pos mb = B * 2 ^ kb -> A < B.
Proof.
  intros Hda Hdb Hk Ha Hb.
  pose proof (digits2_pos_bounds ma) as [_ Hma]. rewrite Hda in Hma.
  pose proof (digits2_pos_bounds mb) as [Hmb _]. rewrite Hdb in Hmb.
  change (2 ^ (53 - 1)) with (2 ^ 52) in Hmb.
  assert (Hka : 2 ^ ka = 2 ^ kb * 2 ^ (ka - kb)).
  { rewrite <- Z.pow_add_r by lia. f_equal. lia. }
  assert (H2 : 2 ^ 1 <= 2 ^ (ka - kb)) by (apply Z.pow_le_mono_r; lia).
  assert (Hp : 0 < 2 ^ kb) by (apply Z.pow_pos_nonneg; lia).
  assert (Hpa : 0 < 2 ^ ka) by (apply Z.pow_pos_nonneg; lia).
  change (2 ^ 1) with 2 in H2. change (2 ^ 53) with (2 * 2 ^ 52) in Hma.
  apply (Z.mul_lt_mono_pos_r (2 ^ ka)); [assumption|].
  rewrite <- Ha. rewrite Hka, Z.mul_assoc, <- Hb.
  assert (Z.pos mb * 2 <= Z.pos mb * 2 ^ (ka - kb))
    by (apply Z.mul_le_mono_nonneg_l; lia).
  lia.
Qed.

Lemma compare_normal ma ea mb eb A B e :
  Z.pos (digits2_pos ma) = 53 -> Z.pos (digits2_pos mb) = 53 ->
  ea <= e -> eb <= e ->
  Z.pos ma = A * 2 ^ (e - ea) -> Z.pos mb = B * 2 ^ (e - eb) ->
  match ea ?= eb with
  | Lt => Lt
  | Gt => Gt
  | Eq => Pos.compare_cont Eq ma mb
  end = (A ?= B).
Proof.
  intros Hda Hdb Hea Heb Ha Hb.
  destruct (Z.compare_spec ea eb) as [->|Hlt|Hgt].
  - change (Pos.compare_cont Eq ma mb) with (Z.pos ma ?= Z.pos mb).
    rewrite Ha, Hb.
    assert (Hp : 0 < 2 ^ (e - eb)) by (apply Z.pow_pos_nonneg; lia).
    destruct (Z.compare_spec A B) as [->|Hlt|Hgt].
    + apply Z.compare_refl.
    + apply Z.compare_lt_iff. now apply Z.mul_lt_mono_pos_r.
    + apply Z.compare_gt_iff. now apply Z.mul_lt_mono_pos_r.
  - symmetry. apply Z.compare_lt_iff.
    apply (mantissa_lt ma mb A B (e - ea) (e - eb)); auto; lia.
  - symmetry. apply Z.compare_gt_iff.
    apply (mantissa_lt mb ma B A (e - eb) (e - ea)); auto; lia.
Qed.

Lemma compare_dyadic a b e :
  Z.abs a < 2 ^ 53 -> Z.abs b < 2 ^ 53 -> -1000 <= e <= 900 ->
  SFcompare (dyadic a e) (dyadic b e) = Some (a ?= b).
Proof.
  intros Ha Hb He.
  destruct (Z.eq_dec a 0) as [->|Ha0]; destruct (Z.eq_dec b 0) as [->|Hb0].
  - reflexivity.
  - destruct (dyadic_nonzero b e Hb0 Hb He) as (mb & eb & Eb & _ & _ & _).
    change (dyadic 0 e) with (S754_zero false). rewrite Eb. simpl.
    destruct b as [|p|p]; [congruence|reflexivity|reflexivity].
  - destruct (dyadic_nonzero a e Ha0 Ha He) as (ma & ea & Ea & _ & _ & _).
    change (dyadic 0 e) with (S754_zero false). rewrite Ea. simpl.
    destruct a as [|p|p]; [congruence|reflexivity|reflexivity].
  - destruct (dyadic_nonzero a e Ha0 Ha He) as (ma & ea & Ea & Hda & Hea & Hva).
    destruct (dyadic_nonzero b e Hb0 Hb He) as (mb & eb & Eb & Hdb & Heb & Hvb).
    rewrite Ea, Eb. unfold SFcompare. f_equal.
    destruct (Z.ltb_spec a 0) as [Han|Hap]; destruct (Z.ltb_spec b 0) as [Hbn|Hbp];
      unfold cond_Zopp in Hva, Hvb.
    + (* both negative *)
      assert (Ha' : Z.pos ma = (- a) * 2 ^ (e - ea)) by lia.
      assert (Hb' : Z.pos mb = (- b) * 2 ^ (e - eb)) by lia.
      pose proof (compare_normal ma ea mb eb (- a) (- b) e Hda Hdb
                    ltac:(lia) ltac:(lia) Ha' Hb') as Hc.
      rewrite Z.compare_opp, (Z.compare_antisym a b) in Hc.
      destruct (ea ?= eb); destruct (a ?= b); simpl in *;
        try reflexivity; try discriminate;
        destruct (Pos.compare_cont Eq ma mb); simpl in *; congruence.
    + symmetry. apply Z.compare_lt_iff. lia.
    + symmetry. apply Z.compare_gt_iff. lia.
    + apply (compare_normal ma ea mb eb a b e); auto; lia.
Qed.

Lemma le_dyadic a b e :
  Z.abs a < 2 ^ 53 -> Z.abs b < 2 ^ 53 -> -1000 <= e <= 900 ->
  Dbl.le (dyadic a e) (dyadic b e) = (a <=? b).
Proof.
  intros Ha Hb He. unfold Dbl.le, SFleb. rewrite compare_dyadic by assumption.
  unfold Z.leb. destruct (a ?= b); reflexivity.
Qed.

Lemma div_eucl_exact a b c : 0 < b -> a = c * b -> Z.div_eucl a b = (c, 0).
Proof.
  intros Hb ->.
  pose proof (Z.div_mul c b ltac:(lia)) as Hq.
  pose proof (Z.mod_mul c b ltac:(lia)) as Hr.
  unfold Z.div, Z.modulo in Hq, Hr.
  destruct (Z.div_eucl (c * b) b) as [q r]. simpl in *. congruence.
Qed.

Lemma new_location_exact m : new_location m 0 = loc_Exact.
Proof. unfold new_location. destruct (Z.even m); reflexivity. Qed.

(** The quotient of two 53-bit mantissas before rounding. *)
Lemma div_core_normal m1 e1 m2 e2 :
  Z.pos (digits2_pos m1) = 53 -> Z.pos (digits2_pos m2) = 53 ->
  -1021 <= e1 - e2 ->
  SFdiv_core_binary 53 1024 (Z.pos m1) e1 (Z.pos m2) e2
  = (let '(q, r) := Z.div_eucl (Z.pos m1 * 2 ^ 53) (Z.pos m2) in
     (q, e1 - e2 - 53, new_location (Z.pos m2) r)).
Proof.
  intros H1 H2 He. unfold SFdiv_core_binary, Zdigits2. rewrite H1, H2.
  replace (53 + e1 - (53 + e2)) with (e1 - e2) by lia.
  rewrite fexp_normal by lia.
  replace (Z.min (e1 - e2 - 53) (e1 - e2)) with (e1 - e2 - 53) by lia.
  replace (e1 - e2 - (e1 - e2 - 53)) with 53 by lia.
  rewrite Z.shiftl_mul_pow2 by lia. reflexivity.
Qed.

(** Halving a normal double is exact. *)
Lemma div_two_normal s q ex :
  Z.pos (digits2_pos q) = 53 -> -1000 <= ex <= 900 ->
  Dbl.div (S754_finite s q ex) Dbl.two = S754_finite s q (ex - 1).
Proof.
  intros Hd He.
  change Dbl.two with (S754_finite false 4503599627370496 (-51)).
  unfold Dbl.div, Dbl.prec, Dbl.emax, SFdiv.
  rewrite div_core_normal by (assumption || reflexivity || lia).
  rewrite (div_eucl_exact _ _ (Z.pos q~0)).
  2:{ lia. }
  2:{ rewrite (Pos2Z.inj_xO q).
      change (2 ^ 53) with (2 * 4503599627370496). ring. }
  rewrite new_location_exact.
  change (Z.pos q~0) with (Z.pos (Pos.iter xO q 1)).
  rewrite round_aux_shift by lia.
  rewrite xorb_false_r. f_equal. lia.
Qed.

(** A normal double divided by itself is 1. *)
Lemma div_self_normal s q ex :
  Z.pos (digits2_pos q) = 53 ->
  Dbl.div (S754_finite s q ex) (S754_finite s q ex) = Dbl.one.
Proof.
  intros Hd.
  unfold Dbl.div, Dbl.prec, Dbl.emax, SFdiv.
  rewrite div_core_normal by (assumption || lia).
  rewrite (div_eucl_exact _ _ (2 ^ 53)).
  2:{ lia. }
  2:{ ring. }
  rewrite new_location_exact, xorb_nilpotent.
  replace (ex - ex - 53) with (-53) by lia. reflexivity.
Qed.

End DoubleFacts.

(* ===================================================================== *)
(** * Cursor mapping and windowing: the stated properties *)
(* ===================================================================== *)

Lemma of_int_positive n :
  0 < n < 2 ^ 53 ->
  exists q ex, Dbl.of_int n = S754_finite false q ex /\
               Z.pos (digits2_pos q) = 53 /\ -53 < ex <= 0.
Proof.
  intros Hn. rewrite of_int_dyadic.
  destruct (dyadic_nonzero n 0 ltac:(lia) ltac:(lia) ltac:(lia))
    as (q & ex & E & Hd & Hex & _).
  exists q, ex. rewrite E.
  replace (n <? 0) with false by (symmetry; apply Z.ltb_ge; lia).
  split; [reflexivity|]. split; [assumption|lia].
Qed.

(** C7, as the code has it.  For every in-plane extent d > 1 the cursor
    position is exactly 0.0 at index 0 and exactly 1.0 at index d - 1.  For
    d = 1 there is no guard: the division by zero is carried out, and yields
    NaN at index 0 and plus infinity at a greater index; with a NaN
    coordinate the panel's test [crossX >= 0 && crossY >= 0] fails, so no
    cross-hair is drawn. *)
Theorem cursor_rel_ends d :
  1 < d <= INT_MAX ->
  cursor_rel 0 d = Dbl.zero /\ cursor_rel (d - 1) d = Dbl.one /\
  cursor_rel 0 1 = Dbl.nan /\
  (forall c, 0 < c <= INT_MAX -> cursor_rel c 1 = S754_infinity false) /\
  (forall x, cross_hair_enabled x (cursor_rel 0 1) = false /\
             cross_hair_enabled (cursor_rel 0 1) x = false).
Proof.
  intros Hd. unfold INT_MAX in *. unfold cursor_rel.
  rewrite (int_of_small (d - 1)) by (unfold INT_MAX; lia).
  destruct (of_int_positive (d - 1) ltac:(lia)) as (q & ex & E & Hq & Hex).
  rewrite E. split; [reflexivity|]. split; [now apply div_self_normal|].
  split; [reflexivity|]. split.
  - intros c Hc.
    destruct (of_int_positive c ltac:(lia)) as (qc & exc & Ec & _ & _).
    rewrite Ec. reflexivity.
  - intros x. unfold cross_hair_enabled.
    change (Dbl.div (Dbl.of_int 0) (Dbl.of_int (int_of (1 - 1)))) with Dbl.nan.
    split; [|reflexivity].
    apply andb_false_r.
Qed.

Lemma cursor_rel_ends_witness :
  1 < 512 <= INT_MAX /\
  cursor_rel 0 512 = Dbl.zero /\ cursor_rel (512 - 1) 512 = Dbl.one /\
  cursor_rel 0 1 = Dbl.nan /\
  (forall c, 0 < c <= INT_MAX -> cursor_rel c 1 = S754_infinity false) /\
  (forall x, cross_hair_enabled x (cursor_rel 0 1) = false /\
             cross_hair_enabled (cursor_rel 0 1) x = false).
Proof.
  assert (H : 1 < 512 <= INT_MAX) by (unfold INT_MAX; lia).
  split; [exact H|]. exact (cursor_rel_ends 512 H).
Defined.

(** C7 as stated fails for an extent of 1: the division by zero is made
    and its result is NaN, as the coronal view of a one-slice volume shows
    ([relY] of a plane one row high). *)
Lemma cursor_rel_extent_one_is_nan :
  cursor_rel 0 1 = Dbl.nan /\
  exists img,
    UpdateOneView frame_after_first 1 0 1 0 40 400 = Shown img /\
    img_h img = 1 /\ relY img = Dbl.nan.
Proof.
  split; [reflexivity|]. eexists. split; [reflexivity|]. split; reflexivity.
Qed.

Section Windowing.

Variables wl ww v : Z.
Hypothesis Hwl : - 2 ^ 31 <= wl < 2 ^ 31.
Hypothesis Hww : - 2 ^ 31 <= ww < 2 ^ 31.
Hypothesis Hv : - 2 ^ 15 <= v < 2 ^ 15.

Let w := Z.max ww 1.

Lemma window_width_clamped : (if ww <? 1 then 1 else ww) = w.
Proof. subst w. destruct (Z.ltb_spec ww 1); lia. Qed.

Lemma half_width : Dbl.div (Dbl.of_int w) Dbl.two = dyadic w (-1).
Proof.
  assert (Hw : 0 < w < 2 ^ 53) by (subst w; lia).
  destruct w as [|p|p] eqn:Ew; try lia.
  rewrite of_int_dyadic, !dyadic_pos by lia. unfold normal.
  pose proof (digits_le_53 p ltac:(lia)) as Hd.
  destruct (norm_mant_val p Hd) as [_ Hdq].
  rewrite div_two_normal by lia. f_equal. lia.
Qed.

Lemma window_lower_exact : window_lower wl w = dyadic (2 * wl - w) (-1).
Proof.
  assert (Hw : 0 < w < 2 ^ 31) by (subst w; lia).
  unfold window_lower. rewrite half_width, (of_int_halves wl) by lia.
  apply sub_dyadic; lia.
Qed.

Lemma window_upper_exact :
  Dbl.add (window_lower wl w) (Dbl.of_int w) = dyadic (2 * wl + w) (-1).
Proof.
  assert (Hw : 0 < w < 2 ^ 31) by (subst w; lia).
  rewrite window_lower_exact, (of_int_halves w) by lia.
  rewrite add_dyadic by lia. f_equal. lia.
Qed.

Lemma window_pixel_unfold :
  window_pixel wl ww v
  = Dbl.to_uchar
      (if 2 * v <=? 2 * wl - w then Dbl.of_int 0
       else if 2 * wl + w <=? 2 * v then Dbl.of_int 255
       else Dbl.mul (Dbl.div (dyadic (2 * v - (2 * wl - w)) (-1)) (Dbl.of_int w))
                    (Dbl.of_int 255)).
Proof.
  assert (Hw : 0 < w < 2 ^ 31) by (subst w; lia).
  unfold window_pixel. rewrite window_width_clamped.
  rewrite window_upper_exact, window_lower_exact.
  rewrite (of_int_halves v) by lia.
  unfold Dbl.ge. rewrite !le_dyadic by lia.
  rewrite sub_dyadic by lia. reflexivity.
Qed.

End Windowing.

Lemma default_window_table :
  forallb (fun v => window_pixel 40 400 v =? default_window_floor v)
          default_window_interior = true.
Proof. vm_compute. reflexivity. Qed.

Lemma default_window_interior_complete v :
  -160 < v < 240 -> In v default_window_interior.
Proof.
  intros Hv. unfold default_window_interior.
  apply in_map_iff. exists (Z.to_nat (v + 159)). split; [lia|].
  apply in_seq. lia.
Qed.

Lemma default_window_floor_correct v :
  - 2 ^ 15 <= v < 2 ^ 15 -> window_pixel 40 400 v = default_window_floor v.
Proof.
  intros Hv.
  destruct (Z.le_gt_cases v (-160)) as [Hlo|Hlo];
    [|destruct (Z.le_gt_cases 240 v) as [Hhi|Hhi]].
  - rewrite (window_pixel_unfold 40 400 v) by lia.
    change (Z.max 400 1) with 400. unfold default_window_floor.
    destruct (Z.leb_spec (2 * v) (2 * 40 - 400)); [|lia].
    destruct (Z.leb_spec v (-160)); [reflexivity|lia].
  - rewrite (window_pixel_unfold 40 400 v) by lia.
    change (Z.max 400 1) with 400. unfold default_window_floor.
    destruct (Z.leb_spec (2 * v) (2 * 40 - 400)); [lia|].
    destruct (Z.leb_spec (2 * 40 + 400) (2 * v)); [|lia].
    destruct (Z.leb_spec v (-160)); [lia|].
    destruct (Z.leb_spec 240 v); [reflexivity|lia].
  - pose proof default_window_table as Ht.
    rewrite forallb_forall in Ht.
    apply Z.eqb_eq. apply Ht. apply default_window_interior_complete. lia.
Qed.

(** C3, as the code has it.  For every 16-bit sample v and every window
    (level, width) of [int] values, the width raised to 1 if it is smaller:
    lower is exactly level - width/2 and lower + range exactly
    level + width/2; v goes to 0 if v <= lower and to 255 if
    v >= lower + range; any other v goes to the double
    ((v - lower) / range) * 255.0, in which the difference is exact and the
    quotient and the product are rounded, with its fraction cut off: the
    conversion to [unsigned char] truncates, it does not round to nearest.
    For level 40 and width 400 that is the integer part of
    (v + 160) * 255 / 400 for every 16-bit v: -160 goes to 0, 240 to 255 and
    40 to 127. *)
Theorem window_pixel_cases wl ww v :
  - 2 ^ 31 <= wl < 2 ^ 31 -> - 2 ^ 31 <= ww < 2 ^ 31 -> - 2 ^ 15 <= v < 2 ^ 15 ->
  window_lower wl (Z.max ww 1) = dyadic (2 * wl - Z.max ww 1) (-1) /\
  Dbl.add (window_lower wl (Z.max ww 1)) (Dbl.of_int (Z.max ww 1))
  = dyadic (2 * wl + Z.max ww 1) (-1) /\
  (2 * v <= 2 * wl - Z.max ww 1 -> window_pixel wl ww v = 0) /\
  (2 * wl + Z.max ww 1 <= 2 * v -> window_pixel wl ww v = 255) /\
  (2 * wl - Z.max ww 1 < 2 * v < 2 * wl + Z.max ww 1 ->
   window_pixel wl ww v
   = Dbl.to_uchar
       (Dbl.mul (Dbl.div (dyadic (2 * v - (2 * wl - Z.max ww 1)) (-1))
                         (Dbl.of_int (Z.max ww 1)))
                (Dbl.of_int 255))) /\
  window_pixel 40 400 v = default_window_floor v /\
  window_pixel 40 400 (-160) = 0 /\
  window_pixel 40 400 240 = 255 /\
  window_pixel 40 400 40 = 127.
Proof.
  intros Hwl Hww Hv.
  split; [now apply window_lower_exact|].
  split; [now apply window_upper_exact|].
  rewrite (window_pixel_unfold wl ww v Hwl Hww Hv).
  split; [|split; [|split]].
  - intros H. destruct (Z.leb_spec (2 * v) (2 * wl - Z.max ww 1)); [reflexivity|lia].
  - intros H. destruct (Z.leb_spec (2 * v) (2 * wl - Z.max ww 1)); [lia|].
    destruct (Z.leb_spec (2 * wl + Z.max ww 1) (2 * v)); [reflexivity|lia].
  - intros H. destruct (Z.leb_spec (2 * v) (2 * wl - Z.max ww 1)); [lia|].
    destruct (Z.leb_spec (2 * wl + Z.max ww 1) (2 * v)); [lia|reflexivity].
  - split; [|repeat split; reflexivity].
    now apply default_window_floor_correct.
Qed.

Lemma window_pixel_cases_witness :
  - 2 ^ 31 <= 40 < 2 ^ 31 /\ - 2 ^ 31 <= 400 < 2 ^ 31 /\ - 2 ^ 15 <= 40 < 2 ^ 15 /\
  window_lower 40 (Z.max 400 1) = dyadic (2 * 40 - Z.max 400 1) (-1) /\
  Dbl.add (window_lower 40 (Z.max 400 1)) (Dbl.of_int (Z.max 400 1))
  = dyadic (2 * 40 + Z.max 400 1) (-1) /\
  (2 * 40 <= 2 * 40 - Z.max 400 1 -> window_pixel 40 400 40 = 0) /\
  (2 * 40 + Z.max 400 1 <= 2 * 40 -> window_pixel 40 400 40 = 255) /\
  (2 * 40 - Z.max 400 1 < 2 * 40 < 2 * 40 + Z.max 400 1 ->
   window_pixel 40 400 40
   = Dbl.to_uchar
       (Dbl.mul (Dbl.div (dyadic (2 * 40 - (2 * 40 - Z.max 400 1)) (-1))
                         (Dbl.of_int (Z.max 400 1)))
                (Dbl.of_int 255))) /\
  window_pixel 40 400 40 = default_window_floor 40 /\
  window_pixel 40 400 (-160) = 0 /\
  window_pixel 40 400 240 = 255 /\
  window_pixel 40 400 40 = 127.
Proof.
  assert (H1 : - 2 ^ 31 <= 40 < 2 ^ 31) by lia.
  assert (H2 : - 2 ^ 31 <= 400 < 2 ^ 31) by lia.
  assert (H3 : - 2 ^ 15 <= 40 < 2 ^ 15) by lia.
  split; [exact H1|]. split; [exact H2|]. split; [exact H3|].
  exact (window_pixel_cases 40 400 40 H1 H2 H3).
Defined.

(** C3 as stated fails where the scaled value has a fraction of one half
    or more: for level 40 and width 400 the sample -159 scales to 0.6375 and
    is shown as 0, not as 1, and the sample 40 scales to 127.5 and is shown
    as 127, not as 128. *)
Lemma window_pixel_truncates :
  window_pixel 40 400 (-159) = 0 /\ window_pixel_spec 40 400 (-159) = 1 /\
  window_pixel 40 400 40 = 127 /\ window_pixel_spec 40 400 40 = 128.
Proof. repeat split; reflexivity. Qed.
(* ===================================================================== *)
(** * Series selection: what the choice depends on *)
(* ===================================================================== *)

Lemma group_fold_filter files : forall m,
  fold_left group_step (List.filter grouped files) m
  = fold_left group_step files m.
Proof.
  induction files as [|f files IH]; intros m; [reflexivity|].
  cbn [List.filter fold_left].
  destruct (grouped f) eqn:Hg.
  - cbn [fold_left]. apply IH.
  - rewrite IH. f_equal. unfold group_step, grouped in *.
    destruct (scanGood f); [|reflexivity].
    destruct (SeriesInstanceUID f); [discriminate|reflexivity].
Qed.

(** X1.  Files that do not open in the grouping pass, or that carry no series
    identifier, have no influence on the selection: the selected series is
    the one selected among the remaining files alone. *)
Theorem select_series_ignores_ungrouped files :
  select_series (List.filter grouped files) = select_series files.
Proof.
  unfold select_series, group_series. rewrite group_fold_filter. reflexivity.
Qed.

Lemma filter_Permutation_bool {A} (p : A -> bool) (l l' : list A) :
  Permutation l l' -> Permutation (List.filter p l) (List.filter p l').
Proof.
  induction 1 as [|x l l' _ IH|x y l|l l' l'' _ IH1 _ IH2]; cbn [List.filter].
  - constructor.
  - destruct (p x); [constructor|]; exact IH.
  - destruct (p x), (p y); try reflexivity. apply perm_swap.
  - etransitivity; eassumption.
Qed.

Lemma partition_of_Permutation u files files' :
  Permutation files files' ->
  Permutation (partition_of u files) (partition_of u files') /\
  vsize (partition_of u files) = vsize (partition_of u files').
Proof.
  intros Hp. pose proof (filter_Permutation_bool (in_series u) _ _ Hp) as H.
  split; [exact H|]. unfold vsize. f_equal. apply Permutation_length, H.
Qed.

Lemma select_series_none files :
  select_series files = None -> Forall (fun f => grouped f = false) files.
Proof.
  intros Hn. apply List.Forall_forall. intros f Hin.
  destruct (grouped f) eqn:Hg; [|reflexivity].
  destruct (select_series_some files) as [t Ht]; [|congruence].
  apply List.Exists_exists. exists f. split; assumption.
Qed.

Lemma grouped_of_in_series u f : in_series u f = true -> grouped f = true.
Proof.
  unfold in_series, grouped. destruct (scanGood f); [|discriminate].
  destruct (SeriesInstanceUID f); [reflexivity|discriminate].
Qed.

Lemma select_series_has_member files target :
  select_series files = Some target ->
  exists f, In f files /\ grouped f = true.
Proof.
  intros Hs.
  destruct (select_series_characterised files target Hs) as (u & -> & Hne & _).
  destruct (partition_of u files) as [|f l] eqn:Hp; [congruence|].
  assert (Hin : In f (partition_of u files)) by (rewrite Hp; left; reflexivity).
  unfold partition_of in Hin. apply filter_In in Hin as [Hin Hu].
  exists f. split; [exact Hin|]. eapply grouped_of_in_series, Hu.
Qed.

(** X2.  The selection does not depend on the order in which the folder is
    listed: for two listings of the same files the same series identifier is
    chosen, and the two selections hold the same files. *)
Theorem select_series_order_independent files files' :
  Permutation files files' ->
  match select_series files, select_series files' with
  | Some t, Some t' =>
      exists u, t = partition_of u files /\ t' = partition_of u files' /\
                Permutation t t'
  | None, None => True
  | _, _ => False
  end.
Proof.
  intros Hp.
  destruct (select_series files) as [t|] eqn:Hs;
    destruct (select_series files') as [t'|] eqn:Hs'.
  - destruct (select_series_characterised files t Hs) as (u & Ht & _ & Hu).
    destruct (select_series_characterised files' t' Hs') as (u' & Ht' & _ & Hu').
    assert (Heq : forall k, vsize (partition_of k files)
                            = vsize (partition_of k files'))
      by (intros k; apply partition_of_Permutation, Hp).
    subst t t'.
    assert (u = u') as <-.
    { destruct (Hu u') as [Hle1 Htie1]. destruct (Hu' u) as [Hle2 Htie2].
      pose proof (Heq u) as E1. pose proof (Heq u') as E2.
      destruct Htie1 as [E|L1]; [lia|congruence|].
      destruct Htie2 as [E|L2]; [lia|congruence|].
      exfalso. eapply uid_lt_irrefl, uid_lt_trans; eassumption. }
    exists u. split; [reflexivity|]. split; [reflexivity|].
    apply partition_of_Permutation, Hp.
  - destruct (select_series_has_member files t Hs) as (f & Hin & Hg).
    pose proof (select_series_none files' Hs') as Hall.
    rewrite List.Forall_forall in Hall.
    rewrite (Hall f) in Hg; [discriminate|].
    eapply Permutation_in; eassumption.
  - destruct (select_series_has_member files' t' Hs') as (f & Hin & Hg).
    pose proof (select_series_none files Hs) as Hall.
    rewrite List.Forall_forall in Hall.
    rewrite (Hall f) in Hg; [discriminate|].
    eapply Permutation_in; [symmetry|]; eassumption.
  - exact I.
Qed.

Lemma select_series_order_independent_witness :
  Permutation [file_B; file_A] [file_A; file_B] /\
  match select_series [file_B; file_A], select_series [file_A; file_B] with
  | Some t, Some t' =>
      exists u, t = partition_of u [file_B; file_A] /\
                t' = partition_of u [file_A; file_B] /\
                Permutation t t'
  | None, None => True
  | _, _ => False
  end.
Proof.
  split; [apply perm_swap|].
  apply (select_series_order_independent [file_B; file_A] [file_A; file_B]).
  apply perm_swap.
Defined.

(* ===================================================================== *)
(** * The build: exits, retained slices, repeated loads *)
(* ===================================================================== *)

(** X3.  A load that does not run to its end leaves the sample buffer, the
    depth and the five sliders as they were; a load that ends before a
    series is chosen (no file, or no file with a series identifier) leaves
    the whole viewer as it was. *)
Theorem incomplete_load_effects srt g files :
  match fst (OnLoadBtn_sliders srt g files) with
  | NoFiles | NoSeriesFound => snd (OnLoadBtn_sliders srt g files) = g
  | EmptyVolume =>
      let g' := snd (OnLoadBtn_sliders srt g files) in
      volumeData (frame g') = volumeData (frame g) /\
      volDepth (frame g') = volDepth (frame g) /\
      sliderX g' = sliderX g /\ sliderY g' = sliderY g /\
      sliderZ g' = sliderZ g /\
      wlSlider g' = wlSlider g /\ wwSlider g' = wwSlider g
  | Loaded => fst (OnLoadBtn srt (frame g) files) = Loaded
  end.
Proof.
  unfold OnLoadBtn_sliders.
  pose proof (OnLoadBtn_failure_keeps_buffer srt (frame g) files) as Hk.
  assert (Hu : (fst (OnLoadBtn srt (frame g) files) = NoFiles \/
                fst (OnLoadBtn srt (frame g) files) = NoSeriesFound) ->
               snd (OnLoadBtn srt (frame g) files) = frame g).
  { unfold OnLoadBtn. destruct files as [|f0 files]; [reflexivity|].
    destruct (select_series (f0 :: files)) as [target|]; [|reflexivity].
    destruct (load_slices (frame g) target) as [st1 [|s temp]]; simpl;
      intros [E|E]; discriminate. }
  destruct (OnLoadBtn srt (frame g) files) as [e st1]. simpl in *.
  destruct e; simpl.
  - rewrite Hu by (left; reflexivity). destruct g; reflexivity.
  - rewrite Hu by (right; reflexivity). destruct g; reflexivity.
  - destruct Hk as [Hk|[Hv Hd]]; [discriminate|]. repeat split; assumption.
  - reflexivity.
Qed.

(** ** The slices that are retained *)

Lemma int_of_pixels f :
  decoded_ok f -> imgNormal f = true ->
  int_of (imgWidth f * imgHeight f) = imgWidth f * imgHeight f.
Proof.
  intros Hok Hn. destruct (Hok Hn) as (Hw & Hh & Hm & _).
  apply int_of_small. unfold INT_MAX in *. nia.
Qed.

Lemma take_whole (data : list Z) n : vsize data = n -> take (Z.to_nat n) data = data.
Proof.
  unfold vsize. intros <-. rewrite Nat2Z.id. apply firstn_all.
Qed.

(** One turn of the loading loop once the header is fixed. *)
Lemma load_step_fixed st temp f :
  volWidth st <> 0 -> decoded_ok f ->
  load_step (st, temp) f
  = (st, temp ++ map whole_slice
                   (List.filter (retained (volWidth st) (volHeight st)) [f])).
Proof.
  intros HW Hok. unfold load_step, retained. cbn [List.filter].
  destruct (loadGood f); cbn [andb]; [|rewrite app_nil_r; reflexivity].
  apply Z.eqb_neq in HW. rewrite HW.
  unfold image_fits.
  destruct (imgNormal f) eqn:Hn; cbn [andb]; [|rewrite app_nil_r; reflexivity].
  destruct (imgWidth f =? volWidth st) eqn:Ew; cbn [andb];
    [|rewrite app_nil_r; reflexivity].
  destruct (imgHeight f =? volHeight st) eqn:Eh; cbn [andb];
    [|rewrite app_nil_r; reflexivity].
  destruct (outputData f) as [data|] eqn:Hd; [|rewrite app_nil_r; reflexivity].
  cbn [map]. do 2 f_equal. unfold slice_of, whole_slice. rewrite Hd.
  apply Z.eqb_eq in Ew, Eh. rewrite <- Ew, <- Eh.
  rewrite (int_of_pixels f Hok Hn), take_whole; [reflexivity|].
  destruct (Hok Hn) as (_ & _ & _ & Hsz). apply Hsz, Hd.
Qed.

Lemma load_fold_fixed target : forall st temp,
  volWidth st <> 0 -> Forall decoded_ok target ->
  fold_left load_step target (st, temp)
  = (st, temp ++ map whole_slice
                   (List.filter (retained (volWidth st) (volHeight st)) target)).
Proof.
  induction target as [|f target IH]; intros st temp HW Hok.
  - cbn. rewrite app_nil_r. reflexivity.
  - inversion Hok as [|? ? Hf Hrest]; subst.
    cbn [fold_left]. rewrite (load_step_fixed st temp f HW Hf).
    rewrite (IH _ _ HW Hrest). f_equal.
    change (f :: target) with ([f] ++ target).
    rewrite List.filter_app, map_app, app_assoc. reflexivity.
Qed.

(** The files in front of the one that fixes the header yield nothing. *)
Lemma load_fold_before_header pre : forall st temp,
  volWidth st = 0 -> Forall no_header pre -> Forall decoded_ok pre ->
  exists st1, fold_left load_step pre (st, temp) = (st1, temp) /\
              volWidth st1 = 0 /\
              volumeData st1 = volumeData st /\ volDepth st1 = volDepth st.
Proof.
  induction pre as [|g pre IH]; intros st temp HW Hno Hok.
  - exists st. repeat split; assumption.
  - inversion Hno as [|? ? Hg Hno']; subst. inversion Hok as [|? ? Hokg Hok']; subst.
    cbn [fold_left].
    assert (Hstep : exists st1, load_step (st, temp) g = (st1, temp) /\
                                volWidth st1 = 0 /\
                                volumeData st1 = volumeData st /\
                                volDepth st1 = volDepth st).
    { unfold load_step. destruct (loadGood g) eqn:Hl.
      - destruct Hg as [Hg|Hg]; [congruence|].
        rewrite HW. cbn [Z.eqb].
        assert (Hfit : image_fits (record_header st g) g = false).
        { unfold image_fits. cbn [record_header volWidth]. rewrite Hg.
          destruct (imgNormal g) eqn:Hn; [|reflexivity]. cbn [andb].
          destruct (Hokg Hn) as (Hw & _).
          replace (imgWidth g =? 0) with false by (symmetry; apply Z.eqb_neq; lia).
          reflexivity. }
        rewrite Hfit. exists (record_header st g).
        repeat split; try reflexivity. exact Hg.
      - exists st. repeat split; assumption. }
    destruct Hstep as (st1 & -> & HW1 & Hv1 & Hd1).
    destruct (IH st1 temp HW1 Hno' Hok') as (st2 & -> & HW2 & Hv2 & Hd2).
    exists st2. repeat split; congruence.
Qed.

(** The whole loading loop, for a series with a file that fixes the
    header. *)
Lemma load_slices_from_header st pre f post :
  Forall decoded_ok (pre ++ f :: post) ->
  Forall no_header pre -> loadGood f = true -> Columns f <> 0 ->
  exists st1,
    load_slices st (pre ++ f :: post)
    = (st1, map whole_slice
                (List.filter (retained (Columns f) (Rows f)) (f :: post))) /\
    volWidth st1 = Columns f /\ volHeight st1 = Rows f.
Proof.
  intros Hok Hno Hl Hc.
  apply Forall_app in Hok as [Hokpre Hok].
  inversion Hok as [|? ? Hokf Hokpost]; subst.
  unfold load_slices. rewrite fold_left_app.
  destruct (load_fold_before_header pre (reset_dims st) [] eq_refl Hno Hokpre)
    as (st0 & -> & HW0 & _).
  cbn [fold_left].
  assert (Hstep : load_step (st0, []) f
                  = (record_header st0 f,
                     map whole_slice
                         (List.filter (retained (Columns f) (Rows f)) [f]))).
  { pose proof (load_step_fixed (record_header st0 f) [] f Hc Hokf) as Hfix.
    cbn [record_header volWidth volHeight app] in Hfix.
    rewrite <- Hfix. unfold load_step. rewrite Hl, HW0. cbn [Z.eqb].
    assert (Hz : (Columns f =? 0) = false) by (apply Z.eqb_neq; exact Hc).
    cbn [record_header volWidth]. rewrite Hz. reflexivity. }
  rewrite Hstep.
  rewrite (load_fold_fixed post (record_header st0 f) _ Hc Hokpost).
  cbn [record_header volWidth volHeight].
  exists (record_header st0 f). split; [|split; reflexivity].
  f_equal. change (f :: post) with ([f] ++ post).
  rewrite List.filter_app, map_app. reflexivity.
Qed.

Lemma load_slices_header_split st target :
  volWidth (fst (load_slices st target)) <> 0 ->
  exists pre f post,
    target = pre ++ f :: post /\ Forall no_header pre /\
    loadGood f = true /\ Columns f <> 0.
Proof.
  intros HW. unfold load_slices in *.
  destruct (load_fold_header target (reset_dims st) [] eq_refl)
    as [H0|(pre & f & post & Ht & Hno & Hl & Hc & _)]; [contradiction|].
  exists pre, f, post. repeat split; assumption.
Qed.

(** X4.  Which slices a completed build holds.  The first file of the series
    that opens with a non-zero column count fixes width and height; from that
    file on, a file yields a slice exactly when it opens, is rendered with
    the status normal at that width and height, and gives an output buffer;
    the slice is the whole buffer.  The files in front yield nothing, and the
    depth is the number of files that yield a slice. *)
Theorem retained_slices_characterised srt st files st' :
  sort_contract srt -> Forall decoded_ok files ->
  OnLoadBtn srt st files = (Loaded, st') ->
  exists target pre f post,
    select_series files = Some target /\
    target = pre ++ f :: post /\ Forall no_header pre /\
    loadGood f = true /\ Columns f = volWidth st' /\ Rows f = volHeight st' /\
    snd (load_slices st target)
    = map whole_slice
          (List.filter (retained (volWidth st') (volHeight st')) (f :: post)) /\
    Permutation (snd (load_slices st target)) (placed_slices srt st files) /\
    volDepth st'
    = int_of (vsize (List.filter (retained (volWidth st') (volHeight st'))
                                 (f :: post))).
Proof.
  intros Hsrt Hok Hload.
  pose proof (loaded_width_nonzero srt st files st' Hok Hload) as HW.
  destruct (OnLoadBtn_loaded srt st files st' Hload) as (target & Hsel & Hne & Hst').
  assert (Hokt : Forall decoded_ok target).
  { apply List.Forall_forall. intros f Hin. rewrite List.Forall_forall in Hok.
    apply Hok. eapply select_series_subset; eassumption. }
  assert (HW' : volWidth (fst (load_slices st target)) <> 0)
    by (rewrite Hst' in HW; exact HW).
  destruct (load_slices_header_split st target HW')
    as (pre & f & post & Ht & Hno & Hl & Hc).
  subst target.
  destruct (load_slices_from_header st pre f post Hokt Hno Hl Hc)
    as (st1 & Hls & HW1 & HH1).
  assert (Hplaced : placed_slices srt st files
                    = srt (snd (load_slices st (pre ++ f :: post))))
    by (unfold placed_slices; rewrite Hsel; reflexivity).
  exists (pre ++ f :: post), pre, f, post.
  rewrite Hst'. cbn [pack volWidth volHeight volDepth].
  rewrite Hls. cbn [fst snd]. rewrite HW1, HH1.
  split; [exact Hsel|]. split; [reflexivity|]. split; [exact Hno|].
  split; [exact Hl|]. split; [reflexivity|]. split; [reflexivity|].
  split; [reflexivity|].
  rewrite Hplaced, Hls. cbn [snd].
  split; [apply Hsrt|].
  f_equal. unfold vsize. f_equal.
  rewrite <- (Permutation_length (proj1 (Hsrt _))). apply length_map.
Qed.

Lemma retained_slices_characterised_witness :
  sort_contract sort_ties_kept /\ Forall decoded_ok header_only_folder /\
  OnLoadBtn sort_ties_kept initial_frame header_only_folder
  = (Loaded, frame_after_header_only) /\
  exists target pre f post,
    select_series header_only_folder = Some target /\
    target = pre ++ f :: post /\ Forall no_header pre /\
    loadGood f = true /\
    Columns f = volWidth frame_after_header_only /\
    Rows f = volHeight frame_after_header_only /\
    snd (load_slices initial_frame target)
    = map whole_slice
          (List.filter (retained (volWidth frame_after_header_only)
                                 (volHeight frame_after_header_only))
                       (f :: post)) /\
    Permutation (snd (load_slices initial_frame target))
                (placed_slices sort_ties_kept initial_frame header_only_folder) /\
    volDepth frame_after_header_only
    = int_of (vsize (List.filter (retained (volWidth frame_after_header_only)
                                           (volHeight frame_after_header_only))
                                 (f :: post))).
Proof.
  split; [exact sort_ties_kept_contract|].
  split; [exact header_only_folder_ok|].
  split; [reflexivity|].
  apply (retained_slices_characterised sort_ties_kept initial_frame
           header_only_folder frame_after_header_only).
  - exact sort_ties_kept_contract.
  - exact header_only_folder_ok.
  - reflexivity.
Defined.

(** ** Distinct instance numbers *)

Lemma load_fold_instances target : forall acc,
  exists d,
    map instance (snd (fold_left load_step target acc))
    = map instance (snd acc) ++ d /\
    sublist d (map (fun f => int_of (InstanceNumber f)) target).
Proof.
  induction target as [|f target IH]; intros acc.
  - exists []. cbn. rewrite app_nil_r. split; [reflexivity|constructor].
  - cbn [fold_left map].
    destruct (IH (load_step acc f)) as (d & Hd & Hsub). rewrite Hd.
    destruct acc as [st temp]. unfold load_step.
    destruct (loadGood f); [|exists d; split; [reflexivity|apply sublist_cons, Hsub]].
    destruct (image_fits _ f);
      [|exists d; split; [reflexivity|apply sublist_cons, Hsub]].
    destruct (outputData f) as [data|];
      [|exists d; split; [reflexivity|apply sublist_cons, Hsub]].
    exists (int_of (InstanceNumber f) :: d). cbn [snd].
    rewrite map_app, <- app_assoc. split; [reflexivity|].
    apply sublist_skip, Hsub.
Qed.

Lemma NoDup_map_inj {A B} (f : A -> B) (l : list A) x y :
  List.NoDup (map f l) -> In x l -> In y l -> f x = f y -> x = y.
Proof.
  induction l as [|a l IH]; cbn [map]; intros Hnd Hx Hy Hxy; [destruct Hx|].
  apply NoDup_cons_iff in Hnd as [Hnot Hnd].
  destruct Hx as [<-|Hx], Hy as [<-|Hy].
  - reflexivity.
  - exfalso. apply Hnot. rewrite Hxy. apply in_map, Hy.
  - exfalso. apply Hnot. rewrite <- Hxy. apply in_map, Hx.
  - apply IH; assumption.
Qed.

(** Two sorted arrangements of slices with pairwise distinct instance
    numbers are the same arrangement. *)
Lemma sorted_arrangement_unique (l1 : list SliceRaw) : forall l2,
  List.NoDup (map instance l1) -> Permutation l1 l2 ->
  StronglySorted (fun a b => instance_lt b a = false) l1 ->
  StronglySorted (fun a b => instance_lt b a = false) l2 ->
  l1 = l2.
Proof.
  induction l1 as [|a l1 IH]; intros l2 Hnd Hp H1 H2.
  - apply Permutation_nil in Hp. congruence.
  - destruct l2 as [|b l2]; [apply Permutation_sym, Permutation_nil in Hp; discriminate|].
    assert (a = b) as <-.
    { apply (NoDup_map_inj instance (a :: l1)); [exact Hnd|left; reflexivity| |].
      - eapply Permutation_in; [symmetry; exact Hp|left; reflexivity].
      - assert (Hab : instance a <= instance b).
        { assert (Hin : In b (a :: l1))
            by (eapply Permutation_in; [symmetry; exact Hp|left; reflexivity]).
          destruct Hin as [<-|Hin]; [lia|].
          apply StronglySorted_inv in H1 as [_ Hall].
          rewrite List.Forall_forall in Hall. specialize (Hall b Hin).
          unfold instance_lt in Hall. apply Z.ltb_ge in Hall. exact Hall. }
        assert (Hba : instance b <= instance a).
        { assert (Hin : In a (b :: l2))
            by (eapply Permutation_in; [exact Hp|left; reflexivity]).
          destruct Hin as [<-|Hin]; [lia|].
          apply StronglySorted_inv in H2 as [_ Hall].
          rewrite List.Forall_forall in Hall. specialize (Hall a Hin).
          unfold instance_lt in Hall. apply Z.ltb_ge in Hall. exact Hall. }
        lia. }
    f_equal. apply IH.
    + cbn [map] in Hnd. apply NoDup_cons_iff in Hnd as [_ Hnd]. exact Hnd.
    + eapply Permutation_cons_inv, Hp.
    + apply StronglySorted_inv in H1 as [H1 _]. exact H1.
    + apply StronglySorted_inv in H2 as [H2 _]. exact H2.
Qed.

Lemma sorted_distinct_ascending (l : list SliceRaw) :
  List.NoDup (map instance l) ->
  StronglySorted (fun a b => instance_lt b a = false) l ->
  StronglySorted (fun a b => instance a < instance b) l.
Proof.
  induction l as [|a l IH]; intros Hnd Hs; [constructor|].
  cbn [map] in Hnd. apply NoDup_cons_iff in Hnd as [Hnot Hnd].
  apply StronglySorted_inv in Hs as [Hs Hall].
  constructor; [apply IH; assumption|].
  rewrite List.Forall_forall in *. intros b Hb.
  specialize (Hall b Hb). unfold instance_lt in Hall. apply Z.ltb_ge in Hall.
  assert (instance a <> instance b)
    by (intros E; apply Hnot; rewrite E; apply in_map, Hb).
  lia.
Qed.

(** X5.  When the files of the selected series carry pairwise distinct
    instance numbers, the outcome of the load does not depend on how
    [std::sort] arranges equivalent elements: every sorting function that
    meets the contract gives the same frame, with the slices in strictly
    ascending order of their instance numbers. *)
Theorem distinct_instances_fix_volume srt1 srt2 st files target :
  sort_contract srt1 -> sort_contract srt2 ->
  select_series files = Some target ->
  List.NoDup (map (fun f => int_of (InstanceNumber f)) target) ->
  OnLoadBtn srt1 st files = OnLoadBtn srt2 st files /\
  StronglySorted (fun a b => instance a < instance b)
                 (placed_slices srt1 st files).
Proof.
  intros H1 H2 Hsel Hnd.
  assert (Hndt : List.NoDup (map instance (snd (load_slices st target)))).
  { unfold load_slices.
    destruct (load_fold_instances target (reset_dims st, [])) as (d & Hd & Hsub).
    rewrite Hd. cbn [snd map app].
    apply NoDup_ListNoDup. eapply sublist_NoDup; [|exact Hsub].
    apply NoDup_ListNoDup, Hnd. }
  assert (Hsame : srt1 (snd (load_slices st target))
                  = srt2 (snd (load_slices st target))).
  { destruct (H1 (snd (load_slices st target))) as [Hp1 Hs1].
    destruct (H2 (snd (load_slices st target))) as [Hp2 Hs2].
    apply sorted_arrangement_unique; try assumption.
    - eapply Permutation_NoDup; [apply Permutation_map, Hp1|exact Hndt].
    - etransitivity; [symmetry; exact Hp1|exact Hp2]. }
  split.
  - unfold OnLoadBtn. destruct files as [|f0 files]; [reflexivity|].
    rewrite Hsel. destruct (load_slices st target) as [st1 temp].
    cbn [snd] in Hsame. destruct temp; [reflexivity|]. rewrite Hsame. reflexivity.
  - unfold placed_slices. rewrite Hsel.
    destruct (H1 (snd (load_slices st target))) as [Hp1 Hs1].
    apply sorted_distinct_ascending; [|exact Hs1].
    eapply Permutation_NoDup; [apply Permutation_map, Hp1|exact Hndt].
Qed.

Lemma distinct_instances_fix_volume_witness :
  sort_contract libstdcxx_sort /\ sort_contract sort_ties_reversed /\
  select_series shuffled_folder = Some shuffled_folder /\
  List.NoDup (map (fun f => int_of (InstanceNumber f)) shuffled_folder) /\
  map instance (snd (load_slices initial_frame shuffled_folder)) = [3; 1; 2] /\
  volumeData (snd (OnLoadBtn libstdcxx_sort initial_frame shuffled_folder))
  = [10; 20; 30] /\
  OnLoadBtn libstdcxx_sort initial_frame shuffled_folder
  = OnLoadBtn sort_ties_reversed initial_frame shuffled_folder /\
  StronglySorted (fun a b => instance a < instance b)
                 (placed_slices libstdcxx_sort initial_frame shuffled_folder).
Proof.
  assert (Hnd : List.NoDup (map (fun f => int_of (InstanceNumber f)) shuffled_folder)).
  { repeat (apply NoDup_cons_iff; split;
            [intros Hin; vm_compute in Hin; intuition discriminate|]).
    constructor. }
  split; [exact libstdcxx_sort_contract|].
  split; [exact sort_ties_reversed_contract|].
  split; [reflexivity|]. split; [exact Hnd|].
  split; [reflexivity|]. split; [reflexivity|].
  apply (distinct_instances_fix_volume libstdcxx_sort sort_ties_reversed
           initial_frame shuffled_folder shuffled_folder).
  - exact libstdcxx_sort_contract.
  - exact sort_ties_reversed_contract.
  - reflexivity.
  - exact Hnd.
Defined.

(** ** Loading the same folder again *)

Section TwoRuns.

(** A header field after two runs of the loading loop over the same
    files: both runs kept what they started with, or both hold the same
    value. *)
Let agree {A} (field : MainFrame -> A) (a a' b b' : MainFrame) : Prop :=
  (field a' = field a /\ field b' = field b) \/ field a' = field b'.

Lemma load_step_two_runs f a ta b tb :
  volWidth a = volWidth b -> volHeight a = volHeight b ->
  let ra := load_step (a, ta) f in
  let rb := load_step (b, tb) f in
  volWidth (fst ra) = volWidth (fst rb) /\
  volHeight (fst ra) = volHeight (fst rb) /\
  (exists d, snd ra = ta ++ d /\ snd rb = tb ++ d) /\
  agree pxSpcX a (fst ra) b (fst rb) /\
  agree pxSpcY a (fst ra) b (fst rb) /\
  agree sliceThick a (fst ra) b (fst rb) /\
  agree patientName a (fst ra) b (fst rb) /\
  agree patientID a (fst ra) b (fst rb).
Proof.
  intros HW HH. unfold agree, load_step. rewrite HW.
  destruct (loadGood f).
  2:{ cbn [fst snd]. repeat split; try assumption; try (left; split; reflexivity).
      exists []. rewrite !app_nil_r. split; reflexivity. }
  destruct (volWidth b =? 0) eqn:Ez.
  - unfold image_fits, slice_of. cbn [record_header volWidth volHeight].
    destruct (imgNormal f && (imgWidth f =? Columns f) && (imgHeight f =? Rows f)).
    + destruct (outputData f) as [data|]; cbn [fst snd record_header pxSpcX pxSpcY
        sliceThick patientName patientID volWidth volHeight].
      * repeat split; try reflexivity.
        -- eexists. split; reflexivity.
        -- destruct (PixelSpacing f); [right|left; split]; reflexivity.
        -- destruct (PixelSpacing f); [right|left; split]; reflexivity.
        -- right; reflexivity.
        -- destruct (PatientName f); [right|left; split]; reflexivity.
        -- destruct (PatientID f); [right|left; split]; reflexivity.
      * repeat split; try reflexivity.
        -- exists []. rewrite !app_nil_r. split; reflexivity.
        -- destruct (PixelSpacing f); [right|left; split]; reflexivity.
        -- destruct (PixelSpacing f); [right|left; split]; reflexivity.
        -- right; reflexivity.
        -- destruct (PatientName f); [right|left; split]; reflexivity.
        -- destruct (PatientID f); [right|left; split]; reflexivity.
    + cbn [fst snd record_header pxSpcX pxSpcY
        sliceThick patientName patientID volWidth volHeight].
      repeat split; try reflexivity.
      * exists []. rewrite !app_nil_r. split; reflexivity.
      * destruct (PixelSpacing f); [right|left; split]; reflexivity.
      * destruct (PixelSpacing f); [right|left; split]; reflexivity.
      * right; reflexivity.
      * destruct (PatientName f); [right|left; split]; reflexivity.
      * destruct (PatientID f); [right|left; split]; reflexivity.
  - unfold image_fits, slice_of. rewrite HW, HH.
    destruct (imgNormal f && (imgWidth f =? volWidth b) && (imgHeight f =? volHeight b)).
    + destruct (outputData f) as [data|]; cbn [fst snd];
        repeat split; try assumption; try (left; split; reflexivity).
      * eexists. split; reflexivity.
      * exists []. rewrite !app_nil_r. split; reflexivity.
    + cbn [fst snd]. repeat split; try assumption; try (left; split; reflexivity).
      exists []. rewrite !app_nil_r. split; reflexivity.
Qed.

Lemma agree_step {A} (field : MainFrame -> A) a a1 a2 b b1 b2 :
  agree field a a1 b b1 -> agree field a1 a2 b1 b2 -> agree field a a2 b b2.
Proof.
  unfold agree. intros [[E1 E2]|E] [[F1 F2]|F]; [left; split|right..]; congruence.
Qed.

Lemma load_fold_two_runs target : forall a ta b tb,
  volWidth a = volWidth b -> volHeight a = volHeight b ->
  let ra := fold_left load_step target (a, ta) in
  let rb := fold_left load_step target (b, tb) in
  volWidth (fst ra) = volWidth (fst rb) /\
  volHeight (fst ra) = volHeight (fst rb) /\
  (exists d, snd ra = ta ++ d /\ snd rb = tb ++ d) /\
  agree pxSpcX a (fst ra) b (fst rb) /\
  agree pxSpcY a (fst ra) b (fst rb) /\
  agree sliceThick a (fst ra) b (fst rb) /\
  agree patientName a (fst ra) b (fst rb) /\
  agree patientID a (fst ra) b (fst rb).
Proof.
  induction target as [|f target IH]; intros a ta b tb HW HH.
  - cbn. unfold agree. repeat split; try assumption; try (left; split; reflexivity).
    exists []. rewrite !app_nil_r. split; reflexivity.
  - cbn [fold_left].
    pose proof (load_step_two_runs f a ta b tb HW HH) as Hstep. cbn zeta in Hstep.
    destruct (load_step (a, ta) f) as [a1 ta1].
    destruct (load_step (b, tb) f) as [b1 tb1]. cbn [fst snd] in Hstep.
    destruct Hstep as (HW1 & HH1 & (d1 & -> & ->) & S1 & S2 & S3 & S4 & S5).
    pose proof (IH a1 (ta ++ d1) b1 (tb ++ d1) HW1 HH1) as Hrest. cbn zeta in Hrest.
    destruct Hrest as (HW2 & HH2 & (d2 & Ea & Eb) & R1 & R2 & R3 & R4 & R5).
    split; [exact HW2|]. split; [exact HH2|].
    split; [exists (d1 ++ d2); rewrite Ea, Eb, <- !app_assoc; split; reflexivity|].
    repeat split; eapply agree_step; eassumption.
Qed.

End TwoRuns.

Lemma frame_ext (a b : MainFrame) :
  volumeData a = volumeData b -> volWidth a = volWidth b ->
  volHeight a = volHeight b -> volDepth a = volDepth b ->
  pxSpcX a = pxSpcX b -> pxSpcY a = pxSpcY b -> sliceThick a = sliceThick b ->
  patientName a = patientName b -> patientID a = patientID b -> a = b.
Proof. destruct a, b; cbn; intros; subst; reflexivity. Qed.

(** The loading loop started from the frame that an earlier run over the
    same files left behind (packed with any slices or not) ends in the same
    header and collects the same slices. *)
Lemma load_slices_again st target st1 :
  pxSpcX st1 = pxSpcX (fst (load_slices st target)) ->
  pxSpcY st1 = pxSpcY (fst (load_slices st target)) ->
  sliceThick st1 = sliceThick (fst (load_slices st target)) ->
  patientName st1 = patientName (fst (load_slices st target)) ->
  patientID st1 = patientID (fst (load_slices st target)) ->
  snd (load_slices st1 target) = snd (load_slices st target) /\
  let a := fst (load_slices st target) in
  let b := fst (load_slices st1 target) in
  volWidth b = volWidth a /\ volHeight b = volHeight a /\
  pxSpcX b = pxSpcX a /\ pxSpcY b = pxSpcY a /\ sliceThick b = sliceThick a /\
  patientName b = patientName a /\ patientID b = patientID a /\
  volumeData b = volumeData st1 /\ volDepth b = volDepth st1.
Proof.
  intros E1 E2 E3 E4 E5. unfold load_slices in *.
  pose proof (load_fold_two_runs target (reset_dims st) [] (reset_dims st1) []
                eq_refl eq_refl) as H. cbn zeta in H.
  pose proof (load_fold_keeps_volume target (reset_dims st1, [])) as [Hv Hd].
  cbn [fst reset_dims volumeData volDepth] in Hv, Hd.
  destruct H as (HW & HH & (d & Ea & Eb) & S1 & S2 & S3 & S4 & S5).
  cbn [app] in Ea, Eb.
  cbn [reset_dims pxSpcX pxSpcY sliceThick patientName patientID] in S1, S2, S3, S4, S5.
  split; [congruence|]. cbn zeta.
  repeat split; try congruence; intuition congruence.
Qed.

Lemma OnLoadBtn_again srt st files :
  OnLoadBtn srt (snd (OnLoadBtn srt st files)) files = OnLoadBtn srt st files.
Proof.
  unfold OnLoadBtn at 2 3.
  destruct files as [|f0 files]; [reflexivity|].
  destruct (select_series (f0 :: files)) as [target|] eqn:Hsel;
    [|cbn [snd]; unfold OnLoadBtn; rewrite Hsel; reflexivity].
  destruct (load_slices st target) as [a temp] eqn:Hrun.
  assert (Hagain : forall st1,
            pxSpcX st1 = pxSpcX a -> pxSpcY st1 = pxSpcY a ->
            sliceThick st1 = sliceThick a ->
            patientName st1 = patientName a -> patientID st1 = patientID a ->
            snd (load_slices st1 target) = temp /\
            let b := fst (load_slices st1 target) in
            volWidth b = volWidth a /\ volHeight b = volHeight a /\
            pxSpcX b = pxSpcX a /\ pxSpcY b = pxSpcY a /\
            sliceThick b = sliceThick a /\
            patientName b = patientName a /\ patientID b = patientID a /\
            volumeData b = volumeData st1 /\ volDepth b = volDepth st1).
  { intros st1 E1 E2 E3 E4 E5.
    pose proof (load_slices_again st target st1) as H.
    rewrite Hrun in H. cbn [fst snd] in H. apply H; assumption. }
  destruct temp as [|s temp]; cbn [snd].
  - destruct (Hagain a eq_refl eq_refl eq_refl eq_refl eq_refl) as (Ht & Hb).
    cbn zeta in Hb.
    unfold OnLoadBtn. rewrite Hsel.
    destruct (load_slices a target) as [b tempb]. cbn [fst snd] in *. subst tempb.
    f_equal. apply frame_ext; intuition congruence.
  - destruct (Hagain (pack a (srt (s :: temp)))
                     eq_refl eq_refl eq_refl eq_refl eq_refl) as (Ht & Hb).
    cbn zeta in Hb.
    unfold OnLoadBtn. rewrite Hsel.
    destruct (load_slices (pack a (srt (s :: temp))) target) as [b tempb].
    cbn [fst snd] in *. subst tempb.
    f_equal. apply frame_ext; cbn [pack volumeData volWidth volHeight volDepth
      pxSpcX pxSpcY sliceThick patientName patientID]; intuition congruence.
Qed.

(** X6.  Loading the same folder a second time changes nothing: the exit is
    the same, and the frame and the sliders are left as the first load left
    them. *)
Theorem reload_is_idempotent srt g files :
  OnLoadBtn_sliders srt (snd (OnLoadBtn_sliders srt g files)) files
  = OnLoadBtn_sliders srt g files.
Proof.
  unfold OnLoadBtn_sliders at 2 3.
  pose proof (OnLoadBtn_again srt (frame g) files) as Hagain.
  destruct (OnLoadBtn srt (frame g) files) as [e st1]. cbn [snd] in Hagain.
  destruct e; cbn [snd]; unfold OnLoadBtn_sliders; cbn [frame]; rewrite Hagain;
    reflexivity.
Qed.

(** ** The volume a completed load leaves *)

Lemma load_slices_count st target :
  vsize (snd (load_slices st target)) <= vsize target.
Proof.
  unfold load_slices.
  destruct (load_fold_instances target (reset_dims st, [])) as (d & Hd & Hsub).
  cbn [snd map app] in Hd. apply sublist_length in Hsub.
  apply (f_equal (@length Z)) in Hd. rewrite !length_map in *.
  unfold vsize. lia.
Qed.

Lemma select_series_count files target :
  select_series files = Some target -> vsize target <= vsize files.
Proof.
  intros Hs.
  destruct (select_series_characterised files target Hs) as (u & -> & _).
  unfold partition_of, vsize. pose proof (filter_length_le (in_series u) files). lia.
Qed.

(** A completed load of well-formed images leaves a buffer of exactly
    width x height x depth samples, with at least one slice, as long as the
    folder holds fewer than 2^31 files. *)
Lemma loaded_volume_full srt st files st' :
  sort_contract srt -> Forall decoded_ok files -> vsize files <= INT_MAX ->
  OnLoadBtn srt st files = (Loaded, st') ->
  volume_full st' /\ 0 < volWidth st' /\ 0 < volHeight st' /\
  0 < volDepth st' <= INT_MAX /\
  volWidth st' * volHeight st' <= INT_MAX.
Proof.
  intros Hsrt Hok Hn Hload.
  destruct (placed_slices_ok srt st files st' Hsrt Hok Hload)
    as (HW & HH & HWH & HD & Hvd & Hall).
  destruct (OnLoadBtn_loaded srt st files st' Hload) as (target & Hsel & Hne & _).
  assert (Hp : Permutation (snd (load_slices st target)) (placed_slices srt st files))
    by (unfold placed_slices; rewrite Hsel; apply Hsrt).
  assert (Hcount : 0 < vsize (placed_slices srt st files) <= INT_MAX).
  { unfold vsize. rewrite <- (Permutation_length Hp).
    pose proof (load_slices_count st target) as H1.
    pose proof (select_series_count files target Hsel) as H2.
    unfold vsize in *.
    destruct (snd (load_slices st target)); [congruence|]. cbn [length] in *. lia. }
  assert (HDn : volDepth st' = vsize (placed_slices srt st files)).
  { rewrite HD. apply int_of_small. unfold INT_MAX in *. lia. }
  split; [|repeat split; try assumption; lia].
  unfold volume_full. rewrite Hvd, HDn.
  rewrite (vsize_concat_blocks _ (volWidth st' * volHeight st')).
  - unfold vsize. rewrite length_map. lia.
  - apply Forall_map. eapply List.Forall_impl; [|exact Hall].
    intros s [_ Hs]. exact Hs.
Qed.

(* ===================================================================== *)
(** * The three views of a complete volume ([UpdateAllViews]) *)
(* ===================================================================== *)

Lemma window_rgb_lookup wl ww (buf : list Z) : forall (i k : nat),
  (k < 3)%nat ->
  window_rgb wl ww buf !! (i * 3 + k)%nat = window_pixel wl ww <$> buf !! i.
Proof.
  unfold window_rgb.
  induction buf as [|v buf IH]; intros i k Hk; [reflexivity|].
  cbn [flat_map]. destruct i as [|i].
  - cbn [Nat.mul Nat.add].
    destruct k as [|[|[|k]]]; [reflexivity..|lia].
  - replace (S i * 3 + k)%nat with (S (S (S (i * 3 + k)))) by lia.
    cbn [app lookup list_lookup]. apply IH, Hk.
Qed.

Lemma fit_display_positive w h scaleY :
  1 <= fst (fit_display w h scaleY) /\ 1 <= snd (fit_display w h scaleY).
Proof.
  unfold fit_display.
  destruct (if _ : bool then _ else _) as [fw fh]. cbn [fst snd].
  destruct (Z.ltb_spec fw 1), (Z.ltb_spec fh 1); lia.
Qed.

(** [UpdateOneView] when the extracted plane is not empty. *)
Lemma UpdateOneView_shown st viewType s c1 c2 wl ww w h scaleY buf :
  extract st viewType s = Plane w h scaleY buf -> buf <> [] ->
  UpdateOneView st viewType s c1 c2 wl ww
  = Shown {| img_w := w; img_h := h;
             img_rgb := window_rgb wl ww buf;
             final_w := fst (fit_display w h scaleY);
             final_h := snd (fit_display w h scaleY);
             relX := cursor_rel c1 w; relY := cursor_rel c2 h |}.
Proof.
  intros Hex Hne. unfold UpdateOneView. rewrite Hex.
  destruct buf as [|v buf]; [congruence|].
  destruct (fit_display w h scaleY) as [fw fh]. reflexivity.
Qed.

Lemma voxel_index_bound W H D x y z :
  0 <= x < W -> 0 <= y < H -> 0 <= z < D ->
  0 <= y * W + x < W * H /\
  0 <= z * (W * H) + y * W + x /\
  z * (W * H) + y * W + x + 1 <= W * H * D /\
  z * (W * H) + W * H <= W * H * D /\
  z * (W * H) + y * W + W <= W * H * D.
Proof.
  intros Hx Hy Hz.
  assert (H1 : y * W <= (H - 1) * W) by (apply Z.mul_le_mono_nonneg_r; lia).
  assert (H2 : z * (W * H) <= (D - 1) * (W * H)).
  { apply Z.mul_le_mono_nonneg_r; [|lia]. apply Z.mul_nonneg_nonneg; lia. }
  assert (H3 : 0 <= y * W) by (apply Z.mul_nonneg_nonneg; lia).
  assert (H4 : 0 <= z * (W * H)).
  { apply Z.mul_nonneg_nonneg; [lia|]. apply Z.mul_nonneg_nonneg; lia. }
  assert (H5 : (H - 1) * W = W * H - W) by ring.
  assert (H6 : (D - 1) * (W * H) = W * H * D - W * H) by ring.
  repeat split; lia.
Qed.

Lemma vsize_nonempty {A} (l : list A) : 0 < vsize l -> l <> [].
Proof. destruct l; [unfold vsize; cbn; lia|discriminate]. Qed.

(** The three planes of a complete volume at the indices [cx], [cy],
    [cz]: each sample of each plane is the voxel it stands for. *)
Lemma planes_of_full_volume st cx cy cz :
  dims_ok st -> volume_full st ->
  0 <= cx < volWidth st -> 0 <= cy < volHeight st -> 0 <= cz < volDepth st ->
  exists ba bc bs,
    extract st 0 cz
    = Plane (volWidth st) (volHeight st)
            (Dbl.div (spacing_y st) (spacing_x st)) ba /\
    extract st 1 cy
    = Plane (volWidth st) (volDepth st)
            (Dbl.div (spacing_z st) (spacing_x st)) bc /\
    extract st 2 cx
    = Plane (volHeight st) (volDepth st)
            (Dbl.div (spacing_z st) (spacing_y st)) bs /\
    ba <> [] /\ bc <> [] /\ bs <> [] /\
    forall x y z,
      0 <= x < volWidth st -> 0 <= y < volHeight st -> 0 <= z < volDepth st ->
      exists v,
        voxel st x y z = Some v /\
        (z = cz -> plane_at ba (volWidth st) x y = Some v) /\
        (y = cy -> plane_at bc (volWidth st) x z = Some v) /\
        (x = cx -> plane_at bs (volHeight st) y z = Some v).
Proof.
  intros Hdims Hfull Hcx Hcy Hcz.
  pose proof Hdims as (HW & HH & HD & HWH & HWD & HHD).
  unfold volume_full in Hfull. unfold INT_MAX in *.
  assert (Hpos : 0 < volWidth st * volHeight st /\ 0 < volWidth st * volDepth st /\
                 0 < volHeight st * volDepth st).
  { repeat split; apply Z.mul_pos_pos; lia. }
  pose proof (extract_axial_spec st cz Hdims ltac:(unfold INT_MAX; lia)) as Hax.
  destruct (extract_coronal_spec st cy Hdims ltac:(unfold INT_MAX; lia))
    as (bc & Hco & Hlc & Hbc).
  destruct (extract_sagittal_spec st cx Hdims ltac:(unfold INT_MAX; lia))
    as (bs & Hsa & Hls & Hbs).
  pose proof (voxel_index_bound (volWidth st) (volHeight st) (volDepth st)
                cx cy cz Hcx Hcy Hcz) as (_ & _ & _ & Hblock & _).
  destruct (Z.leb_spec (cz * (volWidth st * volHeight st)
                        + volWidth st * volHeight st) (vsize (volumeData st)))
    as [_|Hbad]; [|lia].
  set (ba := take (Z.to_nat (volWidth st * volHeight st))
                  (drop (Z.to_nat (cz * (volWidth st * volHeight st)))
                        (volumeData st))) in *.
  assert (Hla : vsize ba = volWidth st * volHeight st).
  { unfold ba, vsize in *. rewrite length_take, length_drop.
    assert (0 <= cz * (volWidth st * volHeight st))
      by (apply Z.mul_nonneg_nonneg; lia).
    lia. }
  exists ba, bc, bs.
  split; [exact Hax|]. split; [exact Hco|]. split; [exact Hsa|].
  split; [apply vsize_nonempty; lia|].
  split; [apply vsize_nonempty; lia|].
  split; [apply vsize_nonempty; lia|].
  intros x y z Hx Hy Hz.
  pose proof (voxel_index_bound (volWidth st) (volHeight st) (volDepth st)
                x y z Hx Hy Hz) as (Hrow & Hlo & Hhi & _ & Hrowend).
  assert (Hsome : is_Some (voxel st x y z)).
  { unfold voxel, sample_at. apply lookup_lt_is_Some. unfold vsize in Hfull. lia. }
  destruct Hsome as [v Hv]. exists v. split; [exact Hv|].
  split; [|split].
  - intros ->. rewrite <- Hv. unfold plane_at, voxel, sample_at, ba.
    rewrite lookup_take_lt by lia. rewrite lookup_drop. f_equal.
    assert (0 <= cz * (volWidth st * volHeight st))
      by (apply Z.mul_nonneg_nonneg; lia).
    lia.
  - intros ->. rewrite Hbc by assumption. rewrite <- Hv.
    destruct (Z.leb_spec (z * (volWidth st * volHeight st) + cy * volWidth st
                          + volWidth st) (vsize (volumeData st))); [reflexivity|lia].
  - intros ->. rewrite Hbs by assumption. rewrite <- Hv.
    destruct (Z.ltb_spec (z * (volWidth st * volHeight st) + y * volWidth st + cx)
                         (vsize (volumeData st))); [reflexivity|lia].
Qed.

Lemma rgb_at_window wl ww buf w h fw fh rx ry x y k v :
  0 <= y * w + x -> 0 <= k < 3 ->
  plane_at buf w x y = Some v ->
  rgb_at {| img_w := w; img_h := h; img_rgb := window_rgb wl ww buf;
            final_w := fw; final_h := fh; relX := rx; relY := ry |} x y k
  = Some (window_pixel wl ww v).
Proof.
  intros Hi Hk Hv. unfold rgb_at, plane_at in *. cbn [img_rgb img_w].
  replace (Z.to_nat ((y * w + x) * 3 + k))
    with (Z.to_nat (y * w + x) * 3 + Z.to_nat k)%nat by lia.
  rewrite window_rgb_lookup by lia. rewrite Hv. reflexivity.
Qed.

(** X7.  With a complete volume and the sliders within its extents,
    [UpdateAllViews] builds an image for each of the three views (lines
    544-557 of [UpdateOneView]): the axial one is width x height, the coronal
    one width x depth, the sagittal one height x depth; every pixel of these
    images carries, in its three channels, the windowed value of the voxel it
    stands for (so the three images agree where the planes meet).  This is
    the image before [img.Rescale]: each is then rescaled to a size of at
    least 1 x 1 and handed to its panel, and what the resampling makes of the
    pixels is not stated here.  The cross-hair of each view marks the
    positions of the two other sliders. *)
Theorem UpdateAllViews_builds_images g :
  view_ready g ->
  exists a c s,
    UpdateAllViews g = Some (Shown a, Shown c, Shown s) /\
    (img_w a = volWidth (frame g) /\ img_h a = volHeight (frame g)) /\
    (img_w c = volWidth (frame g) /\ img_h c = volDepth (frame g)) /\
    (img_w s = volHeight (frame g) /\ img_h s = volDepth (frame g)) /\
    (forall x y z k,
       0 <= x < volWidth (frame g) -> 0 <= y < volHeight (frame g) ->
       0 <= z < volDepth (frame g) -> 0 <= k < 3 ->
       exists v,
         voxel (frame g) x y z = Some v /\
         (z = s_value (sliderZ g) ->
          rgb_at a x y k
          = Some (window_pixel (s_value (wlSlider g)) (s_value (wwSlider g)) v)) /\
         (y = s_value (sliderY g) ->
          rgb_at c x z k
          = Some (window_pixel (s_value (wlSlider g)) (s_value (wwSlider g)) v)) /\
         (x = s_value (sliderX g) ->
          rgb_at s y z k
          = Some (window_pixel (s_value (wlSlider g)) (s_value (wwSlider g)) v))) /\
    (1 <= final_w a /\ 1 <= final_h a /\ 1 <= final_w c /\ 1 <= final_h c /\
     1 <= final_w s /\ 1 <= final_h s) /\
    (relX a = cursor_rel (s_value (sliderX g)) (volWidth (frame g)) /\
     relY a = cursor_rel (s_value (sliderY g)) (volHeight (frame g)) /\
     relX c = cursor_rel (s_value (sliderX g)) (volWidth (frame g)) /\
     relY c = cursor_rel (s_value (sliderZ g)) (volDepth (frame g)) /\
     relX s = cursor_rel (s_value (sliderY g)) (volHeight (frame g)) /\
     relY s = cursor_rel (s_value (sliderZ g)) (volDepth (frame g))).
Proof.
  intros (Hdims & Hfull & HW & HH & HD & (_ & _ & HX) & (_ & _ & HY) & (_ & _ & HZ)).
  destruct (planes_of_full_volume (frame g) (s_value (sliderX g))
              (s_value (sliderY g)) (s_value (sliderZ g)) Hdims Hfull
              ltac:(lia) ltac:(lia) ltac:(lia))
    as (ba & bc & bs & Hax & Hco & Hsa & Hna & Hnc & Hns & Hvox).
  assert (Hvd : volumeData (frame g) <> []).
  { apply vsize_nonempty. rewrite Hfull.
    apply Z.mul_pos_pos; [apply Z.mul_pos_pos|]; lia. }
  unfold UpdateAllViews.
  destruct (volumeData (frame g)) as [|v0 vd] eqn:Evd; [congruence|].
  rewrite (UpdateOneView_shown _ _ _ _ _ _ _ _ _ _ _ Hax Hna).
  rewrite (UpdateOneView_shown _ _ _ _ _ _ _ _ _ _ _ Hco Hnc).
  rewrite (UpdateOneView_shown _ _ _ _ _ _ _ _ _ _ _ Hsa Hns).
  eexists _, _, _. split; [reflexivity|]. cbn [img_w img_h final_w final_h relX relY].
  split; [split; reflexivity|]. split; [split; reflexivity|].
  split; [split; reflexivity|].
  split.
  { intros x y z k Hx Hy Hz Hk.
    destruct (Hvox x y z Hx Hy Hz) as (v & Hv & Pa & Pc & Ps).
    exists v. split; [exact Hv|].
    pose proof (voxel_index_bound (volWidth (frame g)) (volHeight (frame g))
                  (volDepth (frame g)) x y z Hx Hy Hz) as (Hrow & _).
    assert (0 <= z * volWidth (frame g)) by (apply Z.mul_nonneg_nonneg; lia).
    assert (0 <= z * volHeight (frame g)) by (apply Z.mul_nonneg_nonneg; lia).
    split; [|split]; intros E; apply rgb_at_window; auto; lia. }
  split.
  { pose proof (fit_display_positive (volWidth (frame g)) (volHeight (frame g))
                  (Dbl.div (spacing_y (frame g)) (spacing_x (frame g)))).
    pose proof (fit_display_positive (volWidth (frame g)) (volDepth (frame g))
                  (Dbl.div (spacing_z (frame g)) (spacing_x (frame g)))).
    pose proof (fit_display_positive (volHeight (frame g)) (volDepth (frame g))
                  (Dbl.div (spacing_z (frame g)) (spacing_y (frame g)))).
    lia. }
  repeat split; reflexivity.
Qed.

Lemma cube_viewer_ready : view_ready (viewer_at cube_frame 1 0 1).
Proof.
  unfold view_ready. split; [exact cube_frame_dims_ok|].
  unfold volume_full, slider_covers. cbn. repeat split; lia.
Qed.

Lemma UpdateAllViews_builds_images_witness :
  view_ready (viewer_at cube_frame 1 0 1) /\
  exists a c s,
    UpdateAllViews (viewer_at cube_frame 1 0 1)
    = Some (Shown a, Shown c, Shown s) /\
    (img_w a = volWidth (frame (viewer_at cube_frame 1 0 1)) /\
     img_h a = volHeight (frame (viewer_at cube_frame 1 0 1))) /\
    (img_w c = volWidth (frame (viewer_at cube_frame 1 0 1)) /\
     img_h c = volDepth (frame (viewer_at cube_frame 1 0 1))) /\
    (img_w s = volHeight (frame (viewer_at cube_frame 1 0 1)) /\
     img_h s = volDepth (frame (viewer_at cube_frame 1 0 1))) /\
    (forall x y z k,
       0 <= x < volWidth (frame (viewer_at cube_frame 1 0 1)) ->
       0 <= y < volHeight (frame (viewer_at cube_frame 1 0 1)) ->
       0 <= z < volDepth (frame (viewer_at cube_frame 1 0 1)) -> 0 <= k < 3 ->
       exists v,
         voxel (frame (viewer_at cube_frame 1 0 1)) x y z = Some v /\
         (z = s_value (sliderZ (viewer_at cube_frame 1 0 1)) ->
          rgb_at a x y k
          = Some (window_pixel (s_value (wlSlider (viewer_at cube_frame 1 0 1)))
                               (s_value (wwSlider (viewer_at cube_frame 1 0 1))) v)) /\
         (y = s_value (sliderY (viewer_at cube_frame 1 0 1)) ->
          rgb_at c x z k
          = Some (window_pixel (s_value (wlSlider (viewer_at cube_frame 1 0 1)))
                               (s_value (wwSlider (viewer_at cube_frame 1 0 1))) v)) /\
         (x = s_value (sliderX (viewer_at cube_frame 1 0 1)) ->
          rgb_at s y z k
          = Some (window_pixel (s_value (wlSlider (viewer_at cube_frame 1 0 1)))
                               (s_value (wwSlider (viewer_at cube_frame 1 0 1))) v))) /\
    (1 <= final_w a /\ 1 <= final_h a /\ 1 <= final_w c /\ 1 <= final_h c /\
     1 <= final_w s /\ 1 <= final_h s) /\
    (relX a = cursor_rel (s_value (sliderX (viewer_at cube_frame 1 0 1)))
                         (volWidth (frame (viewer_at cube_frame 1 0 1))) /\
     relY a = cursor_rel (s_value (sliderY (viewer_at cube_frame 1 0 1)))
                         (volHeight (frame (viewer_at cube_frame 1 0 1))) /\
     relX c = cursor_rel (s_value (sliderX (viewer_at cube_frame 1 0 1)))
                         (volWidth (frame (viewer_at cube_frame 1 0 1))) /\
     relY c = cursor_rel (s_value (sliderZ (viewer_at cube_frame 1 0 1)))
                         (volDepth (frame (viewer_at cube_frame 1 0 1))) /\
     relX s = cursor_rel (s_value (sliderY (viewer_at cube_frame 1 0 1)))
                         (volHeight (frame (viewer_at cube_frame 1 0 1))) /\
     relY s = cursor_rel (s_value (sliderZ (viewer_at cube_frame 1 0 1)))
                         (volDepth (frame (viewer_at cube_frame 1 0 1)))).
Proof.
  split; [exact cube_viewer_ready|].
  apply (UpdateAllViews_builds_images (viewer_at cube_frame 1 0 1)).
  exact cube_viewer_ready.
Defined.

(* ===================================================================== *)
(** * The sliders: load, wheel and reset *)
(* ===================================================================== *)

Lemma dims_ok_frame (st : MainFrame) :
  0 < volWidth st <= 65535 -> 0 < volHeight st <= 65535 ->
  0 < volDepth st <= INT_MAX ->
  volWidth st * volHeight st <= INT_MAX ->
  volWidth st * volDepth st <= INT_MAX ->
  volHeight st * volDepth st <= INT_MAX -> dims_ok st.
Proof. unfold dims_ok. intros. repeat split; lia. Qed.

Lemma quot_half n : 0 <= n -> Z.quot n 2 = n / 2.
Proof. intros. apply Z.quot_div_nonneg; lia. Qed.

Lemma slider_covers_set (s : Slider) n :
  0 < n <= INT_MAX ->
  slider_covers (SetValue (Z.quot n 2) (SetRange 0 (int_of (n - 1)) s)) n.
Proof.
  intros Hn. unfold slider_covers, SetValue, SetRange. cbn.
  rewrite int_of_small by (unfold INT_MAX in *; lia).
  rewrite quot_half by lia.
  assert (0 <= n / 2) by (apply Z.div_pos; lia).
  assert (n / 2 < n) by (apply Z.div_lt; lia).
  repeat split; lia.
Qed.

(** X8.  A completed load of well-formed images whose width and height are
    16-bit values and whose coronal and sagittal planes fit an [int] leaves
    a viewer that is ready to be drawn: the buffer holds width x height x
    depth samples, each slice slider spans 0 .. extent - 1, and it stands on
    the middle index extent / 2.  The window sliders are not touched. *)
Theorem load_sets_sliders srt g files g' :
  sort_contract srt -> Forall decoded_ok files -> vsize files <= INT_MAX ->
  OnLoadBtn_sliders srt g files = (Loaded, g') ->
  volWidth (frame g') <= 65535 -> volHeight (frame g') <= 65535 ->
  volWidth (frame g') * volDepth (frame g') <= INT_MAX ->
  volHeight (frame g') * volDepth (frame g') <= INT_MAX ->
  view_ready g' /\
  s_value (sliderX g') = volWidth (frame g') / 2 /\
  s_value (sliderY g') = volHeight (frame g') / 2 /\
  s_value (sliderZ g') = volDepth (frame g') / 2 /\
  wlSlider g' = wlSlider g /\ wwSlider g' = wwSlider g.
Proof.
  intros Hsrt Hok Hn Hload HW16 HH16 HWD HHD.
  unfold OnLoadBtn_sliders in Hload.
  destruct (OnLoadBtn srt (frame g) files) as [e st'] eqn:Hl.
  destruct e; try (injection Hload; discriminate).
  injection Hload as <-. cbn [frame sliderX sliderY sliderZ wlSlider wwSlider] in *.
  destruct (loaded_volume_full srt (frame g) files st' Hsrt Hok Hn Hl)
    as (Hfull & HW & HH & HD & HWH).
  split.
  - unfold view_ready. cbn [frame sliderX sliderY sliderZ].
    split; [apply dims_ok_frame; lia|]. split; [exact Hfull|].
    split; [lia|]. split; [lia|]. split; [lia|].
    split; [apply slider_covers_set; unfold INT_MAX; lia|].
    split; apply slider_covers_set; unfold INT_MAX in *; lia.
  - cbn. rewrite !quot_half by lia. repeat split; reflexivity.
Qed.

Lemma load_sets_sliders_witness :
  sort_contract sort_ties_kept /\ Forall decoded_ok first_folder /\
  vsize first_folder <= INT_MAX /\
  OnLoadBtn_sliders sort_ties_kept initial_viewer first_folder
  = (Loaded, snd (OnLoadBtn_sliders sort_ties_kept initial_viewer first_folder)) /\
  volWidth (frame (snd (OnLoadBtn_sliders sort_ties_kept initial_viewer first_folder)))
  <= 65535 /\
  volHeight (frame (snd (OnLoadBtn_sliders sort_ties_kept initial_viewer first_folder)))
  <= 65535 /\
  volWidth (frame (snd (OnLoadBtn_sliders sort_ties_kept initial_viewer first_folder)))
  * volDepth (frame (snd (OnLoadBtn_sliders sort_ties_kept initial_viewer first_folder)))
  <= INT_MAX /\
  volHeight (frame (snd (OnLoadBtn_sliders sort_ties_kept initial_viewer first_folder)))
  * volDepth (frame (snd (OnLoadBtn_sliders sort_ties_kept initial_viewer first_folder)))
  <= INT_MAX /\
  view_ready (snd (OnLoadBtn_sliders sort_ties_kept initial_viewer first_folder)) /\
  s_value (sliderX (snd (OnLoadBtn_sliders sort_ties_kept initial_viewer first_folder)))
  = volWidth (frame (snd (OnLoadBtn_sliders sort_ties_kept initial_viewer first_folder)))
    / 2 /\
  s_value (sliderY (snd (OnLoadBtn_sliders sort_ties_kept initial_viewer first_folder)))
  = volHeight (frame (snd (OnLoadBtn_sliders sort_ties_kept initial_viewer first_folder)))
    / 2 /\
  s_value (sliderZ (snd (OnLoadBtn_sliders sort_ties_kept initial_viewer first_folder)))
  = volDepth (frame (snd (OnLoadBtn_sliders sort_ties_kept initial_viewer first_folder)))
    / 2 /\
  wlSlider (snd (OnLoadBtn_sliders sort_ties_kept initial_viewer first_folder))
  = wlSlider initial_viewer /\
  wwSlider (snd (OnLoadBtn_sliders sort_ties_kept initial_viewer first_folder))
  = wwSlider initial_viewer.
Proof.
  split; [exact sort_ties_kept_contract|]. split; [exact first_folder_ok|].
  split; [vm_compute; discriminate|]. split; [reflexivity|].
  split; [vm_compute; discriminate|]. split; [vm_compute; discriminate|].
  split; [vm_compute; discriminate|]. split; [vm_compute; discriminate|].
  apply (load_sets_sliders sort_ties_kept initial_viewer first_folder
           (snd (OnLoadBtn_sliders sort_ties_kept initial_viewer first_folder))).
  - exact sort_ties_kept_contract.
  - exact first_folder_ok.
  - vm_compute; discriminate.
  - reflexivity.
  - vm_compute; discriminate.
  - vm_compute; discriminate.
  - vm_compute; discriminate.
  - vm_compute; discriminate.
Defined.

(** ** The wheel *)

(** The position a slider takes after one notch of the wheel. *)
Lemma wheel_slider_value (s : Slider) n rotation :
  slider_covers s n -> 0 < n <= INT_MAX ->
  wheel_slider (if 0 <? rotation then 1 else -1) s
  = SetValue (if 0 <? rotation then Z.min (s_value s + 1) (n - 1)
              else Z.max (s_value s - 1) 0) s.
Proof.
  intros (Hmin & Hmax & Hv) Hn. unfold wheel_slider. f_equal.
  rewrite Hmin, Hmax. unfold INT_MAX in *.
  destruct (0 <? rotation).
  - rewrite int_of_small by (unfold INT_MAX; lia).
    destruct (Z.ltb_spec (s_value s + 1) 0); [lia|].
    destruct (Z.ltb_spec (n - 1) (s_value s + 1)); lia.
  - rewrite int_of_small by (unfold INT_MAX; lia).
    destruct (Z.ltb_spec (s_value s + -1) 0).
    + destruct (Z.ltb_spec (n - 1) 0); lia.
    + destruct (Z.ltb_spec (n - 1) (s_value s + -1)); lia.
Qed.

Lemma slider_covers_value (s : Slider) n v :
  slider_covers s n -> 0 <= v <= n - 1 -> slider_covers (SetValue v s) n.
Proof. unfold slider_covers, SetValue. cbn. intros (? & ? & _) ?. repeat split; lia. Qed.

Lemma view_ready_nonempty g : view_ready g -> volumeData (frame g) <> [].
Proof.
  intros (_ & Hfull & HW & HH & HD & _). apply vsize_nonempty. rewrite Hfull.
  apply Z.mul_pos_pos; [apply Z.mul_pos_pos|]; lia.
Qed.

Lemma view_ready_sliders g sx sy sz wl ww :
  view_ready g ->
  slider_covers sx (volWidth (frame g)) ->
  slider_covers sy (volHeight (frame g)) ->
  slider_covers sz (volDepth (frame g)) ->
  view_ready {| frame := frame g; sliderX := sx; sliderY := sy; sliderZ := sz;
                wlSlider := wl; wwSlider := ww |}.
Proof.
  intros (Hdims & Hfull & HW & HH & HD & _) HX HY HZ.
  unfold view_ready. cbn [frame sliderX sliderY sliderZ].
  split; [exact Hdims|]. split; [exact Hfull|]. split; [exact HW|].
  split; [exact HH|]. split; [exact HD|]. split; [exact HX|].
  split; [exact HY|exact HZ].
Qed.

Lemma wheel_slider_covers (s : Slider) n rotation :
  slider_covers s n -> 0 < n <= INT_MAX ->
  slider_covers (wheel_slider (if 0 <? rotation then 1 else -1) s) n.
Proof.
  intros Hs Hn. rewrite (wheel_slider_value s n rotation Hs Hn).
  apply slider_covers_value; [exact Hs|].
  destruct Hs as (_ & _ & ?). destruct (0 <? rotation); lia.
Qed.

Lemma reset_slider_covers (s : Slider) n :
  slider_covers s n -> 0 < n ->
  slider_covers (SetValue (Z.quot (s_max s) 2) s) n.
Proof.
  intros Hs Hn. apply slider_covers_value; [exact Hs|].
  destruct Hs as (_ & -> & _). rewrite quot_half by lia.
  assert (0 <= (n - 1) / 2) by (apply Z.div_pos; lia).
  assert ((n - 1) / 2 <= n - 1) by (apply Z.div_le_upper_bound; lia).
  lia.
Qed.

Lemma handle_keeps_ready g e :
  view_ready g -> view_ready (handle g e) /\ frame (handle g e) = frame g.
Proof.
  intros Hready. pose proof (view_ready_nonempty g Hready) as Hvd.
  pose proof Hready as (Hdims & Hfull & HW & HH & HD & HX & HY & HZ).
  pose proof Hdims as (HW' & HH' & HD' & _).
  destruct e as [viewType rotation|]; cbn [handle].
  - unfold OnMouseWheel, OnPanelWheel.
    destruct (volumeData (frame g)) as [|v0 vd] eqn:Evd; [congruence|].
    destruct (viewType =? 0); [|destruct (viewType =? 1)];
      (split; [|reflexivity]); apply view_ready_sliders; try assumption;
      apply wheel_slider_covers; try assumption; unfold INT_MAX in *; lia.
  - unfold OnResetBtn.
    destruct (volumeData (frame g)) as [|v0 vd] eqn:Evd; [congruence|].
    split; [|reflexivity]. apply view_ready_sliders; try assumption;
      apply reset_slider_covers; assumption.
Qed.

(** X9.  One notch of the mouse wheel over a panel of a viewer that is ready.
    The wheel over the axial panel moves the Z slider, over the coronal panel
    the Y slider, over any other panel the X slider; the slider moves by one
    index, forward for a positive rotation and backward for any other (a
    rotation of zero counts as backward), and stops at the first and at the
    last index.  Nothing else changes, and the viewer is still ready. *)
Theorem wheel_moves_one_slice g viewType rotation :
  view_ready g ->
  let g' := OnMouseWheel g viewType rotation in
  let moved s :=
    if 0 <? rotation then Z.min (s_value s + 1) (s_max s)
    else Z.max (s_value s - 1) 0 in
  frame g' = frame g /\ wlSlider g' = wlSlider g /\ wwSlider g' = wwSlider g /\
  sliderZ g' = (if viewType =? 0 then SetValue (moved (sliderZ g)) (sliderZ g)
                else sliderZ g) /\
  sliderY g' = (if viewType =? 0 then sliderY g
                else if viewType =? 1 then SetValue (moved (sliderY g)) (sliderY g)
                else sliderY g) /\
  sliderX g' = (if viewType =? 0 then sliderX g
                else if viewType =? 1 then sliderX g
                else SetValue (moved (sliderX g)) (sliderX g)) /\
  view_ready g'.
Proof.
  intros Hready.
  pose proof (handle_keeps_ready g (WheelOn viewType rotation) Hready) as [Hkeep _].
  cbn [handle] in Hkeep.
  pose proof (view_ready_nonempty g Hready) as Hvd.
  destruct Hready as (Hdims & Hfull & HW & HH & HD & HX & HY & HZ).
  pose proof Hdims as (HW' & HH' & HD' & _).
  cbv zeta. split; [|split; [|split; [|split; [|split; [|split]]]]];
    try exact Hkeep; clear Hkeep; unfold OnMouseWheel, OnPanelWheel;
    destruct (volumeData (frame g)) as [|v0 vd] eqn:Evd; try congruence;
    (destruct (viewType =? 0); [|destruct (viewType =? 1)]);
    cbn [frame sliderX sliderY sliderZ wlSlider wwSlider]; try reflexivity.
  - rewrite (wheel_slider_value _ (volDepth (frame g)) rotation HZ)
      by (unfold INT_MAX in *; lia).
    destruct HZ as (_ & -> & _). reflexivity.
  - rewrite (wheel_slider_value _ (volHeight (frame g)) rotation HY)
      by (unfold INT_MAX in *; lia).
    destruct HY as (_ & -> & _). reflexivity.
  - rewrite (wheel_slider_value _ (volWidth (frame g)) rotation HX)
      by (unfold INT_MAX in *; lia).
    destruct HX as (_ & -> & _). reflexivity.
Qed.

Lemma wheel_moves_one_slice_witness :
  view_ready (viewer_at cube_frame 1 0 1) /\
  frame (OnMouseWheel (viewer_at cube_frame 1 0 1) 1 0)
  = frame (viewer_at cube_frame 1 0 1) /\
  wlSlider (OnMouseWheel (viewer_at cube_frame 1 0 1) 1 0)
  = wlSlider (viewer_at cube_frame 1 0 1) /\
  wwSlider (OnMouseWheel (viewer_at cube_frame 1 0 1) 1 0)
  = wwSlider (viewer_at cube_frame 1 0 1) /\
  sliderZ (OnMouseWheel (viewer_at cube_frame 1 0 1) 1 0)
  = sliderZ (viewer_at cube_frame 1 0 1) /\
  sliderY (OnMouseWheel (viewer_at cube_frame 1 0 1) 1 0)
  = SetValue (Z.max (s_value (sliderY (viewer_at cube_frame 1 0 1)) - 1) 0)
             (sliderY (viewer_at cube_frame 1 0 1)) /\
  sliderX (OnMouseWheel (viewer_at cube_frame 1 0 1) 1 0)
  = sliderX (viewer_at cube_frame 1 0 1) /\
  view_ready (OnMouseWheel (viewer_at cube_frame 1 0 1) 1 0).
Proof.
  split; [exact cube_viewer_ready|].
  apply (wheel_moves_one_slice (viewer_at cube_frame 1 0 1) 1 0).
  exact cube_viewer_ready.
Defined.

(** ** The reset button *)

(** X10.  The reset button on a viewer that is ready puts each slice slider on
    the index [(extent - 1) / 2], which for an even extent is one less than
    the index [extent / 2] that a load selects, and the window back to level
    40 and width 400.  The volume and the ranges stay, and the viewer is
    still ready. *)
Theorem reset_centres_sliders g :
  view_ready g ->
  let g' := OnResetBtn g in
  let centre n := n / 2 - (if Z.even n then 1 else 0) in
  frame g' = frame g /\
  sliderX g' = SetValue (centre (volWidth (frame g))) (sliderX g) /\
  sliderY g' = SetValue (centre (volHeight (frame g))) (sliderY g) /\
  sliderZ g' = SetValue (centre (volDepth (frame g))) (sliderZ g) /\
  wlSlider g' = SetValue 40 (wlSlider g) /\
  wwSlider g' = SetValue 400 (wwSlider g) /\
  view_ready g'.
Proof.
  intros Hready.
  pose proof (handle_keeps_ready g ResetPressed Hready) as [Hkeep _].
  cbn [handle] in Hkeep.
  pose proof (view_ready_nonempty g Hready) as Hvd.
  destruct Hready as (Hdims & Hfull & HW & HH & HD & HX & HY & HZ).
  assert (Hc : forall n, 0 < n ->
            Z.quot (n - 1) 2 = n / 2 - (if Z.even n then 1 else 0)).
  { intros n Hn. rewrite quot_half by lia.
    pose proof (Z.div_mod n 2 ltac:(lia)) as E.
    pose proof (Z.mod_pos_bound n 2 ltac:(lia)) as B.
    rewrite Zeven_mod. destruct (Z.eqb_spec (n mod 2) 0) as [E0|E0].
    - symmetry. apply Z.div_unique with (r := 1); lia.
    - symmetry. apply Z.div_unique with (r := 0); lia. }
  cbv zeta. split; [|split; [|split; [|split; [|split; [|split]]]]];
    try exact Hkeep; clear Hkeep; unfold OnResetBtn;
    destruct (volumeData (frame g)) as [|v0 vd] eqn:Evd; try congruence;
    cbn [frame sliderX sliderY sliderZ wlSlider wwSlider]; try reflexivity.
  - destruct HX as (_ & -> & _). rewrite (Hc _ HW). reflexivity.
  - destruct HY as (_ & -> & _). rewrite (Hc _ HH). reflexivity.
  - destruct HZ as (_ & -> & _). rewrite (Hc _ HD). reflexivity.
Qed.

Lemma reset_centres_sliders_witness :
  view_ready (viewer_at cube_frame 1 0 1) /\
  frame (OnResetBtn (viewer_at cube_frame 1 0 1)) = frame (viewer_at cube_frame 1 0 1) /\
  sliderX (OnResetBtn (viewer_at cube_frame 1 0 1))
  = SetValue (volWidth (frame (viewer_at cube_frame 1 0 1)) / 2
              - (if Z.even (volWidth (frame (viewer_at cube_frame 1 0 1)))
                 then 1 else 0))
             (sliderX (viewer_at cube_frame 1 0 1)) /\
  sliderY (OnResetBtn (viewer_at cube_frame 1 0 1))
  = SetValue (volHeight (frame (viewer_at cube_frame 1 0 1)) / 2
              - (if Z.even (volHeight (frame (viewer_at cube_frame 1 0 1)))
                 then 1 else 0))
             (sliderY (viewer_at cube_frame 1 0 1)) /\
  sliderZ (OnResetBtn (viewer_at cube_frame 1 0 1))
  = SetValue (volDepth (frame (viewer_at cube_frame 1 0 1)) / 2
              - (if Z.even (volDepth (frame (viewer_at cube_frame 1 0 1)))
                 then 1 else 0))
             (sliderZ (viewer_at cube_frame 1 0 1)) /\
  wlSlider (OnResetBtn (viewer_at cube_frame 1 0 1))
  = SetValue 40 (wlSlider (viewer_at cube_frame 1 0 1)) /\
  wwSlider (OnResetBtn (viewer_at cube_frame 1 0 1))
  = SetValue 400 (wwSlider (viewer_at cube_frame 1 0 1)) /\
  view_ready (OnResetBtn (viewer_at cube_frame 1 0 1)).
Proof.
  split; [exact cube_viewer_ready|].
  apply (reset_centres_sliders (viewer_at cube_frame 1 0 1)).
  exact cube_viewer_ready.
Defined.

(** ** Sequences of events *)

Lemma UpdateAllViews_three_images g :
  view_ready g ->
  exists a c s, UpdateAllViews g = Some (Shown a, Shown c, Shown s).
Proof.
  intros Hready. pose proof (view_ready_nonempty g Hready) as Hvd.
  destruct Hready as (Hdims & Hfull & HW & HH & HD & (_ & _ & HX) & (_ & _ & HY)
                      & (_ & _ & HZ)).
  destruct (planes_of_full_volume (frame g) (s_value (sliderX g))
              (s_value (sliderY g)) (s_value (sliderZ g)) Hdims Hfull
              ltac:(lia) ltac:(lia) ltac:(lia))
    as (ba & bc & bs & Hax & Hco & Hsa & Hna & Hnc & Hns & _).
  unfold UpdateAllViews.
  destruct (volumeData (frame g)) as [|v0 vd]; [congruence|].
  rewrite (UpdateOneView_shown _ _ _ _ _ _ _ _ _ _ _ Hax Hna).
  rewrite (UpdateOneView_shown _ _ _ _ _ _ _ _ _ _ _ Hco Hnc).
  rewrite (UpdateOneView_shown _ _ _ _ _ _ _ _ _ _ _ Hsa Hns).
  eexists _, _, _. reflexivity.
Qed.

(** X11.  Whatever sequence of wheel notches and reset clicks follows on a
    viewer that is ready, the volume is not touched, every slice slider stays
    within the extent of its axis, and the redraw that ends each handler
    hands an image to each of the three panels: no view is left without an
    image and no copy reads outside the buffer. *)
Theorem interaction_keeps_views g events :
  view_ready g ->
  let g' := fold_left handle events g in
  frame g' = frame g /\ view_ready g' /\
  exists a c s, UpdateAllViews g' = Some (Shown a, Shown c, Shown s).
Proof.
  cbv zeta. revert g. induction events as [|e events IH]; intros g Hready.
  - cbn [fold_left]. split; [reflexivity|]. split; [exact Hready|].
    apply UpdateAllViews_three_images, Hready.
  - cbn [fold_left].
    destruct (handle_keeps_ready g e Hready) as [Hready' Hframe].
    destruct (IH _ Hready') as (Hf & Hr & Hv).
    split; [congruence|]. split; assumption.
Qed.

Lemma interaction_keeps_views_witness :
  view_ready (viewer_at cube_frame 1 0 1) /\
  frame (fold_left handle [WheelOn 0 120; WheelOn 2 (-120); ResetPressed; WheelOn 1 0]
                   (viewer_at cube_frame 1 0 1))
  = frame (viewer_at cube_frame 1 0 1) /\
  view_ready (fold_left handle
                [WheelOn 0 120; WheelOn 2 (-120); ResetPressed; WheelOn 1 0]
                (viewer_at cube_frame 1 0 1)) /\
  exists a c s,
    UpdateAllViews (fold_left handle
                      [WheelOn 0 120; WheelOn 2 (-120); ResetPressed; WheelOn 1 0]
                      (viewer_at cube_frame 1 0 1))
    = Some (Shown a, Shown c, Shown s).
Proof.
  split; [exact cube_viewer_ready|].
  apply (interaction_keeps_views (viewer_at cube_frame 1 0 1)
           [WheelOn 0 120; WheelOn 2 (-120); ResetPressed; WheelOn 1 0]).
  exact cube_viewer_ready.
Defined.

(** X12.  Before a volume is loaded the wheel and the reset button do nothing,
    however often they are used, and no view is drawn. *)
Theorem no_volume_no_effect g events :
  volumeData (frame g) = [] ->
  fold_left handle events g = g /\ UpdateAllViews g = None.
Proof.
  intros Hvd. split.
  - induction events as [|e events IH]; [reflexivity|].
    cbn [fold_left].
    replace (handle g e) with g; [exact IH|].
    destruct e; cbn [handle]; unfold OnMouseWheel, OnPanelWheel, OnResetBtn;
      rewrite Hvd; reflexivity.
  - unfold UpdateAllViews. rewrite Hvd. reflexivity.
Qed.

Lemma no_volume_no_effect_witness :
  volumeData (frame initial_viewer) = [] /\
  fold_left handle [WheelOn 0 120; ResetPressed] initial_viewer = initial_viewer /\
  UpdateAllViews initial_viewer = None.
Proof.
  split; [reflexivity|].
  apply (no_volume_no_effect initial_viewer [WheelOn 0 120; ResetPressed]).
  reflexivity.
Defined.

(* ===================================================================== *)
(** * Display size, cross-hair and narrow windows *)
(* ===================================================================== *)

Section MoreDoubleFacts.

(** The double of a positive integer below 2^53, with its value. *)
Lemma of_int_value n :
  0 < n < 2 ^ 53 ->
  exists q ex, Dbl.of_int n = S754_finite false q ex /\
               Z.pos (digits2_pos q) = 53 /\ -53 < ex <= 0 /\
               Z.pos q = n * 2 ^ (- ex).
Proof.
  intros Hn. rewrite of_int_dyadic.
  destruct (dyadic_nonzero n 0 ltac:(lia) ltac:(lia) ltac:(lia))
    as (q & ex & E & Hd & Hex & Hv).
  exists q, ex. rewrite E.
  replace (n <? 0) with false in * by (symmetry; apply Z.ltb_ge; lia).
  split; [reflexivity|]. split; [assumption|]. split; [lia|].
  cbn [cond_Zopp] in Hv. rewrite Hv. f_equal.
Qed.

(** Multiplying a normal double by 1.0 is exact. *)
Lemma mul_one_normal s q ex :
  Z.pos (digits2_pos q) = 53 -> -1074 <= ex <= 971 ->
  Dbl.mul (S754_finite s q ex) Dbl.one = S754_finite s q ex.
Proof.
  intros Hd He.
  change Dbl.one with (S754_finite false 4503599627370496 (-52)).
  unfold Dbl.mul, Dbl.prec, Dbl.emax, SFmul.
  replace (q * 4503599627370496)%positive with (Pos.iter xO q 52).
  2:{ apply Pos2Z.inj. rewrite Zpos_iter_xO, Pos2Z.inj_mul. reflexivity. }
  rewrite round_aux_shift by lia.
  rewrite xorb_false_r. f_equal. lia.
Qed.

Lemma mul_one_of_int n :
  0 <= n < 2 ^ 53 -> Dbl.mul (Dbl.of_int n) Dbl.one = Dbl.of_int n.
Proof.
  intros Hn. destruct (Z.eq_dec n 0) as [->|H0]; [reflexivity|].
  destruct (of_int_value n ltac:(lia)) as (q & ex & -> & Hd & Hex & _).
  apply mul_one_normal; [assumption|lia].
Qed.

Lemma mul_zero_of_int n :
  0 <= n < 2 ^ 53 -> Dbl.mul (Dbl.of_int n) Dbl.zero = Dbl.zero.
Proof.
  intros Hn. destruct (Z.eq_dec n 0) as [->|H0]; [reflexivity|].
  destruct (of_int_value n ltac:(lia)) as (q & ex & -> & _). reflexivity.
Qed.

(** An integer below 2^53 survives the round trip through a double. *)
Lemma to_int_of_int n : 0 <= n < 2 ^ 53 -> Dbl.to_int (Dbl.of_int n) = n.
Proof.
  intros Hn. destruct (Z.eq_dec n 0) as [->|H0]; [reflexivity|].
  destruct (of_int_value n ltac:(lia)) as (q & ex & -> & _ & Hex & Hv).
  unfold Dbl.to_int, Dbl.trunc. cbn [default from_option id].
  destruct ex as [|p|p]; try lia.
  - rewrite Z.shiftl_0_r, Hv. cbn. lia.
  - rewrite Z.shiftr_div_pow2 by lia. rewrite Hv.
    change (- Z.neg p) with (Z.pos p).
    apply Z.div_mul. apply Z.pow_nonzero; lia.
Qed.

Lemma gt_of_int a b :
  Z.abs a < 2 ^ 53 -> Z.abs b < 2 ^ 53 ->
  Dbl.gt (Dbl.of_int a) (Dbl.of_int b) = (b <? a).
Proof.
  intros Ha Hb. unfold Dbl.gt, SFltb. rewrite !of_int_dyadic.
  rewrite compare_dyadic by (assumption || lia).
  unfold Z.ltb. destruct (b ?= a); reflexivity.
Qed.

(** A finite double other than zero, divided by itself, is 1. *)
Lemma div_self_finite s m e :
  Dbl.div (S754_finite s m e) (S754_finite s m e) = Dbl.one.
Proof.
  unfold Dbl.div, Dbl.prec, Dbl.emax, SFdiv, SFdiv_core_binary.
  replace (Zdigits2 (Z.pos m) + e - (Zdigits2 (Z.pos m) + e)) with 0 by lia.
  replace (e - e) with 0 by lia.
  change (Z.min (SpecFloat.fexp 53 1024 0) 0) with (-53).
  change (0 - -53) with 53.
  rewrite Z.shiftl_mul_pow2 by lia.
  rewrite (div_eucl_exact _ _ (2 ^ 53)); [|lia|ring].
  rewrite new_location_exact, xorb_nilpotent. reflexivity.
Qed.

End MoreDoubleFacts.

Lemma spacing_ratio_one (x : double) :
  x <> S754_infinity false ->
  Dbl.div (if Dbl.gt x Dbl.zero then x else Dbl.one)
          (if Dbl.gt x Dbl.zero then x else Dbl.one) = Dbl.one.
Proof.
  intros Hinf. destruct x as [s|s| |s m e]; cbn [Dbl.gt Dbl.zero SFltb SFcompare];
    try reflexivity.
  - destruct s; [reflexivity|congruence].
  - destruct s; [reflexivity|]. apply div_self_finite.
Qed.

(** What [extract] returns when it returns a plane: the width, the height
    and the scale of the view type. *)
Lemma extract_plane_shape st viewType s w h scaleY buf :
  extract st viewType s = Plane w h scaleY buf ->
  (w, h, scaleY)
  = if viewType =? 0
    then (volWidth st, volHeight st, Dbl.div (spacing_y st) (spacing_x st))
    else if viewType =? 1
    then (volWidth st, volDepth st, Dbl.div (spacing_z st) (spacing_x st))
    else (volHeight st, volDepth st, Dbl.div (spacing_z st) (spacing_y st)).
Proof.
  unfold extract. destruct (viewType =? 0); [|destruct (viewType =? 1)].
  - unfold extract_axial.
    destruct (_ <=? _); [destruct (read_range _ _ _)|]; intros E;
      try discriminate; injection E as <- <- <- _; reflexivity.
  - unfold extract_coronal. destruct (fold_left _ _ _); intros E;
      try discriminate; injection E as <- <- <- _; reflexivity.
  - unfold extract_sagittal. intros E. injection E as <- <- <- _. reflexivity.
Qed.

(** What [UpdateOneView] hands over when it shows an image. *)
Lemma UpdateOneView_image st viewType s c1 c2 wl ww img :
  UpdateOneView st viewType s c1 c2 wl ww = Shown img ->
  exists scaleY buf,
    extract st viewType s = Plane (img_w img) (img_h img) scaleY buf /\
    final_w img = fst (fit_display (img_w img) (img_h img) scaleY) /\
    final_h img = snd (fit_display (img_w img) (img_h img) scaleY) /\
    relX img = cursor_rel c1 (img_w img) /\
    relY img = cursor_rel c2 (img_h img).
Proof.
  unfold UpdateOneView.
  destruct (extract st viewType s) as [w h scaleY buf|]; [|discriminate].
  destruct buf as [|v buf]; [discriminate|].
  destruct (fit_display w h scaleY) as [fw fh] eqn:Efit.
  intros E. injection E as <-. cbn. exists scaleY, (v :: buf).
  rewrite Efit. repeat split; reflexivity.
Qed.

(** With a scale of 1.0, a plane of at most 800 x 800 keeps its size. *)
Lemma fit_display_native w h :
  1 <= w <= 800 -> 1 <= h <= 800 -> fit_display w h Dbl.one = (w, h).
Proof.
  intros Hw Hh. unfold fit_display.
  rewrite mul_one_of_int by lia. rewrite to_int_of_int by lia.
  rewrite !gt_of_int by lia.
  replace (800 <? w) with false by (symmetry; apply Z.ltb_ge; lia).
  replace (800 <? h) with false by (symmetry; apply Z.ltb_ge; lia).
  cbn [orb].
  replace (w <? 1) with false by (symmetry; apply Z.ltb_ge; lia).
  replace (h <? 1) with false by (symmetry; apply Z.ltb_ge; lia).
  reflexivity.
Qed.

(** X13.  When the three recorded spacings are one and the same value (other
    than plus infinity), every view whose plane is at most 800 x 800 is shown
    at the size of the plane: one screen pixel per sample, whichever view
    it is. *)
Theorem isotropic_native_size st viewType s c1 c2 wl ww img :
  pxSpcX st = pxSpcY st -> pxSpcY st = sliceThick st ->
  pxSpcX st <> S754_infinity false ->
  UpdateOneView st viewType s c1 c2 wl ww = Shown img ->
  1 <= img_w img <= 800 -> 1 <= img_h img <= 800 ->
  final_w img = img_w img /\ final_h img = img_h img.
Proof.
  intros Exy Eyz Hinf Hshown Hw Hh.
  destruct (UpdateOneView_image _ _ _ _ _ _ _ _ Hshown)
    as (scaleY & buf & Hex & Hfw & Hfh & _).
  assert (Hone : scaleY = Dbl.one).
  { pose proof (extract_plane_shape _ _ _ _ _ _ _ Hex) as Hshape.
    unfold spacing_x, spacing_y, spacing_z in Hshape.
    rewrite <- Eyz, <- Exy in Hshape.
    rewrite (spacing_ratio_one _ Hinf) in Hshape.
    destruct (viewType =? 0); [|destruct (viewType =? 1)]; congruence. }
  rewrite Hfw, Hfh, Hone, fit_display_native by assumption.
  split; reflexivity.
Qed.

Lemma isotropic_native_size_witness :
  pxSpcX cube_frame = pxSpcY cube_frame /\
  pxSpcY cube_frame = sliceThick cube_frame /\
  pxSpcX cube_frame <> S754_infinity false /\
  (exists img, UpdateOneView cube_frame 1 0 1 1 40 400 = Shown img /\
     1 <= img_w img <= 800 /\ 1 <= img_h img <= 800 /\
     final_w img = img_w img /\ final_h img = img_h img).
Proof.
  split; [reflexivity|]. split; [reflexivity|]. split; [discriminate|].
  eexists. split; [reflexivity|].
  split; [cbn; lia|]. split; [cbn; lia|].
  refine (isotropic_native_size cube_frame 1 0 1 1 40 400 _ _ _ _ _ _ _).
  - reflexivity.
  - reflexivity.
  - discriminate.
  - reflexivity.
  - cbn; lia.
  - cbn; lia.
Defined.

(** ** The cross-hair at the ends of an axis *)

Lemma cursor_rel_first d :
  1 < d <= INT_MAX -> cursor_rel 0 d = Dbl.zero.
Proof.
  intros Hd. unfold INT_MAX in *. unfold cursor_rel.
  rewrite (int_of_small (d - 1)) by (unfold INT_MAX; lia).
  destruct (of_int_positive (d - 1) ltac:(lia)) as (q & ex & -> & _).
  reflexivity.
Qed.

Lemma cursor_rel_last d :
  1 < d <= INT_MAX -> cursor_rel (d - 1) d = Dbl.one.
Proof.
  intros Hd. unfold INT_MAX in *. unfold cursor_rel.
  rewrite (int_of_small (d - 1)) by (unfold INT_MAX; lia).
  destruct (of_int_positive (d - 1) ltac:(lia)) as (q & ex & -> & Hq & _).
  apply div_self_normal, Hq.
Qed.

(** Where [OnPaint] puts a bitmap of [w] columns on [panelW] columns. *)
Lemma bitmap_origin panelW w :
  0 <= panelW <= INT_MAX -> 1 <= w <= INT_MAX ->
  let x := Z.quot (int_of (panelW - w)) 2 in
  let x := if x <? 0 then 0 else x in
  0 <= x /\ x + w <= INT_MAX.
Proof.
  intros Hp Hw. cbv zeta. unfold INT_MAX in *.
  rewrite int_of_small by (unfold INT_MAX; lia).
  destruct (Z.ltb_spec (Z.quot (panelW - w) 2) 0) as [Hneg|Hpos]; [lia|].
  split; [lia|].
  destruct (Z.le_gt_cases 0 (panelW - w)) as [Hge|Hlt].
  - rewrite Z.quot_div_nonneg by lia.
    assert ((panelW - w) / 2 <= panelW - w) by (apply Z.div_le_upper_bound; lia).
    lia.
  - pose proof (Z.quot_opp_l (panelW - w) 2 ltac:(lia)) as Hq.
    assert (0 <= Z.quot (- (panelW - w)) 2) by (apply Z.quot_pos; lia).
    assert (Z.quot (- (panelW - w)) 2 <= - (panelW - w))
      by (rewrite Z.quot_div_nonneg by lia;
          apply Z.div_le_upper_bound; lia).
    lia.
Qed.

(** X14.  The cross-hair of an image that [UpdateOneView] has handed to a panel,
    for a plane more than one sample wide and high.  With both cross indices
    on the first sample the two lines are drawn along the left and the upper
    edge of the bitmap.  With a cross index on the last sample of its axis
    the position is 1.0, the line falls on the first column (or row) past
    the bitmap, the test [lineX < x + w] (or [lineY < y + h]) fails, and
    no cross-hair is drawn at all. *)
Theorem cross_hair_at_slider_ends st viewType s c1 c2 wl ww img panelW panelH :
  UpdateOneView st viewType s c1 c2 wl ww = Shown img ->
  1 < img_w img <= INT_MAX -> 1 < img_h img <= INT_MAX ->
  final_w img <= INT_MAX -> final_h img <= INT_MAX ->
  0 <= panelW <= INT_MAX -> 0 <= panelH <= INT_MAX ->
  let painted := OnPaint (SetImage new_panel img) panelW panelH in
  (c1 = 0 -> c2 = 0 ->
   cross_lines painted = Some (bmp_x painted, bmp_y painted)) /\
  (c1 = img_w img - 1 \/ c2 = img_h img - 1 -> cross_lines painted = None).
Proof.
  intros Hshown Hw Hh Hfw Hfh Hpw Hph.
  destruct (UpdateOneView_image _ _ _ _ _ _ _ _ Hshown)
    as (scaleY & buf & _ & Efw & Efh & Erx & Ery).
  pose proof (fit_display_positive (img_w img) (img_h img) scaleY) as [Pw Ph].
  rewrite <- Efw in Pw. rewrite <- Efh in Ph.
  pose proof (bitmap_origin panelW (final_w img) Hpw ltac:(lia)) as Hx.
  pose proof (bitmap_origin panelH (final_h img) Hph ltac:(lia)) as Hy.
  cbv zeta in Hx, Hy |- *.
  unfold OnPaint, SetImage. cbn [displayedBitmap crossX crossY bmp_x bmp_y cross_lines].
  set (x := if Z.quot (int_of (panelW - final_w img)) 2 <? 0 then 0
            else Z.quot (int_of (panelW - final_w img)) 2) in *.
  set (y := if Z.quot (int_of (panelH - final_h img)) 2 <? 0 then 0
            else Z.quot (int_of (panelH - final_h img)) 2) in *.
  destruct Hx as [Hx0 Hx1], Hy as [Hy0 Hy1].
  assert (Hxw : int_of (x + final_w img) = x + final_w img)
    by (apply int_of_small; unfold INT_MAX in *; lia).
  assert (Hyh : int_of (y + final_h img) = y + final_h img)
    by (apply int_of_small; unfold INT_MAX in *; lia).
  rewrite Hxw, Hyh, Erx, Ery.
  split.
  - intros -> ->.
    rewrite (cursor_rel_first _ Hw), (cursor_rel_first _ Hh).
    rewrite !mul_zero_of_int by (unfold INT_MAX in *; lia).
    change (cross_hair_enabled Dbl.zero Dbl.zero) with true.
    change (Dbl.to_int Dbl.zero) with 0. rewrite !Z.add_0_r.
    rewrite !int_of_small by (unfold INT_MAX in *; lia).
    rewrite !Z.leb_refl.
    replace (x <? x + final_w img) with true by (symmetry; apply Z.ltb_lt; lia).
    replace (y <? y + final_h img) with true by (symmetry; apply Z.ltb_lt; lia).
    reflexivity.
  - intros Hend.
    destruct (cross_hair_enabled _ _); [|reflexivity].
    destruct Hend as [->| ->].
    + rewrite (cursor_rel_last _ Hw).
      rewrite mul_one_of_int, to_int_of_int by (unfold INT_MAX in *; lia).
      rewrite Hxw, Z.ltb_irrefl, andb_false_r. reflexivity.
    + rewrite (cursor_rel_last _ Hh).
      rewrite mul_one_of_int, to_int_of_int by (unfold INT_MAX in *; lia).
      rewrite Hyh, Z.ltb_irrefl, andb_false_r. reflexivity.
Qed.

Lemma cross_hair_at_slider_ends_witness :
  exists img,
    UpdateOneView cube_frame 0 0 1 0 40 400 = Shown img /\
    1 < img_w img <= INT_MAX /\ 1 < img_h img <= INT_MAX /\
    final_w img <= INT_MAX /\ final_h img <= INT_MAX /\
    0 <= 640 <= INT_MAX /\ 0 <= 480 <= INT_MAX /\
    (1 = 0 -> 0 = 0 ->
     cross_lines (OnPaint (SetImage new_panel img) 640 480)
     = Some (bmp_x (OnPaint (SetImage new_panel img) 640 480),
             bmp_y (OnPaint (SetImage new_panel img) 640 480))) /\
    (1 = img_w img - 1 \/ 0 = img_h img - 1 ->
     cross_lines (OnPaint (SetImage new_panel img) 640 480) = None).
Proof.
  eexists. split; [reflexivity|].
  split; [vm_compute; intuition discriminate|].
  split; [vm_compute; intuition discriminate|].
  split; [vm_compute; discriminate|]. split; [vm_compute; discriminate|].
  split; [vm_compute; intuition discriminate|].
  split; [vm_compute; intuition discriminate|].
  refine (cross_hair_at_slider_ends cube_frame 0 0 1 0 40 400 _ 640 480 _ _ _ _ _ _ _).
  - reflexivity.
  - vm_compute; intuition discriminate.
  - vm_compute; intuition discriminate.
  - vm_compute; discriminate.
  - vm_compute; discriminate.
  - vm_compute; intuition discriminate.
  - vm_compute; intuition discriminate.
Defined.

(** ** The narrowest window *)

(** X15.  A window width of 1 or less (the code raises it to 1) leaves three
    grey levels: samples below the level are black, samples above it are
    white, and the sample at the level is 127. *)
Theorem narrow_window_is_threshold wl ww v :
  - 2 ^ 31 <= wl < 2 ^ 31 -> - 2 ^ 31 <= ww <= 1 -> - 2 ^ 15 <= v < 2 ^ 15 ->
  window_pixel wl ww v = if v <? wl then 0 else if v =? wl then 127 else 255.
Proof.
  intros Hwl Hww Hv.
  rewrite (window_pixel_unfold wl ww v Hwl ltac:(lia) Hv).
  replace (Z.max ww 1) with 1 by lia.
  destruct (Z.ltb_spec v wl) as [Hlt|Hge].
  - replace (2 * v <=? 2 * wl - 1) with true by (symmetry; apply Z.leb_le; lia).
    reflexivity.
  - replace (2 * v <=? 2 * wl - 1) with false by (symmetry; apply Z.leb_gt; lia).
    destruct (Z.eqb_spec v wl) as [->|Hne].
    + replace (2 * wl + 1 <=? 2 * wl) with false by (symmetry; apply Z.leb_gt; lia).
      replace (2 * wl - (2 * wl - 1)) with 1 by lia. reflexivity.
    + replace (2 * wl + 1 <=? 2 * v) with true by (symmetry; apply Z.leb_le; lia).
      reflexivity.
Qed.

Lemma narrow_window_is_threshold_witness :
  - 2 ^ 31 <= 40 < 2 ^ 31 /\ - 2 ^ 31 <= 0 <= 1 /\ - 2 ^ 15 <= 40 < 2 ^ 15 /\
  window_pixel 40 0 40 = if 40 <? 40 then 0 else if 40 =? 40 then 127 else 255.
Proof.
  split; [lia|]. split; [lia|]. split; [lia|].
  apply (narrow_window_is_threshold 40 0 40); lia.
Defined.

(** ** The colours of the cross-hair *)

(** X16.  The colour code holds together.  The panel whose border has the
    colour [border] shows the slice on which the slider labelled in that
    colour stands; its vertical line, of colour [vline], marks the position
    of the slider labelled in [vline], and its horizontal line, of colour
    [hline], the position of the slider labelled in [hline]. *)
Theorem cross_hair_colour_code g viewType border vline hline views :
  panel_colours viewType = Some (border, vline, hline) ->
  UpdateAllViews g = Some views ->
  view_for viewType views
  = UpdateOneView (frame g) viewType
      (s_value (slider_of_colour border g))
      (s_value (slider_of_colour vline g))
      (s_value (slider_of_colour hline g))
      (s_value (wlSlider g)) (s_value (wwSlider g)).
Proof.
  unfold panel_colours, UpdateAllViews, view_for.
  destruct (volumeData (frame g)); [discriminate|].
  intros Hc Hv. injection Hv as <-.
  destruct (Z.eqb_spec viewType 0) as [->|H0];
    [injection Hc as <- <- <-; reflexivity|].
  destruct (Z.eqb_spec viewType 1) as [->|H1];
    [injection Hc as <- <- <-; reflexivity|].
  destruct (Z.eqb_spec viewType 2) as [->|H2];
    [injection Hc as <- <- <-; reflexivity|discriminate].
Qed.

Lemma cross_hair_colour_code_witness :
  panel_colours 2 = Some (COL_SAGITTAL, COL_CORONAL, COL_AXIAL) /\
  exists views,
    UpdateAllViews (viewer_at cube_frame 1 0 1) = Some views /\
    view_for 2 views
    = UpdateOneView (frame (viewer_at cube_frame 1 0 1)) 2
        (s_value (slider_of_colour COL_SAGITTAL (viewer_at cube_frame 1 0 1)))
        (s_value (slider_of_colour COL_CORONAL (viewer_at cube_frame 1 0 1)))
        (s_value (slider_of_colour COL_AXIAL (viewer_at cube_frame 1 0 1)))
        (s_value (wlSlider (viewer_at cube_frame 1 0 1)))
        (s_value (wwSlider (viewer_at cube_frame 1 0 1))).
Proof.
  split; [reflexivity|]. eexists. split; [reflexivity|].
  apply (cross_hair_colour_code (viewer_at cube_frame 1 0 1) 2
           COL_SAGITTAL COL_CORONAL COL_AXIAL).
  - reflexivity.
  - reflexivity.
Defined.

(* ===================================================================== *)
(** * From the folder to the screen *)
(* ===================================================================== *)

Lemma lookup_In {A} (l : list A) : forall i x, l !! i = Some x -> In x l.
Proof.
  induction l as [|a l IH]; intros [|i] x H; try discriminate.
  - injection H as <-. left; reflexivity.
  - right. eapply IH, H.
Qed.

(** X17.  From the folder to the axial image.  A load that runs to its end
    finishes with [UpdateAllViews]; the Z slider then stands on the middle
    index depth / 2, and the image that [UpdateOneView] builds for the axial
    view is, sample for sample, the windowed output buffer of the file that
    the sort has put at that index.  This is the image before [img.Rescale]
    resamples it for the panel; what the resampling makes of it is not stated
    here.  An image is built for the coronal and for the sagittal view as
    well. *)
Theorem load_then_draw srt g files g' :
  sort_contract srt -> Forall decoded_ok files -> vsize files <= INT_MAX ->
  OnLoadBtn_sliders srt g files = (Loaded, g') ->
  volWidth (frame g') <= 65535 -> volHeight (frame g') <= 65535 ->
  volWidth (frame g') * volDepth (frame g') <= INT_MAX ->
  volHeight (frame g') * volDepth (frame g') <= INT_MAX ->
  exists s a c sg,
    placed_slices srt (frame g) files !! Z.to_nat (volDepth (frame g') / 2) = Some s /\
    slice_from (fun f => In f files) s /\
    UpdateAllViews g' = Some (Shown a, Shown c, Shown sg) /\
    img_w a = volWidth (frame g') /\ img_h a = volHeight (frame g') /\
    img_rgb a
    = window_rgb (s_value (wlSlider g)) (s_value (wwSlider g)) (pixels s).
Proof.
  intros Hsrt Hok Hn Hload HW16 HH16 HWD HHD.
  unfold OnLoadBtn_sliders in Hload.
  destruct (OnLoadBtn srt (frame g) files) as [e st'] eqn:Hl.
  destruct e; try (injection Hload; discriminate).
  injection Hload as <-. cbn [frame sliderX sliderY sliderZ wlSlider wwSlider] in *.
  destruct (loaded_volume_full srt (frame g) files st' Hsrt Hok Hn Hl)
    as (Hfull & HW & HH & HD & HWH).
  destruct (placed_slices_ok srt (frame g) files st' Hsrt Hok Hl)
    as (_ & _ & _ & HDn & Hvd & Hall).
  set (placed := placed_slices srt (frame g) files) in *.
  assert (Hdims : dims_ok st') by (apply dims_ok_frame; lia).
  assert (Hdepth : volDepth st' = vsize placed).
  { assert (Hsz : vsize (volumeData st') = vsize placed * (volWidth st' * volHeight st')).
    { rewrite Hvd. rewrite (vsize_concat_blocks _ (volWidth st' * volHeight st')).
      - unfold vsize. rewrite length_map. reflexivity.
      - apply Forall_map. eapply List.Forall_impl; [|exact Hall].
        intros s [_ Hs]. exact Hs. }
    unfold volume_full in Hfull. rewrite Hfull in Hsz.
    assert (0 < volWidth st' * volHeight st') by (apply Z.mul_pos_pos; lia).
    apply (Z.mul_cancel_l _ _ (volWidth st' * volHeight st')); lia. }
  set (z := volDepth st' / 2).
  assert (Hz : 0 <= z < volDepth st').
  { subst z. split; [apply Z.div_pos; lia|apply Z.div_lt; lia]. }
  assert (Hsome : is_Some (placed !! Z.to_nat z)).
  { apply lookup_lt_is_Some. unfold vsize in Hdepth. lia. }
  destruct Hsome as [s Hs]. exists s.
  assert (Hin : In s placed).
  { eapply lookup_In, Hs. }
  rewrite List.Forall_forall in Hall. destruct (Hall s Hin) as [Hfrom Hsize].
  (* the three planes *)
  assert (Hhalf : forall n, 0 < n -> 0 <= Z.quot n 2 < n).
  { intros n Hn0. rewrite quot_half by lia.
    split; [apply Z.div_pos; lia|apply Z.div_lt; lia]. }
  assert (Hne : volumeData st' <> []).
  { apply vsize_nonempty. rewrite Hfull.
    apply Z.mul_pos_pos; [apply Z.mul_pos_pos|]; lia. }
  destruct (planes_of_full_volume st' (Z.quot (volWidth st') 2)
              (Z.quot (volHeight st') 2) (Z.quot (volDepth st') 2) Hdims Hfull
              (Hhalf _ HW) (Hhalf _ HH) (Hhalf _ (proj1 HD)))
    as (ba & bc & bs & Hax & Hco & Hsa & Hna & Hnc & Hns & _).
  (* the axial plane is the slice *)
  assert (Hba : ba = pixels s).
  { rewrite quot_half in Hax by lia. fold z in Hax.
    unfold extract in Hax. cbn [Z.eqb] in Hax.
    rewrite (extract_axial_spec st' z Hdims ltac:(unfold INT_MAX in *; lia)) in Hax.
    pose proof (voxel_index_bound (volWidth st') (volHeight st') (volDepth st')
                  0 0 z ltac:(lia) ltac:(lia) Hz) as (_ & _ & _ & Hblock & _).
    unfold volume_full in Hfull.
    destruct (Z.leb_spec (z * (volWidth st' * volHeight st')
                          + volWidth st' * volHeight st') (vsize (volumeData st')))
      as [_|Hbad]; [|lia].
    injection Hax as <-. rewrite Hvd.
    replace z with (Z.of_nat (Z.to_nat z)) at 1 by lia.
    apply concat_block.
    - apply Z.mul_nonneg_nonneg; lia.
    - apply Forall_map. apply List.Forall_forall. intros s' Hs'.
      apply (Hall s' Hs').
    - rewrite list_lookup_fmap, Hs. reflexivity. }
  exists {| img_w := volWidth st'; img_h := volHeight st';
            img_rgb := window_rgb (s_value (wlSlider g)) (s_value (wwSlider g)) ba;
            final_w := fst (fit_display (volWidth st') (volHeight st')
                              (Dbl.div (spacing_y st') (spacing_x st')));
            final_h := snd (fit_display (volWidth st') (volHeight st')
                              (Dbl.div (spacing_y st') (spacing_x st')));
            relX := cursor_rel (Z.quot (volWidth st') 2) (volWidth st');
            relY := cursor_rel (Z.quot (volHeight st') 2) (volHeight st') |}.
  eexists _, _.
  split; [exact Hs|]. split; [exact Hfrom|].
  split.
  { unfold UpdateAllViews. cbn [frame sliderX sliderY sliderZ wlSlider wwSlider
      SetValue s_value].
    destruct (volumeData st') as [|v0 vd]; [congruence|].
    rewrite (UpdateOneView_shown _ _ _ _ _ _ _ _ _ _ _ Hax Hna).
    rewrite (UpdateOneView_shown _ _ _ _ _ _ _ _ _ _ _ Hco Hnc).
    rewrite (UpdateOneView_shown _ _ _ _ _ _ _ _ _ _ _ Hsa Hns).
    reflexivity. }
  cbn [img_w img_h img_rgb]. rewrite Hba. repeat split; reflexivity.
Qed.

Lemma load_then_draw_witness :
  sort_contract sort_ties_kept /\ Forall decoded_ok first_folder /\
  vsize first_folder <= INT_MAX /\
  OnLoadBtn_sliders sort_ties_kept initial_viewer first_folder
  = (Loaded, snd (OnLoadBtn_sliders sort_ties_kept initial_viewer first_folder)) /\
  volWidth (frame (snd (OnLoadBtn_sliders sort_ties_kept initial_viewer first_folder)))
  <= 65535 /\
  volHeight (frame (snd (OnLoadBtn_sliders sort_ties_kept initial_viewer first_folder)))
  <= 65535 /\
  volWidth (frame (snd (OnLoadBtn_sliders sort_ties_kept initial_viewer first_folder)))
  * volDepth (frame (snd (OnLoadBtn_sliders sort_ties_kept initial_viewer first_folder)))
  <= INT_MAX /\
  volHeight (frame (snd (OnLoadBtn_sliders sort_ties_kept initial_viewer first_folder)))
  * volDepth (frame (snd (OnLoadBtn_sliders sort_ties_kept initial_viewer first_folder)))
  <= INT_MAX /\
  exists s a c sg,
    placed_slices sort_ties_kept (frame initial_viewer) first_folder
      !! Z.to_nat (volDepth (frame (snd (OnLoadBtn_sliders sort_ties_kept
                                           initial_viewer first_folder))) / 2)
    = Some s /\
    slice_from (fun f => In f first_folder) s /\
    UpdateAllViews (snd (OnLoadBtn_sliders sort_ties_kept initial_viewer first_folder))
    = Some (Shown a, Shown c, Shown sg) /\
    img_w a
    = volWidth (frame (snd (OnLoadBtn_sliders sort_ties_kept initial_viewer
                              first_folder))) /\
    img_h a
    = volHeight (frame (snd (OnLoadBtn_sliders sort_ties_kept initial_viewer
                               first_folder))) /\
    img_rgb a
    = window_rgb (s_value (wlSlider initial_viewer))
                 (s_value (wwSlider initial_viewer)) (pixels s).
Proof.
  split; [exact sort_ties_kept_contract|]. split; [exact first_folder_ok|].
  split; [vm_compute; discriminate|]. split; [reflexivity|].
  split; [vm_compute; discriminate|]. split; [vm_compute; discriminate|].
  split; [vm_compute; discriminate|]. split; [vm_compute; discriminate|].
  apply (load_then_draw sort_ties_kept initial_viewer first_folder
           (snd (OnLoadBtn_sliders sort_ties_kept initial_viewer first_folder))).
  - exact sort_ties_kept_contract.
  - exact first_folder_ok.
  - vm_compute; discriminate.
  - reflexivity.
  - vm_compute; discriminate.
  - vm_compute; discriminate.
  - vm_compute; discriminate.
  - vm_compute; discriminate.
Defined.

(** ** The centre of the window *)

(** Half a positive integer, divided by that integer, is exactly 0.5. *)
Lemma half_ratio w :
  0 < w < 2 ^ 31 ->
  Dbl.div (dyadic w (-1)) (Dbl.of_int w) = S754_finite false 4503599627370496 (-53).
Proof.
  intros Hw.
  pose proof (half_width w ltac:(lia)) as Hhalf.
  replace (Z.max w 1) with w in Hhalf by lia. rewrite <- Hhalf.
  destruct (of_int_positive w ltac:(lia)) as (q & ex & -> & Hq & Hex).
  rewrite div_two_normal by (assumption || lia).
  unfold Dbl.div, Dbl.prec, Dbl.emax, SFdiv.
  rewrite div_core_normal by (assumption || lia).
  rewrite (div_eucl_exact _ _ (2 ^ 53)); [|lia|ring].
  rewrite new_location_exact.
  replace (ex - 1 - ex - 53) with (-54) by lia. reflexivity.
Qed.

(** X18.  Whatever the level and the width of the window, a sample that equals
    the level is shown with the grey level 127: the sample sits half a width
    above the lower bound, the quotient is exactly 0.5, and 127.5 loses its
    fraction in the conversion to [unsigned char]. *)
Theorem window_centre_is_mid_grey wl ww :
  - 2 ^ 15 <= wl < 2 ^ 15 -> - 2 ^ 31 <= ww < 2 ^ 31 ->
  window_pixel wl ww wl = 127.
Proof.
  intros Hwl Hww.
  rewrite (window_pixel_unfold wl ww wl ltac:(lia) Hww Hwl).
  assert (Hw : 0 < Z.max ww 1 < 2 ^ 31) by lia.
  replace (2 * wl <=? 2 * wl - Z.max ww 1) with false
    by (symmetry; apply Z.leb_gt; lia).
  replace (2 * wl + Z.max ww 1 <=? 2 * wl) with false
    by (symmetry; apply Z.leb_gt; lia).
  replace (2 * wl - (2 * wl - Z.max ww 1)) with (Z.max ww 1) by lia.
  rewrite (half_ratio _ Hw). reflexivity.
Qed.

Lemma window_centre_is_mid_grey_witness :
  - 2 ^ 15 <= 300 < 2 ^ 15 /\ - 2 ^ 31 <= 1500 < 2 ^ 31 /\
  window_pixel 300 1500 300 = 127.
Proof.
  split; [lia|]. split; [lia|].
  apply (window_centre_is_mid_grey 300 1500); lia.
Defined.

(* ===================================================================== *)
(** * Rounding to nearest: the error of a product and of a quotient *)
(* ===================================================================== *)

Section Located.

(** The record [mrs] holds the number [N / U]: its mantissa is the integer
    part, and its two bits tell where the remainder lies with respect to
    half a unit. *)
Let located (N U : Z) (mrs : shr_record) : Prop :=
  0 < U /\ 0 <= N /\ shr_m mrs = N / U /\
  loc_of_shr_record mrs
  = (if N mod U =? 0 then loc_Exact else loc_Inexact (2 * (N mod U) ?= U)).

Lemma located_shr_1 N U mrs : located N U mrs -> located N (2 * U) (shr_1 mrs).
Proof.
  intros (HU & HN & Hm & Hloc).
  pose proof (Z.mod_pos_bound N U HU) as HR.
  pose proof (Z.div_mod N U ltac:(lia)) as HNeq.
  assert (Hmnn : 0 <= N / U) by (apply Z.div_pos; lia).
  assert (Hdiv : N / (2 * U) = N / U / 2).
  { rewrite (Z.mul_comm 2 U). symmetry. apply Z.div_div; lia. }
  assert (Hmod : N mod (2 * U) = N mod U + U * ((N / U) mod 2)).
  { rewrite (Z.mul_comm 2 U). apply Z.rem_mul_r; lia. }
  pose proof (Z.mod_pos_bound (N / U) 2 ltac:(lia)) as Hbit.
  pose proof (Z.div_mod (N / U) 2 ltac:(lia)) as Hmeq.
  destruct mrs as [m r s]. cbn [shr_m] in Hm.
  assert (Hsticky : orb r s = negb (N mod U =? 0)).
  { cbn [loc_of_shr_record] in Hloc.
    destruct (N mod U =? 0); destruct r, s; cbn in *; congruence. }
  assert (Hshape : shr_1 {| shr_m := m; shr_r := r; shr_s := s |}
                   = {| shr_m := m / 2; shr_r := Z.odd m; shr_s := orb r s |}).
  { cbn [shr_1]. destruct m as [|[p|p|]|p]; try reflexivity; try lia.
    - rewrite Pos2Z.inj_xI. f_equal.
      apply Z.div_unique with (r := 1); lia.
    - rewrite Pos2Z.inj_xO. f_equal.
      apply Z.div_unique with (r := 0); lia. }
  rewrite Hshape. unfold located. cbn [shr_m].
  split; [lia|]. split; [exact HN|]. split; [rewrite Hdiv, Hm; reflexivity|].
  rewrite Hmod, Hsticky. rewrite Hm.
  rewrite (Zodd_mod (N / U)).
  destruct (Z.eqb_spec ((N / U) mod 2) 1) as [E1|E1].
  - rewrite E1. cbn [loc_of_shr_record].
    destruct (Z.eqb_spec (N mod U + U * 1) 0) as [E0|E0]; [lia|].
    destruct (Z.eqb_spec (N mod U) 0) as [ER|ER]; cbn [negb].
    + f_equal. symmetry. apply Z.compare_eq_iff. lia.
    + f_equal. symmetry. apply Z.compare_gt_iff. lia.
  - assert (E2 : (N / U) mod 2 = 0) by lia. rewrite E2. cbn [loc_of_shr_record].
    replace (N mod U + U * 0) with (N mod U) by lia.
    destruct (Z.eqb_spec (N mod U) 0) as [ER|ER]; cbn [negb]; [reflexivity|].
    f_equal. symmetry. apply Z.compare_lt_iff. lia.
Qed.


Lemma located_iter N U p : forall mrs,
  located N U mrs -> located N (U * 2 ^ Z.pos p) (SpecFloat.iter_pos shr_1 p mrs).
Proof.
  intros mrs H. rewrite iter_pos_iter.
  induction p as [|p IH] using Pos.peano_ind.
  - cbn [Pos.iter]. replace (U * 2 ^ 1) with (2 * U) by lia.
    apply located_shr_1, H.
  - rewrite Pos.iter_succ, Pos2Z.inj_succ, Z.pow_succ_r by lia.
    replace (U * (2 * 2 ^ Z.pos p)) with (2 * (U * 2 ^ Z.pos p)) by lia.
    apply located_shr_1, IH.
Qed.

Lemma located_round N U mrs :
  located N U mrs ->
  N / U <= round_nearest_even (shr_m mrs) (loc_of_shr_record mrs) <= N / U + 1 /\
  2 * N - U <= 2 * round_nearest_even (shr_m mrs) (loc_of_shr_record mrs) * U
            <= 2 * N + U.
Proof.
  intros (HU & HN & Hm & Hloc).
  pose proof (Z.mod_pos_bound N U HU) as HR.
  pose proof (Z.div_mod N U ltac:(lia)) as HNeq.
  rewrite Hloc, Hm. unfold round_nearest_even.
  destruct (Z.eqb_spec (N mod U) 0) as [E0|E0]; [lia|].
  destruct (Z.compare_spec (2 * (N mod U)) U) as [E|E|E].
  - destruct (Z.even (N / U)); lia.
  - lia.
  - lia.
Qed.

Lemma located_start m l N Dn :
  0 < Dn -> 0 <= N -> m = N / Dn ->
  l = (if N mod Dn =? 0 then loc_Exact else loc_Inexact (2 * (N mod Dn) ?= Dn)) ->
  located N Dn (shr_record_of_loc m l).
Proof.
  intros HD HN Hm Hl. unfold located.
  split; [exact HD|]. split; [exact HN|].
  split; [destruct l as [|[| |]]; exact Hm|].
  rewrite <- Hl. destruct l as [|[| |]]; reflexivity.
Qed.

Lemma digits2_pos_unique p d :
  2 ^ (d - 1) <= Z.pos p < 2 ^ d -> 0 < d -> Z.pos (digits2_pos p) = d.
Proof.
  intros [Hlo Hhi] Hd. pose proof (digits2_pos_bounds p) as [Blo Bhi].
  destruct (Z.lt_trichotomy (Z.pos (digits2_pos p)) d) as [L|[E|G]]; [|exact E|].
  - assert (2 ^ Z.pos (digits2_pos p) <= 2 ^ (d - 1))
      by (apply Z.pow_le_mono_r; lia).
    lia.
  - assert (2 ^ d <= 2 ^ (Z.pos (digits2_pos p) - 1))
      by (apply Z.pow_le_mono_r; lia).
    lia.
Qed.

(** Rounding a mantissa of at least 53 bits in the normal range: the
    result is a normal double within half a unit of the number rounded. *)
Lemma round_aux_located m0 e l N Dn :
  0 < Dn -> 0 <= N -> Z.pos m0 = N / Dn ->
  l = (if N mod Dn =? 0 then loc_Exact else loc_Inexact (2 * (N mod Dn) ?= Dn)) ->
  53 <= Z.pos (digits2_pos m0) ->
  -1074 <= e + Z.pos (digits2_pos m0) - 53 <= 970 ->
  exists r e2 r0,
    binary_round_aux 53 1024 false (Z.pos m0) e l = S754_finite false r e2 /\
    Z.pos (digits2_pos r) = 53 /\
    e + (Z.pos (digits2_pos m0) - 53) <= e2 <= e + (Z.pos (digits2_pos m0) - 53) + 1 /\
    Z.pos r * 2 ^ (e2 - (e + (Z.pos (digits2_pos m0) - 53))) = r0 /\
    2 * N - Dn * 2 ^ (Z.pos (digits2_pos m0) - 53)
    <= 2 * r0 * (Dn * 2 ^ (Z.pos (digits2_pos m0) - 53))
    <= 2 * N + Dn * 2 ^ (Z.pos (digits2_pos m0) - 53).
Proof.
  intros HD HN Hm Hl Hd He.
  pose proof (located_start (Z.pos m0) l N Dn HD HN Hm Hl) as Hstart.
  pose proof (digits2_pos_bounds m0) as [Blo Bhi].
  set (d := Z.pos (digits2_pos m0)) in *.
  set (n := d - 53) in *.
  assert (Hn : 0 <= n) by (subst n; lia).
  assert (Hpow : 2 ^ (d - 1) = 2 ^ n * 2 ^ 52 /\ 2 ^ d = 2 ^ n * 2 ^ 53).
  { split; rewrite <- Z.pow_add_r by lia; f_equal; subst n; lia. }
  assert (Hpn : 0 < 2 ^ n) by (apply Z.pow_pos_nonneg; lia).
  (* the first shift *)
  assert (Hfirst : exists mrs',
            shr_fexp 53 1024 (Z.pos m0) e l = (mrs', e + n) /\
            located N (Dn * 2 ^ n) mrs').
  { unfold shr_fexp. cbn [Zdigits2]. fold d.
    rewrite fexp_normal by lia.
    replace (d + e - 53 - e) with n by (subst n; lia).
    unfold shr. destruct n as [|p|p] eqn:En; try lia.
    - exists (shr_record_of_loc (Z.pos m0) l). rewrite Z.add_0_r.
      split; [reflexivity|]. rewrite Z.pow_0_r, Z.mul_1_r. exact Hstart.
    - eexists. split; [reflexivity|]. apply located_iter, Hstart. }
  destruct Hfirst as (mrs' & Hshr & Hloc').
  pose proof (located_round _ _ _ Hloc') as [Hr0 Hbound].
  set (r0 := round_nearest_even (shr_m mrs') (loc_of_shr_record mrs')) in *.
  assert (Hm' : N / (Dn * 2 ^ n) = Z.pos m0 / 2 ^ n).
  { rewrite Hm. symmetry. apply Z.div_div; lia. }
  assert (Hm'b : 2 ^ 52 <= N / (Dn * 2 ^ n) < 2 ^ 53).
  { rewrite Hm'. destruct Hpow as [P1 P2]. split.
    - apply Z.div_le_lower_bound; lia.
    - apply Z.div_lt_upper_bound; lia. }
  assert (Hr0b : 2 ^ 52 <= r0 <= 2 ^ 53) by lia.
  unfold binary_round_aux. rewrite Hshr. fold r0.
  destruct r0 as [|pr|pr] eqn:Er0; try lia.
  destruct (Z.eq_dec (Z.pos pr) (2 ^ 53)) as [Etop|Ntop].
  - (* the rounding carried into the next binade *)
    assert (pr = 9007199254740992%positive) by (apply Pos2Z.inj; exact Etop).
    subst pr.
    unfold shr_fexp. change (Zdigits2 9007199254740992) with 54.
    rewrite fexp_normal by lia.
    replace (54 + (e + n) - 53 - (e + n)) with 1 by lia.
    cbn [shr shr_record_of_loc SpecFloat.iter_pos shr_1 shr_m orb].
    replace (e + n + 1 <=? 1024 - 53) with true by (symmetry; apply Z.leb_le; lia).
    exists 4503599627370496%positive, (e + n + 1), (2 ^ 53).
    split; [reflexivity|]. split; [reflexivity|]. split; [lia|].
    split; [replace (e + n + 1 - (e + n)) with 1 by lia; reflexivity|].
    rewrite Etop in Hbound. exact Hbound.
  - assert (Hdr : Z.pos (digits2_pos pr) = 53)
      by (apply digits2_pos_unique; lia).
    unfold shr_fexp. cbn [Zdigits2]. rewrite Hdr.
    rewrite fexp_normal by lia.
    replace (53 + (e + n) - 53 - (e + n)) with 0 by lia.
    cbn [shr]. destruct (shr_record_of_loc (Z.pos pr) loc_Exact) eqn:Erec.
    cbn [shr_record_of_loc] in Erec. injection Erec as <- <- <-. cbn [shr_m].
    replace (e + n <=? 1024 - 53) with true by (symmetry; apply Z.leb_le; lia).
    exists pr, (e + n), (Z.pos pr).
    split; [reflexivity|]. split; [exact Hdr|]. split; [lia|].
    split; [rewrite Z.sub_diag; lia|]. exact Hbound.
Qed.

(** Where [N / U] lies between two integers. *)
Let loc_of (N U : Z) : location :=
  if N mod U =? 0 then loc_Exact else loc_Inexact (2 * (N mod U) ?= U).

(** [N / U] rounded to the nearest integer, to the even one in a tie. *)
Let rne (N U : Z) : Z := round_nearest_even (N / U) (loc_of N U).

(** The double with the mantissa [r0], of 53 bits or equal to 2^53, and
    the exponent [ez]. *)
Let canonical (r0 ez : Z) : spec_float :=
  if r0 =? 2 ^ 53 then S754_finite false 4503599627370496 (ez + 1)
  else S754_finite false (Z.to_pos r0) ez.

Lemma ratio_div N U N' U' :
  0 < U -> 0 < U' -> N * U' = N' * U ->
  N / U = N' / U' /\ loc_of N U = loc_of N' U'.
Proof.
  intros HU HU' E.
  pose proof (Z.div_mod N U ltac:(lia)) as HN.
  pose proof (Z.mod_pos_bound N U HU) as [R0 R1].
  set (q := N / U) in *. set (r := N mod U) in *.
  set (r' := N' - U' * q).
  assert (Er : r' * U = r * U').
  { subst r'. rewrite Z.mul_sub_distr_r, <- E. rewrite HN at 1. ring. }
  assert (R0' : 0 <= r').
  { apply Z.mul_le_mono_pos_r with U; [exact HU|]. rewrite Er.
    rewrite Z.mul_0_l. apply Z.mul_nonneg_nonneg; lia. }
  assert (R1' : r' < U').
  { apply Z.mul_lt_mono_pos_r with U; [exact HU|]. rewrite Er.
    rewrite (Z.mul_comm U' U). apply Z.mul_lt_mono_pos_r; lia. }
  assert (Hq : N' / U' = q).
  { symmetry. apply Z.div_unique with r'; [lia|subst r'; ring]. }
  assert (Hr : N' mod U' = r').
  { symmetry. apply Z.mod_unique with q; [lia|subst r'; ring]. }
  split; [symmetry; exact Hq|].
  unfold loc_of. fold r. rewrite Hr.
  destruct (Z.eqb_spec r 0) as [Z0|Z0]; destruct (Z.eqb_spec r' 0) as [Z0'|Z0'].
  - reflexivity.
  - exfalso. rewrite Z0 in Er. apply Z0'.
    apply Z.mul_eq_0 in Er. lia.
  - exfalso. rewrite Z0' in Er. apply Z0.
    symmetry in Er. apply Z.mul_eq_0 in Er. lia.
  - f_equal.
    assert (Ec : (2 * r - U) * U' = (2 * r' - U') * U).
    { rewrite !Z.mul_sub_distr_r, <- !Z.mul_assoc, Er. ring. }
    destruct (Z.compare_spec (2 * r) U) as [C|C|C];
      destruct (Z.compare_spec (2 * r') U') as [C'|C'|C']; try reflexivity;
      exfalso.
    + rewrite C, Z.sub_diag, Z.mul_0_l in Ec. symmetry in Ec.
      apply Z.mul_eq_0 in Ec. lia.
    + rewrite C, Z.sub_diag, Z.mul_0_l in Ec. symmetry in Ec.
      apply Z.mul_eq_0 in Ec. lia.
    + rewrite C', Z.sub_diag, Z.mul_0_l in Ec. apply Z.mul_eq_0 in Ec. lia.
    + assert ((2 * r - U) * U' < 0) by (apply Z.mul_neg_pos; lia).
      assert (0 < (2 * r' - U') * U) by (apply Z.mul_pos_pos; lia). lia.
    + rewrite C', Z.sub_diag, Z.mul_0_l in Ec. apply Z.mul_eq_0 in Ec. lia.
    + assert (0 < (2 * r - U) * U') by (apply Z.mul_pos_pos; lia).
      assert ((2 * r' - U') * U < 0) by (apply Z.mul_neg_pos; lia). lia.
Qed.

Lemma rne_ratio N U N' U' :
  0 < U -> 0 < U' -> N * U' = N' * U -> rne N U = rne N' U'.
Proof.
  intros HU HU' E. unfold rne.
  destruct (ratio_div N U N' U' HU HU' E) as [-> ->]. reflexivity.
Qed.

(** Rounding a mantissa of at least 53 bits in the normal range gives the
    double of the rounded quotient. *)
Lemma round_aux_canonical m0 e l N Dn :
  0 < Dn -> 0 <= N -> Z.pos m0 = N / Dn -> l = loc_of N Dn ->
  53 <= Z.pos (digits2_pos m0) ->
  -1074 <= e + Z.pos (digits2_pos m0) - 53 <= 970 ->
  binary_round_aux 53 1024 false (Z.pos m0) e l
  = canonical (rne N (Dn * 2 ^ (Z.pos (digits2_pos m0) - 53)))
              (e + (Z.pos (digits2_pos m0) - 53)).
Proof.
  intros HD HN Hm Hl Hd He.
  pose proof (located_start (Z.pos m0) l N Dn HD HN Hm Hl) as Hstart.
  pose proof (digits2_pos_bounds m0) as [Blo Bhi].
  set (d := Z.pos (digits2_pos m0)) in *.
  set (n := d - 53) in *.
  assert (Hn : 0 <= n) by (subst n; lia).
  assert (Hpow : 2 ^ (d - 1) = 2 ^ n * 2 ^ 52 /\ 2 ^ d = 2 ^ n * 2 ^ 53).
  { split; rewrite <- Z.pow_add_r by lia; f_equal; subst n; lia. }
  assert (Hpn : 0 < 2 ^ n) by (apply Z.pow_pos_nonneg; lia).
  assert (Hfirst : exists mrs',
            shr_fexp 53 1024 (Z.pos m0) e l = (mrs', e + n) /\
            located N (Dn * 2 ^ n) mrs').
  { unfold shr_fexp. cbn [Zdigits2]. fold d.
    rewrite fexp_normal by lia.
    replace (d + e - 53 - e) with n by (subst n; lia).
    unfold shr. destruct n as [|p|p] eqn:En; try lia.
    - exists (shr_record_of_loc (Z.pos m0) l). rewrite Z.add_0_r.
      split; [reflexivity|]. rewrite Z.pow_0_r, Z.mul_1_r. exact Hstart.
    - eexists. split; [reflexivity|]. apply located_iter, Hstart. }
  destruct Hfirst as (mrs' & Hshr & Hloc').
  pose proof (located_round _ _ _ Hloc') as [Hr0 Hbound].
  assert (Hrne : round_nearest_even (shr_m mrs') (loc_of_shr_record mrs')
                 = rne N (Dn * 2 ^ n)).
  { destruct Hloc' as (_ & _ & -> & ->). reflexivity. }
  rewrite Hrne in Hr0, Hbound.
  assert (Hm' : N / (Dn * 2 ^ n) = Z.pos m0 / 2 ^ n).
  { rewrite Hm. symmetry. apply Z.div_div; lia. }
  assert (Hm'b : 2 ^ 52 <= N / (Dn * 2 ^ n) < 2 ^ 53).
  { rewrite Hm'. destruct Hpow as [P1 P2]. split.
    - apply Z.div_le_lower_bound; lia.
    - apply Z.div_lt_upper_bound; lia. }
  unfold binary_round_aux. rewrite Hshr, Hrne.
  set (r0 := rne N (Dn * 2 ^ n)) in *.
  assert (Hr0b : 2 ^ 52 <= r0 <= 2 ^ 53) by lia.
  unfold canonical.
  destruct r0 as [|pr|pr] eqn:Er0; try lia.
  destruct (Z.eqb_spec (Z.pos pr) (2 ^ 53)) as [Etop|Ntop].
  - assert (pr = 9007199254740992%positive) by (apply Pos2Z.inj; exact Etop).
    subst pr.
    unfold shr_fexp. change (Zdigits2 9007199254740992) with 54.
    rewrite fexp_normal by lia.
    replace (54 + (e + n) - 53 - (e + n)) with 1 by lia.
    cbn [shr shr_record_of_loc SpecFloat.iter_pos shr_1 shr_m orb].
    replace (e + n + 1 <=? 1024 - 53) with true by (symmetry; apply Z.leb_le; lia).
    reflexivity.
  - assert (Hdr : Z.pos (digits2_pos pr) = 53)
      by (apply digits2_pos_unique; lia).
    unfold shr_fexp. cbn [Zdigits2]. rewrite Hdr.
    rewrite fexp_normal by lia.
    replace (53 + (e + n) - 53 - (e + n)) with 0 by lia.
    cbn [shr]. destruct (shr_record_of_loc (Z.pos pr) loc_Exact) eqn:Erec.
    cbn [shr_record_of_loc] in Erec. injection Erec as <- <- <-. cbn [shr_m].
    replace (e + n <=? 1024 - 53) with true by (symmetry; apply Z.leb_le; lia).
    reflexivity.
Qed.

(** Two roundings of the same number give the same double. *)
Lemma round_aux_same m0 e l N Dn m0' e' l' N' Dn' :
  0 < Dn -> 0 <= N -> Z.pos m0 = N / Dn ->
  l = (if N mod Dn =? 0 then loc_Exact else loc_Inexact (2 * (N mod Dn) ?= Dn)) ->
  53 <= Z.pos (digits2_pos m0) ->
  -1074 <= e + Z.pos (digits2_pos m0) - 53 <= 970 ->
  0 < Dn' -> 0 <= N' -> Z.pos m0' = N' / Dn' ->
  l' = (if N' mod Dn' =? 0 then loc_Exact
        else loc_Inexact (2 * (N' mod Dn') ?= Dn')) ->
  53 <= Z.pos (digits2_pos m0') ->
  e + Z.pos (digits2_pos m0) = e' + Z.pos (digits2_pos m0') ->
  N * (Dn' * 2 ^ (Z.pos (digits2_pos m0') - 53))
  = N' * (Dn * 2 ^ (Z.pos (digits2_pos m0) - 53)) ->
  binary_round_aux 53 1024 false (Z.pos m0) e l
  = binary_round_aux 53 1024 false (Z.pos m0') e' l'.
Proof.
  intros HD HN Hm Hl Hd He HD' HN' Hm' Hl' Hd' Hee Hratio.
  rewrite (round_aux_canonical m0 e l N Dn) by assumption.
  rewrite (round_aux_canonical m0' e' l' N' Dn') by (assumption || lia).
  f_equal; [|lia].
  apply rne_ratio; [| |exact Hratio];
    apply Z.mul_pos_pos; try assumption; apply Z.pow_pos_nonneg; lia.
Qed.

End Located.

(* ===================================================================== *)
(** * The numbers the doubles stand for *)
(* ===================================================================== *)

From Stdlib Require Import Reals Lra.

Section RealValue.

(** The real number a positive finite double stands for, and the unit
    roundoff 2^-53. *)
Local Abbreviation V m e := (IZR (Z.pos m) * powerRZ 2 e)%R.
Local Abbreviation u := (/ 9007199254740992)%R.

Lemma IZR_pow2 n : 0 <= n -> IZR (2 ^ n) = powerRZ 2 n.
Proof.
  intros Hn. rewrite <- (Z2Nat.id n Hn). rewrite <- pow_powerRZ.
  rewrite pow_IZR. reflexivity.
Qed.

Lemma powerRZ_2_pos e : (0 < powerRZ 2 e)%R.
Proof. apply powerRZ_lt. lra. Qed.

Lemma powerRZ_2_add a b : powerRZ 2 (a + b) = (powerRZ 2 a * powerRZ 2 b)%R.
Proof. apply powerRZ_add. lra. Qed.

Lemma powerRZ_2_lt_inv a b : (powerRZ 2 a < powerRZ 2 b)%R -> a < b.
Proof.
  intros H. destruct (Z.lt_ge_cases a b) as [L|G]; [exact L|exfalso].
  assert (powerRZ 2 b * 1 <= powerRZ 2 a)%R; [|lra].
  replace a with (b + (a - b)) by lia. rewrite powerRZ_2_add.
  pose proof (powerRZ_2_pos b).
  apply Rmult_le_compat_l; [lra|].
  rewrite <- IZR_pow2 by lia. apply IZR_le.
  pose proof (Z.pow_pos_nonneg 2 (a - b) ltac:(lia) ltac:(lia)). lia.
Qed.

Lemma Rabs_le_between (x y : R) : (Rabs x <= y)%R -> (- y <= x <= y)%R.
Proof. unfold Rabs. destruct (Rcase_abs x); lra. Qed.

Lemma V_bounds m e :
  Z.pos (digits2_pos m) = 53 ->
  (IZR (2 ^ 52) * powerRZ 2 e <= V m e < IZR (2 ^ 53) * powerRZ 2 e)%R.
Proof.
  intros Hd. pose proof (digits2_pos_bounds m) as [Blo Bhi]. rewrite Hd in *.
  pose proof (powerRZ_2_pos e).
  split.
  - apply Rmult_le_compat_r; [lra|]. apply IZR_le. exact Blo.
  - apply Rmult_lt_compat_r; [lra|]. apply IZR_lt. exact Bhi.
Qed.

(** [binary_round_aux] in the normal range, as a statement on reals: the
    result is within a relative error of 2^-53 of the number rounded. *)
Lemma round_aux_real m0 e l N Dn :
  0 < Dn -> 0 <= N -> Z.pos m0 = N / Dn ->
  l = (if N mod Dn =? 0 then loc_Exact else loc_Inexact (2 * (N mod Dn) ?= Dn)) ->
  53 <= Z.pos (digits2_pos m0) ->
  -1074 <= e + Z.pos (digits2_pos m0) - 53 <= 970 ->
  exists r e2,
    binary_round_aux 53 1024 false (Z.pos m0) e l = S754_finite false r e2 /\
    Z.pos (digits2_pos r) = 53 /\
    (Rabs (V r e2 - IZR N / IZR Dn * powerRZ 2 e) <= V r e2 / IZR (2 ^ 53))%R.
Proof.
  intros HD HN Hm Hl Hd He.
  destruct (round_aux_located m0 e l N Dn HD HN Hm Hl Hd He)
    as (r & e2 & r0 & Hres & Hdr & He2 & Hr0 & Hb).
  exists r, e2. split; [exact Hres|]. split; [exact Hdr|].
  set (n := Z.pos (digits2_pos m0) - 53) in *.
  assert (Hn : 0 <= n) by (subst n; lia).
  set (k := e2 - (e + n)) in *.
  assert (Hk : 0 <= k) by (subst k; lia).
  pose proof (digits2_pos_bounds r) as [Blo _]. rewrite Hdr in Blo.
  assert (Hval : V r e2 = (IZR r0 * IZR (2 ^ n) * powerRZ 2 e)%R).
  { rewrite <- Hr0. rewrite mult_IZR, !IZR_pow2 by lia.
    replace e2 with (k + (n + e)) by (subst k; lia).
    rewrite !powerRZ_2_add. ring. }
  assert (Hr0lo : (IZR (2 ^ 52) <= IZR r0)%R).
  { apply IZR_le. rewrite <- Hr0.
    pose proof (Z.pow_pos_nonneg 2 k ltac:(lia) Hk) as Hpk.
    change (2 ^ (53 - 1)) with (2 ^ 52) in Blo.
    apply Z.le_trans with (Z.pos r * 1); [lia|].
    apply Z.mul_le_mono_nonneg_l; lia. }
  rewrite Hval.
  pose proof (powerRZ_2_pos e) as Hw.
  assert (Hp : (0 < IZR (2 ^ n))%R)
    by (apply IZR_lt, Z.pow_pos_nonneg; lia).
  assert (Hb' : (0 < IZR Dn)%R) by (apply IZR_lt; exact HD).
  assert (Hb1 : 2 * N <= 2 * r0 * (Dn * 2 ^ n) + Dn * 2 ^ n) by lia.
  assert (Hb2 : 2 * r0 * (Dn * 2 ^ n) <= 2 * N + Dn * 2 ^ n) by lia.
  clear Hb. apply IZR_le in Hb1, Hb2.
  repeat rewrite ?plus_IZR, ?mult_IZR in Hb1.
  repeat rewrite ?plus_IZR, ?mult_IZR in Hb2.
  set (a := IZR N) in *. set (b := IZR Dn) in *. set (p := IZR (2 ^ n)) in *.
  set (w := powerRZ 2 e) in *. set (q := IZR r0) in *.
  change (IZR (2 ^ 52)) with 4503599627370496%R in *.
  change (IZR (2 ^ 53)) with 9007199254740992%R in *.
  assert (HX : (Rabs (q * p - a / b) <= p / 2)%R).
  { assert (Hbp : (0 < b * p)%R) by (apply Rmult_lt_0_compat; assumption).
    assert (E : (q * p - a / b = (2 * q * (b * p) - 2 * a) / (2 * b))%R)
      by (field; lra).
    assert (E2 : (p / 2 = (b * p) / (2 * b))%R) by (field; lra).
    rewrite E, E2. unfold Rdiv.
    assert (Hinv : (0 < / (2 * b))%R) by (apply Rinv_0_lt_compat; lra).
    apply Rabs_le. split.
    - rewrite Ropp_mult_distr_l. apply Rmult_le_compat_r; lra.
    - apply Rmult_le_compat_r; lra. }
  replace (q * p * w - a / b * w)%R with ((q * p - a / b) * w)%R by ring.
  rewrite Rabs_mult, (Rabs_pos_eq w) by lra.
  apply Rle_trans with (p / 2 * w)%R.
  - apply Rmult_le_compat_r; [lra|exact HX].
  - assert (0 < p * w)%R by (apply Rmult_lt_0_compat; assumption).
    replace (q * p * w / 9007199254740992)%R
      with (q / 9007199254740992 * (p * w))%R by (field; lra).
    replace (p / 2 * w)%R with (1 / 2 * (p * w))%R by field.
    apply Rmult_le_compat_r; lra.
Qed.

Lemma digits_at_least p k :
  0 <= k -> 2 ^ k <= Z.pos p -> k < Z.pos (digits2_pos p).
Proof.
  intros Hk Hlo. pose proof (digits2_pos_bounds p) as [_ Bhi].
  apply (Z.pow_lt_mono_r_iff 2); lia.
Qed.

Lemma digits_at_most p k :
  0 < k -> Z.pos p < 2 ^ k -> Z.pos (digits2_pos p) <= k.
Proof.
  intros Hk Hhi. pose proof (digits2_pos_bounds p) as [Blo _].
  assert (Z.pos (digits2_pos p) - 1 < k); [|lia].
  apply (Z.pow_lt_mono_r_iff 2); lia.
Qed.

Lemma normal_range m :
  Z.pos (digits2_pos m) = 53 -> 2 ^ 52 <= Z.pos m < 2 ^ 53.
Proof. intros Hd. pose proof (digits2_pos_bounds m) as B. rewrite Hd in B. exact B. Qed.

(** The product of two normal doubles. *)
Lemma mul_normal_error mx ex my ey :
  Z.pos (digits2_pos mx) = 53 -> Z.pos (digits2_pos my) = 53 ->
  -1126 <= ex + ey <= 917 ->
  exists r e2,
    Dbl.mul (S754_finite false mx ex) (S754_finite false my ey)
    = S754_finite false r e2 /\
    Z.pos (digits2_pos r) = 53 /\
    (Rabs (V r e2 - V mx ex * V my ey) <= V r e2 / IZR (2 ^ 53))%R.
Proof.
  intros Hx Hy He.
  pose proof (normal_range mx Hx) as [Xlo Xhi].
  pose proof (normal_range my Hy) as [Ylo Yhi].
  assert (Hlo : 2 ^ 104 <= Z.pos (mx * my)).
  { rewrite Pos2Z.inj_mul. change (2 ^ 104) with (2 ^ 52 * 2 ^ 52).
    apply Z.mul_le_mono_nonneg; lia. }
  assert (Hhi : Z.pos (mx * my) < 2 ^ 106).
  { rewrite Pos2Z.inj_mul. change (2 ^ 106) with (2 ^ 53 * 2 ^ 53).
    apply Z.mul_lt_mono_nonneg; lia. }
  pose proof (digits_at_least _ 104 ltac:(lia) Hlo) as D1.
  pose proof (digits_at_most _ 106 ltac:(lia) Hhi) as D2.
  destruct (round_aux_real (mx * my) (ex + ey) loc_Exact (Z.pos (mx * my)) 1)
    as (r & e2 & Hres & Hdr & Herr); try lia.
  - rewrite Z.div_1_r. reflexivity.
  - rewrite Z.mod_1_r. reflexivity.
  - exists r, e2. split; [exact Hres|]. split; [exact Hdr|].
    replace (V mx ex * V my ey)%R
      with (IZR (Z.pos (mx * my)) / IZR 1 * powerRZ 2 (ex + ey))%R; [exact Herr|].
    rewrite Pos2Z.inj_mul, mult_IZR, powerRZ_2_add. field.
Qed.

Lemma new_location_spec nb k :
  new_location nb k
  = if k =? 0 then loc_Exact else loc_Inexact (2 * k ?= nb).
Proof.
  unfold new_location, new_location_even, new_location_odd.
  destruct (Z.even nb) eqn:Ev; [reflexivity|].
  destruct (k =? 0); [reflexivity|]. f_equal.
  rewrite Zeven_mod in Ev. apply Z.eqb_neq in Ev.
  pose proof (Z.mod_pos_bound nb 2 ltac:(lia)) as B.
  pose proof (Z.div_mod nb 2 ltac:(lia)) as E.
  destruct (Z.compare_spec (2 * k + 1) nb), (Z.compare_spec (2 * k) nb);
    try reflexivity; lia.
Qed.

(** The quotient of two normal doubles. *)
Lemma div_normal_error m1 e1 m2 e2 :
  Z.pos (digits2_pos m1) = 53 -> Z.pos (digits2_pos m2) = 53 ->
  -1021 <= e1 - e2 <= 1022 ->
  exists r e,
    Dbl.div (S754_finite false m1 e1) (S754_finite false m2 e2)
    = S754_finite false r e /\
    Z.pos (digits2_pos r) = 53 /\
    (Rabs (V r e - V m1 e1 / V m2 e2) <= V r e / IZR (2 ^ 53))%R.
Proof.
  intros H1 H2 He.
  pose proof (normal_range m1 H1) as [Xlo Xhi].
  pose proof (normal_range m2 H2) as [Ylo Yhi].
  unfold Dbl.div, Dbl.prec, Dbl.emax, SFdiv.
  rewrite div_core_normal by (assumption || lia).
  set (N := Z.pos m1 * 2 ^ 53).
  assert (Hq : Z.div_eucl N (Z.pos m2) = (N / Z.pos m2, N mod Z.pos m2)).
  { unfold Z.div, Z.modulo. destruct (Z.div_eucl N (Z.pos m2)); reflexivity. }
  rewrite Hq. cbn [xorb].
  assert (Qlo : 2 ^ 52 <= N / Z.pos m2).
  { apply Z.div_le_lower_bound; [lia|]. subst N.
    change (2 ^ 53) with (2 * 2 ^ 52). nia. }
  assert (Qhi : N / Z.pos m2 < 2 ^ 54).
  { apply Z.div_lt_upper_bound; [lia|]. subst N.
    change (2 ^ 54) with (2 * 2 ^ 53). nia. }
  destruct (N / Z.pos m2) as [|pq|pq] eqn:Eq; try lia.
  pose proof (digits_at_least pq 52 ltac:(lia) Qlo) as D1.
  pose proof (digits_at_most pq 54 ltac:(lia) Qhi) as D2.
  destruct (round_aux_real pq (e1 - e2 - 53) (new_location (Z.pos m2) (N mod Z.pos m2))
              N (Z.pos m2)) as (r & e & Hres & Hdr & Herr); try lia.
  - apply new_location_spec.
  - exists r, e. split; [exact Hres|]. split; [exact Hdr|].
    replace (V m1 e1 / V m2 e2)%R
      with (IZR N / IZR (Z.pos m2) * powerRZ 2 (e1 - e2 - 53))%R; [exact Herr|].
    subst N. rewrite mult_IZR, IZR_pow2 by lia.
    replace e1 with ((e1 - e2 - 53) + (e2 + 53)) at 2 by lia.
    rewrite !powerRZ_2_add.
    pose proof (powerRZ_2_pos e2). pose proof (powerRZ_2_pos (e1 - e2 - 53)).
    pose proof (powerRZ_2_pos 53).
    assert (0 < IZR (Z.pos m2))%R by (apply IZR_lt; lia).
    field. split; lra.
Qed.

(** A number lies in one binade only. *)
Lemma binade_unique (x : R) a b :
  (powerRZ 2 (a - 1) <= x < powerRZ 2 a)%R ->
  (powerRZ 2 (b - 1) <= x < powerRZ 2 b)%R -> a = b.
Proof.
  intros [A1 A2] [B1 B2].
  assert (a - 1 < b) by (apply powerRZ_2_lt_inv; lra).
  assert (b - 1 < a) by (apply powerRZ_2_lt_inv; lra).
  lia.
Qed.

(** The division of two normal doubles, up to the rounding of the
    quotient of the mantissas. *)
Lemma div_unfold m1 e1 m2 e2 :
  Z.pos (digits2_pos m1) = 53 -> Z.pos (digits2_pos m2) = 53 ->
  -1021 <= e1 - e2 <= 1022 ->
  exists pq,
    Z.pos pq = Z.pos m1 * 2 ^ 53 / Z.pos m2 /\
    53 <= Z.pos (digits2_pos pq) <= 54 /\
    Dbl.div (S754_finite false m1 e1) (S754_finite false m2 e2)
    = binary_round_aux 53 1024 false (Z.pos pq) (e1 - e2 - 53)
        (if (Z.pos m1 * 2 ^ 53) mod Z.pos m2 =? 0 then loc_Exact
         else loc_Inexact (2 * ((Z.pos m1 * 2 ^ 53) mod Z.pos m2) ?= Z.pos m2)) /\
    (powerRZ 2 (Z.pos (digits2_pos pq) - 1 + (e1 - e2 - 53))
     <= V m1 e1 / V m2 e2
     < powerRZ 2 (Z.pos (digits2_pos pq) + (e1 - e2 - 53)))%R.
Proof.
  intros H1 H2 He.
  pose proof (normal_range m1 H1) as [Xlo Xhi].
  pose proof (normal_range m2 H2) as [Ylo Yhi].
  unfold Dbl.div, Dbl.prec, Dbl.emax, SFdiv.
  rewrite div_core_normal by (assumption || lia).
  set (N := Z.pos m1 * 2 ^ 53).
  assert (Hq : Z.div_eucl N (Z.pos m2) = (N / Z.pos m2, N mod Z.pos m2)).
  { unfold Z.div, Z.modulo. destruct (Z.div_eucl N (Z.pos m2)); reflexivity. }
  rewrite Hq. cbn [xorb].
  assert (Qlo : 2 ^ 52 <= N / Z.pos m2).
  { apply Z.div_le_lower_bound; [lia|]. subst N.
    change (2 ^ 53) with (2 * 2 ^ 52). nia. }
  assert (Qhi : N / Z.pos m2 < 2 ^ 54).
  { apply Z.div_lt_upper_bound; [lia|]. subst N.
    change (2 ^ 54) with (2 * 2 ^ 53). nia. }
  pose proof (Z.div_mod N (Z.pos m2) ltac:(lia)) as Hdm.
  pose proof (Z.mod_pos_bound N (Z.pos m2) ltac:(lia)) as [M0 M1].
  destruct (N / Z.pos m2) as [|pq|pq] eqn:Eq; try lia.
  pose proof (digits_at_least pq 52 ltac:(lia) Qlo) as D1.
  pose proof (digits_at_most pq 54 ltac:(lia) Qhi) as D2.
  exists pq. split; [reflexivity|]. split; [lia|].
  split; [rewrite new_location_spec; reflexivity|].
  pose proof (digits2_pos_bounds pq) as [Blo Bhi].
  set (d := Z.pos (digits2_pos pq)) in *.
  assert (Hval : (V m1 e1 / V m2 e2
                  = IZR N / IZR (Z.pos m2) * powerRZ 2 (e1 - e2 - 53))%R).
  { subst N. rewrite mult_IZR, IZR_pow2 by lia.
    replace e1 with ((e1 - e2 - 53) + (e2 + 53)) at 1 by lia.
    rewrite !powerRZ_2_add.
    pose proof (powerRZ_2_pos e2). pose proof (powerRZ_2_pos (e1 - e2 - 53)).
    pose proof (powerRZ_2_pos 53).
    assert (0 < IZR (Z.pos m2))%R by (apply IZR_lt; lia).
    field. split; lra. }
  rewrite Hval, !powerRZ_2_add.
  pose proof (powerRZ_2_pos (e1 - e2 - 53)) as Hw.
  assert (Hb : (0 < IZR (Z.pos m2))%R) by (apply IZR_lt; lia).
  assert (Hlo : (IZR (2 ^ (d - 1)) <= IZR N / IZR (Z.pos m2))%R).
  { apply Rmult_le_reg_r with (IZR (Z.pos m2)); [exact Hb|].
    unfold Rdiv. rewrite Rmult_assoc, Rinv_l, Rmult_1_r by lra.
    rewrite <- mult_IZR. apply IZR_le. nia. }
  assert (Hhi : (IZR N / IZR (Z.pos m2) < IZR (2 ^ d))%R).
  { apply Rmult_lt_reg_r with (IZR (Z.pos m2)); [exact Hb|].
    unfold Rdiv. rewrite Rmult_assoc, Rinv_l, Rmult_1_r by lra.
    rewrite <- mult_IZR. apply IZR_lt. nia. }
  rewrite IZR_pow2 in Hlo, Hhi by lia.
  split.
  - apply Rmult_le_compat_r; lra.
  - apply Rmult_lt_compat_r; lra.
Qed.

(** The quotient of two normal doubles depends on the ratio of the two
    numbers only. *)
Lemma div_same_ratio m1 e1 m2 e2 m1' e1' m2' e2' :
  Z.pos (digits2_pos m1) = 53 -> Z.pos (digits2_pos m2) = 53 ->
  Z.pos (digits2_pos m1') = 53 -> Z.pos (digits2_pos m2') = 53 ->
  -1021 <= e1 - e2 <= 1022 -> -1021 <= e1' - e2' <= 1022 ->
  (V m1 e1 * V m2' e2' = V m1' e1' * V m2 e2)%R ->
  Dbl.div (S754_finite false m1 e1) (S754_finite false m2 e2)
  = Dbl.div (S754_finite false m1' e1') (S754_finite false m2' e2').
Proof.
  intros H1 H2 H1' H2' He He' Hratio.
  destruct (div_unfold m1 e1 m2 e2 H1 H2 He) as (pq & Epq & Dpq & -> & Bq).
  destruct (div_unfold m1' e1' m2' e2' H1' H2' He') as (pq' & Epq' & Dpq' & -> & Bq').
  assert (Hv2 : (0 < V m2 e2)%R)
    by (apply Rmult_lt_0_compat; [apply IZR_lt; lia|apply powerRZ_2_pos]).
  assert (Hv2' : (0 < V m2' e2')%R)
    by (apply Rmult_lt_0_compat; [apply IZR_lt; lia|apply powerRZ_2_pos]).
  assert (Hx : (V m1 e1 / V m2 e2 = V m1' e1' / V m2' e2')%R).
  { set (x := V m1 e1) in *. set (y := V m2 e2) in *.
    set (x' := V m1' e1') in *. set (y' := V m2' e2') in *.
    transitivity (x * y' / (y * y'))%R; [field; split; lra|].
    rewrite Hratio. field; split; lra. }
  rewrite <- Hx in Bq'.
  set (d := Z.pos (digits2_pos pq)) in *.
  set (d' := Z.pos (digits2_pos pq')) in *.
  assert (Hbin : d + (e1 - e2 - 53) = d' + (e1' - e2' - 53)).
  { apply (binade_unique (V m1 e1 / V m2 e2)).
    - replace (d + (e1 - e2 - 53) - 1) with (d - 1 + (e1 - e2 - 53)) by lia.
      exact Bq.
    - replace (d' + (e1' - e2' - 53) - 1) with (d' - 1 + (e1' - e2' - 53)) by lia.
      exact Bq'. }
  apply (round_aux_same pq (e1 - e2 - 53) _ (Z.pos m1 * 2 ^ 53) (Z.pos m2)
           pq' (e1' - e2' - 53) _ (Z.pos m1' * 2 ^ 53) (Z.pos m2'));
    try reflexivity; try lia.
  fold d d'. apply eq_IZR.
  repeat rewrite mult_IZR. rewrite !IZR_pow2 by lia.
  set (k := d' - 53 - (e1 + e2')).
  assert (P1 : powerRZ 2 (d' - 53)
               = (powerRZ 2 e1 * powerRZ 2 e2' * powerRZ 2 k)%R).
  { rewrite <- !powerRZ_2_add. f_equal. subst k. lia. }
  assert (P2 : powerRZ 2 (d - 53)
               = (powerRZ 2 e1' * powerRZ 2 e2 * powerRZ 2 k)%R).
  { rewrite <- !powerRZ_2_add. f_equal. subst k. lia. }
  transitivity (V m1 e1 * V m2' e2' * (powerRZ 2 53 * powerRZ 2 k))%R;
    [rewrite P1; ring|].
  rewrite Hratio, P2. ring.
Qed.

(** The double of a positive integer below 2^53 stands for that integer. *)
Lemma of_int_real n :
  0 < n < 2 ^ 53 ->
  exists q ex, Dbl.of_int n = S754_finite false q ex /\
               Z.pos (digits2_pos q) = 53 /\ -53 < ex <= 0 /\
               V q ex = IZR n.
Proof.
  intros Hn. destruct (of_int_value n Hn) as (q & ex & E & Hd & Hex & Hv).
  exists q, ex. split; [exact E|]. split; [exact Hd|]. split; [exact Hex|].
  rewrite Hv, mult_IZR, IZR_pow2 by lia.
  rewrite Rmult_assoc, <- powerRZ_2_add.
  replace (- ex + ex) with 0 by lia. cbn. ring.
Qed.

(** The integer part of a normal double that lies between two integers. *)
Lemma to_int_between r e (a b : Z) :
  Z.pos (digits2_pos r) = 53 -> b <= 2 ^ 52 ->
  (IZR a <= V r e)%R -> (V r e < IZR b)%R ->
  a <= Dbl.to_int (S754_finite false r e) < b.
Proof.
  intros Hd Hb Hlo Hhi.
  pose proof (normal_range r Hd) as [Rlo Rhi].
  pose proof (powerRZ_2_pos e) as Hw.
  assert (He : e < 0).
  { destruct (Z.lt_ge_cases e 0) as [L|G]; [exact L|exfalso].
    assert (1 <= powerRZ 2 e)%R.
    { rewrite <- IZR_pow2 by lia. apply IZR_le.
      pose proof (Z.pow_pos_nonneg 2 e ltac:(lia) G). lia. }
    assert (IZR (2 ^ 52) <= IZR (Z.pos r))%R by (apply IZR_le; exact Rlo).
    assert (IZR b <= IZR (2 ^ 52))%R by (apply IZR_le; exact Hb).
    assert (IZR (Z.pos r) * 1 <= V r e)%R
      by (apply Rmult_le_compat_l; [apply IZR_le; lia|assumption]).
    lra. }
  destruct e as [|p|p]; try lia.
  unfold Dbl.to_int, Dbl.trunc. cbn [default from_option id].
  rewrite Z.shiftr_div_pow2 by lia.
  assert (Hpk : 0 < 2 ^ Z.pos p) by (apply Z.pow_pos_nonneg; lia).
  assert (Hinv : powerRZ 2 (Z.neg p) = (/ IZR (2 ^ Z.pos p))%R).
  { rewrite IZR_pow2 by lia. change (Z.neg p) with (- Z.pos p).
    apply powerRZ_neg'. }
  rewrite Hinv in Hlo, Hhi.
  assert (HP : (0 < IZR (2 ^ Z.pos p))%R) by (apply IZR_lt; exact Hpk).
  split.
  - apply Z.div_le_lower_bound; [exact Hpk|].
    apply le_IZR. rewrite mult_IZR.
    apply Rmult_le_compat_r with (r := IZR (2 ^ Z.pos p)) in Hlo; [|lra].
    rewrite Rmult_assoc, Rinv_l in Hlo by lra. lra.
  - apply Z.div_lt_upper_bound; [exact Hpk|].
    apply lt_IZR. rewrite mult_IZR.
    apply Rmult_lt_compat_r with (r := IZR (2 ^ Z.pos p)) in Hhi; [|lra].
    rewrite Rmult_assoc, Rinv_l in Hhi by lra. lra.
Qed.

(** The order of two positive normal doubles is the order of the numbers
    they stand for. *)
Lemma lt_normal ma ea mb eb :
  Z.pos (digits2_pos ma) = 53 -> Z.pos (digits2_pos mb) = 53 ->
  if Dbl.lt (S754_finite false ma ea) (S754_finite false mb eb)
  then (V ma ea < V mb eb)%R else (V mb eb <= V ma ea)%R.
Proof.
  intros Ha Hb.
  pose proof (V_bounds ma ea Ha) as [Alo Ahi].
  pose proof (V_bounds mb eb Hb) as [Blo Bhi].
  change (IZR (2 ^ 52)) with 4503599627370496%R in *.
  change (IZR (2 ^ 53)) with 9007199254740992%R in *.
  assert (Hstep : forall x y, x < y -> (2 * powerRZ 2 x <= powerRZ 2 y)%R).
  { intros x y Hxy. replace y with ((y - x - 1) + (1 + x)) by lia.
    rewrite !powerRZ_2_add. change (powerRZ 2 1) with (2 * 1)%R.
    pose proof (powerRZ_2_pos x). 
    assert (1 <= powerRZ 2 (y - x - 1))%R.
    { rewrite <- IZR_pow2 by lia. apply IZR_le.
      pose proof (Z.pow_pos_nonneg 2 (y - x - 1) ltac:(lia) ltac:(lia)). lia. }
    nra. }
  unfold Dbl.lt, SFltb, SFcompare.
  destruct (Z.compare_spec ea eb) as [E|L|G].
  - subst eb. rewrite Pos.compare_cont_spec. cbn [Pos.switch_Eq].
    pose proof (powerRZ_2_pos ea).
    destruct (Pos.compare_spec ma mb) as [E|L|G]; cbn.
    + subst. lra.
    + apply Rmult_lt_compat_r; [lra|]. apply IZR_lt. lia.
    + apply Rmult_le_compat_r; [lra|]. apply IZR_le. lia.
  - specialize (Hstep _ _ L). lra.
  - specialize (Hstep _ _ G). lra.
Qed.

(** ** The display size *)

(** The exponent of a normal double that lies between two powers of 2. *)
Lemma exponent_range r e lo hi :
  Z.pos (digits2_pos r) = 53 ->
  (powerRZ 2 lo <= V r e)%R -> (V r e < powerRZ 2 hi)%R ->
  lo - 53 < e < hi - 52.
Proof.
  intros Hd Hlo Hhi. pose proof (V_bounds r e Hd) as [Blo Bhi].
  rewrite !IZR_pow2, <- !powerRZ_2_add in Blo, Bhi by lia.
  split.
  - assert (lo < 53 + e); [|lia]. apply powerRZ_2_lt_inv. lra.
  - assert (52 + e < hi); [|lia]. apply powerRZ_2_lt_inv. lra.
Qed.

Lemma error_bounds (x c a : R) :
  (0 < a)%R -> (Rabs (x - c / a) <= x / 9007199254740992)%R ->
  (x * a * (1 - u) <= c <= x * a * (1 + u))%R.
Proof.
  intros Ha H. apply Rabs_le_between in H. destruct H as [H1 H2].
  apply Rmult_le_compat_r with (r := a) in H1; [|lra].
  apply Rmult_le_compat_r with (r := a) in H2; [|lra].
  replace ((x - c / a) * a)%R with (x * a - c)%R in H1, H2 by (field; lra).
  unfold Rdiv in *. lra.
Qed.

(** [800.0 / n] for a positive [int] n. *)
Lemma scale_factor n :
  1 <= n < 2 ^ 31 ->
  exists r e,
    Dbl.div (Dbl.of_int 800) (Dbl.of_int n) = S754_finite false r e /\
    Z.pos (digits2_pos r) = 53 /\
    (V r e * IZR n * (1 - u) <= 800 <= V r e * IZR n * (1 + u))%R.
Proof.
  intros Hn.
  destruct (of_int_real 800 ltac:(lia)) as (q8 & e8 & E8 & D8 & X8 & V8).
  destruct (of_int_real n ltac:(lia)) as (qn & en & En & Dn & Xn & Vn).
  rewrite E8, En.
  destruct (div_normal_error q8 e8 qn en D8 Dn ltac:(lia))
    as (r & e & Hres & Hdr & Herr).
  exists r, e. split; [exact Hres|]. split; [exact Hdr|].
  rewrite V8, Vn in Herr. change (IZR (2 ^ 53)) with 9007199254740992%R in Herr.
  apply error_bounds; [apply IZR_lt; lia|exact Herr].
Qed.

(** One side of the image after it is multiplied by the scale factor
    and converted to [int]. *)
Lemma scaled_side n r e :
  1 <= n < 2 ^ 31 -> Z.pos (digits2_pos r) = 53 ->
  (powerRZ 2 (-40) <= V r e)%R ->
  (V r e * IZR n * (1 - u) <= 800)%R ->
  0 <= Dbl.to_int (Dbl.mul (Dbl.of_int n) (S754_finite false r e)) <= 800 /\
  ((800 <= V r e * IZR n * (1 + u))%R ->
   799 <= Dbl.to_int (Dbl.mul (Dbl.of_int n) (S754_finite false r e))).
Proof.
  intros Hn Hd Hlo Hup.
  destruct (of_int_real n ltac:(lia)) as (qn & en & En & Dn & Xn & Vn).
  rewrite En.
  assert (Hn1 : (1 <= IZR n)%R) by (apply IZR_le; lia).
  pose proof (powerRZ_2_pos (-40)) as H40.
  assert (Hs : (V r e < powerRZ 2 10)%R).
  { change (powerRZ 2 10) with (2 * (2 * (2 * (2 * (2 * (2 * (2 * (2 * (2 * (2 * 1))))))))))%R.
    assert (V r e * 1 <= V r e * IZR n)%R
      by (apply Rmult_le_compat_l; lra).
    nra. }
  pose proof (exponent_range r e (-40) 10 Hd Hlo Hs) as He.
  destruct (mul_normal_error qn en r e Dn Hd ltac:(lia))
    as (p & ep & Hres & Hdp & Herr).
  rewrite Hres. rewrite Vn in Herr.
  change (IZR (2 ^ 53)) with 9007199254740992%R in Herr.
  apply Rabs_le_between in Herr. destruct Herr as [E1 E2].
  set (P := V p ep) in *. set (S := V r e) in *.
  assert (HPpos : (0 < P)%R).
  { subst P. apply Rmult_lt_0_compat; [apply IZR_lt; lia|apply powerRZ_2_pos]. }
  unfold Rdiv in *.
  split.
  - enough (0 <= Dbl.to_int (S754_finite false p ep) < 801) by lia.
    apply to_int_between; [exact Hdp|lia| |].
    + fold P. cbn. lra.
    + fold P. lra.
  - intros Hlow. apply to_int_between with (b := 2 ^ 52); [exact Hdp|lia| |].
    + fold P. lra.
    + fold P. change (IZR (2 ^ 52)) with 4503599627370496%R. lra.
Qed.

Lemma powerRZ_2_m40 : powerRZ 2 (-40) = (/ 1099511627776)%R.
Proof.
  change (-40) with (- (40)). rewrite powerRZ_neg', <- IZR_pow2 by lia.
  reflexivity.
Qed.

Lemma scale_lower n r e :
  1 <= n < 2 ^ 31 ->
  (800 <= V r e * IZR n * (1 + u))%R -> (powerRZ 2 (-40) <= V r e)%R.
Proof.
  intros Hn H. rewrite powerRZ_2_m40.
  assert (Hv : (0 < V r e)%R).
  { apply Rmult_lt_0_compat; [apply IZR_lt; lia|apply powerRZ_2_pos]. }
  assert (Hn' : (IZR n <= 2147483648)%R) by (apply IZR_le; lia).
  assert (V r e * IZR n <= V r e * 2147483648)%R
    by (apply Rmult_le_compat_l; lra).
  lra.
Qed.

(** The two sides after scaling by the smaller of the two factors. *)
Lemma scaled_sides a b ra ea rb eb :
  1 <= a < 2 ^ 31 -> 1 <= b < 2 ^ 31 ->
  Z.pos (digits2_pos ra) = 53 -> Z.pos (digits2_pos rb) = 53 ->
  (V ra ea * IZR a * (1 - u) <= 800 <= V ra ea * IZR a * (1 + u))%R ->
  (V rb eb * IZR b * (1 - u) <= 800)%R ->
  (V ra ea <= V rb eb)%R ->
  799 <= Dbl.to_int (Dbl.mul (Dbl.of_int a) (S754_finite false ra ea)) <= 800 /\
  0 <= Dbl.to_int (Dbl.mul (Dbl.of_int b) (S754_finite false ra ea)) <= 800.
Proof.
  intros Ha Hb Da Db [Ba1 Ba2] Bb Hle.
  pose proof (scale_lower a ra ea Ha Ba2) as Hlo.
  destruct (scaled_side a ra ea Ha Da Hlo Ba1) as [[_ A2] A3].
  split; [split; [exact (A3 Ba2)|exact A2]|].
  apply (scaled_side b ra ea Hb Da Hlo).
  assert (Hb' : (0 <= IZR b)%R) by (apply IZR_le; lia).
  assert (V ra ea * IZR b <= V rb eb * IZR b)%R
    by (apply Rmult_le_compat_r; assumption).
  lra.
Qed.

(** Both sides after the scaling of lines 562 and 563. *)
Lemma fit_scaled w k :
  1 <= w < 2 ^ 31 -> 1 <= k < 2 ^ 31 ->
  let s := Dbl.min (Dbl.div (Dbl.of_int 800) (Dbl.of_int w))
                   (Dbl.div (Dbl.of_int 800) (Dbl.of_int k)) in
  0 <= Dbl.to_int (Dbl.mul (Dbl.of_int w) s) <= 800 /\
  0 <= Dbl.to_int (Dbl.mul (Dbl.of_int k) s) <= 800 /\
  (799 <= Dbl.to_int (Dbl.mul (Dbl.of_int w) s) \/
   799 <= Dbl.to_int (Dbl.mul (Dbl.of_int k) s)).
Proof.
  intros Hw Hs. cbv zeta.
  destruct (scale_factor w Hw) as (rw & ew & Ew & Dw & Bw).
  destruct (scale_factor k Hs) as (rk & ek & Ek & Dk & Bk).
  rewrite Ew, Ek. unfold Dbl.min.
  pose proof (lt_normal rk ek rw ew Dk Dw) as Hlt.
  destruct (Dbl.lt (S754_finite false rk ek) (S754_finite false rw ew)).
  - destruct (scaled_sides k w rk ek rw ew Hs Hw Dk Dw Bk (proj1 Bw)
                ltac:(apply Rlt_le; exact Hlt)) as [Hk' Hw'].
    split; [exact Hw'|]. split; [lia|]. right; lia.
  - destruct (scaled_sides w k rw ew rk ek Hw Hs Dw Dk Bw (proj1 Bk) Hlt)
      as [Hw' Hk'].
    split; [lia|]. split; [exact Hk'|]. left; lia.
Qed.

(** ** The lines of the cross-hair *)

(** The integer part of a normal double below 2^52 is the floor of the
    number it stands for. *)
Lemma to_int_floor r e (b : Z) :
  Z.pos (digits2_pos r) = 53 -> b <= 2 ^ 52 -> (V r e < IZR b)%R ->
  (IZR (Dbl.to_int (S754_finite false r e)) <= V r e
   < IZR (Dbl.to_int (S754_finite false r e)) + 1)%R.
Proof.
  intros Hd Hb Hhi.
  pose proof (normal_range r Hd) as [Rlo Rhi].
  pose proof (powerRZ_2_pos e) as Hw.
  assert (He : e < 0).
  { destruct (Z.lt_ge_cases e 0) as [L|G]; [exact L|exfalso].
    assert (1 <= powerRZ 2 e)%R.
    { rewrite <- IZR_pow2 by lia. apply IZR_le.
      pose proof (Z.pow_pos_nonneg 2 e ltac:(lia) G). lia. }
    assert (IZR (2 ^ 52) <= IZR (Z.pos r))%R by (apply IZR_le; exact Rlo).
    assert (IZR b <= IZR (2 ^ 52))%R by (apply IZR_le; exact Hb).
    assert (IZR (Z.pos r) * 1 <= V r e)%R
      by (apply Rmult_le_compat_l; [apply IZR_le; lia|assumption]).
    lra. }
  destruct e as [|p|p]; try lia.
  unfold Dbl.to_int, Dbl.trunc. cbn [default from_option id].
  rewrite Z.shiftr_div_pow2 by lia.
  assert (Hpk : 0 < 2 ^ Z.pos p) by (apply Z.pow_pos_nonneg; lia).
  assert (Hinv : powerRZ 2 (Z.neg p) = (/ IZR (2 ^ Z.pos p))%R).
  { rewrite IZR_pow2 by lia. change (Z.neg p) with (- Z.pos p).
    apply powerRZ_neg'. }
  rewrite Hinv.
  assert (HP : (0 < IZR (2 ^ Z.pos p))%R) by (apply IZR_lt; exact Hpk).
  pose proof (Z.div_mod (Z.pos r) (2 ^ Z.pos p) ltac:(lia)) as Hdm.
  pose proof (Z.mod_pos_bound (Z.pos r) (2 ^ Z.pos p) Hpk) as [M0 M1].
  set (q := Z.pos r / 2 ^ Z.pos p) in *.
  set (m := Z.pos r mod 2 ^ Z.pos p) in *.
  rewrite Hdm. rewrite plus_IZR, mult_IZR.
  apply IZR_le in M0. apply IZR_lt in M1.
  set (t := IZR (2 ^ Z.pos p)) in *.
  replace ((t * IZR q + IZR m) * / t)%R with (IZR q + IZR m * / t)%R
    by (field; lra).
  assert (0 <= IZR m * / t)%R.
  { apply Rmult_le_pos; [exact M0|]. apply Rlt_le, Rinv_0_lt_compat, HP. }
  assert (IZR m * / t < 1)%R.
  { apply Rmult_lt_reg_r with t; [exact HP|].
    rewrite Rmult_assoc, Rinv_l by lra. lra. }
  unfold Datatypes.id. lra.
Qed.

(** A proper fraction of denominator at most [B] keeps a distance of
    [1 / B] from 0 and from 1. *)
Lemma fraction_gap c n B :
  0 < c < n -> n <= B ->
  (/ IZR B <= IZR c / IZR n <= 1 - / IZR B)%R.
Proof.
  intros Hc Hn.
  assert (Hn0 : (0 < IZR n)%R) by (apply IZR_lt; lia).
  assert (HB0 : (0 < IZR B)%R) by (apply IZR_lt; lia).
  assert (H1 : (1 <= IZR c)%R) by (apply IZR_le; lia).
  assert (H2 : (IZR c + 1 <= IZR n)%R)
    by (rewrite <- plus_IZR; apply IZR_le; lia).
  assert (H3 : (IZR n <= IZR B)%R) by (apply IZR_le; lia).
  assert (E : (IZR c / IZR n * IZR n = IZR c)%R) by (field; lra).
  assert (EB : (/ IZR B * IZR B = 1)%R) by (field; lra).
  set (q := (IZR c / IZR n)%R) in *. set (b := (/ IZR B)%R) in *.
  assert (Hb : (0 < b)%R) by (apply Rinv_0_lt_compat; exact HB0).
  assert (Hq : (0 < q)%R) by (apply Rdiv_lt_0_compat; lra).
  assert (Hbn : (b * IZR n <= 1)%R).
  { rewrite <- EB. apply Rmult_le_compat_l; lra. }
  split.
  - apply Rmult_le_reg_r with (IZR n); [exact Hn0|]. rewrite E. lra.
  - apply Rmult_le_reg_r with (IZR n); [exact Hn0|].
    rewrite Rmult_minus_distr_r, E. lra.
Qed.

(** The offset of a line of the cross-hair from the corner of a bitmap of
    side [fw], for the cross index [c] on an axis of extent [d]. *)
Lemma line_offset fw c d :
  1 <= fw <= INT_MAX -> 1 < d <= INT_MAX -> 0 <= c < d - 1 ->
  Dbl.ge (cursor_rel c d) Dbl.zero = true /\
  0 <= Dbl.to_int (Dbl.mul (Dbl.of_int fw) (cursor_rel c d)) < fw /\
  (fw <= 800 ->
   Dbl.to_int (Dbl.mul (Dbl.of_int fw) (cursor_rel c d)) * (d - 1) <= fw * c
   <= (Dbl.to_int (Dbl.mul (Dbl.of_int fw) (cursor_rel c d)) + 1) * (d - 1)).
Proof.
  intros Hfw Hd Hc. unfold INT_MAX in *.
  destruct (Z.eq_dec c 0) as [->|Hc0].
  - rewrite cursor_rel_first, mul_zero_of_int by (unfold INT_MAX; lia).
    change (Dbl.to_int Dbl.zero) with 0. split; [reflexivity|]. split; lia.
  - unfold cursor_rel. rewrite int_of_small by (unfold INT_MAX; lia).
    destruct (of_int_real c) as (qc & ec & Ec & Dc & Xc & Vc); [lia|].
    destruct (of_int_real (d - 1)) as (qd & ed & Ed & Dd & Xd & Vd); [lia|].
    destruct (of_int_real fw) as (qf & ef & Ef & Df & Xf & Vf); [lia|].
    rewrite Ec, Ed, Ef.
    destruct (div_normal_error qc ec qd ed Dc Dd ltac:(lia))
      as (r & e & Hres & Dr & Herr).
    rewrite Hres. rewrite Vc, Vd in Herr.
    pose proof (fraction_gap c (d - 1) 2147483648 ltac:(lia) ltac:(lia)) as [Q1 Q2].
    assert (Hn0 : (2 <= IZR (d - 1))%R) by (apply IZR_le; lia).
    assert (Hn1 : (IZR (d - 1) <= 2147483648)%R) by (apply IZR_le; lia).
    assert (Eq : (IZR c / IZR (d - 1) * IZR (d - 1) = IZR c)%R) by (field; lra).
    apply Rabs_le_between in Herr. destruct Herr as [E1 E2].
    change (IZR (2 ^ 53)) with 9007199254740992%R in *.
    set (q := (IZR c / IZR (d - 1))%R) in *. set (n := IZR (d - 1)) in *.
    set (R := V r e) in *. unfold Rdiv in E1, E2.
    assert (HRlo : (powerRZ 2 (-40) <= R)%R) by (rewrite powerRZ_2_m40; lra).
    assert (HRhi : (R <= 1 - / 4294967296)%R) by lra.
    assert (HR2 : (R < powerRZ 2 1)%R) by (change (powerRZ 2 1) with (2 * 1)%R; lra).
    pose proof (exponent_range r e (-40) 1 Dr HRlo HR2) as He.
    destruct (mul_normal_error qf ef r e Df Dr ltac:(lia))
      as (p & ep & Hmul & Dp & Herr2).
    rewrite Hmul. rewrite Vf in Herr2. fold R in Herr2.
    apply Rabs_le_between in Herr2. destruct Herr2 as [F1 F2].
    change (IZR (2 ^ 53)) with 9007199254740992%R in *.
    unfold Rdiv in F1, F2.
    assert (HF0 : (1 <= IZR fw)%R) by (apply IZR_le; lia).
    set (F := IZR fw) in *. set (P := V p ep) in *.
    assert (HP0 : (0 < P)%R).
    { subst P. apply Rmult_lt_0_compat; [apply IZR_lt; lia|apply powerRZ_2_pos]. }
    assert (HM : (F * R <= F * (1 - / 4294967296))%R)
      by (apply Rmult_le_compat_l; lra).
    assert (HPF : (P < F)%R) by lra.
    split; [reflexivity|].
    split; [apply to_int_between; [exact Dp|lia|exact (Rlt_le _ _ HP0)|exact HPF]|].
    intros H800.
    pose proof (to_int_between p ep 0 fw Dp ltac:(lia) (Rlt_le _ _ HP0) HPF) as [L3 L4].
    set (L := Dbl.to_int (S754_finite false p ep)) in *.
    assert (HL : (IZR L <= P < IZR L + 1)%R)
      by exact (to_int_floor p ep fw Dp ltac:(lia) HPF).
    destruct HL as [L1 L2].
    assert (HF8 : (F <= 800)%R) by (apply IZR_le; exact H800).
    assert (HL0 : (0 <= IZR L)%R) by (apply IZR_le; exact L3).
    assert (HLF : (IZR L + 1 <= F)%R)
      by (rewrite <- plus_IZR; apply IZR_le; lia).
    assert (G1 : (F * (R * (1 - u)) <= F * q)%R)
      by (apply Rmult_le_compat_l; lra).
    assert (G2 : (F * q <= F * (R * (1 + u)))%R)
      by (apply Rmult_le_compat_l; lra).
    assert (Efq : (F * q * n = F * IZR c)%R) by (rewrite <- Eq; ring).
    split.
    + apply Z.le_ngt. intros Hcon.
      assert (Hcon' : (F * IZR c + 1 <= IZR L * n)%R).
      { subst F n. rewrite <- !mult_IZR, <- plus_IZR. apply IZR_le. lia. }
      assert (B1 : (IZR L * (1 - u) * (1 - u) <= F * q)%R) by lra.
      assert (B2 : (IZR L * (1 - u) * (1 - u) * n <= F * q * n)%R)
        by (apply Rmult_le_compat_r; lra).
      assert (B3 : (IZR L * n <= 800 * 2147483648)%R)
        by (apply Rmult_le_compat; lra).
      rewrite Efq in B2.
      replace (IZR L * (1 - u) * (1 - u) * n)%R
        with (IZR L * n * ((1 - u) * (1 - u)))%R in B2 by ring.
      set (X := (IZR L * n)%R) in *. lra.
    + apply Z.le_ngt. intros Hcon.
      assert (Hcon' : ((IZR L + 1) * n + 1 <= F * IZR c)%R).
      { subst F n. change 1%R with (IZR 1).
        rewrite <- !mult_IZR, <- !plus_IZR, <- mult_IZR, <- plus_IZR.
        apply IZR_le. lia. }
      assert (B1 : (F * q <= (IZR L + 1) * ((1 + u) * (1 + u)))%R) by lra.
      assert (B2 : (F * q * n <= (IZR L + 1) * ((1 + u) * (1 + u)) * n)%R)
        by (apply Rmult_le_compat_r; lra).
      assert (B3 : ((IZR L + 1) * n <= 800 * 2147483648)%R)
        by (apply Rmult_le_compat; lra).
      rewrite Efq in B2.
      replace ((IZR L + 1) * ((1 + u) * (1 + u)) * n)%R
        with ((IZR L + 1) * n * ((1 + u) * (1 + u)))%R in B2 by ring.
      set (X := ((IZR L + 1) * n)%R) in *. lra.
Qed.

(** ** The grey levels *)

(** The double of a positive dyadic number stands for that number. *)
Lemma dyadic_real n e :
  0 < n < 2 ^ 53 -> -1000 <= e <= 900 ->
  exists q ex, dyadic n e = S754_finite false q ex /\
               Z.pos (digits2_pos q) = 53 /\ e - 53 < ex <= e /\
               V q ex = (IZR n * powerRZ 2 e)%R.
Proof.
  intros Hn He.
  destruct (dyadic_nonzero n e ltac:(lia) ltac:(lia) He)
    as (q & ex & E & Hd & Hex & Hv).
  exists q, ex. rewrite E.
  replace (n <? 0) with false in * by (symmetry; apply Z.ltb_ge; lia).
  split; [reflexivity|]. split; [assumption|]. split; [lia|].
  cbn [cond_Zopp] in Hv. rewrite Hv, mult_IZR, IZR_pow2 by lia.
  rewrite Rmult_assoc, <- powerRZ_2_add. do 2 f_equal. lia.
Qed.

(** Dividing one of 1 .. 254 by 255.0 and multiplying by 255.0 gives the
    number back, or a double just above it. *)
Lemma scale_255_table :
  forallb (fun k => Dbl.to_uchar (Dbl.mul (Dbl.div (Dbl.of_int k) (Dbl.of_int 255))
                                          (Dbl.of_int 255)) =? k)
          (map Z.of_nat (seq 1 254)) = true.
Proof. vm_compute. reflexivity. Qed.

Lemma scale_255 k :
  1 <= k <= 254 ->
  Dbl.to_uchar (Dbl.mul (Dbl.div (Dbl.of_int k) (Dbl.of_int 255)) (Dbl.of_int 255))
  = k.
Proof.
  intros Hk. pose proof scale_255_table as Ht. rewrite forallb_forall in Ht.
  apply Z.eqb_eq, Ht. apply in_map_iff. exists (Z.to_nat k).
  split; [lia|]. apply in_seq. lia.
Qed.

(** The grey level of a sample that lies [n] half-units above the lower
    bound of a window of width [w]. *)
Lemma window_interior_exact n w :
  0 < w < 2 ^ 31 -> 0 < n < 2 * w ->
  Dbl.to_uchar (Dbl.mul (Dbl.div (dyadic n (-1)) (Dbl.of_int w)) (Dbl.of_int 255))
  = 255 * n / (2 * w).
Proof.
  intros Hw Hn.
  destruct (dyadic_real n (-1) ltac:(lia) ltac:(lia))
    as (qn & en & En & Dn & Xn & Vn).
  destruct (of_int_real w ltac:(lia)) as (qw & ew & Ew & Dw & Xw & Vw).
  destruct (of_int_real 255 ltac:(lia)) as (q5 & e5 & E5 & D5 & X5 & V5).
  change (powerRZ 2 (-1)) with (/ (2 * 1))%R in Vn.
  pose proof (Z.div_mod (255 * n) (2 * w) ltac:(lia)) as Hdm.
  pose proof (Z.mod_pos_bound (255 * n) (2 * w) ltac:(lia)) as [F0 F1].
  set (k := 255 * n / (2 * w)) in *. set (f := (255 * n) mod (2 * w)) in *.
  assert (Hk0 : 0 <= k) by (apply Z.div_pos; lia).
  assert (Hk1 : k < 255) by (apply Z.div_lt_upper_bound; lia).
  destruct (Z.eq_dec f 0) as [Hf|Hf].
  - (* 255 n / (2 w) is the integer k *)
    assert (Hk : 1 <= k) by nia.
    destruct (of_int_real k ltac:(lia)) as (qk & ek & Ek & Dk & Xk & Vk).
    transitivity (Dbl.to_uchar (Dbl.mul (Dbl.div (Dbl.of_int k) (Dbl.of_int 255))
                                        (Dbl.of_int 255)));
      [|apply scale_255; lia].
    rewrite En, Ew, Ek, E5. f_equal. f_equal.
    apply div_same_ratio; try assumption; try lia.
    rewrite Vn, Vw, Vk, V5.
    assert (E : (IZR 255 * IZR n = IZR 2 * IZR w * IZR k)%R).
    { rewrite <- !mult_IZR. f_equal. lia. }
    lra.
  - (* 255 n / (2 w) lies strictly between k and k + 1 *)
    rewrite En, Ew, E5.
    destruct (div_normal_error qn en qw ew Dn Dw ltac:(lia))
      as (r & e & Hres & Dr & Herr).
    rewrite Hres. rewrite Vn, Vw in Herr.
    assert (Hw0 : (1 <= IZR w)%R) by (apply IZR_le; lia).
    assert (Hn0 : (1 <= IZR n)%R) by (apply IZR_le; lia).
    pose proof (fraction_gap n (2 * w) 4294967296 ltac:(lia) ltac:(lia))
      as [Q1 Q2].
    pose proof (fraction_gap f (2 * w) 4294967296 ltac:(lia) ltac:(lia))
      as [G1 G2].
    rewrite mult_IZR in Q1, Q2, G1, G2.
    assert (Eq : (IZR n * / (2 * 1) / IZR w = IZR n / (2 * IZR w))%R)
      by (field; lra).
    rewrite Eq in Herr.
    assert (Et : (255 * (IZR n / (2 * IZR w)) = IZR k + IZR f / (2 * IZR w))%R).
    { assert (E : (IZR 255 * IZR n = IZR 2 * IZR w * IZR k + IZR f)%R).
      { rewrite <- !mult_IZR, <- plus_IZR. f_equal. lia. }
      field_simplify_eq; lra. }
    apply Rabs_le_between in Herr. destruct Herr as [E1 E2].
    change (IZR (2 ^ 53)) with 9007199254740992%R in *.
    set (q := (IZR n / (2 * IZR w))%R) in *.
    set (g := (IZR f / (2 * IZR w))%R) in *.
    set (R := V r e) in *. unfold Rdiv in E1, E2.
    assert (HRlo : (powerRZ 2 (-40) <= R)%R) by (rewrite powerRZ_2_m40; lra).
    assert (HR2 : (R < powerRZ 2 1)%R) by (change (powerRZ 2 1) with (2 * 1)%R; lra).
    pose proof (exponent_range r e (-40) 1 Dr HRlo HR2) as He.
    destruct (mul_normal_error r e q5 e5 Dr D5 ltac:(lia))
      as (p & ep & Hmul & Dp & Herr2).
    rewrite Hmul. rewrite V5 in Herr2. fold R in Herr2.
    apply Rabs_le_between in Herr2. destruct Herr2 as [M1 M2].
    change (IZR (2 ^ 53)) with 9007199254740992%R in *.
    unfold Rdiv in M1, M2.
    assert (HP0 : (0 < V p ep)%R).
    { apply Rmult_lt_0_compat; [apply IZR_lt; lia|apply powerRZ_2_pos]. }
    assert (Hb : (IZR k <= V p ep < IZR (k + 1))%R).
    { rewrite plus_IZR. set (P := V p ep) in *. lra. }
    destruct Hb as [B1 B2].
    pose proof (to_int_between p ep k (k + 1) Dp ltac:(lia) B1 B2) as HL.
    unfold Dbl.to_uchar. unfold Dbl.to_int in HL.
    replace (default 0 (Dbl.trunc (S754_finite false p ep))) with k by lia.
    apply Z.mod_small. lia.
Qed.

End RealValue.

(* ===================================================================== *)
(** * Display size, cross-hair and grey levels in whole numbers *)
(* ===================================================================== *)

(** X19.  The size an image is rescaled to, when its width and the height
    stretched by the spacing ratio are positive [int] values.  Both sides
    end between 1 and 800.  An image that fits within 800 x 800 keeps its
    size.  A larger image is scaled so that its larger side ends at 799 or
    at 800: the double arithmetic of the scale factor does not always give
    800. *)
Theorem fit_display_cap w h scaleY :
  1 <= w < 2 ^ 31 ->
  1 <= Dbl.to_int (Dbl.mul (Dbl.of_int h) scaleY) < 2 ^ 31 ->
  let stretched := Dbl.to_int (Dbl.mul (Dbl.of_int h) scaleY) in
  let fw := fst (fit_display w h scaleY) in
  let fh := snd (fit_display w h scaleY) in
  1 <= fw <= 800 /\ 1 <= fh <= 800 /\
  (w <= 800 -> stretched <= 800 -> fw = w /\ fh = stretched) /\
  (800 < w \/ 800 < stretched -> 799 <= Z.max fw fh).
Proof.
  intros Hw Hs. cbv zeta. unfold fit_display.
  set (k := Dbl.to_int (Dbl.mul (Dbl.of_int h) scaleY)) in *.
  rewrite !gt_of_int by lia.
  pose proof (fit_scaled w k Hw Hs) as Hfit. cbv zeta in Hfit.
  set (s := Dbl.min (Dbl.div (Dbl.of_int 800) (Dbl.of_int w))
                    (Dbl.div (Dbl.of_int 800) (Dbl.of_int k))) in *.
  set (fw := Dbl.to_int (Dbl.mul (Dbl.of_int w) s)) in *.
  set (fh := Dbl.to_int (Dbl.mul (Dbl.of_int k) s)) in *.
  destruct (Z.ltb_spec 800 w) as [Lw|Lw]; destruct (Z.ltb_spec 800 k) as [Lk|Lk];
    cbn [orb fst snd].
  4: { destruct (Z.ltb_spec w 1); [lia|]. destruct (Z.ltb_spec k 1); [lia|].
       repeat split; lia. }
  all: destruct (Z.ltb_spec fw 1); destruct (Z.ltb_spec fh 1);
    repeat split; lia.
Qed.

Lemma fit_display_cap_witness :
  1 <= 1078 < 2 ^ 31 /\
  1 <= Dbl.to_int (Dbl.mul (Dbl.of_int 1078) Dbl.one) < 2 ^ 31 /\
  let stretched := Dbl.to_int (Dbl.mul (Dbl.of_int 1078) Dbl.one) in
  let fw := fst (fit_display 1078 1078 Dbl.one) in
  let fh := snd (fit_display 1078 1078 Dbl.one) in
  1 <= fw <= 800 /\ 1 <= fh <= 800 /\
  (1078 <= 800 -> stretched <= 800 -> fw = 1078 /\ fh = stretched) /\
  (800 < 1078 \/ 800 < stretched -> 799 <= Z.max fw fh).
Proof.
  assert (H1 : 1 <= 1078 < 2 ^ 31) by lia.
  assert (H2 : 1 <= Dbl.to_int (Dbl.mul (Dbl.of_int 1078) Dbl.one) < 2 ^ 31)
    by (vm_compute; intuition discriminate).
  split; [exact H1|]. split; [exact H2|].
  exact (fit_display_cap 1078 1078 Dbl.one H1 H2).
Defined.

(** Both outcomes occur: a square image of side 1078 ends at 799 x 799,
    an image of 1600 x 1200 at 800 x 600. *)
Lemma fit_display_both_outcomes :
  fit_display 1078 1078 Dbl.one = (799, 799) /\
  fit_display 1600 1200 Dbl.one = (800, 600).
Proof. split; vm_compute; reflexivity. Qed.

(** X20.  The cross-hair of an image that [UpdateOneView] has handed to a
    panel, with both cross indices before the last sample of their axes:
    the two lines are drawn, inside the bitmap.  When the bitmap is at most
    800 wide, the offset dx of the vertical line from its left edge
    satisfies dx <= final_w * c1 / (w - 1) <= dx + 1: the line stands on
    the column of the exact position, or, where that position is a whole
    number, possibly on the column before it; and likewise for the
    horizontal line. *)
Theorem cross_hair_before_last st viewType s c1 c2 wl ww img panelW panelH :
  UpdateOneView st viewType s c1 c2 wl ww = Shown img ->
  1 < img_w img <= INT_MAX -> 1 < img_h img <= INT_MAX ->
  final_w img <= INT_MAX -> final_h img <= INT_MAX ->
  0 <= panelW <= INT_MAX -> 0 <= panelH <= INT_MAX ->
  0 <= c1 < img_w img - 1 -> 0 <= c2 < img_h img - 1 ->
  let painted := OnPaint (SetImage new_panel img) panelW panelH in
  exists dx dy,
    cross_lines painted = Some (bmp_x painted + dx, bmp_y painted + dy) /\
    0 <= dx < final_w img /\ 0 <= dy < final_h img /\
    (final_w img <= 800 ->
     dx * (img_w img - 1) <= final_w img * c1 <= (dx + 1) * (img_w img - 1)) /\
    (final_h img <= 800 ->
     dy * (img_h img - 1) <= final_h img * c2 <= (dy + 1) * (img_h img - 1)).
Proof.
  intros Hshown Hw Hh Hfw Hfh Hpw Hph Hc1 Hc2.
  destruct (UpdateOneView_image _ _ _ _ _ _ _ _ Hshown)
    as (scaleY & buf & _ & Efw & Efh & Erx & Ery).
  pose proof (fit_display_positive (img_w img) (img_h img) scaleY) as [Pw Ph].
  rewrite <- Efw in Pw. rewrite <- Efh in Ph.
  pose proof (bitmap_origin panelW (final_w img) Hpw ltac:(lia)) as Hx.
  pose proof (bitmap_origin panelH (final_h img) Hph ltac:(lia)) as Hy.
  cbv zeta in Hx, Hy |- *.
  unfold OnPaint, SetImage. cbn [displayedBitmap crossX crossY bmp_x bmp_y cross_lines].
  set (x := if Z.quot (int_of (panelW - final_w img)) 2 <? 0 then 0
            else Z.quot (int_of (panelW - final_w img)) 2) in *.
  set (y := if Z.quot (int_of (panelH - final_h img)) 2 <? 0 then 0
            else Z.quot (int_of (panelH - final_h img)) 2) in *.
  destruct Hx as [Hx0 Hx1], Hy as [Hy0 Hy1].
  rewrite Erx, Ery.
  destruct (line_offset (final_w img) c1 (img_w img) ltac:(lia) Hw Hc1)
    as (Gx & Ox & Px).
  destruct (line_offset (final_h img) c2 (img_h img) ltac:(lia) Hh Hc2)
    as (Gy & Oy & Py).
  set (dx := Dbl.to_int (Dbl.mul (Dbl.of_int (final_w img))
                                 (cursor_rel c1 (img_w img)))) in *.
  set (dy := Dbl.to_int (Dbl.mul (Dbl.of_int (final_h img))
                                 (cursor_rel c2 (img_h img)))) in *.
  exists dx, dy. unfold cross_hair_enabled. rewrite Gx, Gy. cbn [andb].
  rewrite !int_of_small by (unfold INT_MAX in *; lia).
  replace (x <=? x + dx) with true by (symmetry; apply Z.leb_le; lia).
  replace (x + dx <? x + final_w img) with true by (symmetry; apply Z.ltb_lt; lia).
  replace (y <=? y + dy) with true by (symmetry; apply Z.leb_le; lia).
  replace (y + dy <? y + final_h img) with true by (symmetry; apply Z.ltb_lt; lia).
  cbn [andb]. split; [reflexivity|]. split; [exact Ox|]. split; [exact Oy|].
  split; assumption.
Qed.

Lemma cross_hair_before_last_witness :
  exists img,
    UpdateOneView strip_frame 0 0 1 1 40 400 = Shown img /\
    1 < img_w img <= INT_MAX /\ 1 < img_h img <= INT_MAX /\
    final_w img <= INT_MAX /\ final_h img <= INT_MAX /\
    0 <= 640 <= INT_MAX /\ 0 <= 480 <= INT_MAX /\
    0 <= 1 < img_w img - 1 /\ 0 <= 1 < img_h img - 1 /\
    let painted := OnPaint (SetImage new_panel img) 640 480 in
    exists dx dy,
      cross_lines painted = Some (bmp_x painted + dx, bmp_y painted + dy) /\
      0 <= dx < final_w img /\ 0 <= dy < final_h img /\
      (final_w img <= 800 ->
       dx * (img_w img - 1) <= final_w img * 1 <= (dx + 1) * (img_w img - 1)) /\
      (final_h img <= 800 ->
       dy * (img_h img - 1) <= final_h img * 1 <= (dy + 1) * (img_h img - 1)).
Proof.
  eexists. split; [reflexivity|].
  split; [vm_compute; intuition discriminate|].
  split; [vm_compute; intuition discriminate|].
  split; [vm_compute; discriminate|]. split; [vm_compute; discriminate|].
  split; [vm_compute; intuition discriminate|].
  split; [vm_compute; intuition discriminate|].
  split; [vm_compute; intuition discriminate|].
  split; [vm_compute; intuition discriminate|].
  refine (cross_hair_before_last strip_frame 0 0 1 1 40 400 _ 640 480
            _ _ _ _ _ _ _ _ _).
  - reflexivity.
  - vm_compute; intuition discriminate.
  - vm_compute; intuition discriminate.
  - vm_compute; discriminate.
  - vm_compute; discriminate.
  - vm_compute; intuition discriminate.
  - vm_compute; intuition discriminate.
  - vm_compute; intuition discriminate.
  - vm_compute; intuition discriminate.
Defined.

(** The row before the exact position occurs.  A plane of 50 rows is shown
    49 rows high; the cross index 1 stands for the row 49 * 1 / 49 = 1, and
    the horizontal line is drawn on the row 0 of the bitmap: 1.0 / 49
    rounds down, and 49 times the quotient stays below 1. *)
Lemma cross_hair_row_before :
  exists img,
    UpdateOneView strip_frame 0 0 1 1 40 400 = Shown img /\
    img_h img = 50 /\ final_h img = 49 /\
    bmp_y (OnPaint (SetImage new_panel img) 640 480) = 215 /\
    cross_lines (OnPaint (SetImage new_panel img) 640 480) = Some (319, 215).
Proof.
  eexists. split; [reflexivity|]. vm_compute. repeat split; reflexivity.
Qed.

(** The grey level as an integer formula. *)
Lemma window_pixel_formula wl ww v :
  - 2 ^ 31 <= wl < 2 ^ 31 -> - 2 ^ 31 <= ww < 2 ^ 31 -> - 2 ^ 15 <= v < 2 ^ 15 ->
  window_pixel wl ww v
  = if 2 * v <=? 2 * wl - Z.max ww 1 then 0
    else if 2 * wl + Z.max ww 1 <=? 2 * v then 255
    else 255 * (2 * v - (2 * wl - Z.max ww 1)) / (2 * Z.max ww 1).
Proof.
  intros Hwl Hww Hv. rewrite (window_pixel_unfold wl ww v Hwl Hww Hv).
  destruct (Z.leb_spec (2 * v) (2 * wl - Z.max ww 1)); [reflexivity|].
  destruct (Z.leb_spec (2 * wl + Z.max ww 1) (2 * v)); [reflexivity|].
  apply window_interior_exact; lia.
Qed.

(** X21.  The grey level of a 16-bit sample, for every window of [int]
    level and width, the width raised to 1 if it is smaller: 0 up to the
    lower bound level - width/2, 255 from the upper bound level + width/2
    on, and in between the integer part of 255 * (v - lower) / width,
    exactly: the two roundings of the double arithmetic never carry the
    result across an integer. *)
Theorem window_pixel_floor wl ww v :
  - 2 ^ 31 <= wl < 2 ^ 31 -> - 2 ^ 31 <= ww < 2 ^ 31 -> - 2 ^ 15 <= v < 2 ^ 15 ->
  window_pixel wl ww v
  = if 2 * v <=? 2 * wl - Z.max ww 1 then 0
    else if 2 * wl + Z.max ww 1 <=? 2 * v then 255
    else 255 * (2 * v - (2 * wl - Z.max ww 1)) / (2 * Z.max ww 1).
Proof.
  intros Hwl Hww Hv. rewrite (window_pixel_unfold wl ww v Hwl Hww Hv).
  destruct (Z.leb_spec (2 * v) (2 * wl - Z.max ww 1)) as [Hlow|Hlow];
    [reflexivity|].
  destruct (Z.leb_spec (2 * wl + Z.max ww 1) (2 * v)) as [Hhigh|Hhigh];
    [reflexivity|].
  apply window_interior_exact; lia.
Qed.

Lemma window_pixel_floor_witness :
  - 2 ^ 31 <= 300 < 2 ^ 31 /\ - 2 ^ 31 <= 1500 < 2 ^ 31 /\
  - 2 ^ 15 <= 100 < 2 ^ 15 /\
  window_pixel 300 1500 100
  = if 2 * 100 <=? 2 * 300 - Z.max 1500 1 then 0
    else if 2 * 300 + Z.max 1500 1 <=? 2 * 100 then 255
    else 255 * (2 * 100 - (2 * 300 - Z.max 1500 1)) / (2 * Z.max 1500 1).
Proof.
  assert (H1 : - 2 ^ 31 <= 300 < 2 ^ 31) by lia.
  assert (H2 : - 2 ^ 31 <= 1500 < 2 ^ 31) by lia.
  assert (H3 : - 2 ^ 15 <= 100 < 2 ^ 15) by lia.
  split; [exact H1|]. split; [exact H2|]. split; [exact H3|].
  exact (window_pixel_floor 300 1500 100 H1 H2 H3).
Defined.

(** X22.  Windowing keeps the order of the samples: of two 16-bit samples
    the greater one is never shown darker, whatever the window. *)
Theorem window_pixel_monotone wl ww v v' :
  - 2 ^ 31 <= wl < 2 ^ 31 -> - 2 ^ 31 <= ww < 2 ^ 31 ->
  - 2 ^ 15 <= v -> v <= v' -> v' < 2 ^ 15 ->
  0 <= window_pixel wl ww v <= window_pixel wl ww v' /\
  window_pixel wl ww v' <= 255.
Proof.
  intros Hwl Hww Hv Hvv Hv'.
  rewrite (window_pixel_formula wl ww v), (window_pixel_formula wl ww v') by lia.
  set (w := Z.max ww 1). assert (Hw : 0 < w) by (subst w; lia).
  assert (Hfloor : forall x, 2 * wl - w < 2 * x < 2 * wl + w ->
            0 <= 255 * (2 * x - (2 * wl - w)) / (2 * w) <= 254).
  { intros x Hx. split.
    - apply Z.div_pos; lia.
    - apply Z.lt_succ_r. apply Z.div_lt_upper_bound; lia. }
  destruct (Z.leb_spec (2 * v) (2 * wl - w));
    destruct (Z.leb_spec (2 * v') (2 * wl - w)); try lia;
    destruct (Z.leb_spec (2 * wl + w) (2 * v'));
    try destruct (Z.leb_spec (2 * wl + w) (2 * v)); try lia.
  - pose proof (Hfloor v' ltac:(lia)). lia.
  - pose proof (Hfloor v ltac:(lia)). lia.
  - pose proof (Hfloor v ltac:(lia)). pose proof (Hfloor v' ltac:(lia)).
    split; [split; [lia|]|lia].
    apply Z.div_le_mono; lia.
Qed.

Lemma window_pixel_monotone_witness :
  - 2 ^ 31 <= 300 < 2 ^ 31 /\ - 2 ^ 31 <= 1500 < 2 ^ 31 /\
  - 2 ^ 15 <= 100 /\ 100 <= 101 /\ 101 < 2 ^ 15 /\
  0 <= window_pixel 300 1500 100 <= window_pixel 300 1500 101 /\
  window_pixel 300 1500 101 <= 255.
Proof.
  assert (H1 : - 2 ^ 31 <= 300 < 2 ^ 31) by lia.
  assert (H2 : - 2 ^ 31 <= 1500 < 2 ^ 31) by lia.
  assert (H3 : - 2 ^ 15 <= 100) by lia.
  assert (H4 : 100 <= 101) by lia.
  assert (H5 : 101 < 2 ^ 15) by lia.
  split; [exact H1|]. split; [exact H2|]. split; [exact H3|].
  split; [exact H4|]. split; [exact H5|].
  exact (window_pixel_monotone 300 1500 100 101 H1 H2 H3 H4 H5).
Defined.
